(** * Execution plan of redis-graph: construction, rewriting and execution

    A shallow embedding of [src/execution_plan/execution_plan.c].

    The operator DAG of the C code is a set of heap-allocated [OpNode]
    structures that point at each other through their [children] and
    [parents] arrays.  Here the heap is a list of [OpNode] records, an
    [OpNode*] is an index into it, and every C function that mutates
    the DAG takes the heap and returns the new one.  Recursion over the
    DAG and [while] loops whose termination depends on the shape of the
    plan carry a fuel argument and return [None] when it runs out. *)

From stdpp Require Import base option list strings.

Set Default Proof Using "Type".

(** ** Pattern graph

    [graph/graph.h], [graph/node.h] and [graph/edge.h] are not part of
    the sources at hand; the planner reads the fields below. *)

(** A [Node**] / [Edge**] handed out by [Graph_GetNodeRef] /
    [Graph_GetEdgeRef]: the index of the entity in the graph. *)
Abbreviation NodeRef := nat (only parsing).
Abbreviation EdgeRef := nat (only parsing).

Record Node := mkNode {
  alias : string;
  label : option string;
  outgoingEdges : list EdgeRef;
  incomingEdges : list EdgeRef
}.

Record Edge := mkEdge {
  relationship : option string;
  src : NodeRef;
  dest : NodeRef
}.

Record Graph := mkGraph {
  graph_nodes : list Node;
  graph_edges : list Edge
}.

(** Modelled from the spec: [Node_IncomeDegree] (graph/node.c is
    missing) is the count of incoming edges of a pattern node (§3,
    §4.1); a handle outside the graph has none. *)
Definition Node_IncomeDegree (g : Graph) (n : NodeRef) : nat :=
  match graph_nodes g !! n with
  | Some nd => length (incomingEdges nd)
  | None => 0
  end.

(** Modelled from the spec: [Graph_GetNDegreeNodes] (graph/graph.c is
    missing) is [entities_by_in_degree(k)] of §4.1, the pattern nodes
    whose count of incoming edges equals exactly [k]; they are listed
    in the order of the node table. *)
Definition Graph_GetNDegreeNodes (g : Graph) (k : nat) : list NodeRef :=
  filter (λ n, Node_IncomeDegree g n = k) (seq 0 (length (graph_nodes g))).

(** Builds a pattern graph from its nodes and its directed edges, each
    edge being entered in the edge lists of both of its endpoints in
    the order given. *)
Definition edges_where (f : Edge → NodeRef) (n : NodeRef) (es : list Edge)
  : list EdgeRef :=
  (filter (λ ie, f ie.2 = n) (imap (λ i e, (i, e)) es)).*1.

Definition connect (ns : list (string * option string)) (es : list Edge) : Graph :=
  mkGraph
    (imap (λ i n, mkNode n.1 n.2 (edges_where src i es) (edges_where dest i es)) ns)
    es.

(** ** Filter tree

    [filter_tree/filter_tree.h] is not part of the sources; the tree
    has the shape of [AST_FilterNode] in [parser/ast.h]: a predicate
    comparing a property of an alias with a constant or with a property
    of another alias, or a condition joining two subtrees. *)

Inductive CompareValue :=
  | ConstVal (v : string)
  | NodeVal (valias vproperty : string).

Inductive FT_FilterNode :=
  | FT_Pred (palias pproperty : string) (op : nat) (rhs : CompareValue)
  | FT_Cond (left : FT_FilterNode) (op : nat) (right : FT_FilterNode).

(** The three operations the planner calls on the filter tree (§3,
    "Filter tree (external)").  A [NULL] tree is [None]. *)
Class FilterModule := {
  FilterTree_ContainsNode : option FT_FilterNode → list string → bool;
  FilterTree_MinFilterTree : option FT_FilterNode → list string → option FT_FilterNode;
  FilterTree_RemovePredNodes : option FT_FilterNode → list string → option FT_FilterNode
}.

(** ** Operators *)

Inductive OPType :=
  | OPType_AGGREGATE
  | OPType_ALL_NODE_SCAN
  | OPType_EXPAND_ALL
  | OPType_EXPAND_INTO
  | OPType_FILTER
  | OPType_NODE_BY_LABEL_SCAN
  | OPType_PRODUCE_RESULTS.

Inductive OpResult := OP_DEPLETED | OP_REFRESH | OP_OK | OP_ERR.

Inductive StreamState := StreamUnInitialized | StreamConsuming | StreamDepleted.

(** The structures that extend [OpBase] (ops/op_*.h are not part of
    the sources): the planner reads [src_node], [relation] and
    [dest_node] of an [ExpandAll]. *)
Inductive Operation :=
  | ProduceResults
  | Aggregate
  | AllNodeScan (node : NodeRef)
  | NodeByLabelScan (node : NodeRef) (lbl : string)
  | ExpandAll (src_node : NodeRef) (relation : EdgeRef) (dest_node : NodeRef)
  | ExpandInto (src_node : NodeRef) (relation : EdgeRef) (dest_node : NodeRef)
  | Filter (filterTree : option FT_FilterNode).

(** [OpBase]: the variant with its fields and the [modifies] vector,
    which may be [NULL]. *)
Record OpBase := mkOp {
  variant : Operation;
  modifies : option (list string)
}.

Definition type (op : OpBase) : OPType :=
  match variant op with
  | ProduceResults => OPType_PRODUCE_RESULTS
  | Aggregate => OPType_AGGREGATE
  | AllNodeScan _ => OPType_ALL_NODE_SCAN
  | NodeByLabelScan _ _ => OPType_NODE_BY_LABEL_SCAN
  | ExpandAll _ _ _ => OPType_EXPAND_ALL
  | ExpandInto _ _ _ => OPType_EXPAND_INTO
  | Filter _ => OPType_FILTER
  end.

Global Instance OPType_eq_dec : EqDecision OPType.
Proof. solve_decision. Defined.
Global Instance OpResult_eq_dec : EqDecision OpResult.
Proof. solve_decision. Defined.
Global Instance StreamState_eq_dec : EqDecision StreamState.
Proof. solve_decision. Defined.

Definition node_alias (g : Graph) (n : NodeRef) : list string :=
  match graph_nodes g !! n with
  | Some nd => [alias nd]
  | None => []
  end.

(** Modelled from the spec: the operator constructors (ops/op_*.c are
    missing).  Each builds its variant from the handles it is given;
    [modifies] holds the aliases the operator newly binds (glossary,
    "Modifies set"): a scan binds its node, an expansion produces its
    destination binding, the other operators bind nothing. *)
Definition NewProduceResultsOp : OpBase := mkOp ProduceResults None.
Definition NewAggregateOp : OpBase := mkOp Aggregate None.
Definition NewAllNodeScanOp (g : Graph) (n : NodeRef) : OpBase :=
  mkOp (AllNodeScan n) (Some (node_alias g n)).
Definition NewNodeByLabelScanOp (g : Graph) (n : NodeRef) (l : string) : OpBase :=
  mkOp (NodeByLabelScan n l) (Some (node_alias g n)).
Definition NewExpandAllOp (g : Graph) (s : NodeRef) (e : EdgeRef) (d : NodeRef) : OpBase :=
  mkOp (ExpandAll s e d) (Some (node_alias g d)).
Definition NewExpandIntoOp (g : Graph) (s : NodeRef) (e : EdgeRef) (d : NodeRef) : OpBase :=
  mkOp (ExpandInto s e d) None.
Definition NewFilterOp (t : option FT_FilterNode) : OpBase := mkOp (Filter t) None.

(** ** Operator nodes and the heap *)

(** An [OpNode*]: the index of the node in the heap. *)
Abbreviation OpRef := nat (only parsing).

Record OpNode := mkOpNode {
  operation : OpBase;
  children : list OpRef;
  parents : list OpRef;
  state : StreamState
}.

Definition childCount (n : OpNode) : nat := length (children n).
Definition parentCount (n : OpNode) : nat := length (parents n).

Abbreviation Heap := (list OpNode) (only parsing).

Global Instance OpNode_inhabited : Inhabited OpNode :=
  populate (mkOpNode NewProduceResultsOp [] [] StreamUnInitialized).

Definition set_operation (op : OpBase) (n : OpNode) : OpNode :=
  mkOpNode op (children n) (parents n) (state n).
Definition set_children (cs : list OpRef) (n : OpNode) : OpNode :=
  mkOpNode (operation n) cs (parents n) (state n).
Definition set_parents (ps : list OpRef) (n : OpNode) : OpNode :=
  mkOpNode (operation n) (children n) ps (state n).
Definition set_state (st : StreamState) (n : OpNode) : OpNode :=
  mkOpNode (operation n) (children n) (parents n) st.

(** [p->field = ...] through a pointer [p] into the heap. *)
Definition update (p : OpRef) (f : OpNode → OpNode) (h : Heap) : Heap :=
  <[p := f (h !!! p)]> h.

Definition NewOpNode (op : OpBase) (h : Heap) : OpRef * Heap :=
  (length h, h ++ [mkOpNode op [] [] StreamUnInitialized]).

Fixpoint contains (x : OpRef) (l : list OpRef) : bool :=
  match l with
  | [] => false
  | y :: l' => if decide (y = x) then true else contains x l'
  end.

Definition _OpNode_ContainsChild (h : Heap) (parent child : OpRef) : bool :=
  contains child (children (h !!! parent)).

(** The entries of the [children] and [parents] arrays as
    [_OpNode_AddChild] leaves them.  The memory behind the arrays,
    which the function grows after it has written the new entry, is
    followed by [Mem._OpNode_AddChild] below. *)
Definition _OpNode_AddChild (parent child : OpRef) (h : Heap) : Heap :=
  let h1 := update parent (λ p, set_children (children p ++ [child]) p) h in
  update child (λ c, set_parents (parents c ++ [parent]) c) h1.

(** The first occurrence of [x] is dropped and the rest shifted left. *)
Fixpoint remove_first (x : OpRef) (l : list OpRef) : list OpRef :=
  match l with
  | [] => []
  | y :: l' => if decide (y = x) then l' else y :: remove_first x l'
  end.

(** The entries of the arrays as [_OpNode_RemoveNode] leaves them; the
    [realloc] of the arrays to their new count is in
    [Mem._OpNode_RemoveNode]. *)
Definition _OpNode_RemoveNode (a b : OpRef) (h : Heap) : Heap :=
  let h1 := update a (λ p, set_children (remove_first b (children p)) p) h in
  update b (λ c, set_parents (remove_first a (parents c)) c) h1.

Definition _OpNode_RemoveChild (parent child : OpRef) (h : Heap) : Heap :=
  _OpNode_RemoveNode parent child h.

Definition _OpNode_RemoveParent (child parent : OpRef) (h : Heap) : Heap :=
  _OpNode_RemoveNode parent child h.

(** [while(parent->childCount != 0)], for a [parent] other than
    [onlyChild]: every turn removes [parent->children[0]], so the loop
    runs [childCount] times; [k] counts the turns left.  (Called with
    [parent] for [onlyChild], the loop of the C code puts back at the
    end of the array what it takes from its front; the planner calls
    it with a new node for [onlyChild].  [Mem.PushInBetween_loop]
    below reads the count on every turn.) *)
Fixpoint PushInBetween_loop (k : nat) (parent onlyChild : OpRef) (h : Heap) : Heap :=
  match k with
  | 0 => h
  | S k' =>
      match children (h !!! parent) with
      | [] => h
      | c :: _ =>
          let h1 := _OpNode_AddChild onlyChild c h in
          let h2 := _OpNode_RemoveChild parent c h1 in
          PushInBetween_loop k' parent onlyChild h2
      end
  end.

Definition _OpNode_PushInBetween (parent onlyChild : OpRef) (h : Heap) : Heap :=
  let h1 := PushInBetween_loop (childCount (h !!! parent)) parent onlyChild h in
  _OpNode_AddChild parent onlyChild h1.

(** ** Vectors

    Modelled from the spec: [rmutil/vector.c] is missing.  A vector is
    the list of its elements in the order they were pushed.
    [Vector_Pop] takes the element pushed last: the plan builder pops
    [reversedExpandOps] to "save expand ops in reverse order", and §4.2
    has the last expansion of a chain end up closest to the root, which
    holds only if the pop is last-in first-out. *)
Definition Vector_Push {A} (v : list A) (x : A) : list A := v ++ [x].

Definition Vector_Pop {A} (v : list A) : option (A * list A) :=
  match reverse v with
  | [] => None
  | x :: r => Some (x, reverse r)
  end.

(** ** Expansion merge *)

(** [current->operation->type == OPType_EXPAND_ALL] and
    [*op->dest_node == n]. *)
Definition expands_to (n : NodeRef) (op : OpBase) : bool :=
  match variant op with
  | ExpandAll _ _ d => bool_decide (d = n)
  | _ => false
  end.

(** The search loop of [_ExecutionPlan_MergeNodes]; [a] is the
    operation found so far.  The result is the pair [(a, b)] the loop
    ends with. *)
Fixpoint MergeNodes_locate (fuel : nat) (h : Heap) (n : NodeRef)
    (a : option OpRef) (nodesToVisit : list OpRef)
  : option (option OpRef * option OpRef) :=
  match fuel with
  | 0 => None
  | S f =>
      match Vector_Pop nodesToVisit with
      | None => Some (a, None)
      | Some (current, rest) =>
          if expands_to n (operation (h !!! current)) then
            match a with
            | None => MergeNodes_locate f h n (Some current) rest
            | Some _ => Some (a, Some current)
            end
          else
            MergeNodes_locate f h n a
              (foldl Vector_Push rest (children (h !!! current)))
      end
  end.

(** "expand into should inherit b's parents": the loop over
    [b->parents], which reads [b->parentCount] and [b->parents[i]]
    anew on every turn. *)
Fixpoint MergeNodes_inherit (fuel : nat) (expandInto b : OpRef) (i : nat)
    (h : Heap) : option Heap :=
  match fuel with
  | 0 => None
  | S f =>
      match parents (h !!! b) !! i with
      | None => Some h
      | Some bParent =>
          if decide (bParent = expandInto) then
            MergeNodes_inherit f expandInto b (S i) h
          else
            let h1 :=
              if _OpNode_ContainsChild h bParent expandInto then h
              else _OpNode_AddChild bParent expandInto h in
            MergeNodes_inherit f expandInto b (S i)
              (_OpNode_RemoveChild bParent b h1)
      end
  end.

Definition _ExecutionPlan_MergeNodes (fuel : nat) (g : Graph) (root : OpRef)
    (n : NodeRef) (h : Heap) : option Heap :=
  if decide (Node_IncomeDegree g n ≠ 2) then Some h
  else
    match MergeNodes_locate fuel h n None (Vector_Push [] root) with
    | None => None
    | Some (Some a, Some b) =>
        (* [a->operation] is cast to an ExpandAll: the search takes nothing else. *)
        match variant (operation (h !!! a)) with
        | ExpandAll s r d =>
            let h1 := update a (set_operation (NewExpandIntoOp g s r d)) h in
            let h2 := _OpNode_AddChild a b h1 in
            MergeNodes_inherit fuel a b 0 h2
        | _ => None
        end
    | Some _ => Some h
    end.

(** ** Scan attachment *)

(** [for(int i = 0; i < node->childCount; i++) rec(node->children[i])],
    the loop of the recursive walks over the plan.  [node->childCount]
    and [node->children[i]] are read from the current heap on every
    turn; [heap_of] gives the heap of the state the walk threads.  [k]
    bounds the number of turns left. *)
Fixpoint for_each_child_from {St : Type} (heap_of : St → list OpNode)
    (rec : OpRef → St → option St) (k : nat) (node : OpRef) (i : nat) (s : St)
  : option St :=
  match k with
  | 0 => None
  | S k' =>
      match children (heap_of s !!! node) !! i with
      | None => Some s
      | Some c =>
          s' ← rec c s;
          for_each_child_from heap_of rec k' node (S i) s'
      end
  end.

(** A walk that comes back from a child has not changed the children
    of the node it is at (it would have had to enter that node again,
    and then again, without end), so the loop takes [childCount] turns
    and one more test of [i < node->childCount]. *)
Definition for_each_child {St : Type} (heap_of : St → list OpNode)
    (rec : OpRef → St → option St) (node : OpRef) (s : St) : option St :=
  for_each_child_from heap_of rec (S (childCount (heap_of s !!! node))) node 0 s.

(** The scan for [entry_point]: by label when the node has one. *)
Definition entry_scan (g : Graph) (entry_point : NodeRef) : OpBase :=
  match graph_nodes g !! entry_point ≫= label with
  | Some l => NewNodeByLabelScanOp g entry_point l
  | None => NewAllNodeScanOp g entry_point
  end.

Fixpoint _ExecutionPlan_OptimizeEntryPoints (fuel : nat) (g : Graph)
    (root : OpRef) (h : Heap) : option Heap :=
  match fuel with
  | 0 => None
  | S f =>
      match children (h !!! root), variant (operation (h !!! root)) with
      | [], ExpandAll src_node _ dest_node =>
          let entry_point := src_node in
          let scan_op := entry_scan g entry_point in
          let '(scan, h1) := NewOpNode scan_op h in
          Some (_OpNode_AddChild root scan h1)
      | _, _ =>
          for_each_child id (_ExecutionPlan_OptimizeEntryPoints f g) root h
      end
  end.

(** ** Filter pushdown *)

Section AddFilters.
Context `{FilterModule}.

(** [for(int i = root->childCount-1; i >= 0; i--)]: the turns for
    the indices below [i], with the aliases collected so far.  The
    result is [None] for the [return NULL] taken when the filter tree
    has become empty. *)
Fixpoint AddFilters_children
    (rec : OpRef → Heap * option FT_FilterNode →
           option (option (list string) * (Heap * option FT_FilterNode)))
    (root : OpRef) (i : nat) (seen : list string)
    (st : Heap * option FT_FilterNode)
  : option (option (list string) * (Heap * option FT_FilterNode)) :=
  match i with
  | 0 => Some (Some seen, st)
  | S i' =>
      c ← children (st.1 !!! root) !! i';
      '(saw, st') ← rec c st;
      match st'.2 with
      | None => Some (None, st')
      | Some _ => AddFilters_children rec root i' (seen ++ default [] saw) st'
      end
  end.

(** The test on the filter tree and the insertion of the filter, at
    the operation [root] with the aliases [seen]. *)
Definition AddFilters_apply (root : OpRef) (seen : list string)
    (st : Heap * option FT_FilterNode) : Heap * option FT_FilterNode :=
  let '(h, filterTree) := st in
  if FilterTree_ContainsNode filterTree seen then
    let minTree := FilterTree_MinFilterTree filterTree seen in
    let filterTree' := FilterTree_RemovePredNodes filterTree seen in
    let '(nodeFilter, h1) := NewOpNode (NewFilterOp minTree) h in
    (_OpNode_PushInBetween root nodeFilter h1, filterTree')
  else (h, filterTree).

Fixpoint _ExecutionPlan_AddFilters (fuel : nat) (root : OpRef)
    (st : Heap * option FT_FilterNode)
  : option (option (list string) * (Heap * option FT_FilterNode)) :=
  match fuel with
  | 0 => None
  | S f =>
      '(r, st1) ← AddFilters_children (_ExecutionPlan_AddFilters f) root
                    (childCount (st.1 !!! root)) [] st;
      match r with
      | None => Some (None, st1)
      | Some seen =>
          let st2 := AddFilters_apply root seen st1 in
          Some (Some (seen ++ default [] (modifies (operation (st2.1 !!! root)))),
                st2)
      end
  end.
End AddFilters.

(** ** Plan construction *)

Record ExecutionPlan := mkPlan {
  root : OpRef;
  graph : Graph;
  filter_tree : option FT_FilterNode;
  heap : list OpNode
}.

(** "Traverse sub-graph expanded from current node": one [ExpandAll]
    per hop along the first outgoing edge, pushed on
    [reversedExpandOps].  A handle that is not in the graph ends the
    run without a result. *)
Fixpoint expand_chain (fuel : nat) (g : Graph) (srcNode : NodeRef)
    (reversedExpandOps : list OpRef) (h : Heap) : option (list OpRef * Heap) :=
  match fuel with
  | 0 => None
  | S f =>
      nd ← graph_nodes g !! srcNode;
      match outgoingEdges nd with
      | [] => Some (reversedExpandOps, h)
      | edge :: _ =>
          e ← graph_edges g !! edge;
          let destNode := dest e in
          let '(opNodeExpandAll, h1) :=
            NewOpNode (NewExpandAllOp g srcNode edge destNode) h in
          expand_chain f g destNode
            (Vector_Push reversedExpandOps opNodeExpandAll) h1
      end
  end.

(** "Save expand ops in reverse order": pops [from] empty onto [to];
    [k] is the size of [from]. *)
Fixpoint save_reversed (k : nat) (from to : list OpRef) : list OpRef :=
  match k with
  | 0 => to
  | S k' =>
      match Vector_Pop from with
      | None => to
      | Some (x, from') => save_reversed k' from' (Vector_Push to x)
      end
  end.

(** "Connect operations in reversed order": the [do ... while] that
    empties [Ops]; [k] is the size of [Ops]. *)
Fixpoint connect_ops (k : nat) (Ops : list OpRef) (prevOp : OpRef) (h : Heap)
  : Heap :=
  match k with
  | 0 => h
  | S k' =>
      match Vector_Pop Ops with
      | None => h
      | Some (currentOp, Ops') =>
          let h1 := _OpNode_AddChild currentOp prevOp h in
          match Ops' with
          | [] => h1
          | _ => connect_ops k' Ops' currentOp h1
          end
      end
  end.

(** One turn of the loop over the entry nodes. *)
Definition plan_entry (fuel : nat) (g : Graph) (opProduceResults : OpRef)
    (node : NodeRef) (st : list OpRef * Heap) : option (list OpRef * Heap) :=
  let '(Ops, h) := st in
  nd ← graph_nodes g !! node;
  '(Ops1, h1) ←
    match outgoingEdges nd with
    | _ :: _ =>
        '(reversedExpandOps, h1) ← expand_chain fuel g node [] h;
        Some (save_reversed (length reversedExpandOps) reversedExpandOps Ops, h1)
    | [] =>
        let '(scan_op, h1) :=
          match label nd with
          | Some l => NewOpNode (NewNodeByLabelScanOp g node l) h
          | None => NewOpNode (NewAllNodeScanOp g node) h
          end in
        Some (Vector_Push Ops scan_op, h1)
    end;
  if decide (1 < length Ops1) then
    match Vector_Pop Ops1 with
    | None => None
    | Some (prevOp, Ops2) =>
        let h2 := connect_ops (length Ops2) Ops2 prevOp h1 in
        Some (Vector_Push [] opProduceResults, h2)
    end
  else Some (Ops1, h1).

Fixpoint plan_entries (fuel : nat) (g : Graph) (opProduceResults : OpRef)
    (entryNodes : list NodeRef) (st : list OpRef * Heap)
  : option (list OpRef * Heap) :=
  match entryNodes with
  | [] => Some st
  | node :: rest =>
      st' ← plan_entry fuel g opProduceResults node st;
      plan_entries fuel g opProduceResults rest st'
  end.

(** The part of [NewExecutionPlan] before "Optimizations and
    modifications".  [graph], [filterTree] and [aggregation] are what
    [BuildGraph(ast->matchNode)], [BuildFiltersTree] on the WHERE
    clause ([None] without one) and [ReturnClause_ContainsAggregation]
    give for the query; the three functions are not part of the
    sources. *)
Definition NewExecutionPlan_chains (fuel : nat) (graph : Graph)
    (filterTree : option FT_FilterNode) (aggregation : bool)
  : option ExecutionPlan :=
  let '(opProduceResults, h0) := NewOpNode NewProduceResultsOp [] in
  let Ops := Vector_Push [] opProduceResults in
  let '(Ops, h1) :=
    if aggregation then
      let '(opAggregate, h1) := NewOpNode NewAggregateOp h0 in
      (Vector_Push Ops opAggregate, h1)
    else (Ops, h0) in
  let entryNodes := Graph_GetNDegreeNodes graph 0 in
  '(_, h2) ← plan_entries fuel graph opProduceResults entryNodes (Ops, h1);
  Some (mkPlan opProduceResults graph filterTree h2).

(** The loop over [nodesToMerge]. *)
Fixpoint merge_nodes (fuel : nat) (g : Graph) (root : OpRef)
    (nodesToMerge : list NodeRef) (h : Heap) : option Heap :=
  match nodesToMerge with
  | [] => Some h
  | nodeToMerge :: rest =>
      h' ← _ExecutionPlan_MergeNodes fuel g root nodeToMerge h;
      merge_nodes fuel g root rest h'
  end.

Section NewExecutionPlan.
Context `{FilterModule}.

Definition NewExecutionPlan (fuel : nat) (graph : Graph)
    (filterTree : option FT_FilterNode) (aggregation : bool)
  : option ExecutionPlan :=
  p ← NewExecutionPlan_chains fuel graph filterTree aggregation;
  h1 ← _ExecutionPlan_OptimizeEntryPoints fuel graph (root p) (heap p);
  h2 ← merge_nodes fuel graph (root p) (Graph_GetNDegreeNodes graph 2) h1;
  match filterTree with
  | Some _ =>
      '(_, (h3, ft)) ← _ExecutionPlan_AddFilters fuel (root p) (h2, filterTree);
      Some (mkPlan (root p) graph ft h3)
  | None => Some (mkPlan (root p) graph None h2)
  end.
End NewExecutionPlan.

(** ** Execution *)

(** The operator implementations ([ops/op_*.c] are not part of the
    sources) behind the [consume] and [reset] function pointers of
    [OpBase].  [World] is everything they read and write: the cursors
    and buffers inside the operators, the bindings in the graph and the
    result set.  They are handed an [OpBase*] and the graph, never the
    [OpNode] that wraps the operation, so they leave the plan, stream
    states included, untouched.  [resultset] reads the [resultset]
    field of a [ProduceResults]. *)
Class Operators := {
  World : Type;
  ResultSet : Type;
  consume : OpRef → OpBase → World → OpResult * World;
  reset : OpRef → OpBase → World → OpResult * World;
  resultset : OpRef → World → ResultSet
}.

Section Executor.
Context `{Operators}.

(** [node->operation->consume(node->operation, graph)] *)
Definition consume_op_of (node : OpRef) (s : list OpNode * World)
  : OpResult * (list OpNode * World) :=
  let '(r, w) := consume node (operation (s.1 !!! node)) s.2 in (r, (s.1, w)).

(** [node->operation->reset(node->operation)] *)
Definition reset_op_of (node : OpRef) (s : list OpNode * World)
  : OpResult * (list OpNode * World) :=
  let '(r, w) := reset node (operation (s.1 !!! node)) s.2 in (r, (s.1, w)).

Fixpoint ResetStream (fuel : nat) (stream : OpRef) (s : list OpNode * World)
  : option (list OpNode * World) :=
  match fuel with
  | 0 => None
  | S f =>
      let s1 := (reset_op_of stream s).2 in
      for_each_child fst (ResetStream f) stream s1
  end.

Section Pull.
(** [_ExecuteOpNode] and [ResetStream] as [PullFromStreams] calls
    them. *)
Variable exec : OpRef → list OpNode * World →
                option (OpResult * (list OpNode * World)).
Variable resetStream : OpRef → list OpNode * World →
                       option (list OpNode * World).

(** "Advance stream(s)": the value of [stream_idx] the loop ends
    with.  In this loop and the next [k] bounds the number of turns
    left. *)
Fixpoint advance_streams (k : nat) (source : OpRef) (stream_idx : nat)
    (s : list OpNode * World) : option (nat * (list OpNode * World)) :=
  match k with
  | 0 => None
  | S k' =>
      match children (s.1 !!! source) !! stream_idx with
      | None => Some (stream_idx, s)
      | Some stream =>
          '(r, s') ← exec stream s;
          if decide (r = OP_OK) then Some (stream_idx, s')
          else advance_streams k' source (S stream_idx) s'
      end
  end.

(** "Pull from all uninitialized streams": [false] stands for the
    [return OP_DEPLETED] inside the loop. *)
Fixpoint pull_uninitialized (k : nat) (source : OpRef) (i : nat)
    (s : list OpNode * World) : option (bool * (list OpNode * World)) :=
  match k with
  | 0 => None
  | S k' =>
      match children (s.1 !!! source) !! i with
      | None => Some (true, s)
      | Some stream =>
          if decide (state (s.1 !!! stream) = StreamUnInitialized) then
            '(r, s') ← exec stream s;
            if decide (r ≠ OP_OK) then Some (false, s')
            else pull_uninitialized k' source (S i) s'
          else pull_uninitialized k' source (S i) s
      end
  end.

(** "Reset and pull from depleted streams": the turns for the
    indices below [stream_idx], highest first; [false] stands for
    the [return OP_ERR] inside the loop. *)
Fixpoint reset_depleted (source : OpRef) (stream_idx : nat)
    (s : list OpNode * World) : option (bool * (list OpNode * World)) :=
  match stream_idx with
  | 0 => Some (true, s)
  | S i =>
      stream ← children (s.1 !!! source) !! i;
      s1 ← resetStream stream s;
      '(r, s2) ← exec stream s1;
      if decide (r ≠ OP_OK) then Some (false, s2)
      else reset_depleted source i s2
  end.

(** The calls in the loops leave [source->childCount] as it is
    (lemma [_ExecuteOpNode_skeleton]), so [childCount] turns and
    one more test end each of the two counting loops. *)
Definition PullFromStreams_body (source : OpRef)
    (s : list OpNode * World) : option (OpResult * (list OpNode * World)) :=
  let k := S (childCount (s.1 !!! source)) in
  '(stream_idx, s1) ← advance_streams k source 0 s;
  if decide (stream_idx = childCount (s1.1 !!! source)) then
    Some (OP_DEPLETED, s1)
  else
    '(ok, s2) ← pull_uninitialized k source (S stream_idx) s1;
    if (ok : bool) then
      '(ok', s3) ← reset_depleted source stream_idx s2;
      Some (if (ok' : bool) then OP_OK else OP_ERR, s3)
    else Some (OP_DEPLETED, s2).
End Pull.

(** [goto consume] is the recursive call on the same node. *)
Fixpoint _ExecuteOpNode (fuel : nat) (node : OpRef) (s : list OpNode * World)
  : option (OpResult * (list OpNode * World)) :=
  match fuel with
  | 0 => None
  | S f =>
      let s0 := (update node (set_state StreamConsuming) s.1, s.2) in
      let '(res, s1) := consume_op_of node s0 in
      if decide (res = OP_REFRESH) then
        let '(rr, s2) := reset_op_of node s1 in
        if decide (rr ≠ OP_OK) then Some (OP_ERR, s2)
        else
          '(res', s3) ← PullFromStreams_body (_ExecuteOpNode f) (ResetStream f)
                          node s2;
          if decide (res' = OP_OK) then _ExecuteOpNode f node s3
          else Some (res', s3)
      else Some (res, s1)
  end.

Definition PullFromStreams (fuel : nat) (source : OpRef)
    (s : list OpNode * World) : option (OpResult * (list OpNode * World)) :=
  PullFromStreams_body (_ExecuteOpNode fuel) (ResetStream fuel) source s.

(** [while(_ExecuteOpNode(plan->root, plan->graph) == OP_OK);]: the
    result and the state of the call that ends the loop. *)
Fixpoint Execute_loop (fuel : nat) (root : OpRef) (s : list OpNode * World)
  : option (OpResult * (list OpNode * World)) :=
  match fuel with
  | 0 => None
  | S f =>
      '(r, s') ← _ExecuteOpNode f root s;
      if decide (r = OP_OK) then Execute_loop f root s' else Some (r, s')
  end.

Definition ExecutionPlan_Execute (fuel : nat) (plan : ExecutionPlan) (w : World)
  : option ResultSet :=
  '(_, s) ← Execute_loop fuel (root plan) (heap plan, w);
  Some (resultset (root plan) s.2).
End Executor.

(** ** The executor as §4.6 describes it

    The definitions of this part follow the words of the
    specification; the theorems compare them with the definitions
    above, which follow the C code. *)

Section ExecutorSpec.
Context `{Operators}.

Section PullSpec.
Variable consume_op : OpRef → list OpNode * World →
                      option (OpResult * (list OpNode * World)).
Variable reset_stream : OpRef → list OpNode * World →
                        option (list OpNode * World).

(** Step 1: "iterate children in order, calling [consume_op(child)];
    stop at the first that returns [Ok]".  The result is the index
    of the child advanced, if any. *)
Fixpoint advance_leftmost (streams : list OpRef) (s : list OpNode * World)
  : option (option nat * (list OpNode * World)) :=
  match streams with
  | [] => Some (None, s)
  | child :: rest =>
      '(r, s1) ← consume_op child s;
      if decide (r = OP_OK) then Some (Some 0, s1)
      else '(idx, s2) ← advance_leftmost rest s1;
           Some (S <$> (idx : option nat), s2)
  end.

(** Step 3: "for every child to the right of the advanced one whose
    state is [Uninitialized], call [consume_op]"; [false] when one
    of the calls fails. *)
Fixpoint pull_right (streams : list OpRef) (s : list OpNode * World)
  : option (bool * (list OpNode * World)) :=
  match streams with
  | [] => Some (true, s)
  | child :: rest =>
      if decide (state (s.1 !!! child) = StreamUnInitialized) then
        '(r, s1) ← consume_op child s;
        if decide (r = OP_OK) then pull_right rest s1 else Some (false, s1)
      else pull_right rest s
  end.

(** Step 4: "[ResetStream(child)] and then [consume_op(child)]" for
    each of [streams]; [false] when one of the calls fails. *)
Fixpoint reset_left (streams : list OpRef) (s : list OpNode * World)
  : option (bool * (list OpNode * World)) :=
  match streams with
  | [] => Some (true, s)
  | child :: rest =>
      s1 ← reset_stream child s;
      '(r, s2) ← consume_op child s1;
      if decide (r = OP_OK) then reset_left rest s2 else Some (false, s2)
  end.

(** [pull_from_children] over the children [streams] of a node.
    The children to the left of the advanced one are taken from the
    nearest to the farthest. *)
Definition pull_from_children (streams : list OpRef) (s : list OpNode * World)
  : option (OpResult * (list OpNode * World)) :=
  '(advanced, s1) ← advance_leftmost streams s;
  match advanced with
  | None => Some (OP_DEPLETED, s1)
  | Some advanced_idx =>
      '(ok, s2) ← pull_right (drop (S advanced_idx) streams) s1;
      if (ok : bool) then
        '(ok', s3) ← reset_left (reverse (take advanced_idx streams)) s2;
        Some (if (ok' : bool) then OP_OK else OP_ERR, s3)
      else Some (OP_DEPLETED, s2)
  end.
End PullSpec.

(** [consume_op(n)], the loop of §4.6, as a relation between the
    state before, the result and the state after; [pull] is
    [pull_from_children].  Every [n.consume()] is preceded by the
    transition of [n] to [Consuming]. *)
Inductive consume_op
    (pull : OpRef → list OpNode * World → OpResult → list OpNode * World → Prop)
    (n : OpRef) : list OpNode * World → OpResult → list OpNode * World → Prop :=
  | consume_done s r s1 :
      consume_op_of n (update n (set_state StreamConsuming) s.1, s.2) = (r, s1) →
      r ≠ OP_REFRESH →
      consume_op pull n s r s1
  | consume_reset_err s s1 rr s2 :
      consume_op_of n (update n (set_state StreamConsuming) s.1, s.2)
        = (OP_REFRESH, s1) →
      reset_op_of n s1 = (rr, s2) →
      rr ≠ OP_OK →
      consume_op pull n s OP_ERR s2
  | consume_pull_stop s s1 s2 r2 s3 :
      consume_op_of n (update n (set_state StreamConsuming) s.1, s.2)
        = (OP_REFRESH, s1) →
      reset_op_of n s1 = (OP_OK, s2) →
      pull n s2 r2 s3 →
      r2 ≠ OP_OK →
      consume_op pull n s r2 s3
  | consume_retry s s1 s2 s3 r s4 :
      consume_op_of n (update n (set_state StreamConsuming) s.1, s.2)
        = (OP_REFRESH, s1) →
      reset_op_of n s1 = (OP_OK, s2) →
      pull n s2 OP_OK s3 →
      consume_op pull n s3 r s4 →
      consume_op pull n s r s4.

(** "Execution proceeds by repeatedly calling [consume] on the root":
    [drive] is the driver on the root; the run ends with the first
    result other than [Ok]. *)
Inductive root_run
    (drive : list OpNode * World → OpResult → list OpNode * World → Prop)
  : list OpNode * World → OpResult → list OpNode * World → Prop :=
  | root_run_stop s r s1 :
      drive s r s1 → r ≠ OP_OK → root_run drive s r s1
  | root_run_more s s1 r s2 :
      drive s OP_OK s1 → root_run drive s1 r s2 → root_run drive s r s2.

(** The operators' [reset]s in the order given. *)
Definition resets (h : list OpNode) (l : list OpRef) (w : World) : World :=
  foldl (λ w n, (reset n (operation (h !!! n)) w).2) w l.
End ExecutorSpec.

(** The nodes of the subtree of [n] in pre-order, a node as often as
    there are paths to it. *)
Fixpoint preorder (fuel : nat) (h : list OpNode) (n : OpRef) : option (list OpRef) :=
  match fuel with
  | 0 => None
  | S f =>
      ls ← mapM (preorder f h) (children (h !!! n));
      Some (n :: concat ls)
  end.

(** What the executor leaves alone: the plan without the stream
    states. *)
Definition skeleton (h : list OpNode) : list (OpBase * list OpRef * list OpRef) :=
  (λ n, (operation n, children n, parents n)) <$> h.

(** ** The planner as the specification describes it *)

(** The operators in the order a breadth-first traversal from the root
    meets them: [queue] holds the operators still to visit, first in
    first out; [siblings] is the order in which the children of an
    operator join the queue. *)
Fixpoint bfs_order (siblings : list OpRef → list OpRef) (fuel : nat)
    (h : list OpNode) (queue : list OpRef) : option (list OpRef) :=
  match fuel with
  | 0 => None
  | S f =>
      match queue with
      | [] => Some []
      | x :: rest =>
          l ← bfs_order siblings f h (rest ++ siblings (children (h !!! x)));
          Some (x :: l)
      end
  end.

(** The operators in the order a depth-first traversal from [x] meets
    them when it takes the children of an operator from the last to the
    first and does not go below an [ExpandAll] into [n]. *)
Fixpoint dfs_order (fuel : nat) (h : list OpNode) (n : NodeRef) (x : OpRef)
  : option (list OpRef) :=
  match fuel with
  | 0 => None
  | S f =>
      if expands_to n (operation (h !!! x)) then Some [x]
      else
        ls ← mapM (dfs_order f h n) (reverse (children (h !!! x)));
        Some (x :: concat ls)
  end.

(** The first and the second [ExpandAll] into [n] among the operators
    [l]. *)
Definition first_two (h : list OpNode) (n : NodeRef) (l : list OpRef)
  : option OpRef * option OpRef :=
  match filter (λ x, expands_to n (operation (h !!! x)) = true) l with
  | [] => (None, None)
  | [a] => (Some a, None)
  | a :: b :: _ => (Some a, Some b)
  end.

(** The pair the search loop ends with when it meets the operators [l]
    in this order, having found [a] before. *)
Fixpoint locate_among (h : list OpNode) (n : NodeRef) (a : option OpRef)
    (l : list OpRef) : option OpRef * option OpRef :=
  match l with
  | [] => (a, None)
  | x :: l' =>
      if expands_to n (operation (h !!! x)) then
        match a with
        | None => locate_among h n (Some x) l'
        | Some _ => (a, Some x)
        end
      else locate_among h n a l'
  end.

(** What the search loop does with the operators [l] that it meets
    while it takes [stack] down to [rest]. *)
Definition locate_simulates (h : list OpNode) (n : NodeRef) (a : option OpRef)
    (l : list OpRef) (stack rest : list OpRef) : Prop :=
  match locate_among h n a l with
  | (a', Some b) =>
      ∃ k, ∀ fuel, k ≤ fuel → MergeNodes_locate fuel h n a stack = Some (a', Some b)
  | (a', None) =>
      ∃ k, ∀ fuel, MergeNodes_locate (k + fuel) h n a stack =
                    MergeNodes_locate fuel h n a' rest
  end.

(** [ExpandInto] into [n]. *)
Definition closes_at (n : NodeRef) (op : OpBase) : bool :=
  match variant op with
  | ExpandInto _ _ d => bool_decide (d = n)
  | _ => false
  end.

(** The number of [ExpandAll], of [ExpandInto] operators of the plan
    whose destination is [n]. *)
Definition count_expand_all (n : NodeRef) (h : list OpNode) : nat :=
  length (filter (λ op, expands_to n op = true) (operation <$> h)).

Definition count_expand_into (n : NodeRef) (h : list OpNode) : nat :=
  length (filter (λ op, closes_at n op = true) (operation <$> h)).

(** The operators of the plan under [root]. *)
Inductive reachable (h : list OpNode) (root : OpRef) : OpRef → Prop :=
  | reachable_root : reachable h root root
  | reachable_child x c :
      reachable h root x → c ∈ children (h !!! x) → reachable h root c.

(** No operator points outside the heap. *)
Definition closed (h : list OpNode) : Prop :=
  ∀ p c, c ∈ children (h !!! p) → c < length h.

(** The aliases bound by the operators of the subtree of [x]: those of
    the subtrees of its children, from the last child to the first,
    then those [x] itself modifies.  [bound_below] leaves the latter
    out. *)
Fixpoint binds (fuel : nat) (h : list OpNode) (x : OpRef) : option (list string) :=
  match fuel with
  | 0 => None
  | S f =>
      ls ← mapM (binds f h) (reverse (children (h !!! x)));
      Some (concat ls ++ default [] (modifies (operation (h !!! x))))
  end.

Definition bound_below (fuel : nat) (h : list OpNode) (x : OpRef)
  : option (list string) :=
  ls ← mapM (binds fuel h) (reverse (children (h !!! x)));
  Some (concat ls).

Section AddFiltersConsults.
Context `{FilterModule}.

(** The tests of [FilterTree_ContainsNode] a walk of
    [_ExecutionPlan_AddFilters] makes, in order, each as the operator
    at which it is made and the [seen] it is made with. *)
Fixpoint consults_children
    (walk : OpRef → list OpNode * option FT_FilterNode →
            option (option (list string) * (list OpNode * option FT_FilterNode)))
    (consults : OpRef → list OpNode * option FT_FilterNode →
                option (list (OpRef * list string)))
    (root : OpRef) (i : nat) (st : list OpNode * option FT_FilterNode)
  : option (list (OpRef * list string)) :=
  match i with
  | 0 => Some []
  | S i' =>
      c ← children (st.1 !!! root) !! i';
      lg ← consults c st;
      '(_, st') ← walk c st;
      match st'.2 with
      | None => Some lg
      | Some _ => lg' ← consults_children walk consults root i' st'; Some (lg ++ lg')
      end
  end.

Fixpoint AddFilters_consults (fuel : nat) (root : OpRef)
    (st : list OpNode * option FT_FilterNode)
  : option (list (OpRef * list string)) :=
  match fuel with
  | 0 => None
  | S f =>
      lg ← consults_children (_ExecutionPlan_AddFilters f) (AddFilters_consults f)
              root (childCount (st.1 !!! root)) st;
      '(r, _) ← AddFilters_children (_ExecutionPlan_AddFilters f) root
                   (childCount (st.1 !!! root)) [] st;
      Some (match r with Some seen => lg ++ [(root, seen)] | None => lg end)
  end.
End AddFiltersConsults.

(** ** Instances for the examples *)

(** Modelled from the spec: the filter module of §3. [ft_aliases] are
    the free variables of a tree; [contains_any] holds when the tree
    refers to one of the aliases; [min_subtree] keeps the predicates
    whose free variables are all among the aliases and
    [remove_predicates] drops exactly those, a condition with a single
    remaining side giving way to that side. *)
Fixpoint ft_aliases (t : FT_FilterNode) : list string :=
  match t with
  | FT_Pred a _ _ rhs =>
      a :: match rhs with NodeVal b _ => [b] | ConstVal _ => [] end
  | FT_Cond l _ r => ft_aliases l ++ ft_aliases r
  end.

Definition bound_by (aliases : list string) (t : FT_FilterNode) : bool :=
  forallb (λ a, bool_decide (a ∈ aliases)) (ft_aliases t).

Definition contains_any (t : FT_FilterNode) (aliases : list string) : bool :=
  existsb (λ a, bool_decide (a ∈ aliases)) (ft_aliases t).

Definition join (op : nat) (l r : option FT_FilterNode) : option FT_FilterNode :=
  match l, r with
  | Some l', Some r' => Some (FT_Cond l' op r')
  | Some l', None => Some l'
  | None, r' => r'
  end.

Fixpoint min_subtree (t : FT_FilterNode) (aliases : list string)
  : option FT_FilterNode :=
  match t with
  | FT_Pred _ _ _ _ => if bound_by aliases t then Some t else None
  | FT_Cond l op r => join op (min_subtree l aliases) (min_subtree r aliases)
  end.

Fixpoint remove_predicates (t : FT_FilterNode) (aliases : list string)
  : option FT_FilterNode :=
  match t with
  | FT_Pred _ _ _ _ => if bound_by aliases t then None else Some t
  | FT_Cond l op r =>
      join op (remove_predicates l aliases) (remove_predicates r aliases)
  end.

Definition spec_filters : FilterModule := {|
  FilterTree_ContainsNode t aliases :=
    match t with Some t => contains_any t aliases | None => false end;
  FilterTree_MinFilterTree t aliases := t ≫= λ t, min_subtree t aliases;
  FilterTree_RemovePredNodes t aliases := t ≫= λ t, remove_predicates t aliases
|}.

(** An instance of [Operators] to run the examples with, over a store
    in which every scan finds two nodes.  A scan yields its two nodes
    and is then depleted; its [reset] rewinds it.  Every other operator
    asks for a refresh, and passes on the tuple it is then given;
    [ProduceResults] adds it to the result set, as the positions of the
    cursors. *)
Record DemoWorld := mkDemo {
  cursors : list nat;
  fresh : list bool;
  rows : list (list nat)
}.

Definition demo_consume (n : OpRef) (op : OpBase) (w : DemoWorld)
  : OpResult * DemoWorld :=
  match type op with
  | OPType_ALL_NODE_SCAN | OPType_NODE_BY_LABEL_SCAN =>
      if decide (cursors w !!! n < 2)
      then (OP_OK, mkDemo (<[n := S (cursors w !!! n)]> (cursors w)) (fresh w) (rows w))
      else (OP_DEPLETED, w)
  | t =>
      if (fresh w !!! n : bool) then
        (OP_OK,
         mkDemo (cursors w) (<[n := false]> (fresh w))
           (if decide (t = OPType_PRODUCE_RESULTS)
            then rows w ++ [cursors w] else rows w))
      else (OP_REFRESH, mkDemo (cursors w) (<[n := true]> (fresh w)) (rows w))
  end.

Definition demo_reset (n : OpRef) (op : OpBase) (w : DemoWorld)
  : OpResult * DemoWorld :=
  match type op with
  | OPType_ALL_NODE_SCAN | OPType_NODE_BY_LABEL_SCAN =>
      (OP_OK, mkDemo (<[n := 0]> (cursors w)) (fresh w) (rows w))
  | _ => (OP_OK, w)
  end.

Definition demo_operators : Operators := {|
  World := DemoWorld;
  ResultSet := list (list nat);
  consume := demo_consume;
  reset := demo_reset;
  resultset _ w := rows w
|}.

(** The store before a run of a plan of [n] operator nodes. *)
Definition demo_world (n : nat) : DemoWorld :=
  mkDemo (replicate n 0) (replicate n false) [].

(** ** Example queries *)

Open Scope string_scope.

(** [MATCH (a)-[:R]->(b)] *)
Definition pattern_a_b : Graph :=
  connect [("a", None); ("b", None)] [mkEdge (Some "R") 0 1].

(** [WHERE a.age > 30] and [WHERE b.age > 30] *)
Definition where_a_age : FT_FilterNode := FT_Pred "a" "age" 0 (ConstVal "30").
Definition where_b_age : FT_FilterNode := FT_Pred "b" "age" 0 (ConstVal "30").

(** [MATCH (a),(b)] *)
Definition pattern_a_and_b : Graph := connect [("a", None); ("b", None)] [].

(** [MATCH (x)-->(n)<--(y:L)] *)
Definition pattern_x_n_y : Graph :=
  connect [("x", None); ("n", None); ("y", Some "L")]
    [mkEdge None 0 1; mkEdge None 2 1].

(** [MATCH (p)<--(x)-->(n)<--(y)] *)
Definition pattern_p_x_n_y : Graph :=
  connect [("p", None); ("x", None); ("n", None); ("y", None)]
    [mkEdge None 1 0; mkEdge None 1 2; mkEdge None 3 2].

(** [MATCH (x)-->(n)-->(m), (y)-->(n), (w)-->(m)], with [m] before [n]
    in the node table. *)
Definition pattern_two_joins : Graph :=
  connect [("x", None); ("y", None); ("w", None); ("m", None); ("n", None)]
    [mkEdge None 0 4; mkEdge None 1 4; mkEdge None 4 3; mkEdge None 2 3].

Close Scope string_scope.

(** The heap of a plan, if there is one. *)
Definition heap_of (p : option ExecutionPlan) : list OpNode :=
  from_option heap [] p.

(** [closed], as a test. *)
Definition closedb (h : list OpNode) : bool :=
  forallb (λ nd, forallb (λ c, bool_decide (c < length h)) (children nd)) h.

(** "Inserted between the operator [x] and its parents": the filter
    [flt] has taken the place of the parents of [x] and has [x] as a
    child. *)
Definition inserted_above (h : list OpNode) (x flt : OpRef) : Prop :=
  parents (h !!! x) = [flt] ∧ x ∈ children (h !!! flt).

(** The test of [_ExecutionPlan_OptimizeEntryPoints]: an [ExpandAll]
    without a child. *)
Definition awaits_scan (nd : OpNode) : Prop :=
  children nd = [] ∧ type (operation nd) = OPType_EXPAND_ALL.

(** From [h] to [h'] the operator [x], an [ExpandAll], has gained one
    child, a new node that scans the source of [x]. *)
Definition scan_attached (g : Graph) (h h' : list OpNode) (x : OpRef) : Prop :=
  ∃ s r d scan,
    variant (operation (h !!! x)) = ExpandAll s r d ∧
    length h ≤ scan < length h' ∧
    h' !!! x = set_children [scan] (h !!! x) ∧
    h' !!! scan = mkOpNode (entry_scan g s) [] [x] StreamUnInitialized.

(** From [h] to [h'] nothing has happened but that scans were attached
    to [ExpandAll]s without a child. *)
Definition scans_added (g : Graph) (h h' : list OpNode) : Prop :=
  length h ≤ length h' ∧
  (∀ y, y < length h →
        h' !!! y = h !!! y ∨ (children (h !!! y) = [] ∧ scan_attached g h h' y)) ∧
  (∀ y, length h ≤ y < length h' →
        children (h' !!! y) = [] ∧ type (operation (h' !!! y)) ≠ OPType_EXPAND_ALL).

(** [rk] decreases from an operator to its children, and the nodes yet
    to be made rank below every [ExpandAll]. *)
Definition ranked (rk : OpRef → nat) (h : list OpNode) : Prop :=
  closed h ∧
  (∀ p c, c ∈ children (h !!! p) → rk c < rk p) ∧
  (∀ x y, type (operation (h !!! x)) = OPType_EXPAND_ALL → length h ≤ y → rk y < rk x).

(** From [h] to [h'] the operations of the plan are as they were, and
    those of the new nodes are no [ExpandInto]. *)
Definition grown (h h' : list OpNode) : Prop :=
  ∃ l, operation <$> h' = (operation <$> h) ++ l ∧
       Forall (λ op, type op ≠ OPType_EXPAND_INTO) l.

(** The heap of the plan for a pattern as it is after scan attachment,
    before the merge rewrite and the filter pushdown; empty if there is
    no such plan. *)
Definition chains_and_scans (fuel : nat) (g : Graph) (aggregation : bool)
  : list OpNode :=
  default []
    (p ← NewExecutionPlan_chains fuel g None aggregation;
     _ExecutionPlan_OptimizeEntryPoints fuel g (root p) (heap p)).

(** [ProduceResults(0) <- ExpandAll a-R->b (1) <- AllNodeScan a (2)] *)
Definition plan_a_b : list OpNode := chains_and_scans 10 pattern_a_b false.

(** [ProduceResults(0) <- { AllNodeScan a (1), AllNodeScan b (2) }] *)
Definition plan_a_and_b : list OpNode := chains_and_scans 10 pattern_a_and_b false.

(** [ProduceResults(0) <- { ExpandAll x->n (1) <- scan (3),
                            ExpandAll y->n (2) <- scan (4) }] *)
Definition plan_x_n_y : list OpNode := chains_and_scans 10 pattern_x_n_y false.

(** The plan for [pattern_two_joins] after the merge rewrite for [m]
    (node 3 of the pattern), the first of the two nodes to merge. *)
Definition plan_two_joins_m_merged : list OpNode :=
  default []
    (_ExecutionPlan_MergeNodes 20 pattern_two_joins 0 3
       (chains_and_scans 20 pattern_two_joins false)).

(** The state of [plan_a_and_b] after one call of the driver on the
    root. *)
Definition after_one_row : list OpNode * DemoWorld :=
  default ([], demo_world 0)
    (snd <$> _ExecuteOpNode (H := demo_operators) 10 0 (plan_a_and_b, demo_world 3)).

(** [rk] decreases from every operator to its children, as a test. *)
Definition decreasingb (rk : OpRef → nat) (h : list OpNode) : bool :=
  forallb (λ p, forallb (λ c, bool_decide (rk c < rk p)) (children (h !!! p)))
    (seq 0 (length h)).

(** The plan for [MATCH (x)-->(n)<--(y:L)] before scan attachment. *)
Definition chains_x_n_y : list OpNode :=
  heap_of (NewExecutionPlan_chains 10 pattern_x_n_y None false).

(** From [h] to [h'] a new node that modifies nothing has been put
    between [x] and the children of [x]. *)
Definition filter_inserted (h h' : list OpNode) (x : OpRef) : Prop :=
  length h' = S (length h) ∧
  children (h' !!! x) = [length h] ∧
  children (h' !!! length h) = children (h !!! x) ∧
  modifies (operation (h' !!! length h)) = None ∧
  (∀ q, q ≠ x → q < length h → children (h' !!! q) = children (h !!! q)) ∧
  (∀ q, q < length h → operation (h' !!! q) = operation (h !!! q)).

(** What the filter pushdown keeps of the plan [h] it started from: the
    operations, the aliases bound by and below every operator, and
    that an operator is under another. *)
Definition evolves (h h' : list OpNode) : Prop :=
  length h ≤ length h' ∧
  (∀ y, y < length h → operation (h' !!! y) = operation (h !!! y)) ∧
  (∀ y l, y < length h →
          (∃ f, binds f h y = Some l) ↔ (∃ f, binds f h' y = Some l)) ∧
  (∀ y l, y < length h →
          (∃ f, bound_below f h y = Some l) ↔ (∃ f, bound_below f h' y = Some l)) ∧
  (∀ y z, y < length h → z < length h → reachable h' y z → reachable h y z).

(** ** Links between operator nodes *)

(** How often [x] occurs in [l]. *)
Definition occurrences (x : OpRef) (l : list OpRef) : nat :=
  length (filter (λ y, y = x) l).

(** The two directions of the links agree: [c] is among the children
    of [p] as often as [p] is among the parents of [c].  A pointer out
    of the heap would be a link without its other direction. *)
Definition linked (h : list OpNode) : Prop :=
  ∀ p c, occurrences c (children (h !!! p)) = occurrences p (parents (h !!! c)).

(** [linked], as a test: the pointers stay in the heap and the counts
    agree for the nodes of the heap. *)
Definition linkedb (h : list OpNode) : bool :=
  forallb (λ nd, forallb (λ c, bool_decide (c < length h)) (children nd)
                 && forallb (λ p, bool_decide (p < length h)) (parents nd)) h
  && forallb (λ p, forallb (λ c,
        bool_decide (occurrences c (children (h !!! p))
                     = occurrences p (parents (h !!! c))))
      (seq 0 (length h))) (seq 0 (length h)).

(** The plan that [NewExecutionPlan] hands out is rooted at the node
    made first, a [ProduceResults] that is the child of no operator. *)
Definition rooted (h : list OpNode) : Prop :=
  operation (h !!! 0) = NewProduceResultsOp ∧ parents (h !!! 0) = [].

(** No stream of the plan has been pulled from. *)
Definition unpulled (h : list OpNode) : Prop :=
  ∀ x, state (h !!! x) = StreamUnInitialized.

(** What the planner keeps of the heap it works on. *)
Definition well_formed (h : list OpNode) : Prop :=
  0 < length h ∧ linked h ∧ rooted h ∧ unpulled h.

(** ** Freeing the plan

    [OpNode_Free] and [ExecutionPlanFree], with the nodes that have
    been handed to [free] kept in a list, in the order in which they
    were freed.  Reading a field of a node of that list, or freeing it
    again, ends the run. *)

(** The nodes freed so far, or the node that was met again after it
    had been freed, with the nodes freed by then. *)
Inductive FreeResult :=
  | Freed (freed : list OpRef)
  | UseAfterFree (op : OpRef) (freed : list OpRef).

(** [for(int i = 0; i < op->childCount; i++) rec(op->children[i])];
    freeing leaves the nodes that are still allocated as they are, and
    [op] is one of them until the loop is over. *)
Fixpoint Free_children (rec : OpRef → list OpRef → option FreeResult)
    (cs : list OpRef) (freed : list OpRef) : option FreeResult :=
  match cs with
  | [] => Some (Freed freed)
  | c :: cs' =>
      r ← rec c freed;
      match r with
      | Freed freed' => Free_children rec cs' freed'
      | UseAfterFree _ _ => Some r
      end
  end.

(** [OpNode_Free(op)], [freed] being the nodes freed before the call:
    [op->childCount] is read first, then the children are freed, then
    [op->operation] and [op] itself. *)
Fixpoint OpNode_Free (fuel : nat) (h : list OpNode) (op : OpRef)
    (freed : list OpRef) : option FreeResult :=
  match fuel with
  | 0 => None
  | S f =>
      if decide (op ∈ freed) then Some (UseAfterFree op freed)
      else
        r ← Free_children (OpNode_Free f h) (children (h !!! op)) freed;
        match r with
        | Freed freed' =>
            if decide (op ∈ freed') then Some (UseAfterFree op freed')
            else Some (Freed (freed' ++ [op]))
        | UseAfterFree _ _ => Some r
        end
  end.

Definition ExecutionPlanFree (fuel : nat) (plan : ExecutionPlan)
  : option FreeResult :=
  OpNode_Free fuel (heap plan) (root plan) [].

(** The nodes of the subtree of [n], children before their parent, a
    node as often as there are paths to it. *)
Fixpoint postorder (fuel : nat) (h : list OpNode) (n : OpRef) : option (list OpRef) :=
  match fuel with
  | 0 => None
  | S f =>
      ls ← mapM (postorder f h) (children (h !!! n));
      Some (concat ls ++ [n])
  end.

(** ** Printing the plan

    [_ExecutionPlanPrint] and [ExecutionPlanPrint], with the two
    buffers they write to: [strOp], an array of 512 bytes, and
    [*strPlan], which [calloc] and [realloc] size. *)

Definition newline : string :=
  String (Strings.Ascii.ascii_of_nat 10) EmptyString.

Fixpoint spaces (n : nat) : string :=
  match n with
  | 0 => EmptyString
  | S n' => String (Strings.Ascii.ascii_of_nat 32) (spaces n')
  end.

(** What [sprintf(strOp, "%*s%s\n", ident, "", name)] writes: the empty
    string padded to [ident] columns, the name and a newline. *)
Definition strOp_of (ident : nat) (name : string) : string :=
  spaces ident +:+ name +:+ newline.

(** [*strPlan] when it is not [NULL]: the size of the allocation and
    the string it holds. *)
Record StrPlan := mkStrPlan {
  size : nat;
  str : string
}.

(** What a call leaves in [*strPlan], unless [sprintf] has written
    past the 512 bytes of [strOp] or [strcat] past the allocation of
    [*strPlan]. *)
Inductive PrintResult :=
  | Printed (p : StrPlan)
  | StrOpOverrun
  | StrPlanOverrun.

Section Print.
(** [op->name], which the operator constructors set. *)
Variable name : OpBase → string.

(** The loop over the children; the plan is not written to. *)
Fixpoint Print_children (rec : OpRef → option StrPlan → option PrintResult)
    (cs : list OpRef) (p : StrPlan) : option PrintResult :=
  match cs with
  | [] => Some (Printed p)
  | c :: cs' =>
      r ← rec c (Some p);
      match r with
      | Printed p' => Print_children rec cs' p'
      | _ => Some r
      end
  end.

(** [sprintf] needs the length of the line and one byte more in
    [strOp].  [calloc] is asked for the length of the line and one
    byte more and gives an empty string; [realloc] is asked for the
    lengths of both strings and two bytes more and keeps the string.
    [strcat] needs the lengths of both strings and one byte more. *)
Fixpoint _ExecutionPlanPrint (fuel : nat) (h : list OpNode) (op : OpRef)
    (strPlan : option StrPlan) (ident : nat) : option PrintResult :=
  match fuel with
  | 0 => None
  | S f =>
      let strOp := strOp_of ident (name (operation (h !!! op))) in
      if decide (512 < String.length strOp + 1) then Some StrOpOverrun
      else
        let p :=
          match strPlan with
          | None => mkStrPlan (String.length strOp + 1) EmptyString
          | Some p =>
              mkStrPlan (String.length (str p) + String.length strOp + 2) (str p)
          end in
        if decide (size p < String.length (str p) + String.length strOp + 1)
        then Some StrPlanOverrun
        else
          Print_children (λ c sp, _ExecutionPlanPrint f h c sp (ident + 4))
            (children (h !!! op)) (mkStrPlan (size p) (str p +:+ strOp))
  end.

Definition ExecutionPlanPrint (fuel : nat) (plan : ExecutionPlan)
  : option PrintResult :=
  _ExecutionPlanPrint fuel (heap plan) (root plan) None 0.

(** The line of the operator [n] at depth [d]. *)
Definition line (h : list OpNode) (dn : nat * OpRef) : string :=
  strOp_of (4 * dn.1) (name (operation (h !!! dn.2))).

(** The line and its terminator are no longer than [strOp]. *)
Definition fits (h : list OpNode) (dn : nat * OpRef) : Prop :=
  String.length (line h dn) + 1 ≤ 512.

Global Instance fits_dec h dn : Decision (fits h dn).
Proof. unfold fits. apply _. Defined.
End Print.

(** The operators under [n] in pre-order, each with its depth, [n]
    being at depth [d]. *)
Fixpoint outline (fuel : nat) (h : list OpNode) (n : OpRef) (d : nat)
  : option (list (nat * OpRef)) :=
  match fuel with
  | 0 => None
  | S f =>
      ls ← mapM (λ c, outline f h c (S d)) (children (h !!! n));
      Some ((d, n) :: concat ls)
  end.

(** The strings of [l], one after the other. *)
Definition strings_concat (l : list string) : string :=
  foldr String.append EmptyString l.

(** ** Stream states *)

(** From [h] to [h'] the plan is what it was, and a stream state has
    changed only by becoming [StreamConsuming]. *)
Definition driven (h h' : list OpNode) : Prop :=
  skeleton h' = skeleton h ∧
  ∀ x, state (h' !!! x) = state (h !!! x) ∨ state (h' !!! x) = StreamConsuming.

(** ** Chains of expansions *)

(** The hops from [srcNode] along the first outgoing edge of every
    node, as far as a node without an outgoing edge: source, edge and
    destination of every hop. *)
Inductive first_edge_path (g : Graph) : NodeRef → list (NodeRef * EdgeRef * NodeRef) → Prop :=
  | first_edge_path_end n nd :
      graph_nodes g !! n = Some nd → outgoingEdges nd = [] →
      first_edge_path g n []
  | first_edge_path_hop n nd edge rest e path :
      graph_nodes g !! n = Some nd → outgoingEdges nd = edge :: rest →
      graph_edges g !! edge = Some e →
      first_edge_path g (dest e) path →
      first_edge_path g n ((n, edge, dest e) :: path).

(** The operator node made for a hop. *)
Definition expand_node (g : Graph) (hop : NodeRef * EdgeRef * NodeRef) : OpNode :=
  mkOpNode (NewExpandAllOp g hop.1.1 hop.1.2 hop.2) [] [] StreamUnInitialized.

(** Every node of [S] has outgoing edges, and the first of them leads
    to a node of [S] again. *)
Definition endless (g : Graph) (S : NodeRef → Prop) : Prop :=
  ∀ n, S n →
    ∃ nd edge rest e,
      graph_nodes g !! n = Some nd ∧ outgoingEdges nd = edge :: rest ∧
      graph_edges g !! edge = Some e ∧ S (dest e).

(** [endless] for the nodes of [l], as a test. *)
Definition endlessb (g : Graph) (l : list NodeRef) : bool :=
  forallb (λ n,
    match graph_nodes g !! n with
    | None => false
    | Some nd =>
        match outgoingEdges nd with
        | [] => false
        | edge :: _ =>
            match graph_edges g !! edge with
            | None => false
            | Some e => bool_decide (dest e ∈ l)
            end
        end
    end) l.

(** ** More example queries *)

Open Scope string_scope.

(** [MATCH (x)-->(n)-->(m), (y)-->(n)] *)
Definition pattern_shared : Graph :=
  connect [("x", None); ("n", None); ("m", None); ("y", None)]
    [mkEdge None 0 1; mkEdge None 1 2; mkEdge None 3 1].

(** [MATCH (e1)-->(q)-->(s)-->(n)-->(m), (e2)-->(q), (z)-->(n)], with
    [n] before [q] in the node table. *)
Definition pattern_twice_found : Graph :=
  connect [("e1", None); ("n", None); ("q", None); ("s", None); ("m", None);
           ("e2", None); ("z", None)]
    [mkEdge None 0 2; mkEdge None 2 3; mkEdge None 3 1; mkEdge None 1 4;
     mkEdge None 5 2; mkEdge None 6 1].

(** [MATCH (a)-->(b)-->(a)], entered at a third node [(c)-->(a)]. *)
Definition pattern_cycle : Graph :=
  connect [("c", None); ("a", None); ("b", None)]
    [mkEdge None 0 1; mkEdge None 1 2; mkEdge None 2 1].

(** [MATCH (v)-->(v)-->...-->(v)], a path of [n] hops. *)
Definition pattern_path (n : nat) : Graph :=
  connect (replicate (S n) ("v", None)) ((λ i, mkEdge None i (S i)) <$> seq 0 n).

(** The names of the operators, for the examples. *)
Definition demo_name (op : OpBase) : string :=
  match type op with
  | OPType_AGGREGATE => "Aggregate"
  | OPType_ALL_NODE_SCAN => "All Node Scan"
  | OPType_EXPAND_ALL => "Expand All"
  | OPType_EXPAND_INTO => "Expand Into"
  | OPType_FILTER => "Filter"
  | OPType_NODE_BY_LABEL_SCAN => "Node By Label Scan"
  | OPType_PRODUCE_RESULTS => "Produce Results"
  end.

Close Scope string_scope.

(** The plan for [pattern_twice_found] after the merge rewrite for [n]
    (node 1 of the pattern). *)
Definition plan_twice_found_n_merged : list OpNode :=
  default []
    (_ExecutionPlan_MergeNodes 30 pattern_twice_found 0 1
       (chains_and_scans 30 pattern_twice_found false)).

(** ** The link arrays and their allocations

    [OpNode] has no field for the size of the memory behind [children]
    and [parents]: the code keeps the arrays one slot larger than their
    count by a [realloc] after every insertion, and [_OpNode_RemoveNode]
    gives the spare slot back.  The definitions above follow the
    contents of the arrays; the ones of [Mem] below follow the same
    code with the number of slots [malloc] and [realloc] have given for
    each array beside the node, and end the run at a write to a slot
    that is not there.  Allocations are taken to succeed. *)

(** The two arrays of a node. *)
Inductive Link := Children | Parents.

(** The slots allocated for the arrays of a node: [None] for a [NULL]
    pointer. *)
Record Slots := mkSlots {
  children_slots : option nat;
  parents_slots : option nat
}.

Global Instance Slots_inhabited : Inhabited Slots := populate (mkSlots None None).

(** How a run ends: with a result; with the write of [array[index]] of
    [node], a slot past the end of the allocation; or without a result,
    as [None] above (the fuel is spent, or a handle is not in its
    table). *)
Inductive Run (A : Type) : Type :=
  | Done (a : A)
  | OutOfBounds (node : OpRef) (array : Link) (index : nat)
  | NoResult.
Arguments Done {A} a.
Arguments OutOfBounds {A} node array index.
Arguments NoResult {A}.

Global Instance Run_bind : MBind Run := λ A B f r,
  match r with
  | Done a => f a
  | OutOfBounds n l i => OutOfBounds n l i
  | NoResult => NoResult
  end.

Definition of_option {A} (o : option A) : Run A :=
  match o with
  | Some a => Done a
  | None => NoResult
  end.

Module Mem.

(** The heap: every node with the allocations of its arrays. *)
Abbreviation Memory := (list (OpNode * Slots)) (only parsing).

(** The nodes alone. *)
Definition contents (m : Memory) : list OpNode := m.*1.

(** A new node has no arrays: [children] and [parents] are [NULL]. *)
Definition NewOpNode (op : OpBase) (m : Memory) : OpRef * Memory :=
  (length m, m ++ [(mkOpNode op [] [] StreamUnInitialized, mkSlots None None)]).

(** The slots behind an array when it is written: [malloc] gives one
    slot to an array that is [NULL]. *)
Definition malloc_if_null (slots : option nat) : nat := default 1 slots.

(** [parent->children[parent->childCount] = child] is written before
    the array is grown to [childCount+1] slots, and so is
    [child->parents[child->parentCount] = parent]. *)
Definition _OpNode_AddChild (parent child : OpRef) (m : Memory) : Run Memory :=
  let p := m !!! parent in
  let n := childCount p.1 in
  if decide (n < malloc_if_null (children_slots p.2)) then
    let m1 := <[parent := (set_children (children p.1 ++ [child]) p.1,
                           mkSlots (Some (S n + 1)) (parents_slots p.2))]> m in
    let c := m1 !!! child in
    let k := parentCount c.1 in
    if decide (k < malloc_if_null (parents_slots c.2)) then
      Done (<[child := (set_parents (parents c.1 ++ [parent]) c.1,
                        mkSlots (children_slots c.2) (Some (S k + 1)))]> m1)
    else OutOfBounds child Parents k
  else OutOfBounds parent Children n.

Section Realloc.
(** [realloc(p, 0)] gives [NULL] (as in glibc) or a pointer to an
    object without a slot, as the C library has it. *)
Variable realloc_zero_is_null : bool.

(** What [realloc] gives for [n] slots. *)
Definition realloc (n : nat) : option nat :=
  if decide (n = 0) then (if realloc_zero_is_null then None else Some 0)
  else Some n.

(** Where [b] is found in [a->children] the array is shrunk to the
    count that is left, and so is [b->parents] where [a] is found in
    it.  The loops read and write below the count. *)
Definition _OpNode_RemoveNode (a b : OpRef) (m : Memory) : Memory :=
  let p := m !!! a in
  let m1 :=
    if contains b (children p.1) then
      let cs := remove_first b (children p.1) in
      <[a := (set_children cs p.1, mkSlots (realloc (length cs)) (parents_slots p.2))]> m
    else m in
  let c := m1 !!! b in
  if contains a (parents c.1) then
    let ps := remove_first a (parents c.1) in
    <[b := (set_parents ps c.1, mkSlots (children_slots c.2) (realloc (length ps)))]> m1
  else m1.

Definition _OpNode_RemoveChild (parent child : OpRef) (m : Memory) : Memory :=
  _OpNode_RemoveNode parent child m.

Definition _OpNode_RemoveParent (child parent : OpRef) (m : Memory) : Memory :=
  _OpNode_RemoveNode parent child m.

(** [while(parent->childCount != 0)], with the count read anew on
    every turn. *)
Fixpoint PushInBetween_loop (fuel : nat) (parent onlyChild : OpRef) (m : Memory)
  : Run Memory :=
  match fuel with
  | 0 => NoResult
  | S f =>
      match children (m !!! parent).1 with
      | [] => Done m
      | c :: _ =>
          m1 ← _OpNode_AddChild onlyChild c m;
          PushInBetween_loop f parent onlyChild (_OpNode_RemoveChild parent c m1)
      end
  end.

Definition _OpNode_PushInBetween (fuel : nat) (parent onlyChild : OpRef) (m : Memory)
  : Run Memory :=
  m1 ← PushInBetween_loop fuel parent onlyChild m;
  _OpNode_AddChild parent onlyChild m1.

(** *** Expansion merge *)

(** "expand into should inherit b's parents", as [MergeNodes_inherit]
    above, on the memory. *)
Fixpoint MergeNodes_inherit (fuel : nat) (expandInto b : OpRef) (i : nat)
    (m : Memory) : Run Memory :=
  match fuel with
  | 0 => NoResult
  | S f =>
      match parents (m !!! b).1 !! i with
      | None => Done m
      | Some bParent =>
          if decide (bParent = expandInto) then
            MergeNodes_inherit f expandInto b (S i) m
          else
            m1 ← (if _OpNode_ContainsChild (contents m) bParent expandInto then Done m
                  else _OpNode_AddChild bParent expandInto m);
            MergeNodes_inherit f expandInto b (S i) (_OpNode_RemoveChild bParent b m1)
      end
  end.

(** [_ExecutionPlan_MergeNodes] on the memory.  The search reads the
    plan and writes nothing; the new operation takes the place of the
    old in the node, whose arrays stay as they are. *)
Definition _ExecutionPlan_MergeNodes (fuel : nat) (g : Graph) (root : OpRef)
    (n : NodeRef) (m : Memory) : Run Memory :=
  if decide (Node_IncomeDegree g n ≠ 2) then Done m
  else
    match MergeNodes_locate fuel (contents m) n None (Vector_Push [] root) with
    | None => NoResult
    | Some (Some a, Some b) =>
        match variant (operation (m !!! a).1) with
        | ExpandAll s r d =>
            let m1 := <[a := (set_operation (NewExpandIntoOp g s r d) (m !!! a).1,
                              (m !!! a).2)]> m in
            m2 ← _OpNode_AddChild a b m1;
            MergeNodes_inherit fuel a b 0 m2
        | _ => NoResult
        end
    | Some _ => Done m
    end.

(** The loop over [nodesToMerge]. *)
Fixpoint merge_nodes (fuel : nat) (g : Graph) (root : OpRef)
    (nodesToMerge : list NodeRef) (m : Memory) : Run Memory :=
  match nodesToMerge with
  | [] => Done m
  | nodeToMerge :: rest =>
      m' ← _ExecutionPlan_MergeNodes fuel g root nodeToMerge m;
      merge_nodes fuel g root rest m'
  end.

End Realloc.

(** *** Scan attachment *)

(** [for(int i = 0; i < node->childCount; i++) rec(node->children[i])],
    as [for_each_child_from] above. *)
Fixpoint for_each_child_from (rec : OpRef → Memory → Run Memory)
    (k : nat) (node : OpRef) (i : nat) (m : Memory) : Run Memory :=
  match k with
  | 0 => NoResult
  | S k' =>
      match children (m !!! node).1 !! i with
      | None => Done m
      | Some c =>
          m' ← rec c m;
          for_each_child_from rec k' node (S i) m'
      end
  end.

Definition for_each_child (rec : OpRef → Memory → Run Memory)
    (node : OpRef) (m : Memory) : Run Memory :=
  for_each_child_from rec (S (childCount (m !!! node).1)) node 0 m.

(** The scan is linked to the [ExpandAll] by [_OpNode_AddChild], which
    writes the first entry of two arrays that are still [NULL]. *)
Fixpoint _ExecutionPlan_OptimizeEntryPoints (fuel : nat) (g : Graph)
    (root : OpRef) (m : Memory) : Run Memory :=
  match fuel with
  | 0 => NoResult
  | S f =>
      match children (m !!! root).1, variant (operation (m !!! root).1) with
      | [], ExpandAll src_node _ dest_node =>
          let entry_point := src_node in
          let scan_op := entry_scan g entry_point in
          let '(scan, m1) := NewOpNode scan_op m in
          _OpNode_AddChild root scan m1
      | _, _ =>
          for_each_child (_ExecutionPlan_OptimizeEntryPoints f g) root m
      end
  end.

(** *** Filter pushdown *)

Section AddFilters.
Context `{FilterModule}.
Variable realloc_zero_is_null : bool.

(** [for(int i = root->childCount-1; i >= 0; i--)], as
    [AddFilters_children] above. *)
Fixpoint AddFilters_children
    (rec : OpRef → Memory * option FT_FilterNode →
           Run (option (list string) * (Memory * option FT_FilterNode)))
    (root : OpRef) (i : nat) (seen : list string)
    (st : Memory * option FT_FilterNode)
  : Run (option (list string) * (Memory * option FT_FilterNode)) :=
  match i with
  | 0 => Done (Some seen, st)
  | S i' =>
      c ← of_option (children (st.1 !!! root).1 !! i');
      '(saw, st') ← rec c st;
      match st'.2 with
      | None => Done (None, st')
      | Some _ => AddFilters_children rec root i' (seen ++ default [] saw) st'
      end
  end.

(** The test on the filter tree and the insertion of the filter.  The
    loop of [_OpNode_PushInBetween] takes its turns from [fuel]. *)
Definition AddFilters_apply (fuel : nat) (root : OpRef) (seen : list string)
    (st : Memory * option FT_FilterNode) : Run (Memory * option FT_FilterNode) :=
  let '(m, filterTree) := st in
  if FilterTree_ContainsNode filterTree seen then
    let minTree := FilterTree_MinFilterTree filterTree seen in
    let filterTree' := FilterTree_RemovePredNodes filterTree seen in
    let '(nodeFilter, m1) := NewOpNode (NewFilterOp minTree) m in
    m2 ← _OpNode_PushInBetween realloc_zero_is_null fuel root nodeFilter m1;
    Done (m2, filterTree')
  else Done (m, filterTree).

Fixpoint _ExecutionPlan_AddFilters (fuel : nat) (root : OpRef)
    (st : Memory * option FT_FilterNode)
  : Run (option (list string) * (Memory * option FT_FilterNode)) :=
  match fuel with
  | 0 => NoResult
  | S f =>
      '(r, st1) ← AddFilters_children (_ExecutionPlan_AddFilters f) root
                    (childCount (st.1 !!! root).1) [] st;
      match r with
      | None => Done (None, st1)
      | Some seen =>
          st2 ← AddFilters_apply fuel root seen st1;
          Done (Some (seen ++ default [] (modifies (operation (st2.1 !!! root).1))),
                st2)
      end
  end.
End AddFilters.

(** *** Plan construction

    The functions of the builder as above, with the memory in the
    place of the heap: the chains are made of new nodes, which
    [connect_ops] links by [_OpNode_AddChild]. *)

Record ExecutionPlan := mkPlan {
  root : OpRef;
  graph : Graph;
  filter_tree : option FT_FilterNode;
  memory : Memory
}.

Fixpoint expand_chain (fuel : nat) (g : Graph) (srcNode : NodeRef)
    (reversedExpandOps : list OpRef) (m : Memory) : Run (list OpRef * Memory) :=
  match fuel with
  | 0 => NoResult
  | S f =>
      nd ← of_option (graph_nodes g !! srcNode);
      match outgoingEdges nd with
      | [] => Done (reversedExpandOps, m)
      | edge :: _ =>
          e ← of_option (graph_edges g !! edge);
          let destNode := dest e in
          let '(opNodeExpandAll, m1) :=
            NewOpNode (NewExpandAllOp g srcNode edge destNode) m in
          expand_chain f g destNode
            (Vector_Push reversedExpandOps opNodeExpandAll) m1
      end
  end.

Fixpoint connect_ops (k : nat) (Ops : list OpRef) (prevOp : OpRef) (m : Memory)
  : Run Memory :=
  match k with
  | 0 => Done m
  | S k' =>
      match Vector_Pop Ops with
      | None => Done m
      | Some (currentOp, Ops') =>
          m1 ← _OpNode_AddChild currentOp prevOp m;
          match Ops' with
          | [] => Done m1
          | _ => connect_ops k' Ops' currentOp m1
          end
      end
  end.

Definition plan_entry (fuel : nat) (g : Graph) (opProduceResults : OpRef)
    (node : NodeRef) (st : list OpRef * Memory) : Run (list OpRef * Memory) :=
  let '(Ops, m) := st in
  nd ← of_option (graph_nodes g !! node);
  '(Ops1, m1) ←
    match outgoingEdges nd with
    | _ :: _ =>
        '(reversedExpandOps, m1) ← expand_chain fuel g node [] m;
        Done (save_reversed (length reversedExpandOps) reversedExpandOps Ops, m1)
    | [] =>
        let '(scan_op, m1) :=
          match label nd with
          | Some l => NewOpNode (NewNodeByLabelScanOp g node l) m
          | None => NewOpNode (NewAllNodeScanOp g node) m
          end in
        Done (Vector_Push Ops scan_op, m1)
    end;
  if decide (1 < length Ops1) then
    match Vector_Pop Ops1 with
    | None => NoResult
    | Some (prevOp, Ops2) =>
        m2 ← connect_ops (length Ops2) Ops2 prevOp m1;
        Done (Vector_Push [] opProduceResults, m2)
    end
  else Done (Ops1, m1).

Fixpoint plan_entries (fuel : nat) (g : Graph) (opProduceResults : OpRef)
    (entryNodes : list NodeRef) (st : list OpRef * Memory)
  : Run (list OpRef * Memory) :=
  match entryNodes with
  | [] => Done st
  | node :: rest =>
      st' ← plan_entry fuel g opProduceResults node st;
      plan_entries fuel g opProduceResults rest st'
  end.

Definition NewExecutionPlan_chains (fuel : nat) (graph : Graph)
    (filterTree : option FT_FilterNode) (aggregation : bool)
  : Run ExecutionPlan :=
  let '(opProduceResults, m0) := NewOpNode NewProduceResultsOp [] in
  let Ops := Vector_Push [] opProduceResults in
  let '(Ops, m1) :=
    if aggregation then
      let '(opAggregate, m1) := NewOpNode NewAggregateOp m0 in
      (Vector_Push Ops opAggregate, m1)
    else (Ops, m0) in
  let entryNodes := Graph_GetNDegreeNodes graph 0 in
  '(_, m2) ← plan_entries fuel graph opProduceResults entryNodes (Ops, m1);
  Done (mkPlan opProduceResults graph filterTree m2).

Section NewExecutionPlan.
Context `{FilterModule}.
Variable realloc_zero_is_null : bool.

Definition NewExecutionPlan (fuel : nat) (graph : Graph)
    (filterTree : option FT_FilterNode) (aggregation : bool)
  : Run ExecutionPlan :=
  p ← NewExecutionPlan_chains fuel graph filterTree aggregation;
  m1 ← _ExecutionPlan_OptimizeEntryPoints fuel graph (root p) (memory p);
  m2 ← merge_nodes realloc_zero_is_null fuel graph (root p)
         (Graph_GetNDegreeNodes graph 2) m1;
  match filterTree with
  | Some _ =>
      '(_, (m3, ft)) ← _ExecutionPlan_AddFilters realloc_zero_is_null fuel (root p)
                          (m2, filterTree);
      Done (mkPlan (root p) graph ft m3)
  | None => Done (mkPlan (root p) graph None m2)
  end.
End NewExecutionPlan.

End Mem.

(** The state of the filter pushdown, without the allocations. *)
Definition pushdown_contents (st : list (OpNode * Slots) * option FT_FilterNode)
  : list OpNode * option FT_FilterNode :=
  (Mem.contents st.1, st.2).

(** The plan without the allocations. *)
Definition plan_contents (p : Mem.ExecutionPlan) : ExecutionPlan :=
  mkPlan (Mem.root p) (Mem.graph p) (Mem.filter_tree p) (Mem.contents (Mem.memory p)).

(** The array has a slot for one more entry: the write of
    [_OpNode_AddChild] to it is within the allocation. *)
Definition room_children (m : list (OpNode * Slots)) (p : OpRef) : Prop :=
  childCount (m !!! p).1 < Mem.malloc_if_null (children_slots (m !!! p).2).

Definition room_parents (m : list (OpNode * Slots)) (p : OpRef) : Prop :=
  parentCount (m !!! p).1 < Mem.malloc_if_null (parents_slots (m !!! p).2).

Global Instance room_children_dec m p : Decision (room_children m p).
Proof. unfold room_children. apply _. Defined.

Global Instance room_parents_dec m p : Decision (room_parents m p).
Proof. unfold room_parents. apply _. Defined.

(** The entries of an array are within its allocation. *)
Definition within (slots : option nat) (count : nat) : Prop :=
  count ≤ default 0 slots.

(** Every array of the memory holds its entries within its
    allocation: what the functions read of an array, its slots below
    the count, is there. *)
Definition sized (m : list (OpNode * Slots)) : Prop :=
  ∀ p, within (children_slots (m !!! p).2) (childCount (m !!! p).1) ∧
       within (parents_slots (m !!! p).2) (parentCount (m !!! p).1).

(** The memory of a plan, if the run has built one. *)
Definition memory_of (r : Run Mem.ExecutionPlan) : list (OpNode * Slots) :=
  match r with
  | Done p => Mem.memory p
  | _ => []
  end.

(** The plan for [MATCH (a)-[:R]->(b)] with its allocations:
    [ProduceResults(0) <- ExpandAll a-R->b (1) <- AllNodeScan a (2)],
    every array with its spare slot. *)
Definition memory_a_b : list (OpNode * Slots) :=
  memory_of (Mem.NewExecutionPlan (H := spec_filters) true 10 pattern_a_b None false).

(** The plan for [MATCH (x)-->(n)<--(y:L)] with its allocations, the
    two expansions into [n] merged:
    [ProduceResults(0) <- ExpandInto y->n (2) <- { scan y (4),
     ExpandAll x->n (1) <- scan x (3) }].  The merge has taken node 1
    from the children of the root and the root from the parents of
    node 1, and both arrays have lost their spare slot. *)
Definition memory_x_n_y : list (OpNode * Slots) :=
  memory_of (Mem.NewExecutionPlan (H := spec_filters) true 10 pattern_x_n_y None false).

Open Scope string_scope.
Definition where_n_age : FT_FilterNode := FT_Pred "n" "age" 0 (ConstVal "30").
Close Scope string_scope.

(** [memory_a_b] and [memory_x_n_y] with a new [Filter] node, as
    [_ExecutionPlan_AddFilters] makes it before it calls
    [_OpNode_PushInBetween]. *)
Definition memory_a_b_filter : list (OpNode * Slots) :=
  (Mem.NewOpNode (NewFilterOp (Some where_a_age)) memory_a_b).2.

Definition memory_x_n_y_filter : list (OpNode * Slots) :=
  (Mem.NewOpNode (NewFilterOp (Some where_n_age)) memory_x_n_y).2.

(** The plan for [MATCH (x)-->(n)-->(m), (y)-->(n)] after the merge
    rewrite, before the filter pushdown.  Both chains run on from [n]
    to [m]:
    [ProduceResults(0) <- { ExpandAll n->m (2), ExpandAll n->m (4) }],
    and the merged expansions into [n] are below both of them:
    [{ (2), (4) } <- ExpandInto y->n (3) <- { scan y (6),
     ExpandAll x->n (1) <- scan x (5) }]. *)
Definition plan_shared_merged : list OpNode :=
  default []
    (merge_nodes 20 pattern_shared 0 (Graph_GetNDegreeNodes pattern_shared 2)
       (chains_and_scans 20 pattern_shared false)).

Open Scope string_scope.
(** [WHERE x.age > 30 AND m.age > 30] *)
Definition where_x_and_m : FT_FilterNode :=
  FT_Cond (FT_Pred "x" "age" 0 (ConstVal "30")) 0 (FT_Pred "m" "age" 0 (ConstVal "30")).
Close Scope string_scope.

(** * Theorems *)

(** Reduces the binds of the option monad, and nothing else. *)
Ltac obind := cbn [mbind option_bind fmap option_fmap option_map fst snd].
Tactic Notation "obind" "in" hyp(H) :=
  cbn [mbind option_bind fmap option_fmap option_map fst snd] in H.

(** ** The heap *)

Lemma update_length p f (h : list OpNode) : length (update p f h) = length h.
Proof. apply length_insert. Qed.

Lemma update_lookup_eq p f (h : list OpNode) :
  p < length h → update p f h !!! p = f (h !!! p).
Proof. intros. unfold update. by rewrite list_lookup_total_insert_eq. Qed.

Lemma update_lookup_ne p q f (h : list OpNode) :
  p ≠ q → update p f h !!! q = h !!! q.
Proof. intros. unfold update. by rewrite list_lookup_total_insert_ne. Qed.

Lemma update_ge p f (h : list OpNode) : length h ≤ p → update p f h = h.
Proof. intros. unfold update. by apply list_insert_ge. Qed.

Lemma lookup_total_ge (h : list OpNode) p : length h ≤ p → h !!! p = inhabitant.
Proof.
  intros. rewrite list_lookup_total_alt. by rewrite lookup_ge_None_2.
Qed.

Lemma skeleton_update_state n st (h : list OpNode) :
  skeleton (update n (set_state st) h) = skeleton h.
Proof.
  unfold skeleton, update. rewrite list_fmap_insert.
  destruct (decide (n < length h)) as [Hlt|Hge].
  - apply list_insert_id. rewrite list_lookup_fmap.
    destruct (lookup_lt_is_Some_2 h n Hlt) as [x Hx].
    rewrite (list_lookup_total_correct _ _ _ Hx), Hx. reflexivity.
  - apply list_insert_ge. rewrite length_fmap. lia.
Qed.

Lemma skeleton_lookup (h h' : list OpNode) i :
  skeleton h = skeleton h' →
  operation (h !!! i) = operation (h' !!! i) ∧
  children (h !!! i) = children (h' !!! i) ∧
  parents (h !!! i) = parents (h' !!! i).
Proof.
  intros E. assert (E' := f_equal (λ l, l !! i) E). simpl in E'.
  unfold skeleton in E'. rewrite !list_lookup_fmap in E'.
  rewrite !list_lookup_total_alt.
  destruct (h !! i), (h' !! i); simpl in *; try discriminate; [|done].
  by simplify_eq.
Qed.

Lemma skeleton_children (h h' : list OpNode) i :
  skeleton h = skeleton h' → children (h !!! i) = children (h' !!! i).
Proof. intros E. apply (skeleton_lookup h h' i E). Qed.

Lemma skeleton_children_eq (h h' : list OpNode) i cs :
  skeleton h' = skeleton h → children (h !!! i) = cs → children (h' !!! i) = cs.
Proof. intros E <-. by apply skeleton_children. Qed.

Lemma skeleton_length (h h' : list OpNode) :
  skeleton h = skeleton h' → length h = length h'.
Proof. intros E. apply (f_equal length) in E. unfold skeleton in E. by rewrite !length_fmap in E. Qed.

(** ** The executor *)

Section ExecutorFacts.
Context `{Operators}.

Lemma consume_op_of_heap n (s : list OpNode * World) r s' :
consume_op_of n s = (r, s') → s'.1 = s.1.
Proof.
unfold consume_op_of. destruct (consume _ _ _). by intros [= _ <-].
Qed.

Lemma reset_op_of_heap n (s : list OpNode * World) r s' :
reset_op_of n s = (r, s') → s'.1 = s.1.
Proof.
unfold reset_op_of. destruct (reset _ _ _). by intros [= _ <-].
Qed.

(** A walk over the children keeps what each visit keeps. *)
Lemma for_each_child_from_inv {St} (P : St → St → Prop) heap_of
  (rec : nat → St → option St) :
(∀ s, P s s) → (∀ s1 s2 s3, P s1 s2 → P s2 s3 → P s1 s3) →
(∀ c s s', rec c s = Some s' → P s s') →
∀ k node i s s',
  for_each_child_from heap_of rec k node i s = Some s' → P s s'.
Proof.
intros Hrefl Htrans Hrec. induction k as [|k IH]; intros node i s s'; [done|].
simpl. destruct (children _ !! i) as [c|]; [|by intros [= <-]].
destruct (rec c s) as [s1|] eqn:E; [|done]. simpl. intros Hk.
eapply Htrans; [by eapply Hrec|by eapply IH].
Qed.

Lemma ResetStream_heap fuel : ∀ n (s s' : list OpNode * World),
ResetStream fuel n s = Some s' → s'.1 = s.1.
Proof.
induction fuel as [|f IH]; intros n s s'; [done|]. simpl.
unfold for_each_child. intros Hk.
apply (for_each_child_from_inv (λ a b, b.1 = a.1)) in Hk; [|done|congruence|by eauto].
rewrite Hk. destruct (reset_op_of n s) as [r s1] eqn:E.
by apply reset_op_of_heap in E.
Qed.

Section PullFacts.
Variable exec : nat → list OpNode * World →
            option (OpResult * (list OpNode * World)).
Variable resetStream : nat → list OpNode * World →
                   option (list OpNode * World).
Hypothesis exec_skeleton : ∀ n s r s',
exec n s = Some (r, s') → skeleton s'.1 = skeleton s.1.
Hypothesis resetStream_skeleton : ∀ n s s',
resetStream n s = Some s' → skeleton s'.1 = skeleton s.1.

Lemma advance_streams_skeleton k : ∀ source i s j s',
advance_streams exec k source i s = Some (j, s') →
skeleton s'.1 = skeleton s.1.
Proof using exec_skeleton.
induction k as [|k IH]; intros source i s j s'; [done|]. simpl.
destruct (children _ !! i) as [c|]; [|by intros [= _ <-]].
destruct (exec c s) as [[r s1]|] eqn:E; [|done]. simpl.
apply exec_skeleton in E. case_decide.
- by intros [= _ <-].
- intros Hk. apply IH in Hk. congruence.
Qed.

Lemma pull_uninitialized_skeleton k : ∀ source i s b s',
pull_uninitialized exec k source i s = Some (b, s') →
skeleton s'.1 = skeleton s.1.
Proof using exec_skeleton.
induction k as [|k IH]; intros source i s b s'; [done|]. simpl.
destruct (children _ !! i) as [c|]; [|by intros [= _ <-]].
case_decide; [|by apply IH].
destruct (exec c s) as [[r s1]|] eqn:E; [|done]. simpl.
apply exec_skeleton in E. case_decide.
- by intros [= _ <-].
- intros Hk. apply IH in Hk. congruence.
Qed.

Lemma reset_depleted_skeleton source : ∀ i s b s',
reset_depleted exec resetStream source i s = Some (b, s') →
skeleton s'.1 = skeleton s.1.
Proof using exec_skeleton resetStream_skeleton.
induction i as [|i IH]; intros s b s'; [by intros [= _ <-]|]. simpl.
destruct (children _ !! i) as [c|]; [|done]. simpl.
destruct (resetStream c s) as [s1|] eqn:E1; [|done]. simpl.
destruct (exec c s1) as [[r s2]|] eqn:E2; [|done]. simpl.
apply resetStream_skeleton in E1. apply exec_skeleton in E2.
case_decide.
- intros [= _ <-]. congruence.
- intros Hk. apply IH in Hk. congruence.
Qed.

Lemma PullFromStreams_body_skeleton source s r s' :
PullFromStreams_body exec resetStream source s = Some (r, s') →
skeleton s'.1 = skeleton s.1.
Proof using exec_skeleton resetStream_skeleton.
unfold PullFromStreams_body.
destruct (advance_streams _ _ _ _ _) as [[idx s1]|] eqn:E1; [|done]. obind.
apply advance_streams_skeleton in E1. case_decide.
{ by intros [= _ <-]. }
destruct (pull_uninitialized _ _ _ _ _) as [[ok s2]|] eqn:E2; [|done]. obind.
apply pull_uninitialized_skeleton in E2. destruct ok.
- destruct (reset_depleted _ _ _ _ _) as [[ok' s3]|] eqn:E3; [|done]. obind.
apply reset_depleted_skeleton in E3. intros [= _ <-]. congruence.
- intros [= _ <-]. congruence.
Qed.

(** [PullFromStreams] gives [OP_DEPLETED], [OP_OK] or [OP_ERR],
whatever the calls it makes give. *)
Lemma PullFromStreams_body_result source s r s' :
PullFromStreams_body exec resetStream source s = Some (r, s') →
r = OP_DEPLETED ∨ r = OP_OK ∨ r = OP_ERR.
Proof.
unfold PullFromStreams_body.
destruct (advance_streams _ _ _ _ _) as [[idx s1]|]; [|done]. obind.
case_decide; [intros [= <- _]; by left|].
destruct (pull_uninitialized _ _ _ _ _) as [[[] s2]|]; [| |done]; obind.
- destruct (reset_depleted _ _ _ _ _) as [[[] s3]|]; [| |done]; obind;
  intros [= <- _]; auto.
- intros [= <- _]; auto.
Qed.
End PullFacts.

Lemma ResetStream_skeleton fuel n (s s' : list OpNode * World) :
ResetStream fuel n s = Some s' → skeleton s'.1 = skeleton s.1.
Proof. intros E. by rewrite (ResetStream_heap _ _ _ _ E). Qed.

Lemma _ExecuteOpNode_skeleton fuel : ∀ n (s : list OpNode * World) r s',
_ExecuteOpNode fuel n s = Some (r, s') → skeleton s'.1 = skeleton s.1.
Proof.
induction fuel as [|f IH]; intros n s r s'; [done|]. simpl.
destruct (consume_op_of _ _) as [res s1] eqn:E1.
apply consume_op_of_heap in E1. simpl in E1.
assert (skeleton s1.1 = skeleton s.1) as Hs1.
{ rewrite E1. apply skeleton_update_state. }
case_decide; [|by intros [= _ <-]].
destruct (reset_op_of n s1) as [rr s2] eqn:E2.
apply reset_op_of_heap in E2.
case_decide; [intros [= _ <-]; congruence|].
destruct (PullFromStreams_body _ _ _ _) as [[res' s3]|] eqn:E3; [|done]. simpl.
apply PullFromStreams_body_skeleton in E3;
  [|done|by intros; eapply ResetStream_skeleton].
case_decide.
- intros Hk. apply IH in Hk. congruence.
- intros [= _ <-]. congruence.
Qed.

Lemma _ExecuteOpNode_not_refresh fuel : ∀ n (s : list OpNode * World) r s',
_ExecuteOpNode fuel n s = Some (r, s') → r ≠ OP_REFRESH.
Proof.
induction fuel as [|f IH]; intros n s r s'; [done|]. simpl.
destruct (consume_op_of _ _) as [res s1].
case_decide; [|by intros [= <- _]].
destruct (reset_op_of n s1) as [rr s2].
case_decide; [by intros [= <- _]|].
destruct (PullFromStreams_body _ _ _ _) as [[res' s3]|] eqn:E3; [|done]. simpl.
apply PullFromStreams_body_result in E3.
case_decide; [by apply IH|]. intros [= <- _].
destruct E3 as [->|[->| ->]]; done.
Qed.

(** *** More fuel, same result *)

Lemma for_each_child_from_mono {St} heap_of (rec rec' : nat → St → option St) :
(∀ c s s', rec c s = Some s' → rec' c s = Some s') →
∀ k node i s s',
  for_each_child_from heap_of rec k node i s = Some s' →
  for_each_child_from heap_of rec' k node i s = Some s'.
Proof.
intros Hrec. induction k as [|k IH]; intros node i s s'; [done|]. simpl.
destruct (children _ !! i) as [c|]; [|done].
destruct (rec c s) as [s1|] eqn:E; [|done].
rewrite (Hrec _ _ _ E). obind. apply IH.
Qed.

Lemma ResetStream_mono fuel : ∀ fuel' n (s s' : list OpNode * World),
fuel ≤ fuel' → ResetStream fuel n s = Some s' → ResetStream fuel' n s = Some s'.
Proof.
induction fuel as [|f IH]; intros [|f'] n s s' Hle; [done|done|lia|].
simpl. unfold for_each_child. apply for_each_child_from_mono.
intros c s1 s2. apply IH. lia.
Qed.

Section PullMono.
Variables exec exec' : nat → list OpNode * World →
                   option (OpResult * (list OpNode * World)).
Variables resetStream resetStream' : nat → list OpNode * World →
                                 option (list OpNode * World).
Hypothesis exec_mono : ∀ n s x, exec n s = Some x → exec' n s = Some x.
Hypothesis resetStream_mono : ∀ n s x,
resetStream n s = Some x → resetStream' n s = Some x.

Lemma advance_streams_mono k : ∀ source i s x,
advance_streams exec k source i s = Some x →
advance_streams exec' k source i s = Some x.
Proof using exec_mono.
induction k as [|k IH]; intros source i s x; [done|]. simpl.
destruct (children _ !! i) as [c|]; [|done].
destruct (exec c s) as [[r s1]|] eqn:E; [|done].
rewrite (exec_mono _ _ _ E). obind. case_decide; [done|apply IH].
Qed.

Lemma pull_uninitialized_mono k : ∀ source i s x,
pull_uninitialized exec k source i s = Some x →
pull_uninitialized exec' k source i s = Some x.
Proof using exec_mono.
induction k as [|k IH]; intros source i s x; [done|]. simpl.
destruct (children _ !! i) as [c|]; [|done].
case_decide; [|apply IH].
destruct (exec c s) as [[r s1]|] eqn:E; [|done].
rewrite (exec_mono _ _ _ E). obind. case_decide; [done|apply IH].
Qed.

Lemma reset_depleted_mono source : ∀ i s x,
reset_depleted exec resetStream source i s = Some x →
reset_depleted exec' resetStream' source i s = Some x.
Proof using exec_mono resetStream_mono.
induction i as [|i IH]; intros s x; [done|]. simpl.
destruct (children _ !! i) as [c|]; [|done]. obind.
destruct (resetStream c s) as [s1|] eqn:E1; [|done].
rewrite (resetStream_mono _ _ _ E1). obind.
destruct (exec c s1) as [[r s2]|] eqn:E2; [|done].
rewrite (exec_mono _ _ _ E2). obind. case_decide; [done|apply IH].
Qed.

Lemma PullFromStreams_body_mono source s x :
PullFromStreams_body exec resetStream source s = Some x →
PullFromStreams_body exec' resetStream' source s = Some x.
Proof using exec_mono resetStream_mono.
unfold PullFromStreams_body.
destruct (advance_streams exec _ _ _ _) as [[idx s1]|] eqn:E1; [|done].
rewrite (advance_streams_mono _ _ _ _ _ E1). obind.
case_decide; [done|].
destruct (pull_uninitialized exec _ _ _ _) as [[ok s2]|] eqn:E2; [|done].
rewrite (pull_uninitialized_mono _ _ _ _ _ E2). obind.
destruct ok; [|done].
destruct (reset_depleted exec _ _ _ _) as [[ok' s3]|] eqn:E3; [|done].
by rewrite (reset_depleted_mono _ _ _ _ E3).
Qed.
End PullMono.

Lemma _ExecuteOpNode_mono fuel : ∀ fuel' n (s : list OpNode * World) x,
fuel ≤ fuel' → _ExecuteOpNode fuel n s = Some x → _ExecuteOpNode fuel' n s = Some x.
Proof.
induction fuel as [|f IH]; intros [|f'] n s x Hle; [done|done|lia|].
simpl. destruct (consume_op_of _ _) as [res s1].
case_decide; [|done].
destruct (reset_op_of n s1) as [rr s2].
case_decide; [done|].
destruct (PullFromStreams_body _ _ _ _) as [[res' s3]|] eqn:E3; [|done].
erewrite (PullFromStreams_body_mono _ (_ExecuteOpNode f')); [| | |exact E3].
- obind. case_decide; [|done]. apply IH. lia.
- intros ???. apply IH. lia.
- intros ???. apply ResetStream_mono. lia.
Qed.

Lemma PullFromStreams_mono fuel fuel' n (s : list OpNode * World) x :
fuel ≤ fuel' → PullFromStreams fuel n s = Some x → PullFromStreams fuel' n s = Some x.
Proof.
intros Hle. unfold PullFromStreams. apply PullFromStreams_body_mono.
- intros ???. by apply _ExecuteOpNode_mono.
- intros ???. by apply ResetStream_mono.
Qed.

Lemma Execute_loop_mono fuel : ∀ fuel' n (s : list OpNode * World) x,
fuel ≤ fuel' → Execute_loop fuel n s = Some x → Execute_loop fuel' n s = Some x.
Proof.
induction fuel as [|f IH]; intros [|f'] n s x Hle; [done|done|lia|].
simpl. destruct (_ExecuteOpNode f n s) as [[r s1]|] eqn:E; [|done].
rewrite (_ExecuteOpNode_mono f f' _ _ _ ltac:(lia) E). obind.
case_decide; [|done]. apply IH. lia.
Qed.

(** *** The driver *)

(** C2.  The driver [_ExecuteOpNode] is the loop [consume_op] of
  §4.6: with enough fuel it gives a result exactly when the loop
  does, and then the same result and state.  The loop calls the
  node's [consume]; a result other than [Refresh] is returned as it
  is; on [Refresh] it calls the node's [reset], gives [Err] if that
  is not [Ok], then pulls from the children, returns the result of
  the pull if it is not [Ok], and otherwise goes round again. *)
Theorem driver_is_consume_op n (s : list OpNode * World) r s' :
(∃ fuel, _ExecuteOpNode fuel n s = Some (r, s')) ↔
consume_op
  (λ n s r s', ∃ fuel, PullFromStreams fuel n s = Some (r, s')) n s r s'.
Proof.
split.
- intros [fuel Hx]. revert s Hx.
  induction fuel as [|f IH]; intros s; [done|]. simpl.
  destruct (consume_op_of _ _) as [res s1] eqn:E1.
  case_decide as Hres; [subst res|intros [= <- <-]; by eapply consume_done].
  destruct (reset_op_of n s1) as [rr s2] eqn:E2.
  case_decide as Hrr; [intros [= <- <-]; by eapply consume_reset_err|].
  assert (rr = OP_OK) as -> by (by destruct rr).
  destruct (PullFromStreams_body _ _ _ _) as [[res' s3]|] eqn:E3; [|done].
  obind. case_decide as Hres'.
  + subst res'. intros Hx. eapply consume_retry; eauto.
  + intros [= <- <-]. eapply consume_pull_stop; eauto.
- induction 1 as [s r s1 E1 Hr|s s1 rr s2 E1 E2 Hrr
                 |s s1 s2 r2 s3 E1 E2 [f E3] Hr2
                 |s s1 s2 s3 r s4 E1 E2 [f E3] _ [f' IH]].
  + exists 1. simpl. rewrite E1. by case_decide.
  + exists 1. simpl. rewrite E1. case_decide; [|done].
    rewrite E2. by case_decide.
  + exists (S f). simpl. rewrite E1. case_decide; [|done].
    rewrite E2. case_decide; [done|].
    unfold PullFromStreams in E3. rewrite E3. obind. by case_decide.
  + exists (S (f `max` f')). simpl. rewrite E1. case_decide; [|done].
    rewrite E2. case_decide; [done|].
    apply (PullFromStreams_mono _ (f `max` f')) in E3; [|lia].
    unfold PullFromStreams in E3. rewrite E3. obind.
    case_decide; [|done]. eapply _ExecuteOpNode_mono; [|done]. lia.
Qed.

(** C10.  The driver never hands [Refresh] to its caller: what it
  returns is [Ok], [Depleted] or [Err]. *)
Theorem driver_never_returns_refresh fuel n (s : list OpNode * World) r s' :
_ExecuteOpNode fuel n s = Some (r, s') →
r = OP_OK ∨ r = OP_DEPLETED ∨ r = OP_ERR.
Proof.
intros Hx. apply _ExecuteOpNode_not_refresh in Hx. destruct r; auto. done.
Qed.

(** C9.  [ExecutionPlan_Execute] calls the driver on the root as long
  as it returns [Ok] and stops at the first other result, which is
  [Depleted] or [Err]; in both cases it returns the result set of
  the root as that last call left it, without another call. *)
Theorem execute_runs_root_until_not_ok plan (w : World) rs :
(∃ fuel, ExecutionPlan_Execute fuel plan w = Some rs) ↔
∃ r s',
  root_run (λ s r s', ∃ fuel, _ExecuteOpNode fuel (root plan) s = Some (r, s'))
    (heap plan, w) r s' ∧
  (r = OP_DEPLETED ∨ r = OP_ERR) ∧
  rs = resultset (root plan) s'.2.
Proof.
unfold ExecutionPlan_Execute. split.
- intros [fuel Hx].
  destruct (Execute_loop _ _ _) as [[r s']|] eqn:E; [|done].
  injection Hx as <-. exists r, s'.
  cut (root_run (λ s r s', ∃ fuel, _ExecuteOpNode fuel (root plan) s = Some (r, s'))
         (heap plan, w) r s' ∧ r ≠ OP_OK).
  { intros [Hrun Hr]. split; [done|]. split; [|done].
    clear E. induction Hrun as [s r s1 [f Hd] _|]; [|auto].
    apply _ExecuteOpNode_not_refresh in Hd. destruct r; auto; done. }
  revert E. generalize (heap plan, w). clear.
  induction fuel as [|f IH]; intros s; [done|]. simpl.
  destruct (_ExecuteOpNode f _ s) as [[r1 s1]|] eqn:E1; [|done]. obind.
  case_decide as Hr1.
  + subst r1. intros Hx. destruct (IH _ Hx) as [Hrun Hr]. split; [|done].
    eapply root_run_more; eauto.
  + intros [= <- <-]. split; [|done]. apply root_run_stop; eauto.
- intros (r & s' & Hrun & _ & ->).
  cut (∃ fuel, Execute_loop fuel (root plan) (heap plan, w) = Some (r, s')).
  { intros [fuel E]. exists fuel. by rewrite E. }
  induction Hrun as [s r s1 [f Hd] Hr|s s1 r s2 [f Hd] _ [f' IH]].
  + exists (S f). simpl. rewrite Hd. obind. by case_decide.
  + exists (S (f `max` f')). simpl.
    rewrite (_ExecuteOpNode_mono f (f `max` f') _ _ _ ltac:(lia) Hd). obind.
    case_decide; [|done]. eapply Execute_loop_mono; [|done]. lia.
Qed.

(** *** Pulling from the children *)

Section PullRefinement.
Variable exec : nat → list OpNode * World →
            option (OpResult * (list OpNode * World)).
Variable resetStream : nat → list OpNode * World →
                   option (list OpNode * World).
Hypothesis exec_skeleton : ∀ n s r s',
exec n s = Some (r, s') → skeleton s'.1 = skeleton s.1.
Hypothesis resetStream_skeleton : ∀ n s s',
resetStream n s = Some s' → skeleton s'.1 = skeleton s.1.

Lemma advance_leftmost_skeleton streams : ∀ s o s',
advance_leftmost exec streams s = Some (o, s') →
skeleton s'.1 = skeleton s.1 ∧ ∀ j, o = Some j → j < length streams.
Proof using exec_skeleton.
induction streams as [|c rest IH]; intros s o s'; simpl.
{ by intros [= <- <-]. }
destruct (exec c s) as [[r s1]|] eqn:E; [|done]. obind.
apply exec_skeleton in E. case_decide.
- intros [= <- <-]. split; [done|]. intros j [= <-]. lia.
- destruct (advance_leftmost exec rest s1) as [[o' s2]|] eqn:E'; [|done].
obind. intros [= <- <-]. destruct (IH _ _ _ E') as [Hs Hj].
split; [congruence|]. intros j Hj'. destruct o' as [j'|]; [|done].
injection Hj' as <-. specialize (Hj _ eq_refl). lia.
Qed.

Lemma pull_right_skeleton streams : ∀ s b s',
pull_right exec streams s = Some (b, s') → skeleton s'.1 = skeleton s.1.
Proof using exec_skeleton.
induction streams as [|c rest IH]; intros s b s'; simpl.
{ by intros [= _ <-]. }
case_decide; [|apply IH].
destruct (exec c s) as [[r s1]|] eqn:E; [|done]. obind.
apply exec_skeleton in E. case_decide.
- intros Hx. apply IH in Hx. congruence.
- by intros [= _ <-].
Qed.

Lemma advance_streams_spec source cs k : ∀ i s,
children (s.1 !!! source) = cs → length cs - i < k →
advance_streams exec k source i s =
'(o, s') ← advance_leftmost exec (drop i cs) s;
Some (from_option (λ j, i + j) (i `max` length cs) o, s').
Proof using exec_skeleton.
induction k as [|k IH]; intros i s Hcs Hk; [lia|]. simpl. rewrite Hcs.
destruct (cs !! i) as [c|] eqn:Hc.
- rewrite (drop_S _ _ _ Hc). simpl.
destruct (exec c s) as [[r s1]|] eqn:E; [|done]. obind.
case_decide; [simpl; do 2 f_equal; lia|].
apply lookup_lt_Some in Hc.
rewrite IH;
  [|by eapply skeleton_children_eq; [eapply exec_skeleton|]|lia].
destruct (advance_leftmost exec _ s1) as [[[j|] s2]|]; obind; simpl;
  do 2 f_equal; lia.
- apply lookup_ge_None in Hc. rewrite drop_ge by done. simpl.
do 2 f_equal. lia.
Qed.

Lemma pull_uninitialized_spec source cs k : ∀ i s,
children (s.1 !!! source) = cs → length cs - i < k →
pull_uninitialized exec k source i s = pull_right exec (drop i cs) s.
Proof using exec_skeleton.
induction k as [|k IH]; intros i s Hcs Hk; [lia|]. simpl. rewrite Hcs.
destruct (cs !! i) as [c|] eqn:Hc.
- rewrite (drop_S _ _ _ Hc). simpl. apply lookup_lt_Some in Hc.
case_decide; [|apply IH; [done|lia]].
destruct (exec c s) as [[r s1]|] eqn:E; [|done]. obind.
repeat case_decide; try done.
apply IH; [|lia].
by eapply skeleton_children_eq; [eapply exec_skeleton|].
- apply lookup_ge_None in Hc. by rewrite drop_ge.
Qed.

Lemma reset_depleted_spec source cs : ∀ i s,
children (s.1 !!! source) = cs → i ≤ length cs →
reset_depleted exec resetStream source i s =
reset_left exec resetStream (reverse (take i cs)) s.
Proof using exec_skeleton resetStream_skeleton.
induction i as [|i IH]; intros s Hcs Hi; [done|]. simpl. rewrite Hcs.
destruct (lookup_lt_is_Some_2 cs i ltac:(lia)) as [c Hc].
rewrite Hc, (take_S_r _ _ _ Hc), reverse_snoc. simpl.
destruct (resetStream c s) as [s1|] eqn:E1; [|done]. obind.
destruct (exec c s1) as [[r s2]|] eqn:E2; [|done]. obind.
repeat case_decide; try done.
apply IH; [|lia].
eapply skeleton_children_eq; [by eapply exec_skeleton|].
by eapply skeleton_children_eq; [eapply resetStream_skeleton|].
Qed.

Lemma PullFromStreams_body_spec source s :
PullFromStreams_body exec resetStream source s =
pull_from_children exec resetStream (children (s.1 !!! source)) s.
Proof using exec_skeleton resetStream_skeleton.
unfold PullFromStreams_body, pull_from_children, childCount.
set (cs := children (s.1 !!! source)).
rewrite (advance_streams_spec source cs) by (done || lia).
rewrite drop_0.
destruct (advance_leftmost exec cs s) as [[o s1]|] eqn:E1; [|done]. obind.
destruct (advance_leftmost_skeleton _ _ _ _ E1) as [Hs1 Hlt].
assert (children (s1.1 !!! source) = cs) as Hcs1
by (by eapply skeleton_children_eq).
rewrite Hcs1. destruct o as [j|]; cbn [from_option Nat.add Nat.max].
- specialize (Hlt _ eq_refl). case_decide; [lia|].
rewrite (pull_uninitialized_spec source cs) by (done || lia).
destruct (pull_right exec _ s1) as [[ok s2]|] eqn:E2; [|done]. obind.
destruct ok; [|done].
rewrite (reset_depleted_spec source cs); [done| |lia].
by eapply skeleton_children_eq; [eapply pull_right_skeleton|].
- by case_decide.
Qed.
End PullRefinement.

(** C1.  [PullFromStreams] on a node is the nested-loop protocol
  [pull_from_children] of §4.6 on the children of that node: the
  leftmost child whose driver returns [Ok] is advanced, and
  [Depleted] is the result if there is none; then the driver is
  called on every child to the right of it that is [Uninitialized],
  with [Depleted] as the result when a call fails; then every child
  to the left of it is reset with [ResetStream] and driven again,
  with [Err] as the result when a call fails; otherwise the result
  is [Ok]. *)
Theorem PullFromStreams_is_pull_from_children fuel source (s : list OpNode * World) :
PullFromStreams fuel source s =
  pull_from_children (_ExecuteOpNode fuel) (ResetStream fuel)
    (children (s.1 !!! source)) s.
Proof.
apply PullFromStreams_body_spec.
- apply _ExecuteOpNode_skeleton.
- apply ResetStream_skeleton.
Qed.

(** *** Resetting a stream *)

Lemma resets_app h l1 l2 (w : World) :
resets h (l1 ++ l2) w = resets h l2 (resets h l1 w).
Proof. apply foldl_app. Qed.

Lemma ResetStream_children_preorder f h stream
  (IH : ∀ n l w, preorder f h n = Some l →
                 ResetStream f n (h, w) = Some (h, resets h l w)) :
∀ k i ls w,
  mapM (preorder f h) (drop i (children (h !!! stream))) = Some ls →
  length (children (h !!! stream)) - i < k →
  for_each_child_from fst (ResetStream f) k stream i (h, w) =
    Some (h, resets h (concat ls) w).
Proof.
induction k as [|k IHk]; intros i ls w Hls Hk; [lia|]. simpl.
destruct (children (h !!! stream) !! i) as [c|] eqn:Hc.
- rewrite (drop_S _ _ _ Hc) in Hls. simpl in Hls.
  destruct (preorder f h c) as [l|] eqn:El; [|done]. simpl in Hls.
  destruct (mapM _ (drop (S i) _)) as [ls'|] eqn:Els'; [|done].
  simpl in Hls. injection Hls as <-.
  rewrite (IH _ _ _ El). obind. simpl. rewrite resets_app.
  apply lookup_lt_Some in Hc. apply IHk; [done|lia].
- apply lookup_ge_None in Hc. rewrite drop_ge in Hls by done.
  by injection Hls as <-.
Qed.

Lemma ResetStream_preorder fuel : ∀ h stream l (w : World),
preorder fuel h stream = Some l →
ResetStream fuel stream (h, w) = Some (h, resets h l w).
Proof.
induction fuel as [|f IH]; intros h stream l w; [done|]. simpl.
destruct (mapM _ _) as [ls|] eqn:Els; [|done]. simpl. intros [= <-].
unfold for_each_child, reset_op_of. cbn [fst snd].
destruct (reset stream _ w) as [r w1] eqn:Er. cbn [fst snd].
rewrite (ResetStream_children_preorder f h stream (IH h) _ 0 ls w1);
  [|by rewrite drop_0|unfold childCount; lia].
unfold resets at 2. simpl. by rewrite Er.
Qed.

Lemma resets_idempotent h l (w : World) :
(∀ n op w, (reset n op (reset n op w).2).2 = (reset n op w).2) →
(∀ n op n' op' w,
   (reset n op (reset n' op' w).2).2 = (reset n' op' (reset n op w).2).2) →
resets h l (resets h l w) = resets h l w.
Proof.
intros Hidem Hcomm.
assert (∀ x l w, resets h l (resets h [x] w) = resets h [x] (resets h l w))
  as Hswap.
{ intros x l'. induction l' as [|y l' IH]; intros w'; [done|].
  change (y :: l') with ([y] ++ l'). rewrite !resets_app, <-IH.
  f_equal. unfold resets. simpl. apply Hcomm. }
revert w. induction l as [|x l IH]; intros w; [done|].
change (x :: l) with ([x] ++ l). rewrite !resets_app.
rewrite (Hswap x l w).
assert (resets h [x] (resets h [x] (resets h l w)) = resets h [x] (resets h l w))
  as -> by (unfold resets; simpl; apply Hidem).
rewrite <-(Hswap x l w). apply IH.
Qed.

(** C8, as the code has it.  [ResetStream] calls the [reset] of every
  operator of the subtree in pre-order (whatever the calls return)
  and leaves the plan as it is, the stream state of every node
  included: no node is put back to [Uninitialized].  Where the
  [reset]s of the operators are idempotent and independent of each
  other, a second [ResetStream] changes nothing. *)
Theorem ResetStream_resets_in_preorder fuel h stream l (w : World) :
preorder fuel h stream = Some l →
ResetStream fuel stream (h, w) = Some (h, resets h l w) ∧
((∀ n op w, (reset n op (reset n op w).2).2 = (reset n op w).2) →
 (∀ n op n' op' w,
    (reset n op (reset n' op' w).2).2 = (reset n' op' (reset n op w).2).2) →
 ResetStream fuel stream (h, resets h l w) = Some (h, resets h l w)).
Proof.
intros Hl. split; [by apply ResetStream_preorder|].
intros Hidem Hcomm. rewrite (ResetStream_preorder _ _ _ _ _ Hl).
by rewrite resets_idempotent.
Qed.
End ExecutorFacts.

(** ** Linking and unlinking operator nodes *)

Lemma update_lookup p q f (h : list OpNode) :
  p < length h →
  update p f h !!! q = if decide (q = p) then f (h !!! p) else h !!! q.
Proof.
  intros. case_decide; [subst; by apply update_lookup_eq|by apply update_lookup_ne].
Qed.

Ltac heap_simpl :=
  unfold _OpNode_RemoveChild, _OpNode_RemoveParent, _OpNode_AddChild,
    _OpNode_RemoveNode;
  repeat first
    [ rewrite update_length
    | rewrite update_lookup by (rewrite ?update_length; lia) ];
  repeat case_decide; subst; simpl; try done; try lia.

Lemma AddChild_length parent child (h : list OpNode) :
  length (_OpNode_AddChild parent child h) = length h.
Proof. by heap_simpl. Qed.

Lemma AddChild_children parent child (h : list OpNode) q :
  parent < length h → child < length h →
  children (_OpNode_AddChild parent child h !!! q) =
    if decide (q = parent) then children (h !!! parent) ++ [child]
    else children (h !!! q).
Proof. intros. heap_simpl. Qed.

Lemma AddChild_parents parent child (h : list OpNode) q :
  parent < length h → child < length h →
  parents (_OpNode_AddChild parent child h !!! q) =
    if decide (q = child) then parents (h !!! child) ++ [parent]
    else parents (h !!! q).
Proof. intros. heap_simpl. Qed.

Lemma AddChild_operation parent child (h : list OpNode) q :
  operation (_OpNode_AddChild parent child h !!! q) = operation (h !!! q).
Proof.
  unfold _OpNode_AddChild.
  assert (∀ p f (h : list OpNode),
            (∀ x, operation (f x) = operation x) →
            operation (update p f h !!! q) = operation (h !!! q)) as Hop.
  { intros p f h' Hf. destruct (decide (p < length h')).
    - rewrite update_lookup by done. case_decide; subst; auto.
    - rewrite update_ge by lia. done. }
  by rewrite !Hop.
Qed.

Lemma RemoveNode_length a b (h : list OpNode) :
  length (_OpNode_RemoveNode a b h) = length h.
Proof. by heap_simpl. Qed.

Lemma RemoveNode_children a b (h : list OpNode) q :
  a < length h → b < length h →
  children (_OpNode_RemoveNode a b h !!! q) =
    if decide (q = a) then remove_first b (children (h !!! a))
    else children (h !!! q).
Proof. intros. heap_simpl. Qed.

Lemma RemoveNode_parents a b (h : list OpNode) q :
  a < length h → b < length h →
  parents (_OpNode_RemoveNode a b h !!! q) =
    if decide (q = b) then remove_first a (parents (h !!! b))
    else parents (h !!! q).
Proof. intros. heap_simpl. Qed.

Lemma RemoveNode_operation a b (h : list OpNode) q :
  operation (_OpNode_RemoveNode a b h !!! q) = operation (h !!! q).
Proof.
  unfold _OpNode_RemoveNode.
  assert (∀ p f (h : list OpNode),
            (∀ x, operation (f x) = operation x) →
            operation (update p f h !!! q) = operation (h !!! q)) as Hop.
  { intros p f h' Hf. destruct (decide (p < length h')).
    - rewrite update_lookup by done. case_decide; subst; auto.
    - rewrite update_ge by lia. done. }
  by rewrite !Hop.
Qed.

Lemma remove_first_head x (l : list nat) : remove_first x (x :: l) = l.
Proof. simpl. by case_decide. Qed.

Lemma elem_of_remove_first x y (l : list nat) :
  y ∈ l → y ≠ x → y ∈ remove_first x l.
Proof.
  induction l as [|z l IH]; [done|]. simpl. intros Hy Hne.
  apply elem_of_cons in Hy as [->|Hy]; case_decide; subst; try done.
  - left.
  - right. auto.
Qed.

Lemma remove_first_notin x (l : list nat) : x ∉ l → remove_first x l = l.
Proof.
  induction l as [|z l IH]; [done|]. simpl. intros Hx.
  apply not_elem_of_cons in Hx as [? ?]. case_decide; [done|]. f_equal. auto.
Qed.

Lemma elem_of_remove_first_inv x y (l : list nat) :
  y ∈ remove_first x l → y ∈ l.
Proof.
  induction l as [|z l IH]; [done|]. simpl. case_decide; subst.
  - by right.
  - intros [->|Hy]%elem_of_cons; [left|right; auto].
Qed.

Lemma closed_update p f (h : list OpNode) :
  closed h →
  (∀ c, c ∈ children (f (h !!! p)) → c < length h) →
  closed (update p f h).
Proof.
  intros Hcl Hf q c. rewrite update_length.
  destruct (decide (p < length h)).
  - rewrite update_lookup by done. case_decide; [apply Hf|apply Hcl].
  - rewrite update_ge by lia. apply Hcl.
Qed.

Lemma closed_AddChild parent child (h : list OpNode) :
  closed h → child < length h → closed (_OpNode_AddChild parent child h).
Proof.
  intros Hcl Hc. unfold _OpNode_AddChild.
  set (h1 := update parent _ h).
  assert (closed h1) as Hcl1.
  { apply closed_update; [done|]. simpl.
    intros c [Hx|Hx%list_elem_of_singleton]%elem_of_app; [by eapply Hcl|by subst]. }
  apply closed_update; [done|]. simpl. apply Hcl1.
Qed.

Lemma closed_RemoveNode a b (h : list OpNode) :
  closed h → closed (_OpNode_RemoveNode a b h).
Proof.
  intros Hcl. unfold _OpNode_RemoveNode.
  set (h1 := update a _ h).
  assert (closed h1) as Hcl1.
  { apply closed_update; [done|]. simpl.
    intros c Hx%elem_of_remove_first_inv. by eapply Hcl. }
  apply closed_update; [done|]. simpl. apply Hcl1.
Qed.

(** The loop of [_OpNode_PushInBetween] hands every child of [parent]
    over to [onlyChild], in order, and touches no other operator's
    children. *)
Lemma PushInBetween_loop_spec k : ∀ (h : list OpNode) parent onlyChild,
  parent < length h → onlyChild < length h → parent ≠ onlyChild →
  closed h → length (children (h !!! parent)) ≤ k →
  let h' := PushInBetween_loop k parent onlyChild h in
  length h' = length h ∧
  children (h' !!! parent) = [] ∧
  children (h' !!! onlyChild) = children (h !!! onlyChild) ++ children (h !!! parent) ∧
  (∀ q, q ≠ parent → q ≠ onlyChild → children (h' !!! q) = children (h !!! q)) ∧
  (∀ q, operation (h' !!! q) = operation (h !!! q)) ∧
  (onlyChild ∉ children (h !!! parent) →
   parents (h' !!! onlyChild) = parents (h !!! onlyChild)) ∧
  (parent ∉ children (h !!! parent) →
   parents (h' !!! parent) = parents (h !!! parent)) ∧
  (∀ c, c ∈ children (h !!! parent) → onlyChild ∈ parents (h' !!! c)).
Proof.
  induction k as [|k IH]; intros h parent onlyChild Hp Ho Hne Hcl Hk; simpl.
  { destruct (children (h !!! parent)) eqn:E; [|simpl in Hk; lia].
    rewrite app_nil_r. repeat split; try done. intros c Hc. by apply elem_of_nil in Hc. }
  destruct (children (h !!! parent)) as [|c rest] eqn:E.
  { rewrite app_nil_r. repeat split; try done. intros c Hc. by apply elem_of_nil in Hc. }
  assert (c < length h) as Hc by (apply (Hcl parent); rewrite E; left).
  set (h1 := _OpNode_AddChild onlyChild c h).
  set (h2 := _OpNode_RemoveChild parent c h1).
  assert (length h1 = length h) as Hl1 by apply AddChild_length.
  assert (length h2 = length h) as Hl2
    by (unfold h2, _OpNode_RemoveChild; by rewrite RemoveNode_length).
  assert (∀ q, children (h2 !!! q) =
               if decide (q = parent) then rest
               else if decide (q = onlyChild) then children (h !!! onlyChild) ++ [c]
               else children (h !!! q)) as Hch.
  { intros q. unfold h2, _OpNode_RemoveChild.
    rewrite RemoveNode_children by lia. unfold h1.
    rewrite !AddChild_children by lia.
    repeat case_decide; subst; try done. rewrite E. apply remove_first_head. }
  assert (∀ q, parents (h2 !!! q) =
               if decide (q = c) then remove_first parent (parents (h !!! c) ++ [onlyChild])
               else parents (h !!! q)) as Hpa.
  { intros q. unfold h2, _OpNode_RemoveChild.
    rewrite RemoveNode_parents by lia. unfold h1.
    rewrite !AddChild_parents by lia. by repeat case_decide; subst. }
  assert (closed h2) as Hcl2
    by (by apply closed_RemoveNode, closed_AddChild).
  destruct (IH h2 parent onlyChild) as (Hlen & Hpar & Honly & Hoth & Hop & Hpo & Hpp & Had);
    [lia|lia|done|done|rewrite Hch; case_decide; [|done]; simpl in Hk; lia|].
  rewrite !Hch in *. repeat case_decide; try done.
  split; [lia|]. split; [done|].
  split; [by rewrite Honly, <-app_assoc|].
  split; [intros q ??; rewrite Hoth, Hch by done; by repeat case_decide|].
  split.
  { intros q. rewrite Hop. unfold h2, h1, _OpNode_RemoveChild.
    by rewrite RemoveNode_operation, AddChild_operation. }
  split.
  { intros Hni. apply not_elem_of_cons in Hni as [? ?].
    rewrite Hpo, Hpa by done. by case_decide. }
  split.
  { intros Hni. apply not_elem_of_cons in Hni as [? ?].
    rewrite Hpp, Hpa by done. by case_decide. }
  intros x Hx. apply elem_of_cons in Hx as [->|Hx]; [|by apply Had].
  destruct (decide (c ∈ rest)) as [Hin|Hni]; [by apply Had|].
  assert (onlyChild ∈ parents (h2 !!! c)) as Hin2.
  { rewrite Hpa. case_decide; [|done].
    apply elem_of_remove_first; [|done]. apply elem_of_app. right. left. }
  (* the later turns leave the parents of [c] alone *)
  clear -Hin2 Hni Hl2 Hp Ho Hne Hcl2 Hch. revert Hin2 Hcl2.
  assert (children (h2 !!! parent) = rest) as Hrest by (rewrite Hch; by case_decide).
  clear Hch. revert Hrest Hni Hl2. generalize h2 rest. clear h2 h1 rest.
  induction k as [|k IHk]; intros h2 rest Hrest Hni Hl2 Hin2 Hcl2; simpl; [done|].
  rewrite Hrest. destruct rest as [|d rest']; [done|].
  apply not_elem_of_cons in Hni as [Hcd Hni].
  assert (d < length h2) by (apply (Hcl2 parent); rewrite Hrest; left).
  apply IHk with (rest := rest').
  - unfold _OpNode_RemoveChild. rewrite RemoveNode_children, AddChild_children
      by (rewrite ?AddChild_length; lia).
    repeat case_decide; try done. rewrite Hrest. apply remove_first_head.
  - done.
  - unfold _OpNode_RemoveChild. by rewrite RemoveNode_length, AddChild_length.
  - unfold _OpNode_RemoveChild.
    rewrite RemoveNode_parents by (rewrite ?AddChild_length; lia).
    case_decide; [done|]. rewrite AddChild_parents by lia. by case_decide.
  - by apply closed_RemoveNode, closed_AddChild.
Qed.

Lemma closedb_closed (h : list OpNode) : closedb h = true → closed h.
Proof.
  unfold closedb. rewrite forallb_forall. intros Hall p c Hc.
  destruct (decide (p < length h)) as [Hp|Hp].
  - destruct (lookup_lt_is_Some_2 h p Hp) as [nd Hnd].
    rewrite (list_lookup_total_correct _ _ _ Hnd) in Hc.
    specialize (Hall nd). rewrite <-list_elem_of_In in Hall.
    specialize (Hall (list_elem_of_lookup_2 _ _ _ Hnd)).
    rewrite forallb_forall in Hall. specialize (Hall c).
    rewrite <-list_elem_of_In in Hall. specialize (Hall Hc).
    by apply bool_decide_eq_true in Hall.
  - rewrite lookup_total_ge in Hc by lia. by apply elem_of_nil in Hc.
Qed.

Lemma NewOpNode_lookup_old op (h : list OpNode) q :
  q < length h → (NewOpNode op h).2 !!! q = h !!! q.
Proof. intros. simpl. by rewrite lookup_total_app_l. Qed.

Lemma NewOpNode_lookup_new op (h : list OpNode) :
  (NewOpNode op h).2 !!! length h = mkOpNode op [] [] StreamUnInitialized.
Proof. simpl. rewrite lookup_total_app_r by lia. by rewrite Nat.sub_diag. Qed.

Lemma closed_NewOpNode op (h : list OpNode) : closed h → closed (NewOpNode op h).2.
Proof.
  intros Hcl p c. simpl. rewrite length_app. simpl.
  destruct (decide (p < length h)) as [Hp|Hp].
  - rewrite lookup_total_app_l by done. intros Hc%Hcl. lia.
  - destruct (decide (p = length h)) as [->|Hne].
    + rewrite lookup_total_app_r, Nat.sub_diag by lia. simpl.
      by intros ?%elem_of_nil.
    + rewrite lookup_total_ge by (rewrite length_app; simpl; lia).
      by intros ?%elem_of_nil.
Qed.

(** ** Filter pushdown: where the filter goes *)

(** What [_OpNode_PushInBetween] does with a node [flt] that has just
    been made. *)
Lemma PushInBetween_new op (h : list OpNode) parent :
  closed h → parent < length h →
  let flt := length h in
  let h' := _OpNode_PushInBetween parent flt (NewOpNode op h).2 in
  length h' = S (length h) ∧
  operation (h' !!! flt) = op ∧
  children (h' !!! parent) = [flt] ∧
  children (h' !!! flt) = children (h !!! parent) ∧
  parents (h' !!! flt) = [parent] ∧
  (∀ c, c ∈ children (h !!! parent) → flt ∈ parents (h' !!! c)) ∧
  (∀ q, q ≠ parent → q < length h → children (h' !!! q) = children (h !!! q)) ∧
  (∀ q, q < length h → operation (h' !!! q) = operation (h !!! q)) ∧
  (parent ∉ children (h !!! parent) → parents (h' !!! parent) = parents (h !!! parent)).
Proof.
  intros Hcl Hp flt h'. unfold h', _OpNode_PushInBetween.
  set (h1 := (NewOpNode op h).2).
  assert (length h1 = S (length h)) as Hl1
    by (unfold h1; simpl; rewrite length_app; simpl; lia).
  assert (h1 !!! flt = mkOpNode op [] [] StreamUnInitialized) as Hflt
    by apply NewOpNode_lookup_new.
  assert (∀ q, q < length h → h1 !!! q = h !!! q) as Hold
    by (intros; by apply NewOpNode_lookup_old).
  assert (flt ∉ children (h !!! parent)) as Hfresh.
  { intros Hin%Hcl. unfold flt in Hin. lia. }
  destruct (PushInBetween_loop_spec (childCount (h1 !!! parent)) h1 parent flt)
    as (Hlen & Hpar & Honly & Hoth & Hop & Hpo & Hpp & Had);
    [lia|unfold flt; lia|unfold flt; lia|unfold h1; by apply closed_NewOpNode
    |unfold childCount; lia|].
  set (h2 := PushInBetween_loop _ _ _ _) in *.
  rewrite (Hold parent Hp) in Hpo, Hpp, Honly, Had. rewrite Hflt in Honly, Hpo.
  simpl in Honly, Hpo.
  split; [by rewrite AddChild_length, Hlen|].
  split; [by rewrite AddChild_operation, Hop, Hflt|].
  rewrite !AddChild_children, !AddChild_parents by (unfold flt; lia).
  repeat case_decide; try (unfold flt in *; lia).
  split; [by rewrite Hpar|]. split; [done|]. split; [by rewrite Hpo|].
  split.
  { intros c Hc. rewrite AddChild_parents by (unfold flt; lia).
    case_decide; [subst; done|by apply Had]. }
  split.
  { intros q ??. rewrite AddChild_children by (unfold flt; lia).
    case_decide; [done|]. rewrite Hoth, Hold; [done|lia|done|unfold flt; lia]. }
  split.
  { intros q ?. by rewrite AddChild_operation, Hop, Hold. }
  intros Hni. by rewrite Hpp.
Qed.

(** ** Scan attachment *)

Lemma type_expand_all op :
  type op = OPType_EXPAND_ALL ↔ ∃ s r d, variant op = ExpandAll s r d.
Proof.
  unfold type. destruct (variant op); split; try done; try (intros (?&?&?&?); done).
  eauto.
Qed.

Lemma entry_scan_type g s : type (entry_scan g s) ≠ OPType_EXPAND_ALL.
Proof. unfold entry_scan. by destruct (_ ≫= label). Qed.

Lemma entry_scan_type_into g s : type (entry_scan g s) ≠ OPType_EXPAND_INTO.
Proof. unfold entry_scan. by destruct (_ ≫= label). Qed.

Lemma inhabitant_children p (h : list OpNode) c :
  c ∈ children (h !!! p) → p < length h.
Proof.
  intros Hc. destruct (decide (p < length h)); [done|].
  rewrite lookup_total_ge in Hc by lia. by apply elem_of_nil in Hc.
Qed.

Lemma reachable_front (h : list OpNode) x y :
  reachable h x y → y = x ∨ ∃ c, c ∈ children (h !!! x) ∧ reachable h c y.
Proof.
  induction 1 as [|z c Hxz IH Hc]; [by left|]. right.
  destruct IH as [->|(c' & Hc' & Hr)].
  - exists c. split; [done|constructor].
  - exists c'. split; [done|]. by eapply reachable_child.
Qed.

Lemma reachable_mono (h h' : list OpNode) x y :
  (∀ p c, c ∈ children (h !!! p) → c ∈ children (h' !!! p)) →
  reachable h x y → reachable h' x y.
Proof.
  intros Hsub. induction 1; [constructor|]. eapply reachable_child; eauto.
Qed.

Section ScanAttachment.
Variable g : Graph.

Lemma scans_added_refl h : scans_added g h h.
Proof. split; [done|]. split; [by left|]. intros y ?. lia. Qed.

Lemma scans_added_children h h' p c :
scans_added g h h' → c ∈ children (h !!! p) → c ∈ children (h' !!! p).
Proof.
intros (Hlen & Hold & _) Hc. assert (p < length h) as Hp by by eapply inhabitant_children.
destruct (Hold p Hp) as [->|[Hnil _]]; [done|].
rewrite Hnil in Hc. by apply elem_of_nil in Hc.
Qed.

Lemma scans_added_kept h h' y :
scans_added g h h' → ¬ awaits_scan (h !!! y) → h' !!! y = h !!! y ∨ length h ≤ y.
Proof.
intros (Hlen & Hold & _) Hna. destruct (decide (y < length h)) as [Hy|]; [|right; lia].
left. destruct (Hold y Hy) as [|[Hnil (s&r&d&scan&Hv&_)]]; [done|].
destruct Hna. split; [done|]. apply type_expand_all. eauto.
Qed.

Lemma scans_added_processed h h' y :
scans_added g h h' → ¬ awaits_scan (h !!! y) → ¬ awaits_scan (h' !!! y).
Proof.
intros Hadd Hna. destruct (scans_added_kept _ _ _ Hadd Hna) as [->|Hge]; [done|].
destruct Hadd as (Hlen & _ & Hnew). intros [Hnil Hty].
destruct (decide (y < length h')) as [Hy|Hy].
- destruct (Hnew y) as [_ Hne]; [lia|done].
- rewrite lookup_total_ge in Hty by lia. done.
Qed.

Lemma scans_added_trans h1 h2 h3 :
scans_added g h1 h2 → scans_added g h2 h3 → scans_added g h1 h3.
Proof.
intros H12 H23.
pose proof H12 as (Hlen12 & Hold12 & Hnew12).
pose proof H23 as (Hlen23 & Hold23 & Hnew23).
assert (∀ y, y < length h2 → type (operation (h2 !!! y)) ≠ OPType_EXPAND_ALL →
             h3 !!! y = h2 !!! y) as Hscan.
{ intros y Hy Hty. destruct (Hold23 y Hy) as [|[_ (s&r&d&scan&Hv&_)]]; [done|].
  destruct Hty. apply type_expand_all. eauto. }
split; [lia|]. split.
- intros y Hy. destruct (Hold12 y Hy) as [E12|[Hnil (s&r&d&scan&Hv&Hsc&Hy2&Hs2)]].
  + destruct (Hold23 y ltac:(lia)) as [E23|[Hnil (s&r&d&scan&Hv&Hsc&Hy3&Hs3)]].
    * left. congruence.
    * right. rewrite E12 in *. split; [done|].
      exists s, r, d, scan. repeat split; try done; lia.
  + right. split; [done|]. exists s, r, d, scan.
    assert (h3 !!! y = h2 !!! y) as E23.
    { destruct (Hold23 y ltac:(lia)) as [|[Hnil' _]]; [done|].
      rewrite Hy2 in Hnil'. done. }
    repeat split; try done; try lia; [congruence|].
    rewrite Hscan; [done|lia|]. rewrite Hs2. simpl. apply entry_scan_type.
- intros y [Hy1 Hy3]. destruct (decide (y < length h2)) as [Hy2|Hy2].
  + destruct (Hnew12 y) as [Hnil Hty]; [lia|].
    rewrite Hscan by done. done.
  + apply Hnew23. lia.
Qed.

Section Walk.
Variable rk : nat → nat.

(** Attaching the scan to an [ExpandAll] without a child. *)
Lemma attach_scan h x s r d :
ranked rk h →
children (h !!! x) = [] → variant (operation (h !!! x)) = ExpandAll s r d →
let h' := _OpNode_AddChild x (length h) (NewOpNode (entry_scan g s) h).2 in
scans_added g h h' ∧ ranked rk h' ∧ ¬ awaits_scan (h' !!! x).
Proof using Type.
intros (Hcl & Hrk & Hnext) Hnil Hv h'.
assert (x < length h) as Hx.
{ destruct (decide (x < length h)); [done|].
rewrite lookup_total_ge in Hv by lia. done. }
set (h1 := (NewOpNode (entry_scan g s) h).2) in *.
assert (length h1 = S (length h)) as Hl1
by (unfold h1; simpl; rewrite length_app; simpl; lia).
assert (length h' = S (length h)) as Hl' by (unfold h'; by rewrite AddChild_length).
assert (∀ q, h' !!! q =
        if decide (q = x) then set_children [length h] (h !!! x)
        else if decide (q = length h)
             then mkOpNode (entry_scan g s) [] [x] StreamUnInitialized
             else h !!! q) as Hlook.
{ intros q. unfold h', _OpNode_AddChild.
rewrite (update_lookup (length h)) by (rewrite update_length; lia).
rewrite !(update_lookup x) by lia. unfold h1.
destruct (decide (q = x)) as [->|Hqx].
- rewrite decide_False by lia.
  rewrite NewOpNode_lookup_old by done. unfold set_children. simpl.
  by rewrite Hnil.
- destruct (decide (q = length h)) as [->|Hql].
  + rewrite decide_False by lia. by rewrite NewOpNode_lookup_new.
  + destruct (decide (q < length h)).
    * by apply NewOpNode_lookup_old.
    * rewrite !lookup_total_ge; [done|lia|simpl; rewrite length_app; simpl; lia]. }
split; [|split].
- split; [lia|]. split.
+ intros y Hy. rewrite Hlook. destruct (decide (y = x)) as [->|Hyx].
  * right. split; [done|]. exists s, r, d, (length h).
    rewrite (Hlook x), (Hlook (length h)).
    rewrite (decide_True (P := x = x)) by done.
    rewrite (decide_False (P := length h = x)) by lia.
    rewrite (decide_True (P := length h = length h)) by done.
    split; [done|]. split; [lia|]. done.
  * rewrite decide_False by lia. by left.
+ intros y Hy. assert (y = length h) as -> by lia.
  rewrite Hlook. repeat case_decide; try lia. simpl.
  split; [done|apply entry_scan_type].
- split; [|split].
+ intros p c. rewrite Hl', Hlook. repeat case_decide; subst; simpl.
  * intros ->%list_elem_of_singleton. lia.
  * by intros ?%elem_of_nil.
  * intros ?%Hcl. lia.
+ intros p c. rewrite Hlook. repeat case_decide; subst; simpl.
  * intros ->%list_elem_of_singleton. apply Hnext; [|done].
    apply type_expand_all. eauto.
  * by intros ?%elem_of_nil.
  * apply Hrk.
+ intros y z. rewrite Hl', Hlook. repeat case_decide; subst; simpl.
  * intros _ ?. apply Hnext; [|lia]. apply type_expand_all. eauto.
  * intros Hty. by apply entry_scan_type in Hty.
  * intros ??. apply Hnext; [done|lia].
- rewrite Hlook. case_decide; [|done]. by intros [? _].
Qed.

Lemma OptimizeEntryPoints_walk f : ∀ x h,
ranked rk h → rk x < f →
∃ h', _ExecutionPlan_OptimizeEntryPoints f g x h = Some h' ∧
    scans_added g h h' ∧ ranked rk h' ∧
    ∀ y, reachable h x y → ¬ awaits_scan (h' !!! y).
Proof using Type.
induction f as [|f IH]; intros x h Hrk Hf; [lia|].
destruct (decide (awaits_scan (h !!! x))) as [[Hnil Hty]|Hna].
- apply type_expand_all in Hty as (s & r & d & Hv).
simpl. rewrite Hnil, Hv.
destruct (attach_scan h x s r d Hrk Hnil Hv) as (Hadd & Hrk' & Hdone).
eexists. split; [reflexivity|]. split; [done|]. split; [done|].
intros y [->|(c & Hc & _)]%reachable_front; [done|].
rewrite Hnil in Hc. by apply elem_of_nil in Hc.
- assert (_ExecutionPlan_OptimizeEntryPoints (S f) g x h =
        for_each_child id (_ExecutionPlan_OptimizeEntryPoints f g) x h) as ->.
{ simpl. destruct (children (h !!! x)) eqn:Hc; [|done].
  destruct (variant (operation (h !!! x))) eqn:Hv; try done.
  destruct Hna. split; [done|]. apply type_expand_all. eauto. }
unfold for_each_child.
cut (∀ k i hi,
       ranked rk hi → hi !!! x = h !!! x →
       length (children (h !!! x)) - i < k →
       ∃ h', for_each_child_from id (_ExecutionPlan_OptimizeEntryPoints f g)
               k x i hi = Some h' ∧
             scans_added g hi h' ∧ ranked rk h' ∧ h' !!! x = h !!! x ∧
             ∀ j c, i ≤ j → children (h !!! x) !! j = Some c →
                    ∀ y, reachable hi c y → ¬ awaits_scan (h' !!! y)).
{ intros Hloop.
  destruct (Hloop (S (childCount (id h !!! x))) 0 h)
    as (h' & Hrun & Hadd & Hrk' & Hx & Hdone);
    [done|done|unfold childCount, id; lia|].
  exists h'. split; [done|]. split; [done|]. split; [done|].
  intros y [->|(c & Hc & Hr)]%reachable_front.
  - by rewrite Hx.
  - apply list_elem_of_lookup_1 in Hc as [j Hj]. eapply Hdone; [|done..]. lia. }
induction k as [|k IHk]; intros i hi Hrki Hxi Hk; [lia|].
simpl. unfold id at 1. rewrite Hxi.
destruct (children (h !!! x) !! i) as [c|] eqn:Hc.
+ assert (rk c < f) as Hcf.
  { destruct Hrki as (_ & Hdec & _).
    specialize (Hdec x c). rewrite Hxi in Hdec.
    specialize (Hdec (list_elem_of_lookup_2 _ _ _ Hc)). lia. }
  destruct (IH c hi Hrki Hcf) as (h1 & Hrun1 & Hadd1 & Hrk1 & Hdone1).
  rewrite Hrun1. obind.
  assert (h1 !!! x = h !!! x) as Hx1.
  { destruct (scans_added_kept hi h1 x Hadd1) as [->|Hge]; [by rewrite Hxi|done|].
    rewrite <-Hxi in Hc. apply list_elem_of_lookup_2, inhabitant_children in Hc.
    lia. }
  apply lookup_lt_Some in Hc as Hi.
  destruct (IHk (S i) h1 Hrk1 Hx1 ltac:(lia))
    as (h' & Hrun & Hadd & Hrk' & Hx' & Hdone).
  exists h'. split; [done|].
  split; [by eapply scans_added_trans|]. split; [done|]. split; [done|].
  intros j c' Hj Hc' y Hr. destruct (decide (j = i)) as [->|Hne].
  * assert (c' = c) as -> by congruence.
    eapply scans_added_processed; [done|]. by apply Hdone1.
  * eapply Hdone; [|done|]; [lia|].
    eapply reachable_mono; [|done]. intros p d. by apply scans_added_children.
+ exists hi. split; [done|]. split; [apply scans_added_refl|].
  split; [done|]. split; [done|].
  intros j c' Hj Hc'. apply lookup_ge_None in Hc.
  apply lookup_lt_Some in Hc'. lia.
Qed.
End Walk.

(** C7.  On a plan without a cycle the scan attachment comes to an
  end, and every [ExpandAll] under the root that had no child has
  then exactly one: a new node, child of none but that [ExpandAll],
  whose operation scans the source node of the expansion, by label
  when the source pattern node has a label and over all nodes
  otherwise. *)
Theorem every_childless_expand_gets_a_scan (h : list OpNode) root rk :
closed h →
(∀ p c, c ∈ children (h !!! p) → rk c < rk p) →
∃ h',
  _ExecutionPlan_OptimizeEntryPoints (rk root + 2) g root h = Some h' ∧
  ∀ x s r d,
    reachable h root x →
    variant (operation (h !!! x)) = ExpandAll s r d →
    children (h !!! x) = [] →
    ∃ scan,
      children (h' !!! x) = [scan] ∧
      length h ≤ scan ∧
      operation (h' !!! scan) =
        match graph_nodes g !! s ≫= label with
        | Some l => NewNodeByLabelScanOp g s l
        | None => NewAllNodeScanOp g s
        end ∧
      children (h' !!! scan) = [] ∧
      parents (h' !!! scan) = [x].
Proof.
intros Hcl Hrk.
set (rk' := λ y, if decide (y < length h) then S (rk y) else 0).
assert (ranked rk' h) as Hranked.
{ split; [done|]. split.
  - intros p c Hc. unfold rk'.
    pose proof (inhabitant_children _ _ _ Hc). pose proof (Hcl _ _ Hc).
    specialize (Hrk _ _ Hc). repeat case_decide; lia.
  - intros x y Hty Hy. unfold rk'.
    destruct (decide (x < length h)).
    + case_decide; [lia|]. lia.
    + rewrite lookup_total_ge in Hty by lia. done. }
destruct (OptimizeEntryPoints_walk rk' (rk root + 2) root h Hranked)
  as (h' & Hrun & (Hlen & Hold & Hnew) & _ & Hdone).
{ unfold rk'. case_decide; lia. }
exists h'. split; [done|]. intros x s r d Hr Hv Hnil.
specialize (Hdone x Hr).
assert (x < length h) as Hx.
{ destruct (decide (x < length h)); [done|].
  rewrite lookup_total_ge in Hv by lia. done. }
destruct (Hold x Hx) as [E|[_ (s'&r'&d'&scan&Hv'&Hsc&Hx'&Hs')]].
- destruct Hdone. rewrite E. split; [done|]. apply type_expand_all. eauto.
- assert (s' = s) as -> by congruence.
  exists scan. rewrite Hx', Hs'. simpl. repeat split; try done. lia.
Qed.
End ScanAttachment.

(** ** Expansion merge: the search *)

Lemma Vector_Pop_push {A} (v : list A) x : Vector_Pop (v ++ [x]) = Some (x, v).
Proof. unfold Vector_Pop. by rewrite reverse_snoc, reverse_involutive. Qed.

Lemma Vector_Pop_nil {A} : Vector_Pop (@nil A) = None.
Proof. done. Qed.

Lemma foldl_Vector_Push {A} (l : list A) : ∀ v, foldl Vector_Push v l = v ++ l.
Proof.
  induction l as [|x l IH]; intros v; simpl; [by rewrite app_nil_r|].
  rewrite IH. unfold Vector_Push. by rewrite <-app_assoc.
Qed.

Section Locate.
Variable h : list OpNode.
Variable n : nat.

Lemma locate_among_app a l1 l2 :
locate_among h n a (l1 ++ l2) =
  match locate_among h n a l1 with
  | (a', Some b) => (a', Some b)
  | (a', None) => locate_among h n a' l2
  end.
Proof.
revert a. induction l1 as [|x l1 IH]; intros a; simpl; [done|].
destruct (expands_to _ _); [|apply IH]. destruct a; [done|apply IH].
Qed.

Lemma first_two_locate_among l : first_two h n l = locate_among h n None l.
Proof.
unfold first_two.
assert (∀ a l, locate_among h n (Some a) l =
               (Some a, head (filter (λ x, expands_to n (operation (h !!! x)) = true) l)))
  as Hsome.
{ intros a l'. induction l' as [|x l' IH]; [done|]. simpl.
  rewrite filter_cons. destruct (expands_to _ _); [|rewrite decide_False; done].
  by rewrite decide_True. }
induction l as [|x l IH]; [done|]. simpl. rewrite filter_cons.
destruct (expands_to _ _).
- rewrite decide_True by done. rewrite Hsome.
  by destruct (filter _ l).
- rewrite decide_False; done.
Qed.

Lemma locate_simulates_list f
  (IH : ∀ x l, dfs_order f h n x = Some l →
               ∀ a st, locate_simulates h n a l (st ++ [x]) st) :
∀ rs ls, mapM (dfs_order f h n) rs = Some ls →
         ∀ a st, locate_simulates h n a (concat ls) (st ++ reverse rs) st.
Proof.
induction rs as [|r rs IHrs]; intros ls Hls a st.
- injection Hls as <-. unfold locate_simulates. simpl. exists 0.
  intros fuel. by rewrite app_nil_r.
- simpl in Hls. destruct (dfs_order f h n r) as [l|] eqn:El; [|done].
  simpl in Hls. destruct (mapM _ rs) as [ls'|] eqn:Els; [|done].
  injection Hls as <-. simpl.
  rewrite reverse_cons, app_assoc.
  specialize (IH r l El a (st ++ reverse rs)).
  specialize (IHrs ls' eq_refl).
  unfold locate_simulates in *. rewrite locate_among_app.
  destruct (locate_among h n a l) as [a' [b|]]; [done|].
  destruct IH as [k1 Hk1]. specialize (IHrs a' st).
  destruct (locate_among h n a' (concat ls')) as [a'' [b|]].
  + destruct IHrs as [k2 Hk2]. exists (k1 + k2). intros fuel Hfuel.
    replace fuel with (k1 + (fuel - k1)) by lia. rewrite Hk1. apply Hk2. lia.
  + destruct IHrs as [k2 Hk2]. exists (k1 + k2). intros fuel.
    rewrite <-Nat.add_assoc, Hk1. apply Hk2.
Qed.

Lemma locate_simulates_node f : ∀ x l,
dfs_order f h n x = Some l → ∀ a st, locate_simulates h n a l (st ++ [x]) st.
Proof.
induction f as [|f IH]; intros x l; [done|]. simpl.
destruct (expands_to n (operation (h !!! x))) eqn:Hx.
- intros [= <-] a st. unfold locate_simulates. simpl. rewrite Hx.
  destruct a as [a|].
  + exists 1. intros [|fuel] ?; [lia|]. simpl.
    by rewrite Vector_Pop_push, Hx.
  + exists 1. intros fuel. simpl. by rewrite Vector_Pop_push, Hx.
- destruct (mapM _ _) as [ls|] eqn:Els; [|done]. simpl. intros [= <-] a st.
  pose proof (locate_simulates_list f IH _ _ Els a st) as Hsim.
  rewrite reverse_involutive in Hsim.
  unfold locate_simulates in *. simpl. rewrite Hx.
  destruct (locate_among h n a (concat ls)) as [a' [b|]].
  + destruct Hsim as [k Hk]. exists (S k). intros [|fuel] ?; [lia|]. simpl.
    rewrite Vector_Pop_push, Hx, foldl_Vector_Push. apply Hk. lia.
  + destruct Hsim as [k Hk]. exists (S k). intros fuel. simpl.
    rewrite Vector_Pop_push, Hx, foldl_Vector_Push. apply Hk.
Qed.

(** C3, as the code has it.  The search of the merge rewrite is a
  depth-first traversal of the plan from the root, driven by a
  stack: it takes the children of an operator from the last to the
  first and does not go below an [ExpandAll] into [n].  [a] is the
  first [ExpandAll] into [n] it meets in that order and [b] the
  second. *)
Theorem merge_search_is_depth_first fuel root l :
dfs_order fuel h n root = Some l →
∃ k, ∀ fuel', k ≤ fuel' →
  MergeNodes_locate fuel' h n None (Vector_Push [] root) = Some (first_two h n l).
Proof.
intros Hl. rewrite first_two_locate_among.
pose proof (locate_simulates_node fuel root l Hl None []) as Hsim.
unfold locate_simulates in Hsim. unfold Vector_Push.
destruct (locate_among h n None l) as [a' [b|]]; [done|].
destruct Hsim as [k Hk]. exists (k + 1). intros fuel' Hfuel.
replace fuel' with (k + (fuel' - k)) by lia. rewrite Hk.
destruct (fuel' - k) as [|f'] eqn:E; [lia|]. done.
Qed.
End Locate.

(** ** Expansion merge: the operations of the plan *)

Lemma ops_update p f (h : list OpNode) :
  (∀ x, operation (f x) = operation x) →
  operation <$> update p f h = operation <$> h.
Proof.
  intros Hf. unfold update. rewrite list_fmap_insert, Hf.
  destruct (decide (p < length h)) as [Hp|Hp].
  - apply list_insert_id. rewrite list_lookup_fmap.
    destruct (lookup_lt_is_Some_2 h p Hp) as [x Hx].
    by rewrite (list_lookup_total_correct _ _ _ Hx), Hx.
  - apply list_insert_ge. rewrite length_fmap. lia.
Qed.

Lemma ops_AddChild parent child (h : list OpNode) :
  operation <$> _OpNode_AddChild parent child h = operation <$> h.
Proof. unfold _OpNode_AddChild. by rewrite !ops_update. Qed.

Lemma ops_RemoveNode a b (h : list OpNode) :
  operation <$> _OpNode_RemoveNode a b h = operation <$> h.
Proof. unfold _OpNode_RemoveNode. by rewrite !ops_update. Qed.

Lemma ops_NewOpNode op (h : list OpNode) :
  operation <$> (NewOpNode op h).2 = (operation <$> h) ++ [op].
Proof. simpl. by rewrite fmap_app. Qed.

Lemma ops_PushInBetween parent onlyChild (h : list OpNode) :
  operation <$> _OpNode_PushInBetween parent onlyChild h = operation <$> h.
Proof.
  unfold _OpNode_PushInBetween. rewrite ops_AddChild.
  generalize (childCount (h !!! parent)). intros k. revert h.
  induction k as [|k IH]; intros h; simpl; [done|].
  destruct (children (h !!! parent)); [done|].
  rewrite IH. unfold _OpNode_RemoveChild. by rewrite ops_RemoveNode, ops_AddChild.
Qed.

Lemma MergeNodes_inherit_ops fuel : ∀ a b i (h h' : list OpNode),
  MergeNodes_inherit fuel a b i h = Some h' → operation <$> h' = operation <$> h.
Proof.
  induction fuel as [|f IH]; intros a b i h h'; [done|]. simpl.
  destruct (parents (h !!! b) !! i) as [bParent|]; [|by intros [= <-]].
  case_decide; [apply IH|]. intros Hx%IH. rewrite Hx.
  unfold _OpNode_RemoveChild. rewrite ops_RemoveNode.
  destruct (_OpNode_ContainsChild _ _ _); [done|apply ops_AddChild].
Qed.

Lemma grown_refl h : grown h h.
Proof. exists []. by rewrite app_nil_r. Qed.

Lemma grown_trans h1 h2 h3 : grown h1 h2 → grown h2 h3 → grown h1 h3.
Proof.
  intros (l1 & E1 & H1) (l2 & E2 & H2). exists (l1 ++ l2).
  split; [by rewrite E2, E1, app_assoc|by apply Forall_app].
Qed.

Lemma grown_same (h h' : list OpNode) :
  operation <$> h' = operation <$> h → grown h h'.
Proof. intros E. exists []. by rewrite app_nil_r. Qed.

Lemma grown_NewOpNode op (h : list OpNode) :
  type op ≠ OPType_EXPAND_INTO → grown h (NewOpNode op h).2.
Proof. intros Hop. exists [op]. split; [apply ops_NewOpNode|by constructor]. Qed.

Lemma closes_at_type m op : closes_at m op = true → type op = OPType_EXPAND_INTO.
Proof. unfold closes_at, type. by destruct (variant op). Qed.

Lemma grown_count m h h' : grown h h' → count_expand_into m h' = count_expand_into m h.
Proof.
  intros (l & E & Hl). unfold count_expand_into. rewrite E, filter_app, length_app.
  cut (filter (λ op, closes_at m op = true) l = []); [by intros ->|].
  clear E. induction Hl as [|op l Hop _ IH]; [done|].
  rewrite filter_cons, decide_False; [done|]. by intros ?%closes_at_type.
Qed.

(** *** The plan before the rewrite has no [ExpandInto] *)

Lemma expand_chain_grown fuel g : ∀ srcNode ops h ops' h',
  expand_chain fuel g srcNode ops h = Some (ops', h') → grown h h'.
Proof.
  induction fuel as [|f IH]; intros srcNode ops h ops' h'; [done|]. simpl.
  destruct (graph_nodes g !! srcNode) as [nd|]; [|done]. obind.
  destruct (outgoingEdges nd) as [|edge ?]; [intros [= _ <-]; apply grown_refl|].
  destruct (graph_edges g !! edge) as [e|]; [|done]. obind.
  intros Hx%IH. eapply grown_trans; [|done]. by apply grown_NewOpNode.
Qed.

Lemma connect_ops_ops k : ∀ ops prevOp (h : list OpNode),
  operation <$> connect_ops k ops prevOp h = operation <$> h.
Proof.
  induction k as [|k IH]; intros ops prevOp h; simpl; [done|].
  destruct (Vector_Pop ops) as [[currentOp ops']|]; [|done].
  destruct ops'; [apply ops_AddChild|]. by rewrite IH, ops_AddChild.
Qed.

Lemma plan_entry_grown fuel g pr node ops h ops' h' :
  plan_entry fuel g pr node (ops, h) = Some (ops', h') → grown h h'.
Proof.
  unfold plan_entry.
  destruct (graph_nodes g !! node) as [nd|]; [|done]. obind.
  set (stage := match outgoingEdges nd with [] => _ | _ => _ end).
  destruct stage as [[ops1 h1]|] eqn:Estage; [|done]. obind.
  assert (grown h h1) as Hg1.
  { subst stage. destruct (outgoingEdges nd).
    - destruct (label nd); injection Estage as <- <-; by apply grown_NewOpNode.
    - destruct (expand_chain _ _ _ _ _) as [[rev h1']|] eqn:Ec; [|done].
      injection Estage as <- <-. by eapply expand_chain_grown. }
  case_decide; [|by intros [= _ <-]].
  destruct (Vector_Pop ops1) as [[prevOp ops2]|]; [|done].
  intros [= _ <-]. eapply grown_trans; [done|]. apply grown_same, connect_ops_ops.
Qed.

Lemma plan_entries_grown fuel g pr : ∀ entryNodes ops h ops' h',
  plan_entries fuel g pr entryNodes (ops, h) = Some (ops', h') → grown h h'.
Proof.
  induction entryNodes as [|node rest IH]; intros ops h ops' h'; cbn [plan_entries].
  { intros [= _ <-]. apply grown_refl. }
  destruct (plan_entry _ _ _ _ _) as [[ops1 h1]|] eqn:E; [|done]. obind.
  intros Hx%IH. eapply grown_trans; [|done]. by eapply plan_entry_grown.
Qed.

Lemma NewExecutionPlan_chains_count fuel g ft agg p m :
  NewExecutionPlan_chains fuel g ft agg = Some p →
  count_expand_into m (heap p) = 0.
Proof.
  unfold NewExecutionPlan_chains. cbn [NewOpNode].
  set (st := if agg then _ else _). destruct st as [ops h1] eqn:Est.
  destruct (plan_entries _ _ _ _ _) as [[ops2 h2]|] eqn:E; [|done]. obind.
  intros [= <-]. simpl. apply plan_entries_grown in E.
  rewrite (grown_count _ _ _ E).
  subst st. destruct agg; injection Est as <- <-; done.
Qed.

Lemma OptimizeEntryPoints_grown fuel g : ∀ x h h',
  _ExecutionPlan_OptimizeEntryPoints fuel g x h = Some h' → grown h h'.
Proof.
  induction fuel as [|f IH]; intros x h h'; [done|]. simpl.
  assert (for_each_child id (_ExecutionPlan_OptimizeEntryPoints f g) x h = Some h' →
          grown h h') as Hloop.
  { unfold for_each_child. apply for_each_child_from_inv.
    - apply grown_refl.
    - apply grown_trans.
    - apply IH. }
  destruct (children (h !!! x)); [|done].
  destruct (variant (operation (h !!! x))); try done.
  intros [= <-]. eapply grown_trans.
  - apply grown_NewOpNode, entry_scan_type_into.
  - apply grown_same, ops_AddChild.
Qed.

(** *** Filter pushdown adds filters only *)

Section AddFiltersGrown.
Context `{FilterModule}.

Lemma AddFilters_apply_grown root seen st :
grown st.1 (AddFilters_apply root seen st).1.
Proof.
destruct st as [h ft]. unfold AddFilters_apply.
destruct (FilterTree_ContainsNode ft seen); [|apply grown_refl].
cbn [NewOpNode fst snd]. eapply grown_trans.
- by apply (grown_NewOpNode (NewFilterOp (FilterTree_MinFilterTree ft seen))).
- apply grown_same, ops_PushInBetween.
Qed.

Lemma AddFilters_children_grown rec root
  (Hrec : ∀ c st r st', rec c st = Some (r, st') → grown st.1 st'.1) :
∀ i seen st r st',
  AddFilters_children rec root i seen st = Some (r, st') → grown st.1 st'.1.
Proof.
induction i as [|i IH]; intros seen st r st'; simpl.
{ intros [= _ <-]. apply grown_refl. }
destruct (children (st.1 !!! root) !! i) as [c|]; [|done]. obind.
destruct (rec c st) as [[saw st1]|] eqn:E; [|done]. obind.
apply Hrec in E. destruct (st1.2).
- intros Hx%IH. by eapply grown_trans.
- by intros [= _ <-].
Qed.

Lemma AddFilters_grown fuel : ∀ root st r st',
_ExecutionPlan_AddFilters fuel root st = Some (r, st') → grown st.1 st'.1.
Proof.
induction fuel as [|f IH]; intros root st r st'; [done|]. simpl.
destruct (AddFilters_children _ _ _ _ _) as [[r1 st1]|] eqn:E; [|done]. obind.
apply AddFilters_children_grown in E; [|done].
destruct r1 as [seen|]; intros [= _ <-]; [|done].
eapply grown_trans; [done|]. apply AddFilters_apply_grown.
Qed.
End AddFiltersGrown.

(** *** The rewrite makes one [ExpandInto] *)

Lemma count_insert {A} (P : A → Prop) `{∀ x, Decision (P x)} (l : list A) i x y :
  l !! i = Some x →
  length (filter P (<[i:=y]> l)) + (if decide (P x) then 1 else 0) =
  length (filter P l) + (if decide (P y) then 1 else 0).
Proof.
  intros Hi. rewrite insert_take_drop by (by eapply lookup_lt_Some).
  rewrite <-(take_drop_middle l i x Hi) at 3.
  rewrite !filter_app, !filter_cons, !length_app.
  repeat case_decide; simpl; lia.
Qed.

Lemma MergeNodes_locate_found fuel (h : list OpNode) n : ∀ a0 st a b,
  MergeNodes_locate fuel h n a0 st = Some (Some a, b) →
  a0 = Some a ∨ expands_to n (operation (h !!! a)) = true.
Proof.
  induction fuel as [|f IH]; intros a0 st a b; [done|]. simpl.
  destruct (Vector_Pop st) as [[current rest]|]; [|intros [= -> _]; by left].
  destruct (expands_to n (operation (h !!! current))) eqn:Hc; [|apply IH].
  destruct a0 as [a0|]; [intros [= -> _]; by left|].
  intros [[= <-]|Hx]%IH; by right.
Qed.

(** Whether the search for the two [ExpandAll] into [n] finds both. *)
Lemma MergeNodes_count fuel g root n (h h' : list OpNode) m :
  _ExecutionPlan_MergeNodes fuel g root n h = Some h' →
  count_expand_into m h' =
    count_expand_into m h +
    (if decide (m = n ∧ Node_IncomeDegree g n = 2) then
       match MergeNodes_locate fuel h n None (Vector_Push [] root) with
       | Some (Some _, Some _) => 1
       | _ => 0
       end
     else 0).
Proof.
  unfold _ExecutionPlan_MergeNodes.
  destruct (decide (Node_IncomeDegree g n ≠ 2)) as [Hdeg|Hdeg].
  { intros [= <-]. rewrite decide_False by tauto. lia. }
  assert (Node_IncomeDegree g n = 2) as Hdeg' by lia.
  destruct (MergeNodes_locate _ _ _ _ _) as [[[a|] [b|]]|] eqn:Eloc; try done;
    try (intros [= <-]; case_decide; lia).
  destruct (variant (operation (h !!! a))) as [| | | |s r d| |] eqn:Ev; try done.
  intros Hx%MergeNodes_inherit_ops.
  apply MergeNodes_locate_found in Eloc as [?|Ha]; [done|].
  unfold expands_to in Ha. rewrite Ev in Ha. apply bool_decide_eq_true in Ha as ->.
  assert (a < length h) as Hlt.
  { destruct (decide (a < length h)); [done|].
    rewrite lookup_total_ge in Ev by lia. done. }
  unfold count_expand_into. rewrite Hx, ops_AddChild.
  unfold update. rewrite list_fmap_insert. simpl.
  destruct (lookup_lt_is_Some_2 h a Hlt) as [nd Hnd].
  pose proof (count_insert (λ op, closes_at m op = true) (operation <$> h) a
                (operation nd) (NewExpandIntoOp g s r n)) as Hcount.
  rewrite list_lookup_fmap, Hnd in Hcount. specialize (Hcount eq_refl).
  rewrite (list_lookup_total_correct _ _ _ Hnd) in Ev.
  rewrite decide_False in Hcount
    by (unfold closes_at; rewrite Ev; done).
  change (closes_at m (NewExpandIntoOp g s r n)) with (bool_decide (n = m)) in Hcount.
  destruct (decide (m = n)) as [->|Hne].
  - rewrite bool_decide_eq_true_2, decide_True in Hcount by done.
    rewrite decide_True by done. lia.
  - rewrite bool_decide_eq_false_2, decide_False in Hcount by (done || congruence).
    rewrite decide_False by tauto. lia.
Qed.

Lemma merge_nodes_count fuel g root : ∀ nodesToMerge (h h' : list OpNode) m,
  merge_nodes fuel g root nodesToMerge h = Some h' →
  m ∉ nodesToMerge ∨ Node_IncomeDegree g m ≠ 2 →
  count_expand_into m h' = count_expand_into m h.
Proof.
  induction nodesToMerge as [|n rest IH]; intros h h' m; simpl.
  { by intros [= <-]. }
  destruct (_ExecutionPlan_MergeNodes _ _ _ _ _) as [h1|] eqn:E; [|done]. obind.
  intros Hx Hm. rewrite (IH _ _ _ Hx).
  - rewrite (MergeNodes_count _ _ _ _ _ _ m E).
    rewrite decide_False; [lia|]. intros [-> ?]. destruct Hm as [Hm|Hm]; [|done].
    apply Hm. left.
  - destruct Hm as [Hm|Hm]; [left|by right]. by apply not_elem_of_cons in Hm as [_ ?].
Qed.

Lemma merge_nodes_app fuel g root l1 l2 (h : list OpNode) :
  merge_nodes fuel g root (l1 ++ l2) h =
    merge_nodes fuel g root l1 h ≫= merge_nodes fuel g root l2.
Proof.
  revert h. induction l1 as [|n l1 IH]; intros h; simpl; [done|].
  destruct (_ExecutionPlan_MergeNodes _ _ _ _ _); [|done]. obind. apply IH.
Qed.

Lemma Graph_GetNDegreeNodes_NoDup g k : NoDup (Graph_GetNDegreeNodes g k).
Proof. apply NoDup_filter, NoDup_seq. Qed.

Lemma Graph_GetNDegreeNodes_degree g k n :
  n ∈ Graph_GetNDegreeNodes g k → Node_IncomeDegree g n = k.
Proof. by intros [? _]%list_elem_of_filter. Qed.

Section PlanInvariant.
Context `{FilterModule}.

(** The [ExpandInto] operators of a plan, counted by destination: a
  pattern node of in-degree 2 is the destination of one when the
  search of its merge rewrite finds two [ExpandAll] into it in the
  plan as it is then, and of none when the search finds fewer; a
  pattern node of any other in-degree is the destination of none. *)
Lemma expand_into_where_located fuel g ft agg plan :
NewExecutionPlan fuel g ft agg = Some plan →
(∀ m, Node_IncomeDegree g m ≠ 2 → count_expand_into m (heap plan) = 0) ∧
(∀ l1 n l2 p h1 h2,
   Graph_GetNDegreeNodes g 2 = l1 ++ n :: l2 →
   NewExecutionPlan_chains fuel g ft agg = Some p →
   _ExecutionPlan_OptimizeEntryPoints fuel g (root p) (heap p) = Some h1 →
   merge_nodes fuel g (root p) l1 h1 = Some h2 →
   count_expand_into n (heap plan) =
     match MergeNodes_locate fuel h2 n None (Vector_Push [] (root p)) with
     | Some (Some _, Some _) => 1
     | _ => 0
     end).
Proof.
unfold NewExecutionPlan.
destruct (NewExecutionPlan_chains _ _ _ _) as [p|] eqn:Ep; [|done]. obind.
destruct (_ExecutionPlan_OptimizeEntryPoints _ _ _ _) as [h1|] eqn:E1; [|done].
obind.
destruct (merge_nodes _ _ _ _ _) as [h2|] eqn:E2; [|done]. obind.
intros Hplan.
assert (grown h2 (heap plan)) as Hg.
{ destruct ft as [t|]; [|injection Hplan as <-; apply grown_refl].
  destruct (_ExecutionPlan_AddFilters _ _ _) as [[r [h3 ft']]|] eqn:E3; [|done].
  injection Hplan as <-. by apply AddFilters_grown in E3. }
assert (∀ m, count_expand_into m h1 = 0) as Hzero.
{ intros m. rewrite (grown_count _ _ _ (OptimizeEntryPoints_grown _ _ _ _ _ E1)).
  by eapply NewExecutionPlan_chains_count. }
split.
- intros m Hm. rewrite (grown_count _ _ _ Hg).
  rewrite (merge_nodes_count _ _ _ _ _ _ m E2); [done|by right].
- intros l1 n l2 p' h1' h2' Hsplit [= <-] Hh1 Hl1.
  rewrite E1 in Hh1. injection Hh1 as <-.
  rewrite Hsplit, merge_nodes_app, Hl1 in E2. simpl in E2.
  destruct (_ExecutionPlan_MergeNodes _ _ _ _ _) as [h3|] eqn:E3; [|done].
  simpl in E2.
  pose proof (Graph_GetNDegreeNodes_NoDup g 2) as Hnd. rewrite Hsplit in Hnd.
  apply NoDup_app in Hnd as (_ & Hn1 & Hnd). apply NoDup_cons in Hnd as [Hn2 _].
  rewrite (grown_count _ _ _ Hg).
  rewrite (merge_nodes_count _ _ _ _ _ _ n E2) by (by left).
  rewrite (MergeNodes_count _ _ _ _ _ _ n E3).
  rewrite (merge_nodes_count _ _ _ _ _ _ n Hl1), Hzero.
  + rewrite decide_True; [done|]. split; [done|].
    apply (Graph_GetNDegreeNodes_degree g 2). rewrite Hsplit.
    apply elem_of_app. right. left.
  + left. intros Hin. by apply (Hn1 n Hin); left.
Qed.
(** X27.  In every plan that [NewExecutionPlan] returns a pattern node
  is the destination of at most one [ExpandInto], and of none unless
  its in-degree is exactly 2. *)
Theorem ExpandInto_once_per_node fuel g ft agg plan :
NewExecutionPlan fuel g ft agg = Some plan →
∀ m, count_expand_into m (heap plan) ≤ 1 ∧
     (Node_IncomeDegree g m ≠ 2 → count_expand_into m (heap plan) = 0).
Proof.
intros Hplan m.
destruct (expand_into_where_located fuel g ft agg plan Hplan) as [Hnone Hone].
split; [|apply Hnone].
destruct (decide (Node_IncomeDegree g m = 2)) as [Hdeg|Hdeg];
  [|rewrite Hnone by done; lia].
assert (m ∈ Graph_GetNDegreeNodes g 2) as Hin.
{ unfold Graph_GetNDegreeNodes. apply list_elem_of_filter. split; [done|].
  apply elem_of_seq. split; [lia|]. simpl.
  unfold Node_IncomeDegree in Hdeg.
  destruct (graph_nodes g !! m) eqn:E; [|done]. by eapply lookup_lt_Some. }
apply list_elem_of_split in Hin as (l1 & l2 & Hsplit).
unfold NewExecutionPlan in Hplan.
destruct (NewExecutionPlan_chains _ _ _ _) as [p|] eqn:Ep; [|done]. obind in Hplan.
destruct (_ExecutionPlan_OptimizeEntryPoints _ _ _ _) as [h1|] eqn:E1; [|done].
obind in Hplan.
destruct (merge_nodes _ _ _ _ _) as [h2|] eqn:E2; [|done].
rewrite Hsplit, merge_nodes_app in E2.
destruct (merge_nodes fuel g (root p) l1 h1) as [h3|] eqn:E3; [|done].
rewrite (Hone l1 m l2 p h1 h3 Hsplit eq_refl E1 E3).
destruct (MergeNodes_locate _ _ _ _ _) as [[[a|] [b|]]|]; lia.
Qed.
End PlanInvariant.

(** ** The theorems on the example queries *)

(** The driver on the plan for [MATCH (a),(b)] is the loop of §4.6:
    the first call gives [Ok]. *)
Lemma driver_is_consume_op_witness :
  ∃ s',
    consume_op (H := demo_operators)
      (λ n s r s', ∃ fuel, PullFromStreams fuel n s = Some (r, s'))
      0 (plan_a_and_b, demo_world 3) OP_OK s'.
Proof.
  eexists. apply (driver_is_consume_op (H := demo_operators)).
  exists 10. vm_compute. reflexivity.
Defined.

(** The first call of the driver on the plan for [MATCH (a),(b)]
    returns [Ok]. *)
Lemma driver_never_returns_refresh_witness :
  ∃ r s',
    _ExecuteOpNode (H := demo_operators) 10 0 (plan_a_and_b, demo_world 3)
      = Some (r, s') ∧
    (r = OP_OK ∨ r = OP_DEPLETED ∨ r = OP_ERR).
Proof.
  eexists _, _. split; [vm_compute; reflexivity|].
  eapply (driver_never_returns_refresh (H := demo_operators) 10 0
            (plan_a_and_b, demo_world 3)).
  vm_compute. reflexivity.
Defined.

(** The plan for [MATCH (a),(b)] over two nodes runs to depletion and
    returns the four rows of the product. *)
Lemma execute_runs_root_until_not_ok_witness :
  ∃ r s',
    root_run (H := demo_operators)
      (λ s r s', ∃ fuel, _ExecuteOpNode fuel 0 s = Some (r, s'))
      (plan_a_and_b, demo_world 3) r s' ∧
    (r = OP_DEPLETED ∨ r = OP_ERR) ∧
    [[0; 1; 1]; [0; 2; 1]; [0; 1; 2]; [0; 2; 2]] = resultset 0 s'.2.
Proof.
  apply (execute_runs_root_until_not_ok (H := demo_operators)
           (mkPlan 0 pattern_a_and_b None plan_a_and_b) (demo_world 3)).
  exists 20. vm_compute. reflexivity.
Defined.

Lemma demo_reset_idempotent n op (w : DemoWorld) :
  (demo_reset n op (demo_reset n op w).2).2 = (demo_reset n op w).2.
Proof.
  unfold demo_reset. destruct (type op); simpl; try done;
    by rewrite list_insert_insert_eq.
Qed.

Lemma demo_reset_commute n op n' op' (w : DemoWorld) :
  (demo_reset n op (demo_reset n' op' w).2).2 =
  (demo_reset n' op' (demo_reset n op w).2).2.
Proof.
  unfold demo_reset. destruct (type op), (type op'); simpl; try done;
    (destruct (decide (n = n')) as [->|];
     [done|by rewrite list_insert_insert_ne]).
Qed.

(** [ResetStream] on the root of the plan for [MATCH (a),(b)] resets
    the root and the two scans, in this order, and a second
    [ResetStream] changes nothing. *)
Lemma ResetStream_resets_in_preorder_witness :
  preorder 10 plan_a_and_b 0 = Some [0; 1; 2] ∧
  ResetStream (H := demo_operators) 10 0 after_one_row
    = Some (after_one_row.1, resets (H := demo_operators) after_one_row.1 [0; 1; 2] after_one_row.2) ∧
  ResetStream (H := demo_operators) 10 0
      (after_one_row.1, resets (H := demo_operators) after_one_row.1 [0; 1; 2] after_one_row.2)
    = Some (after_one_row.1, resets (H := demo_operators) after_one_row.1 [0; 1; 2] after_one_row.2).
Proof.
  split; [vm_compute; reflexivity|].
  destruct (ResetStream_resets_in_preorder (H := demo_operators) 10
              after_one_row.1 0 [0; 1; 2] after_one_row.2) as [Hreset Hagain].
  - vm_compute. reflexivity.
  - split; [exact Hreset|].
    exact (Hagain demo_reset_idempotent demo_reset_commute).
Defined.

(** C8, as the specification has it, fails: after a call of the driver
    every node of the plan for [MATCH (a),(b)] is [Consuming], and
    [ResetStream] on the root leaves it so; no node is
    [Uninitialized]. *)
Lemma ResetStream_keeps_stream_state :
  ∃ s',
    ResetStream (H := demo_operators) 10 0 after_one_row = Some s' ∧
    state <$> s'.1 = [StreamConsuming; StreamConsuming; StreamConsuming] ∧
    ¬ (∀ x, x < 3 → state (s'.1 !!! x) = StreamUnInitialized).
Proof.
  eexists. split; [vm_compute; reflexivity|]. split; [vm_compute; reflexivity|].
  intros Hall. specialize (Hall 0 ltac:(lia)). vm_compute in Hall. discriminate.
Qed.

Lemma decreasingb_sound rk (h : list OpNode) :
  decreasingb rk h = true → ∀ p c, c ∈ children (h !!! p) → rk c < rk p.
Proof.
  unfold decreasingb. rewrite forallb_forall. intros Hall p c Hc.
  pose proof (inhabitant_children _ _ _ Hc) as Hp.
  specialize (Hall p). rewrite <-list_elem_of_In, elem_of_seq in Hall.
  specialize (Hall ltac:(lia)). rewrite forallb_forall in Hall.
  specialize (Hall c). rewrite <-list_elem_of_In in Hall.
  by apply bool_decide_eq_true in Hall.
Qed.

(** Scan attachment on the plan for [MATCH (x)-->(n)<--(y:L)], whose
    two [ExpandAll] have no child. *)
Lemma every_childless_expand_gets_a_scan_witness :
  ∃ h',
    _ExecutionPlan_OptimizeEntryPoints 3 pattern_x_n_y 0 chains_x_n_y = Some h' ∧
    ∀ x s r d,
      reachable chains_x_n_y 0 x →
      variant (operation (chains_x_n_y !!! x)) = ExpandAll s r d →
      children (chains_x_n_y !!! x) = [] →
      ∃ scan,
        children (h' !!! x) = [scan] ∧
        3 ≤ scan ∧
        operation (h' !!! scan) =
          match graph_nodes pattern_x_n_y !! s ≫= label with
          | Some l => NewNodeByLabelScanOp pattern_x_n_y s l
          | None => NewAllNodeScanOp pattern_x_n_y s
          end ∧
        children (h' !!! scan) = [] ∧
        parents (h' !!! scan) = [x].
Proof.
  apply (every_childless_expand_gets_a_scan pattern_x_n_y chains_x_n_y 0
           (λ y, match y with 0 => 1 | _ => 0 end)).
  - apply closedb_closed. vm_compute. reflexivity.
  - apply decreasingb_sound. vm_compute. reflexivity.
Defined.

(** The search on the plan for [MATCH (x)-->(n)<--(y:L)] finds the
    [ExpandAll] from [y] first and the one from [x] second. *)
Lemma merge_search_is_depth_first_witness :
  dfs_order 10 plan_x_n_y 1 0 = Some [0; 2; 1] ∧
  ∃ k, ∀ fuel', k ≤ fuel' →
    MergeNodes_locate fuel' plan_x_n_y 1 None (Vector_Push [] 0)
      = Some (Some 2, Some 1).
Proof.
  split; [vm_compute; reflexivity|].
  apply (merge_search_is_depth_first plan_x_n_y 1 10 0 [0; 2; 1]).
  vm_compute. reflexivity.
Defined.

(** C3, as the specification has it, fails.  On the plan for
    [MATCH (x)-->(n)<--(y:L)] the search finds the [ExpandAll] from [y]
    (node 2) first, where a breadth-first traversal that takes the
    children in order meets the one from [x] (node 1) first.  On the
    plan for [pattern_two_joins], at the rewrite for [n], the search
    finds node 3, three steps from the root, before node 1, two steps
    from the root, which a breadth-first traversal meets first
    whichever way it takes the children. *)
Lemma merge_search_is_not_breadth_first :
  MergeNodes_locate 10 plan_x_n_y 1 None (Vector_Push [] 0) = Some (Some 2, Some 1) ∧
  first_two plan_x_n_y 1 <$> bfs_order id 10 plan_x_n_y [0] = Some (Some 1, Some 2) ∧
  MergeNodes_locate 20 plan_two_joins_m_merged 4 None (Vector_Push [] 0)
    = Some (Some 3, Some 1) ∧
  first_two plan_two_joins_m_merged 4 <$> bfs_order id 20 plan_two_joins_m_merged [0]
    = Some (Some 1, Some 3) ∧
  first_two plan_two_joins_m_merged 4
    <$> bfs_order reverse 20 plan_two_joins_m_merged [0]
    = Some (Some 1, Some 3).
Proof. vm_compute. repeat split. Qed.

(** In the plan for [MATCH (x)-->(n)<--(y:L)] the node [n] (node 1 of
    the pattern) is the destination of one [ExpandInto], and [x]
    (node 0) of none. *)
Lemma ExpandInto_once_per_node_witness :
  ∃ plan,
    NewExecutionPlan (H := spec_filters) 10 pattern_x_n_y None false = Some plan ∧
    count_expand_into 1 (heap plan) ≤ 1 ∧
    count_expand_into 0 (heap plan) = 0.
Proof.
  destruct (NewExecutionPlan (H := spec_filters) 10 pattern_x_n_y None false)
    as [plan|] eqn:E; [|vm_compute in E; discriminate E].
  exists plan. split; [reflexivity|].
  pose proof (ExpandInto_once_per_node (H := spec_filters) 10 pattern_x_n_y None false
                plan E) as Hm.
  split; [apply (Hm 1)|]. apply (Hm 0). vm_compute. lia.
Defined.

(** C4.  In [MATCH (p)<--(x)-->(n)<--(y)] the node [n] (node 2 of the
    pattern) has in-degree 2, and by the comment above
    [_ExecutionPlan_MergeNodes] it takes part in two expand
    operations, one of which is to become an [ExpandInto].  But the
    chain from [x] follows the first edge of [x] only, to [p]: before
    the rewrite the plan has one [ExpandAll] into [n], not two, and
    after it no [ExpandInto] into [n]. *)
Lemma in_degree_two_without_expand_into :
  Node_IncomeDegree pattern_p_x_n_y 2 = 2 ∧
  count_expand_all 2 (chains_and_scans 10 pattern_p_x_n_y false) = 1 ∧
  (∃ plan, NewExecutionPlan (H := spec_filters) 10 pattern_p_x_n_y None false = Some plan ∧
           count_expand_into 2 (heap plan) = 0).
Proof.
  split; [vm_compute; reflexivity|]. split; [vm_compute; reflexivity|].
  eexists. split; vm_compute; reflexivity.
Qed.

(** C5, as the specification has it, fails.  For
    [MATCH (a)-[:R]->(b) WHERE a.age > 30] the tests are made at the
    scan (node 2), with no alias seen, and at the [ExpandAll] (node 1),
    with [a] seen; the filter tree refers to [a], so the [ExpandAll] is
    the operator at which the filter (node 3) is made.  The filter is
    not inserted between the [ExpandAll] and its parent, the root: the
    root keeps the [ExpandAll] as its child and the [ExpandAll] the
    root as its parent.  The run stays within the allocations of the
    link arrays. *)
Lemma filter_is_not_above_operator :
  let h := heap_of (NewExecutionPlan (H := spec_filters) 10 pattern_a_b
                      (Some where_a_age) false) in
  AddFilters_consults (H := spec_filters) 10 0 (plan_a_b, Some where_a_age)
    = Some [(2, []); (1, ["a"%string])] ∧
  FilterTree_ContainsNode (FilterModule := spec_filters) (Some where_a_age) [] = false ∧
  FilterTree_ContainsNode (FilterModule := spec_filters) (Some where_a_age) ["a"%string]
    = true ∧
  variant (operation (h !!! 3)) = Filter (Some where_a_age) ∧
  children (h !!! 0) = [1] ∧ parents (h !!! 1) = [0] ∧
  ¬ inserted_above h 1 3 ∧
  Mem.contents (memory_of (Mem.NewExecutionPlan (H := spec_filters) true 10
                             pattern_a_b (Some where_a_age) false)) = h.
Proof.
  vm_compute. repeat split. intros [? _]. discriminate.
Qed.

(** ** Filter pushdown: the aliases seen *)

Lemma mapM_mono {A B} (f g : A → option B) (l : list A) ls :
  (∀ a b, a ∈ l → f a = Some b → g a = Some b) →
  mapM f l = Some ls → mapM g l = Some ls.
Proof.
  revert ls. induction l as [|a l IH]; intros ls Hfg; simpl; [done|].
  destruct (f a) as [b|] eqn:E; [|done]. simpl.
  rewrite (Hfg a b (list_elem_of_here _ _) E). simpl.
  destruct (mapM f l) as [ls'|] eqn:E'; [|done]. simpl.
  rewrite (IH ls'); [done| |done]. intros a' b' Ha'. apply Hfg. by right.
Qed.

Lemma mapM_lookup {A B} (f : A → option B) (l : list A) ls i a :
  mapM f l = Some ls → l !! i = Some a → ∃ b, ls !! i = Some b ∧ f a = Some b.
Proof.
  revert ls i. induction l as [|a' l IH]; intros ls i; simpl; [done|].
  destruct (f a') as [b'|] eqn:E; [|done]. simpl.
  destruct (mapM f l) as [ls'|] eqn:E'; [|done]. simpl. intros [= <-].
  destruct i as [|i]; simpl.
  - intros [= <-]. eauto.
  - by apply IH.
Qed.

Lemma mapM_length' {A B} (f : A → option B) (l : list A) ls :
  mapM f l = Some ls → length ls = length l.
Proof.
  revert ls. induction l as [|a l IH]; intros ls; simpl; [by intros [= <-]|].
  destruct (f a); [|done]. simpl. destruct (mapM f l) as [ls'|]; [|done].
  simpl. intros [= <-]. simpl. f_equal. by apply IH.
Qed.

Lemma binds_S f (h : list OpNode) x :
  binds (S f) h x =
    ls ← mapM (binds f h) (reverse (children (h !!! x)));
    Some (concat ls ++ default [] (modifies (operation (h !!! x)))).
Proof. done. Qed.

Lemma elem_of_reverse_inv {A} (l : list A) a : a ∈ reverse l → a ∈ l.
Proof. apply elem_of_reverse. Qed.

Lemma binds_mono f (h : list OpNode) : ∀ f' x l,
  f ≤ f' → binds f h x = Some l → binds f' h x = Some l.
Proof.
  induction f as [|f IH]; intros [|f'] x l Hle; [done|done|lia|]. simpl.
  destruct (mapM (binds f h) _) as [ls|] eqn:E; [|done]. simpl.
  rewrite (mapM_mono _ (binds f' h) _ _ (λ a b _, IH f' a b ltac:(lia)) E). done.
Qed.

Lemma bound_below_mono f f' (h : list OpNode) x l :
  f ≤ f' → bound_below f h x = Some l → bound_below f' h x = Some l.
Proof.
  intros Hle. unfold bound_below.
  destruct (mapM (binds f h) _) as [ls|] eqn:E; [|done]. simpl.
  rewrite (mapM_mono _ (binds f' h) _ _ (λ a b _, binds_mono f h f' a b Hle) E). done.
Qed.

Lemma binds_functional (h : list OpNode) x f l f' l' :
  binds f h x = Some l → binds f' h x = Some l' → l = l'.
Proof.
  intros E E'. apply (binds_mono _ _ (f `max` f')) in E; [|lia].
  apply (binds_mono _ _ (f `max` f')) in E'; [|lia]. congruence.
Qed.

Lemma binds_below f (h : list OpNode) x l :
  binds (S f) h x = Some l ↔
  ∃ l', bound_below f h x = Some l' ∧
        l = l' ++ default [] (modifies (operation (h !!! x))).
Proof.
  simpl. unfold bound_below. destruct (mapM _ _) as [ls|]; simpl.
  - split; [intros [= <-]; eauto|]. by intros (l' & [= <-] & ->).
  - split; [done|]. by intros (l' & ? & _).
Qed.

Lemma binds_child f (h : list OpNode) x l c :
  binds (S f) h x = Some l → c ∈ children (h !!! x) → ∃ lc, binds f h c = Some lc.
Proof.
  simpl. destruct (mapM _ _) as [ls|] eqn:E; [|done]. intros _ Hc.
  apply elem_of_reverse, list_elem_of_lookup_1 in Hc as [i Hi].
  destruct (mapM_lookup _ _ _ _ _ E Hi) as (lc & _ & Hlc). eauto.
Qed.

Lemma binds_under f (h : list OpNode) x l y :
  binds f h x = Some l → reachable h x y → ∃ l', binds f h y = Some l'.
Proof.
  intros Hx. induction 1 as [|z c _ [lz Hz] Hc]; [eauto|].
  destruct f as [|f]; [done|].
  destruct (binds_child _ _ _ _ _ Hz Hc) as [lc Hlc].
  exists lc. eapply binds_mono; [|done]. lia.
Qed.

(** A plan whose bound aliases can be listed has no cycle. *)
Lemma binds_acyclic f (h : list OpNode) : ∀ x l c,
  binds f h x = Some l → c ∈ children (h !!! x) → reachable h c x → False.
Proof.
  induction f as [|f IH]; intros x l c Hx Hc Hr; [done|].
  destruct (binds_child _ _ _ _ _ Hx Hc) as [lc Hlc].
  destruct (binds_under _ _ _ _ _ Hlc Hr) as [l' Hl']. eauto.
Qed.

Lemma reachable_step (h : list OpNode) x c y :
  c ∈ children (h !!! x) → reachable h c y → reachable h x y.
Proof.
  intros Hc. induction 1; [eapply reachable_child; [constructor|done]|].
  by eapply reachable_child.
Qed.

Lemma evolves_refl h : evolves h h.
Proof. repeat split; auto. Qed.

Lemma evolves_trans h1 h2 h3 : evolves h1 h2 → evolves h2 h3 → evolves h1 h3.
Proof.
  intros (Hl1 & Ho1 & Hb1 & Hw1 & Hr1) (Hl2 & Ho2 & Hb2 & Hw2 & Hr2).
  split; [lia|]. split; [|split; [|split]].
  - intros y Hy. rewrite Ho2, Ho1; [done|lia..].
  - intros y l Hy. rewrite Hb1 by done. apply Hb2. lia.
  - intros y l Hy. rewrite Hw1 by done. apply Hw2. lia.
  - intros y z Hy Hz Hr. apply Hr1; [done..|]. apply Hr2; [lia..|done].
Qed.

Section FilterInserted.
Variables (h h' : list OpNode) (x : nat).
Hypothesis Hclosed : closed h.
Hypothesis Hx : x < length h.
Hypothesis Hins : filter_inserted h h' x.

Lemma filter_inserted_closed : closed h'.
Proof using Hclosed Hx Hins.
destruct Hins as (Hlen & Hcx & Hcf & _ & Hoth & _). intros p c Hc.
rewrite Hlen. destruct (decide (p = x)) as [->|Hpx].
- rewrite Hcx in Hc. apply list_elem_of_singleton in Hc as ->. lia.
- destruct (decide (p < length h)) as [Hp|Hp].
  + rewrite Hoth in Hc by done. apply Hclosed in Hc. lia.
  + destruct (decide (p = length h)) as [->|Hne].
    * rewrite Hcf in Hc. apply Hclosed in Hc. lia.
    * apply inhabitant_children in Hc. lia.
Qed.

Lemma filter_inserted_binds_fwd f : ∀ y l,
y < length h → binds f h y = Some l → binds (2 * f) h' y = Some l.
Proof using Hclosed Hx Hins.
destruct Hins as (Hlen & Hcx & Hcf & Hmod & Hoth & Hop).
induction f as [|f IH]; intros y l Hy; [done|].
replace (2 * S f) with (S (S (2 * f))) by lia.
intros Hb. rewrite binds_S in Hb.
destruct (mapM (binds f h) _) as [ls|] eqn:E; [|done]. injection Hb as <-.
assert (mapM (binds (2 * f) h') (reverse (children (h !!! y))) = Some ls) as E'.
{ eapply mapM_mono; [|done]. intros c lc Hc%elem_of_reverse_inv. apply IH.
  by eapply Hclosed. }
destruct (decide (y = x)) as [->|Hyx].
- assert (binds (S (2 * f)) h' (length h) = Some (concat ls)) as HF.
  { rewrite binds_S, Hcf, E', Hmod. simpl. by rewrite app_nil_r. }
  rewrite binds_S, Hcx. cbn [reverse rev_append mapM]. rewrite HF.
  simpl. by rewrite app_nil_r, Hop.
- eapply (binds_mono (S (2 * f))); [lia|].
  rewrite binds_S, Hoth, E', Hop by done. done.
Qed.

Lemma filter_inserted_binds_bwd f : ∀ y l,
binds f h' y = Some l →
(y < length h → binds f h y = Some l) ∧
(y = length h → bound_below f h x = Some l).
Proof using Hclosed Hx Hins.
destruct Hins as (Hlen & Hcx & Hcf & Hmod & Hoth & Hop).
induction f as [|f IH]; intros y l; [done|].
intros Hb. rewrite binds_S in Hb.
destruct (mapM (binds f h') _) as [ls|] eqn:E; [|done]. injection Hb as <-.
split.
- intros Hy. destruct (decide (y = x)) as [->|Hyx].
  + rewrite Hcx in E. simpl in E.
    destruct (binds f h' (length h)) as [lF|] eqn:EF; [|done].
    injection E as <-. simpl. rewrite app_nil_r.
    destruct (IH _ _ EF) as [_ Hbelow]. specialize (Hbelow eq_refl).
    apply binds_below. exists lF. by rewrite Hop.
  + rewrite Hoth in E by done. rewrite binds_S.
    erewrite mapM_mono; [|..|exact E].
    * simpl. by rewrite Hop.
    * intros c lc Hc%elem_of_reverse_inv Hlc. apply (IH _ _ Hlc).
      by eapply Hclosed.
- intros ->. rewrite Hcf in E. rewrite Hmod. simpl. rewrite app_nil_r.
  apply (bound_below_mono f); [lia|]. unfold bound_below.
  erewrite mapM_mono; [|..|exact E]; [done|].
  intros c lc Hc%elem_of_reverse_inv Hlc. apply (IH _ _ Hlc). by eapply Hclosed.
Qed.

Lemma filter_inserted_below_fwd f y l :
y < length h → bound_below f h y = Some l → bound_below (S (2 * f)) h' y = Some l.
Proof using Hclosed Hx Hins.
pose proof filter_inserted_binds_fwd as Hfwd.
destruct Hins as (Hlen & Hcx & Hcf & Hmod & Hoth & Hop).
intros Hy. unfold bound_below.
destruct (mapM (binds f h) _) as [ls|] eqn:E; [|done]. intros [= <-].
assert (mapM (binds (2 * f) h') (reverse (children (h !!! y))) = Some ls) as E'.
{ eapply mapM_mono; [|done]. intros c lc Hc%elem_of_reverse_inv. apply Hfwd.
  by eapply Hclosed. }
destruct (decide (y = x)) as [->|Hyx].
- assert (binds (S (2 * f)) h' (length h) = Some (concat ls)) as HF.
  { rewrite binds_S, Hcf, E', Hmod. simpl. by rewrite app_nil_r. }
  rewrite Hcx. cbn [reverse rev_append mapM]. rewrite HF.
  simpl. by rewrite app_nil_r.
- rewrite Hoth by done.
  erewrite mapM_mono; [|..|exact E']; [done|].
  intros c lc _. apply binds_mono. lia.
Qed.

Lemma filter_inserted_below_bwd f y l :
y < length h → bound_below f h' y = Some l → bound_below f h y = Some l.
Proof using Hclosed Hx Hins.
pose proof filter_inserted_binds_bwd as Hbwd.
destruct Hins as (Hlen & Hcx & Hcf & Hmod & Hoth & Hop).
intros Hy. unfold bound_below at 1.
destruct (mapM (binds f h') _) as [ls|] eqn:E; [|done]. intros [= <-].
destruct (decide (y = x)) as [->|Hyx].
- rewrite Hcx in E. simpl in E.
  destruct (binds f h' (length h)) as [lF|] eqn:EF; [|done].
  injection E as <-. simpl. rewrite app_nil_r.
  by apply (Hbwd _ _ _ EF).
- rewrite Hoth in E by done. unfold bound_below.
  erewrite mapM_mono; [|..|exact E]; [done|].
  intros c lc Hc%elem_of_reverse_inv Hlc. apply (Hbwd _ _ _ Hlc). by eapply Hclosed.
Qed.

Lemma filter_inserted_reachable y z :
y < length h → reachable h' y z →
(z < length h → reachable h y z) ∧ (z = length h → reachable h y x).
Proof using Hclosed Hx Hins.
destruct Hins as (Hlen & Hcx & Hcf & Hmod & Hoth & Hop).
intros Hy. induction 1 as [|w c _ [IHold IHnew] Hc].
{ split; [constructor|lia]. }
destruct (decide (w = x)) as [->|Hwx].
- rewrite Hcx in Hc. apply list_elem_of_singleton in Hc as ->.
  split; [lia|]. intros _. by apply IHold.
- destruct (decide (w < length h)) as [Hw|Hw].
  + rewrite Hoth in Hc by done. pose proof (Hclosed _ _ Hc).
    split; [|lia]. intros _. eapply reachable_child; [by apply IHold|done].
  + destruct (decide (w = length h)) as [->|Hne].
    * rewrite Hcf in Hc. pose proof (Hclosed _ _ Hc).
      split; [|lia]. intros _. eapply reachable_child; [by apply IHnew|done].
    * apply inhabitant_children in Hc. lia.
Qed.

Lemma filter_inserted_evolves : evolves h h'.
Proof using Hclosed Hx Hins.
pose proof Hins as (Hlen & Hcx & Hcf & Hmod & Hoth & Hop).
split; [lia|]. split; [done|]. split; [|split].
- intros y l Hy. split; intros [f Hf].
  + eexists. by apply filter_inserted_binds_fwd.
  + exists f. by apply (filter_inserted_binds_bwd _ _ _ Hf).
- intros y l Hy. split; intros [f Hf].
  + eexists. by apply filter_inserted_below_fwd.
  + exists f. by apply filter_inserted_below_bwd.
- intros y z Hy Hz Hr. by apply (filter_inserted_reachable y z).
Qed.
End FilterInserted.

Section AddFiltersWalk.
Context `{FilterModule}.

Lemma AddFilters_apply_evolves x seen (h : list OpNode) ft :
closed h → x < length h →
closed (AddFilters_apply x seen (h, ft)).1 ∧
evolves h (AddFilters_apply x seen (h, ft)).1 ∧
(∀ y, y < length h →
      children ((AddFilters_apply x seen (h, ft)).1 !!! y) ≠ children (h !!! y) →
      y = x).
Proof.
intros Hcl Hx. unfold AddFilters_apply.
destruct (FilterTree_ContainsNode ft seen).
- cbn [NewOpNode fst snd].
  destruct (PushInBetween_new (NewFilterOp (FilterTree_MinFilterTree ft seen)) h x)
    as (Hlen & Hop & Hc1 & Hc2 & Hp1 & Had & Hoth & Hops & Hpp); [done..|].
  set (h' := _OpNode_PushInBetween _ _ _) in *.
  assert (filter_inserted h h' x) as Hins.
  { repeat split; try done. by rewrite Hop. }
  split; [by eapply filter_inserted_closed|].
  split; [by eapply filter_inserted_evolves|].
  intros y Hy Hne. destruct (decide (y = x)); [done|]. by rewrite Hoth in Hne.
- simpl. split; [done|]. split; [apply evolves_refl|]. by intros y _ ?.
Qed.

Lemma AddFilters_children_none rec x : ∀ i seen st st',
AddFilters_children rec x i seen st = Some (None, st') → st'.2 = None.
Proof.
induction i as [|i IH]; intros seen st st'; simpl; [done|].
destruct (children (st.1 !!! x) !! i) as [c|]; [|done]. obind.
destruct (rec c st) as [[saw st1]|]; [|done]. obind.
destruct (st1.2) eqn:E; [apply IH|]. by intros [= <-].
Qed.

Lemma AddFilters_none f x st st' :
_ExecutionPlan_AddFilters f x st = Some (None, st') → st'.2 = None.
Proof.
destruct f as [|f]; [done|]. simpl.
destruct (AddFilters_children _ _ _ _ _) as [[[seen|] st1]|] eqn:E; [done| |done].
obind. intros [= <-]. by eapply AddFilters_children_none.
Qed.

Lemma evolves_bound_below (h h' : list OpNode) y seen :
evolves h h' → y < length h → (∃ f1, bound_below f1 h y = Some seen) →
y < length h' ∧ ∃ f1, bound_below f1 h' y = Some seen.
Proof.
intros (Hlen & _ & _ & Hbelow & _) Hy Hb. split; [lia|]. by apply (Hbelow y seen Hy).
Qed.

Lemma AddFilters_walk f : ∀ x (h : list OpNode) ft r h' ft' f0 l0,
closed h → x < length h → binds f0 h x = Some l0 →
_ExecutionPlan_AddFilters f x (h, ft) = Some (r, (h', ft')) →
closed h' ∧ evolves h h' ∧
(∀ y, y < length h → children (h' !!! y) ≠ children (h !!! y) → reachable h x y) ∧
(∀ seen, r = Some seen → seen = l0) ∧
(∀ lg, AddFilters_consults f x (h, ft) = Some lg →
       ∀ y seen, (y, seen) ∈ lg → y < length h →
                 ∃ f1, bound_below f1 h y = Some seen) ∧
(∀ lg, AddFilters_consults f x (h, ft) = Some lg →
       ∀ y seen, (y, seen) ∈ lg →
                 y < length h' ∧ ∃ f1, bound_below f1 h' y = Some seen).
Proof.
induction f as [|f IH]; [done|].
intros x h ft r h' ft' [|f0] l0 Hcl Hx Hb Hrun; [done|].
pose proof Hb as Hbx. rewrite binds_S in Hb.
destruct (mapM (binds f0 h) _) as [ls0|] eqn:Els0; [|done]. injection Hb as <-.
set (cs := children (h !!! x)) in *.
assert (length ls0 = length cs) as Hlen0
  by (by rewrite (mapM_length' _ _ _ Els0), length_reverse).
assert (∀ i ht ftt acc r1 h1 ft1,
  i ≤ length cs → closed ht → evolves h ht →
  (∀ y, y < length h → children (ht !!! y) ≠ children (h !!! y) → reachable h x y) →
  children (ht !!! x) = cs →
  acc = concat (take (length cs - i) ls0) →
  AddFilters_children (_ExecutionPlan_AddFilters f) x i acc (ht, ftt)
    = Some (r1, (h1, ft1)) →
  closed h1 ∧ evolves h h1 ∧
  (∀ y, y < length h → children (h1 !!! y) ≠ children (h !!! y) → reachable h x y) ∧
  children (h1 !!! x) = cs ∧
  (∀ seen, r1 = Some seen → seen = concat ls0) ∧
  (∀ lg, consults_children (_ExecutionPlan_AddFilters f) (AddFilters_consults f)
           x i (ht, ftt) = Some lg →
         ∀ y seen, (y, seen) ∈ lg → y < length h →
                   ∃ f1, bound_below f1 h y = Some seen) ∧
  evolves ht h1 ∧
  (∀ lg, consults_children (_ExecutionPlan_AddFilters f) (AddFilters_consults f)
           x i (ht, ftt) = Some lg →
         ∀ y seen, (y, seen) ∈ lg →
                   y < length h1 ∧ ∃ f1, bound_below f1 h1 y = Some seen)) as Hloop.
{ induction i as [|i IHi]; intros ht ftt acc r1 h1 ft1 Hi Hclt Hev Hfr Hcs Hacc.
  { simpl. intros [= <- <- <-]. split_and!; try done; try apply evolves_refl.
    - intros seen [= <-]. rewrite Hacc, Nat.sub_0_r, take_ge by lia. done.
    - intros lg [= <-] y seen Hin. by apply elem_of_nil in Hin.
    - intros lg [= <-] y seen Hin. by apply elem_of_nil in Hin. }
  cbn [AddFilters_children consults_children fst]. rewrite Hcs.
  destruct (lookup_lt_is_Some_2 cs i ltac:(lia)) as [c Hc]. rewrite Hc. obind.
  destruct (_ExecutionPlan_AddFilters f c (ht, ftt)) as [[saw [h2 ft2]]|] eqn:Ec;
    [|done]. obind.
  assert (c ∈ children (h !!! x)) as Hcin by (by eapply list_elem_of_lookup_2).
  assert (c < length h) as Hclt' by (by eapply Hcl).
  set (k := length cs - S i).
  assert (reverse cs !! k = Some c) as Hrc.
  { rewrite reverse_lookup by (unfold k; lia).
    replace (length cs - S k) with i by (unfold k; lia). done. }
  destruct (mapM_lookup _ _ _ _ _ Els0 Hrc) as (lc & Hlc & Hbc).
  pose proof Hev as (Hlen & Hops & Hbinds & Hbelow & Hreach).
  destruct (proj1 (Hbinds c lc Hclt') (ex_intro _ _ Hbc)) as [fc Hbct].
  destruct (IH c ht ftt saw h2 ft2 fc lc Hclt ltac:(lia) Hbct Ec)
    as (Hcl2 & Hev2 & Hfr2 & Hsaw & Hlog2 & Hnow2).
  assert (evolves h h2) as Hev' by (by eapply evolves_trans).
  assert (∀ y, y < length h → children (h2 !!! y) ≠ children (ht !!! y) →
               reachable h c y) as Hfr2'.
  { intros y Hy Hne. apply Hreach; [done..|]. apply Hfr2; [lia|done]. }
  assert (children (h2 !!! x) = cs) as Hcs2.
  { destruct (decide (children (h2 !!! x) = children (ht !!! x))) as [->|Hne];
      [done|].
    destruct (binds_acyclic _ _ _ _ _ Hbx Hcin). by apply Hfr2'. }
  assert (∀ y, y < length h → children (h2 !!! y) ≠ children (h !!! y) →
               reachable h x y) as Hfr'.
  { intros y Hy Hne.
    destruct (decide (children (ht !!! y) = children (h !!! y))) as [E|Hne'].
    - eapply reachable_step; [done|]. apply Hfr2'; [done|]. by rewrite E.
    - by apply Hfr. }
  assert (∀ lgc y seen, AddFilters_consults f c (ht, ftt) = Some lgc →
            (y, seen) ∈ lgc → y < length h →
            ∃ f1, bound_below f1 h y = Some seen) as Hlogc.
  { intros lgc y seen Hlgc Hin Hy.
    apply (Hbelow y seen Hy). eapply Hlog2; [done..|lia]. }
  destruct ft2 as [t2|].
  - destruct saw as [s|]; [|by apply AddFilters_none in Ec].
    specialize (Hsaw s eq_refl) as ->. simpl.
    intros Hrest.
    destruct (IHi h2 (Some t2) (acc ++ lc) r1 h1 ft1)
      as (?&?&?&?&?&Hlog'&Hev21&Hnow');
      [lia|done..| |done|].
    { rewrite Hacc. replace (length cs - i) with (S k) by (unfold k; lia).
      rewrite (take_S_r _ _ _ Hlc), concat_app. simpl. by rewrite app_nil_r. }
    split_and!; try done.
    + intros lg. destruct (AddFilters_consults f c (ht, ftt)) as [lgc|] eqn:Elgc;
        [|done]. obind.
      destruct (consults_children _ _ _ _ _) as [lg'|] eqn:Elg'; [|done].
      obind. intros [= <-] y seen [Hin|Hin]%elem_of_app Hy.
      * by eapply Hlogc.
      * by eapply Hlog'.
    + by eapply evolves_trans.
    + intros lg. destruct (AddFilters_consults f c (ht, ftt)) as [lgc|] eqn:Elgc;
        [|done]. obind.
      destruct (consults_children _ _ _ _ _) as [lg'|] eqn:Elg'; [|done].
      obind. intros [= <-] y seen [Hin|Hin]%elem_of_app.
      * destruct (Hnow2 lgc eq_refl y seen Hin) as [Hy2 Hb2].
        by apply (evolves_bound_below h2 h1).
      * by eapply Hnow'.
  - simpl. intros [= <- <- <-]. split_and!; try done.
    + intros lg. destruct (AddFilters_consults f c (ht, ftt)) as [lgc|] eqn:Elgc;
        [|done]. obind. intros [= <-] y seen Hin Hy. by eapply Hlogc.
    + intros lg. destruct (AddFilters_consults f c (ht, ftt)) as [lgc|] eqn:Elgc;
        [|done]. obind. intros [= <-] y seen Hin. by eapply Hnow2. }
cbn [_ExecutionPlan_AddFilters AddFilters_consults fst] in Hrun |- *.
unfold childCount in *. fold cs in Hrun |- *.
destruct (AddFilters_children _ _ _ _ _) as [[r1 [h1 ft1]]|] eqn:Eloop; [|done].
obind. obind in Hrun.
destruct (Hloop (length cs) h ft [] r1 h1 ft1)
  as (Hcl1 & Hev1 & Hfr1 & Hcs1 & Hr1 & Hlog1 & _ & Hnow1);
  [done|done|apply evolves_refl|by intros y _ ?|done
  |by rewrite Nat.sub_diag|done|].
destruct r1 as [seen|].
- specialize (Hr1 seen eq_refl) as ->.
  pose proof Hev1 as (Hlen1 & Hops1 & _).
  destruct (AddFilters_apply_evolves x (concat ls0) h1 ft1 Hcl1 ltac:(lia))
    as (Hcl2 & Hev2 & Hfr2).
  destruct (AddFilters_apply x (concat ls0) (h1, ft1)) as [h2 ft2] eqn:Eapply.
  injection Hrun as <- <- <-. simpl in *.
  assert (evolves h h2) as Hev by (by eapply evolves_trans).
  assert (∃ f1, bound_below f1 h x = Some (concat ls0)) as Hbx0.
  { exists f0. unfold bound_below. fold cs. by rewrite Els0. }
  split; [done|]. split; [done|]. split; [|split; [|split]].
  + intros y Hy Hne.
    destruct (decide (children (h1 !!! y) = children (h !!! y))) as [E|Hne'].
    * rewrite <-E in Hne. apply Hfr2 in Hne as ->; [constructor|lia].
    * by apply Hfr1.
  + intros seen [= <-]. destruct Hev as (_ & Hops & _). by rewrite Hops.
  + intros lg. destruct (consults_children _ _ _ _ _) as [lgc|] eqn:Elgc; [|done].
    obind. intros [= <-] y seen [Hin|Hin]%elem_of_app Hy.
    * by eapply Hlog1.
    * by apply list_elem_of_singleton in Hin as [= -> ->].
  + intros lg. destruct (consults_children _ _ _ _ _) as [lgc|] eqn:Elgc; [|done].
    obind. intros [= <-] y seen [Hin|Hin]%elem_of_app.
    * destruct (Hnow1 lgc eq_refl y seen Hin) as [Hy1 Hb1].
      by apply (evolves_bound_below h1 h2).
    * apply list_elem_of_singleton in Hin as [= -> ->].
      by apply (evolves_bound_below h h2).
- injection Hrun as <- <- <-. split_and!; try done.
  + intros lg. destruct (consults_children _ _ _ _ _) as [lgc|] eqn:Elgc; [|done].
    obind. intros [= <-]. by eapply Hlog1.
  + intros lg. destruct (consults_children _ _ _ _ _) as [lgc|] eqn:Elgc; [|done].
    obind. intros [= <-]. by eapply Hnow1.
Qed.

End AddFiltersWalk.



(** * Further properties of the code *)

(** ** Freeing the plan *)

Lemma Free_children_spec (rec : nat → list nat → option FreeResult)
    (post : nat → option (list nat))
    (IH : ∀ op freed l, post op = Some l →
       (NoDup (freed ++ l) → rec op freed = Some (Freed (freed ++ l))) ∧
       (¬ NoDup (freed ++ l) → NoDup freed →
        ∃ x fr, rec op freed = Some (UseAfterFree x fr) ∧ x ∈ fr)) :
  ∀ cs freed ls, mapM post cs = Some ls →
    (NoDup (freed ++ concat ls) →
     Free_children rec cs freed = Some (Freed (freed ++ concat ls))) ∧
    (¬ NoDup (freed ++ concat ls) → NoDup freed →
     ∃ x fr, Free_children rec cs freed = Some (UseAfterFree x fr) ∧ x ∈ fr).
Proof.
  induction cs as [|c cs IHcs]; intros freed ls Hls.
  - injection Hls as <-. simpl. rewrite app_nil_r. split; [done|].
    intros Hnd Hfreed. done.
  - simpl in Hls. destruct (post c) as [l|] eqn:El; [|done]. simpl in Hls.
    destruct (mapM post cs) as [ls'|] eqn:Els; [|done].
    injection Hls as <-. simpl. rewrite app_assoc.
    destruct (IH c freed l El) as [Hok Hbad].
    destruct (IHcs (freed ++ l) ls' eq_refl) as [Hok' Hbad'].
    split.
    + intros Hnd. rewrite Hok by (by apply NoDup_app in Hnd as (? & _ & _)).
      obind. by apply Hok'.
    + intros Hnd Hfreed. destruct (decide (NoDup (freed ++ l))) as [Hl|Hl].
      * rewrite (Hok Hl). obind. by apply Hbad'.
      * destruct (Hbad Hl Hfreed) as (x & fr & -> & Hx). obind. eauto.
Qed.

Lemma OpNode_Free_spec h fuel : ∀ op freed l,
  postorder fuel h op = Some l →
  (NoDup (freed ++ l) → OpNode_Free fuel h op freed = Some (Freed (freed ++ l))) ∧
  (¬ NoDup (freed ++ l) → NoDup freed →
   ∃ x fr, OpNode_Free fuel h op freed = Some (UseAfterFree x fr) ∧ x ∈ fr).
Proof.
  induction fuel as [|f IH]; intros op freed l; [done|]. simpl.
  destruct (mapM _ _) as [ls|] eqn:Els; [|done]. simpl. intros [= <-].
  destruct (Free_children_spec (OpNode_Free f h) (postorder f h) IH _ freed _ Els)
    as [Hok Hbad].
  rewrite app_assoc. split.
  - intros Hnd. apply NoDup_app in Hnd as (Hnd & Hop & _).
    rewrite decide_False.
    2:{ intros Hin. apply (Hop op); [apply elem_of_app; by left|apply list_elem_of_here]. }
    rewrite (Hok Hnd). obind.
    rewrite decide_False; [done|].
    intros Hin. apply (Hop op); [done|apply list_elem_of_here].
  - intros Hnd Hfreed. destruct (decide (op ∈ freed)) as [Hin|Hin]; [eauto|].
    destruct (decide (NoDup (freed ++ concat ls))) as [Hl|Hl].
    + rewrite (Hok Hl). obind. destruct (decide (op ∈ freed ++ concat ls)); [eauto|].
      exfalso. apply Hnd. apply NoDup_app. split_and!; [done| |apply NoDup_singleton].
      intros x Hx ->%list_elem_of_singleton. done.
    + destruct (Hbad Hl Hfreed) as (x & fr & -> & Hx). obind. eauto.
Qed.

Lemma elem_of_concat_mapM {A B} (f : A → option (list B)) (cs : list A) ls x :
  mapM f cs = Some ls →
  x ∈ concat ls ↔ ∃ c l, c ∈ cs ∧ f c = Some l ∧ x ∈ l.
Proof.
  revert ls. induction cs as [|c cs IH]; intros ls; simpl.
  - intros [= <-]. simpl. split; [by intros ?%elem_of_nil|].
    by intros (? & ? & ?%elem_of_nil & _).
  - destruct (f c) as [l|] eqn:El; [|done]. simpl.
    destruct (mapM f cs) as [ls'|] eqn:Els; [|done]. simpl. intros [= <-].
    simpl. rewrite elem_of_app, (IH ls' eq_refl). split.
    + intros [Hx|(c' & l' & Hc' & Hl' & Hx)].
      * exists c, l. split_and!; [apply list_elem_of_here|done..].
      * exists c', l'. split_and!; [by apply list_elem_of_further|done..].
    + intros (c' & l' & Hc' & Hl' & Hx).
      apply elem_of_cons in Hc' as [->|Hc'].
      * left. congruence.
      * right. eauto.
Qed.

Lemma postorder_reachable h fuel : ∀ op l,
  postorder fuel h op = Some l → ∀ x, x ∈ l ↔ reachable h op x.
Proof.
  induction fuel as [|f IH]; intros op l; [done|]. simpl.
  destruct (mapM _ _) as [ls|] eqn:Els; [|done]. simpl. intros [= <-] x.
  rewrite elem_of_app, (elem_of_concat_mapM _ _ _ _ Els), list_elem_of_singleton.
  split.
  - intros [(c & l & Hc & Hl & Hx)| ->]; [|constructor].
    eapply reachable_step; [done|]. by apply (IH c l).
  - intros Hr. apply reachable_front in Hr as [->|(c & Hc & Hr)]; [by right|].
    left. apply list_elem_of_lookup_1 in Hc as Hi. destruct Hi as [i Hi].
    destruct (mapM_lookup _ _ _ _ _ Els Hi) as (l & _ & Hl).
    exists c, l. split_and!; [done..|]. by apply (IH c l).
Qed.

(** X1.  [ExecutionPlanFree] on a plan in which no two paths from the root
    meet frees every operator node under the root once, a node after
    the nodes below it and the root last, and no other node. *)
Theorem ExecutionPlanFree_frees_tree_once fuel plan l :
  postorder fuel (heap plan) (root plan) = Some l → NoDup l →
  ExecutionPlanFree fuel plan = Some (Freed l) ∧
  ∀ x, x ∈ l ↔ reachable (heap plan) (root plan) x.
Proof.
  intros Hl Hnd. split; [|by apply (postorder_reachable _ fuel)].
  by apply (OpNode_Free_spec _ _ _ [] _ Hl).
Qed.

(** X2.  [ExecutionPlanFree] on a plan in which two paths from the root meet
    at a node comes to a node that it has freed before, and reads its
    fields. *)
Theorem ExecutionPlanFree_shared_node fuel plan l :
  postorder fuel (heap plan) (root plan) = Some l → ¬ NoDup l →
  ∃ x freed, ExecutionPlanFree fuel plan = Some (UseAfterFree x freed) ∧ x ∈ freed.
Proof.
  intros Hl Hnd. by apply (OpNode_Free_spec _ _ _ [] _ Hl); [|apply NoDup_nil].
Qed.

(** The plan for [MATCH (a)-[:R]->(b) WHERE a.age > 30] is a chain of
    four nodes, freed from the scan up. *)
Lemma ExecutionPlanFree_frees_tree_once_witness :
  ∃ plan,
    NewExecutionPlan (H := spec_filters) 10 pattern_a_b (Some where_a_age) false
      = Some plan ∧
    ExecutionPlanFree 10 plan = Some (Freed [2; 3; 1; 0]).
Proof.
  eexists. split; [vm_compute; reflexivity|].
  eapply proj1, (ExecutionPlanFree_frees_tree_once 10 _ [2; 3; 1; 0]).
  - vm_compute. reflexivity.
  - refine (bool_decide_unpack _ _). vm_compute. exact I.
Defined.

(** In the plan for [MATCH (x)-->(n)-->(m), (y)-->(n)] the merge
    rewrite has put the [ExpandInto] into [n] (node 3) under both
    expansions from [n] to [m]; it is freed under the first and met
    again under the second. *)
Lemma ExecutionPlanFree_shared_node_witness :
  ∃ plan,
    NewExecutionPlan (H := spec_filters) 20 pattern_shared None false = Some plan ∧
    parents (heap plan !!! 3) = [4; 2] ∧
    ∃ x freed, ExecutionPlanFree 20 plan = Some (UseAfterFree x freed) ∧ x ∈ freed.
Proof.
  eexists. split; [vm_compute; reflexivity|]. split; [vm_compute; reflexivity|].
  eapply (ExecutionPlanFree_shared_node 20 _ _).
  - vm_compute. reflexivity.
  - intros Hnd. apply (bool_decide_pack _) in Hnd. vm_compute in Hnd. exact Hnd.
Defined.

(** ** Printing the plan *)

Lemma String_length_app (s1 s2 : string) :
  String.length (s1 +:+ s2) = String.length s1 + String.length s2.
Proof.
  induction s1 as [|a s1 IH]; [done|].
  change (String a s1 +:+ s2) with (String a (s1 +:+ s2)). simpl. by rewrite IH.
Qed.

Lemma String_app_assoc (s1 s2 s3 : string) :
  (s1 +:+ s2) +:+ s3 = s1 +:+ (s2 +:+ s3).
Proof.
  induction s1 as [|a s1 IH]; [done|].
  change (String a s1 +:+ s2) with (String a (s1 +:+ s2)).
  change (String a (s1 +:+ s2) +:+ s3) with (String a ((s1 +:+ s2) +:+ s3)).
  by rewrite IH.
Qed.

Lemma String_app_empty_r (s : string) : s +:+ EmptyString = s.
Proof.
  induction s as [|a s IH]; [done|].
  change (String a s +:+ EmptyString) with (String a (s +:+ EmptyString)).
  by rewrite IH.
Qed.

Lemma strings_concat_app (l1 l2 : list string) :
  strings_concat (l1 ++ l2) = strings_concat l1 +:+ strings_concat l2.
Proof.
  induction l1 as [|s l1 IH]; [done|]. simpl.
  change (strings_concat (s :: l1)) with (s +:+ strings_concat l1).
  change (strings_concat (s :: l1 ++ l2)) with (s +:+ strings_concat (l1 ++ l2)).
  by rewrite IH, String_app_assoc.
Qed.

Section PrintFacts.
Variable name : OpBase → string.
Variable h : list OpNode.

Lemma Print_children_spec (rec : nat → option StrPlan → option PrintResult)
    (out : nat → option (list (nat * nat)))
    (IH : ∀ c sp l, out c = Some l →
       (Forall (fits name h) l →
        ∃ p, rec c sp = Some (Printed p) ∧
             str p = from_option str EmptyString sp
                     +:+ strings_concat (line name h <$> l) ∧
             String.length (str p) < size p) ∧
       (¬ Forall (fits name h) l → rec c sp = Some StrOpOverrun)) :
  ∀ cs p0 ls, mapM out cs = Some ls →
    String.length (str p0) < size p0 →
    (Forall (fits name h) (concat ls) →
     ∃ p, Print_children rec cs p0 = Some (Printed p) ∧
          str p = str p0 +:+ strings_concat (line name h <$> concat ls) ∧
          String.length (str p) < size p) ∧
    (¬ Forall (fits name h) (concat ls) →
     Print_children rec cs p0 = Some StrOpOverrun).
Proof.
  induction cs as [|c cs IHcs]; intros p0 ls Hls Hp0.
  - injection Hls as <-. simpl. split; [|intros []; constructor].
    intros _. exists p0. by rewrite String_app_empty_r.
  - simpl in Hls. destruct (out c) as [l|] eqn:El; [|done]. simpl in Hls.
    destruct (mapM out cs) as [ls'|] eqn:Els; [|done].
    injection Hls as <-. simpl.
    destruct (IH c (Some p0) l El) as [Hok Hbad]. split.
    + intros [Hl Hls']%Forall_app. destruct (Hok Hl) as (p1 & -> & Hs1 & Hz1).
      obind. destruct (IHcs p1 ls' eq_refl Hz1) as [Hok' _].
      destruct (Hok' Hls') as (p2 & -> & Hs2 & Hz2). exists p2.
      split_and!; [done| |done].
      rewrite Hs2, Hs1, fmap_app, strings_concat_app, String_app_assoc. done.
    + intros Hnot. destruct (decide (Forall (fits name h) l)) as [Hl|Hl].
      * destruct (Hok Hl) as (p1 & -> & Hs1 & Hz1). obind.
        destruct (IHcs p1 ls' eq_refl Hz1) as [_ Hbad']. apply Hbad'.
        intros Hls'. apply Hnot, Forall_app. done.
      * by rewrite (Hbad Hl).
Qed.

Lemma _ExecutionPlanPrint_spec fuel : ∀ op d sp l,
  outline fuel h op d = Some l →
  (Forall (fits name h) l →
   ∃ p, _ExecutionPlanPrint name fuel h op sp (4 * d) = Some (Printed p) ∧
        str p = from_option str EmptyString sp
                +:+ strings_concat (line name h <$> l) ∧
        String.length (str p) < size p) ∧
  (¬ Forall (fits name h) l →
   _ExecutionPlanPrint name fuel h op sp (4 * d) = Some StrOpOverrun).
Proof.
  induction fuel as [|f IH]; intros op d sp l; [done|].
  cbn [outline _ExecutionPlanPrint].
  destruct (mapM _ _) as [ls|] eqn:Els; [|done]. obind. intros [= <-].
  set (strOp := strOp_of (4 * d) (name (operation (h !!! op)))).
  assert (fits name h (d, op) ↔ ¬ 512 < String.length strOp + 1) as Hfit.
  { unfold fits, line. cbn [fst snd]. fold strOp. lia. }
  set (p := match sp with
            | Some p => mkStrPlan (String.length (str p) + String.length strOp + 2) (str p)
            | None => mkStrPlan (String.length strOp + 1) EmptyString
            end).
  assert (¬ size p < String.length (str p) + String.length strOp + 1) as Hsize.
  { unfold p. destruct sp; simpl; lia. }
  assert (str p = from_option str EmptyString sp) as Hstr.
  { unfold p. by destruct sp. }
  replace (4 * d + 4) with (4 * S d) by lia.
  destruct (Print_children_spec
              (λ c sp, _ExecutionPlanPrint name f h c sp (4 * S d))
              (λ c, outline f h c (S d))
              (λ c sp l, IH c (S d) sp l)
              (children (h !!! op)) (mkStrPlan (size p) (str p +:+ strOp)) ls Els)
    as [Hok Hbad].
  { simpl. rewrite String_length_app. unfold p. destruct sp; simpl; lia. }
  split.
  - intros [Hop Hls]%Forall_cons. rewrite decide_False by (by apply Hfit).
    rewrite decide_False by done.
    destruct (Hok Hls) as (p' & -> & Hs & Hz). exists p'. split_and!; [done| |done].
    rewrite Hs. simpl. rewrite Hstr.
    change (strings_concat (line name h (d, op) :: (line name h <$> concat ls)))
      with (strOp +:+ strings_concat (line name h <$> concat ls)).
    by rewrite String_app_assoc.
  - intros Hnot. destruct (decide (512 < String.length strOp + 1)) as [|Hop]; [done|].
    rewrite decide_False by done. apply Hbad. intros Hls. apply Hnot.
    constructor; [by apply Hfit|done].
Qed.

Lemma Print_children_no_overrun (rec : nat → option StrPlan → option PrintResult) :
  (∀ c sp, rec c sp ≠ Some StrPlanOverrun) →
  ∀ cs p, Print_children rec cs p ≠ Some StrPlanOverrun.
Proof.
  intros Hrec. induction cs as [|c cs IH]; intros p; [done|]. simpl.
  specialize (Hrec c (Some p)). destruct (rec c (Some p)) as [[p'| |]|]; try done.
  apply IH.
Qed.

Lemma _ExecutionPlanPrint_no_overrun fuel : ∀ op sp ident,
  _ExecutionPlanPrint name fuel h op sp ident ≠ Some StrPlanOverrun.
Proof.
  induction fuel as [|f IH]; intros op sp ident; [done|]. simpl.
  case_decide; [done|]. rewrite decide_False by (destruct sp; simpl; lia).
  apply Print_children_no_overrun. intros c sp'. apply IH.
Qed.

Lemma outline_preorder fuel : ∀ op d l,
  outline fuel h op d = Some l → preorder fuel h op = Some l.*2.
Proof.
  induction fuel as [|f IH]; intros op d l; [done|]. simpl.
  destruct (mapM (λ c, outline f h c (S d)) _) as [ls|] eqn:Els; [|done].
  simpl. intros [= <-].
  assert (mapM (preorder f h) (children (h !!! op)) = Some ((λ l, l.*2) <$> ls))
    as ->.
  { revert ls Els. induction (children (h !!! op)) as [|c cs IHcs]; intros ls.
    - by intros [= <-].
    - simpl. destruct (outline f h c (S d)) as [l|] eqn:El; [|done]. simpl.
      destruct (mapM _ cs) as [ls'|] eqn:Els'; [|done]. simpl. intros [= <-].
      rewrite (IH _ _ _ El). simpl. by rewrite (IHcs ls' eq_refl). }
  simpl. f_equal. f_equal. clear Els. induction ls as [|l ls IHls]; [done|].
  rewrite fmap_cons. cbn [concat]. by rewrite fmap_app, IHls.
Qed.
End PrintFacts.

(** X3.  [ExecutionPlanPrint] gives one line for every operator of the plan
    in pre-order (an operator as often as there are paths to it from
    the root), the name of the operator after four spaces for every
    level below the root, as long as every line fits in the 512 bytes
    of [strOp]; the allocation it returns holds the string and its
    terminator. *)
Theorem ExecutionPlanPrint_lists_preorder name fuel plan l :
  outline fuel (heap plan) (root plan) 0 = Some l →
  Forall (fits name (heap plan)) l →
  ∃ p, ExecutionPlanPrint name fuel plan = Some (Printed p) ∧
       str p = strings_concat (line name (heap plan) <$> l) ∧
       String.length (str p) < size p ∧
       preorder fuel (heap plan) (root plan) = Some l.*2.
Proof.
  intros Hl Hfit.
  destruct (_ExecutionPlanPrint_spec name (heap plan) fuel (root plan) 0 None l Hl)
    as [Hok _].
  destruct (Hok Hfit) as (p & Hp & Hs & Hz). exists p.
  split_and!; [done|done|done|]. by eapply outline_preorder.
Qed.

(** X4.  When the line of an operator, with its terminator, is longer than
    512 bytes, [sprintf] writes past the end of [strOp]. *)
Theorem ExecutionPlanPrint_overruns_strOp name fuel plan l :
  outline fuel (heap plan) (root plan) 0 = Some l →
  ¬ Forall (fits name (heap plan)) l →
  ExecutionPlanPrint name fuel plan = Some StrOpOverrun.
Proof.
  intros Hl Hfit.
  by apply (_ExecutionPlanPrint_spec name (heap plan) fuel (root plan) 0 None l Hl).
Qed.

(** X5.  [strcat] never writes past the allocation of [*strPlan]: the sizes
    given to [calloc] and [realloc] are enough for the string and its
    terminator, whatever the plan and the names of its operators. *)
Theorem ExecutionPlanPrint_never_overruns_strPlan name fuel plan :
  ExecutionPlanPrint name fuel plan ≠ Some StrPlanOverrun.
Proof. apply _ExecutionPlanPrint_no_overrun. Qed.

(** The plan for [MATCH (a)-[:R]->(b) WHERE a.age > 30], printed. *)
Lemma ExecutionPlanPrint_lists_preorder_witness :
  ∃ plan p,
    NewExecutionPlan (H := spec_filters) 10 pattern_a_b (Some where_a_age) false
      = Some plan ∧
    ExecutionPlanPrint demo_name 10 plan = Some (Printed p) ∧
    str p = strings_concat
              [ "Produce Results"%string; newline;
                "    Expand All"%string; newline;
                "        Filter"%string; newline;
                "            All Node Scan"%string; newline ].
Proof.
  eexists.
  destruct (ExecutionPlanPrint_lists_preorder demo_name 10
              (mkPlan 0 pattern_a_b None
                 (heap_of (NewExecutionPlan (H := spec_filters) 10 pattern_a_b
                             (Some where_a_age) false)))
              [(0, 0); (1, 1); (2, 3); (3, 2)])
    as (p & Hp & Hs & _).
  - vm_compute. reflexivity.
  - refine (bool_decide_unpack _ _). vm_compute. exact I.
  - exists p. split; [vm_compute; reflexivity|]. split; [exact Hp|].
    rewrite Hs. vm_compute. reflexivity.
Defined.

(** In the plan for a path of 130 hops the scan is 131 levels below
    the root: its line does not fit in [strOp]. *)
Lemma ExecutionPlanPrint_overruns_strOp_witness :
  ∃ plan,
    NewExecutionPlan (H := spec_filters) 300 (pattern_path 130) None false
      = Some plan ∧
    ExecutionPlanPrint demo_name 300 plan = Some StrOpOverrun.
Proof.
  eexists. split; [vm_compute; reflexivity|].
  eapply (ExecutionPlanPrint_overruns_strOp demo_name 300 _ _).
  - vm_compute. reflexivity.
  - intros Hfit. apply (bool_decide_pack _) in Hfit. vm_compute in Hfit. exact Hfit.
Defined.

(** ** Links between operator nodes *)

Lemma occurrences_app x (l1 l2 : list nat) :
  occurrences x (l1 ++ l2) = occurrences x l1 + occurrences x l2.
Proof. unfold occurrences. by rewrite filter_app, length_app. Qed.

Lemma occurrences_cons x y (l : list nat) :
  occurrences x (y :: l) = (if decide (y = x) then 1 else 0) + occurrences x l.
Proof. unfold occurrences. rewrite filter_cons. by case_decide. Qed.

Lemma occurrences_singleton x y :
  occurrences x [y] = if decide (y = x) then 1 else 0.
Proof. rewrite occurrences_cons. unfold occurrences. simpl. lia. Qed.

Lemma occurrences_pos x (l : list nat) : 0 < occurrences x l ↔ x ∈ l.
Proof.
  induction l as [|y l IH]; [unfold occurrences; simpl; split; [lia|by intros ?%elem_of_nil]|].
  rewrite occurrences_cons, elem_of_cons. case_decide; subst.
  - split; [by left|lia].
  - rewrite <-IH. split; [intros; right; lia|intros [->|?]; [done|lia]].
Qed.

Lemma occurrences_zero x (l : list nat) : occurrences x l = 0 ↔ x ∉ l.
Proof. rewrite <-occurrences_pos. lia. Qed.

Lemma occurrences_remove_first x y (l : list nat) :
  occurrences x (remove_first y l) =
    if decide (x = y) then pred (occurrences x l) else occurrences x l.
Proof.
  induction l as [|z l IH]; simpl; [by case_decide|].
  destruct (decide (z = y)) as [->|Hz].
  - rewrite occurrences_cons. repeat case_decide; subst; simpl; try done; lia.
  - rewrite !occurrences_cons, IH. repeat case_decide; subst; try done; lia.
Qed.

Lemma contains_elem_of x (l : list nat) : contains x l = true ↔ x ∈ l.
Proof.
  induction l as [|y l IH]; simpl; [split; [done|by intros ?%elem_of_nil]|].
  rewrite elem_of_cons. case_decide; subst; [by split; [left|]|].
  rewrite IH. split; [by right|intros [->|?]; done].
Qed.

Lemma linked_in_heap (h : list OpNode) p c :
  linked h → c ∈ children (h !!! p) → p < length h ∧ c < length h.
Proof.
  intros Hl Hc. split; [by eapply inhabitant_children|].
  destruct (decide (c < length h)) as [|Hge]; [done|].
  apply occurrences_pos in Hc. rewrite (Hl p c) in Hc.
  rewrite (lookup_total_ge h c) in Hc by lia. unfold occurrences in Hc. simpl in Hc. lia.
Qed.

Lemma linked_parent_in_heap (h : list OpNode) p c :
  linked h → p ∈ parents (h !!! c) → p < length h ∧ c < length h.
Proof.
  intros Hl Hp. apply occurrences_pos in Hp. rewrite <-(Hl p c) in Hp.
  apply occurrences_pos in Hp. by apply linked_in_heap.
Qed.

Lemma linked_closed (h : list OpNode) : linked h → closed h.
Proof. intros Hl p c Hc. by eapply linked_in_heap. Qed.

Lemma linked_AddChild parent child (h : list OpNode) :
  linked h → parent < length h → child < length h →
  linked (_OpNode_AddChild parent child h).
Proof.
  intros Hl Hp Hc p c.
  rewrite AddChild_children, AddChild_parents by done.
  specialize (Hl p c).
  repeat case_decide; subst; rewrite ?occurrences_app, ?occurrences_singleton;
    repeat case_decide; subst; try done; lia.
Qed.

Lemma RemoveNode_unlinked a b (h : list OpNode) :
  b ∉ children (h !!! a) → a ∉ parents (h !!! b) → _OpNode_RemoveNode a b h = h.
Proof.
  intros Hb Ha. unfold _OpNode_RemoveNode.
  assert (∀ q (g : list OpNode) (f : OpNode → OpNode),
            f (g !!! q) = g !!! q → update q f g = g) as Hid.
  { intros q g f Hf. unfold update. rewrite Hf.
    destruct (decide (q < length g)) as [Hq|Hq].
    - apply list_insert_id. by apply list_lookup_lookup_total_lt.
    - apply list_insert_ge. lia. }
  rewrite (Hid a).
  2:{ rewrite remove_first_notin by done. by destruct (h !!! a). }
  apply Hid. rewrite remove_first_notin by done. by destruct (h !!! b).
Qed.

Lemma linked_RemoveNode a b (h : list OpNode) :
  linked h → linked (_OpNode_RemoveNode a b h).
Proof.
  intros Hl.
  destruct (decide (b ∈ children (h !!! a))) as [Hb|Hb].
  - destruct (linked_in_heap _ _ _ Hl Hb) as [Ha' Hb'].
    intros p c. rewrite RemoveNode_children, RemoveNode_parents by done.
    specialize (Hl p c).
    repeat case_decide; subst; rewrite ?occurrences_remove_first;
      repeat case_decide; subst; try done; lia.
  - rewrite RemoveNode_unlinked; [done..|].
    intros Ha. apply Hb. apply occurrences_pos. rewrite (Hl a b).
    by apply occurrences_pos.
Qed.

Lemma linked_NewOpNode op (h : list OpNode) : linked h → linked (NewOpNode op h).2.
Proof.
  intros Hl p c. simpl.
  assert (∀ q, children ((h ++ [mkOpNode op [] [] StreamUnInitialized]) !!! q) =
               children (h !!! q) ∧
               parents ((h ++ [mkOpNode op [] [] StreamUnInitialized]) !!! q) =
               parents (h !!! q)) as Hq.
  { intros q. destruct (decide (q < length h)) as [Hlt|Hge].
    - by rewrite lookup_total_app_l.
    - rewrite (lookup_total_ge h q) by lia.
      destruct (decide (q = length h)) as [->|Hne].
      + by rewrite lookup_total_app_r, Nat.sub_diag by lia.
      + rewrite lookup_total_ge; [done|]. rewrite length_app. simpl. lia. }
  destruct (Hq p) as [-> _]. destruct (Hq c) as [_ ->]. apply Hl.
Qed.

Lemma linked_set_operation a op (h : list OpNode) :
  linked h → linked (update a (set_operation op) h).
Proof.
  intros Hl p c.
  assert (∀ q, children (update a (set_operation op) h !!! q) = children (h !!! q) ∧
               parents (update a (set_operation op) h !!! q) = parents (h !!! q))
    as Hq.
  { intros q. destruct (decide (a < length h)) as [Hlt|Hge].
    - rewrite update_lookup by done. by case_decide; subst.
    - by rewrite update_ge by lia. }
  destruct (Hq p) as [-> _]. destruct (Hq c) as [_ ->]. apply Hl.
Qed.

Lemma linkedb_linked (h : list OpNode) : linkedb h = true → linked h.
Proof.
  unfold linkedb. rewrite andb_true_iff, !forallb_forall.
  intros [Hin Hcount] p c.
  assert (∀ q, length h ≤ q → children (h !!! q) = [] ∧ parents (h !!! q) = [])
    as Hout.
  { intros q Hq. by rewrite lookup_total_ge. }
  assert (∀ q x, x ∈ children (h !!! q) ∨ x ∈ parents (h !!! q) → x < length h)
    as Hrange.
  { intros q x Hx. destruct (decide (q < length h)) as [Hq|Hq].
    - apply list_lookup_lookup_total_lt in Hq.
      apply list_elem_of_lookup_2, list_elem_of_In, Hin in Hq as Hin'.
      clear Hin. rename Hin' into Hin.
      apply andb_true_iff in Hin as [Hc Hp]. rewrite forallb_forall in Hc, Hp.
      destruct Hx as [Hx|Hx].
      + apply list_elem_of_In, Hc in Hx. by apply bool_decide_eq_true in Hx.
      + apply list_elem_of_In, Hp in Hx. by apply bool_decide_eq_true in Hx.
    - destruct (Hout q ltac:(lia)) as [Hc Hp]. rewrite Hc, Hp in Hx.
      destruct Hx as [?%elem_of_nil|?%elem_of_nil]; done. }
  destruct (decide (p < length h)) as [Hp|Hp];
    destruct (decide (c < length h)) as [Hc|Hc].
  - specialize (Hcount p). rewrite <-list_elem_of_In, elem_of_seq in Hcount.
    specialize (Hcount ltac:(lia)). rewrite forallb_forall in Hcount.
    specialize (Hcount c). rewrite <-list_elem_of_In, elem_of_seq in Hcount.
    specialize (Hcount ltac:(lia)). by apply bool_decide_eq_true in Hcount.
  - destruct (Hout c ltac:(lia)) as [_ ->].
    replace (occurrences p []) with 0 by done. apply occurrences_zero.
    intros Hx. specialize (Hrange p c (or_introl Hx)). lia.
  - destruct (Hout p ltac:(lia)) as [-> _].
    replace (occurrences c []) with 0 by done. symmetry. apply occurrences_zero.
    intros Hx. specialize (Hrange c p (or_intror Hx)). lia.
  - destruct (Hout p ltac:(lia)) as [-> _]. by destruct (Hout c ltac:(lia)) as [_ ->].
Qed.

Lemma heap_ext (h1 h2 : list OpNode) :
  length h1 = length h2 → (∀ q, q < length h1 → h1 !!! q = h2 !!! q) → h1 = h2.
Proof.
  intros Hlen Hq. apply list_eq. intros i.
  destruct (decide (i < length h1)) as [Hi|Hi].
  - rewrite (list_lookup_lookup_total_lt h1 i), (list_lookup_lookup_total_lt h2 i) by lia.
    by rewrite Hq.
  - rewrite !lookup_ge_None_2 by lia. done.
Qed.

Lemma remove_first_snoc x (l : list nat) : x ∉ l → remove_first x (l ++ [x]) = l.
Proof.
  induction l as [|y l IH]; simpl; [by rewrite decide_True|].
  intros [Hy Hl]%not_elem_of_cons. rewrite decide_False by done. by rewrite IH.
Qed.

Lemma OpNode_eq (n1 n2 : OpNode) :
  operation n1 = operation n2 → children n1 = children n2 →
  parents n1 = parents n2 → state n1 = state n2 → n1 = n2.
Proof. destruct n1, n2. simpl. by intros -> -> -> ->. Qed.

Lemma update_state p f (h : list OpNode) q :
  (∀ x, state (f x) = state x) → state (update p f h !!! q) = state (h !!! q).
Proof.
  intros Hf. destruct (decide (p < length h)) as [Hp|Hp].
  - rewrite update_lookup by done. case_decide; subst; [apply Hf|done].
  - by rewrite update_ge by lia.
Qed.

Lemma AddChild_state parent child (h : list OpNode) q :
  state (_OpNode_AddChild parent child h !!! q) = state (h !!! q).
Proof. unfold _OpNode_AddChild. by rewrite !update_state. Qed.

Lemma RemoveNode_state a b (h : list OpNode) q :
  state (_OpNode_RemoveNode a b h !!! q) = state (h !!! q).
Proof. unfold _OpNode_RemoveNode. by rewrite !update_state. Qed.

Lemma ContainsChild_child (h : list OpNode) parent child :
  _OpNode_ContainsChild h parent child = true → child ∈ children (h !!! parent).
Proof. apply contains_elem_of. Qed.

(** X6.  [_OpNode_ContainsChild] tells whether [child] is among the children
    of [parent]. *)
Theorem ContainsChild_iff_child (h : list OpNode) parent child :
  _OpNode_ContainsChild h parent child = true ↔ child ∈ children (h !!! parent).
Proof. apply contains_elem_of. Qed.

(** The contents of the arrays after a link that was not there has
    been added and removed again: [_OpNode_RemoveNode] takes out the
    first occurrence, which is then the one added. *)
Lemma RemoveNode_AddChild_contents (h : list OpNode) a b :
  a < length h → b < length h →
  b ∉ children (h !!! a) → a ∉ parents (h !!! b) →
  _OpNode_RemoveNode a b (_OpNode_AddChild a b h) = h.
Proof.
  intros Ha Hb Hc Hp. apply heap_ext.
  { by rewrite RemoveNode_length, AddChild_length. }
  intros q _. apply OpNode_eq.
  - by rewrite RemoveNode_operation, AddChild_operation.
  - rewrite RemoveNode_children, AddChild_children by (rewrite ?AddChild_length; done).
    case_decide; subst; [|by rewrite AddChild_children, decide_False].
    by rewrite decide_True, remove_first_snoc.
  - rewrite RemoveNode_parents, AddChild_parents by (rewrite ?AddChild_length; done).
    case_decide; subst; [|by rewrite AddChild_parents, decide_False].
    by rewrite decide_True, remove_first_snoc.
  - by rewrite RemoveNode_state, AddChild_state.
Qed.

(** ** What the planner keeps of the plan *)

Lemma rooted_no_child (h : list OpNode) p : linked h → rooted h → 0 ∉ children (h !!! p).
Proof.
  intros Hl [_ Hr] Hc. apply occurrences_pos in Hc. rewrite (Hl p 0), Hr in Hc.
  unfold occurrences in Hc. simpl in Hc. lia.
Qed.

Lemma wf_AddChild parent child (h : list OpNode) :
  well_formed h → parent < length h → child < length h → child ≠ 0 →
  well_formed (_OpNode_AddChild parent child h).
Proof.
  intros (Hlen & Hl & [Hop Hpar] & Hst) Hp Hc Hne.
  unfold well_formed, rooted. split_and!.
  - by rewrite AddChild_length.
  - by apply linked_AddChild.
  - by rewrite AddChild_operation.
  - rewrite AddChild_parents by done. by rewrite decide_False.
  - intros x. by rewrite AddChild_state.
Qed.

Lemma wf_RemoveNode a b (h : list OpNode) :
  well_formed h → well_formed (_OpNode_RemoveNode a b h).
Proof.
  intros (Hlen & Hl & [Hop Hpar] & Hst).
  destruct (decide (b ∈ children (h !!! a))) as [Hb|Hb].
  - destruct (linked_in_heap _ _ _ Hl Hb) as [Ha' Hb']. unfold well_formed, rooted. split_and!.
    + by rewrite RemoveNode_length.
    + by apply linked_RemoveNode.
    + by rewrite RemoveNode_operation.
    + rewrite RemoveNode_parents by done. case_decide; subst; [|done].
      by rewrite Hpar.
    + intros x. by rewrite RemoveNode_state.
  - rewrite RemoveNode_unlinked; [done..|].
    intros Ha. apply Hb. apply occurrences_pos. rewrite (Hl a b).
    by apply occurrences_pos.
Qed.

Lemma wf_NewOpNode op (h : list OpNode) :
  well_formed h → well_formed (NewOpNode op h).2.
Proof.
  intros (Hlen & Hl & [Hop Hpar] & Hst). unfold well_formed, rooted. split_and!.
  - simpl. rewrite length_app. lia.
  - by apply linked_NewOpNode.
  - by rewrite NewOpNode_lookup_old.
  - by rewrite NewOpNode_lookup_old.
  - intros x. destruct (decide (x < length h)) as [Hx|Hx].
    + by rewrite NewOpNode_lookup_old.
    + destruct (decide (x = length h)) as [->|Hne].
      * by rewrite NewOpNode_lookup_new.
      * rewrite lookup_total_ge; [done|]. simpl. rewrite length_app. simpl. lia.
Qed.

Lemma wf_set_operation a op (h : list OpNode) :
  well_formed h → a ≠ 0 → well_formed (update a (set_operation op) h).
Proof.
  intros (Hlen & Hl & [Hop Hpar] & Hst) Ha. unfold well_formed, rooted. split_and!.
  - by rewrite update_length.
  - by apply linked_set_operation.
  - by rewrite update_lookup_ne.
  - by rewrite update_lookup_ne.
  - intros x. by rewrite update_state.
Qed.

Lemma wf_expand_all_in_heap (h : list OpNode) x n :
  well_formed h → expands_to n (operation (h !!! x)) = true →
  0 < x < length h.
Proof.
  intros (Hlen & Hl & [Hop Hpar] & Hst) Hx.
  destruct (decide (x = 0)) as [->|Hne].
  { by rewrite Hop in Hx. }
  split; [lia|]. destruct (decide (x < length h)) as [|Hge]; [done|].
  by rewrite lookup_total_ge in Hx by lia.
Qed.

(** *** Chains *)

Lemma expand_chain_spec fuel g : ∀ srcNode ops h ops' h',
  expand_chain fuel g srcNode ops h = Some (ops', h') →
  ∃ path, first_edge_path g srcNode path ∧
          ops' = ops ++ seq (length h) (length path) ∧
          h' = h ++ (expand_node g <$> path).
Proof.
  induction fuel as [|f IH]; intros srcNode ops h ops' h'; [done|]. simpl.
  destruct (graph_nodes g !! srcNode) as [nd|] eqn:End; [|done]. obind.
  destruct (outgoingEdges nd) as [|edge rest] eqn:Eout.
  { intros [= <- <-]. exists []. simpl. rewrite !app_nil_r.
    split; [by econstructor|done]. }
  destruct (graph_edges g !! edge) as [e|] eqn:Ee; [|done]. obind.
  intros (path & Hpath & -> & ->)%IH.
  exists ((srcNode, edge, dest e) :: path). split; [by econstructor|].
  rewrite length_app. simpl. unfold Vector_Push.
  rewrite <-!app_assoc. simpl. by rewrite Nat.add_1_r.
Qed.

Lemma expand_chain_complete g srcNode path :
  first_edge_path g srcNode path →
  ∀ fuel ops h, length path < fuel →
    expand_chain fuel g srcNode ops h =
      Some (ops ++ seq (length h) (length path), h ++ (expand_node g <$> path)).
Proof.
  induction 1 as [n nd Hn Hout|n nd edge rest e path Hn Hout He Hpath IH];
    intros [|fuel] ops h Hfuel; simpl in *; try lia.
  - rewrite Hn. obind. rewrite Hout. by rewrite !app_nil_r.
  - rewrite Hn. obind. rewrite Hout, He. obind.
    rewrite IH by lia. rewrite length_app. simpl. unfold Vector_Push.
    rewrite <-!app_assoc. simpl. by rewrite Nat.add_1_r.
Qed.

Lemma first_edge_path_functional g n path1 :
  first_edge_path g n path1 → ∀ path2, first_edge_path g n path2 → path1 = path2.
Proof.
  induction 1 as [n nd Hn Hout|n nd edge rest e path Hn Hout He Hpath IH];
    intros path2 H2; inversion H2 as [? nd' Hn' Hout'|? nd' edge' rest' e' path' Hn' Hout' He' Hpath'];
    subst; rewrite Hn in Hn'; injection Hn' as <-; rewrite Hout in Hout';
    try done.
  injection Hout' as <- <-. rewrite He in He'. injection He' as <-.
  f_equal. by apply IH.
Qed.

Lemma first_edge_path_suffix g n path1 hop path2 :
  first_edge_path g n (path1 ++ hop :: path2) →
  first_edge_path g hop.1.1 (hop :: path2).
Proof.
  revert n. induction path1 as [|hop1 path1 IH]; intros n Hp; simpl in Hp.
  - inversion Hp; subst. simpl. by econstructor.
  - inversion Hp; subst. by eapply IH.
Qed.

Lemma first_edge_path_NoDup g n path :
  first_edge_path g n path → NoDup (path.*1.*1).
Proof.
  induction 1 as [n nd Hn Hout|n nd edge rest e path Hn Hout He Hpath IH];
    [constructor|].
  simpl. constructor; [|done]. intros Hin.
  apply list_elem_of_fmap in Hin as ([s' e'] & Hs & Hin). simpl in Hs. subst s'.
  apply list_elem_of_fmap in Hin as ([[s'' e''] d'] & Heq & Hin). simpl in Heq.
  injection Heq as <- <-.
  apply list_elem_of_split in Hin as (p1 & p2 & Hsplit).
  assert (first_edge_path g n ((n, edge, dest e) :: path)) as Hfull
    by (by econstructor).
  pose proof Hpath as Hsuf. rewrite Hsplit in Hsuf.
  apply first_edge_path_suffix in Hsuf. simpl in Hsuf.
  pose proof (first_edge_path_functional _ _ _ Hfull _ Hsuf) as Heq.
  apply (f_equal length) in Heq. rewrite Hsplit in Heq. simpl in Heq.
  rewrite length_app in Heq. simpl in Heq. lia.
Qed.

Lemma save_reversed_spec (from : list nat) : ∀ to,
  save_reversed (length from) from to = to ++ reverse from.
Proof.
  induction from as [|x from IH] using rev_ind; intros to.
  { simpl. by rewrite app_nil_r. }
  rewrite length_app. simpl. rewrite Nat.add_1_r. simpl.
  rewrite Vector_Pop_push, IH, reverse_app. unfold Vector_Push. simpl.
  by rewrite <-app_assoc.
Qed.

Lemma connect_ops_wf k : ∀ Ops prevOp (h : list OpNode),
  well_formed h → 0 < prevOp < length h →
  Forall (λ x, x < length h) Ops → Forall (λ x, 0 < x) (tail Ops) →
  well_formed (connect_ops k Ops prevOp h) ∧
  length (connect_ops k Ops prevOp h) = length h.
Proof.
  induction k as [|k IH]; intros Ops prevOp h Hwf Hprev Hin Hpos; simpl; [done|].
  destruct Ops as [|currentOp Ops' _] using rev_ind.
  { by rewrite Vector_Pop_nil. }
  rewrite Vector_Pop_push.
  apply Forall_app in Hin as [Hin' Hcur]. rewrite Forall_singleton in Hcur.
  assert (well_formed (_OpNode_AddChild currentOp prevOp h)) as Hwf1.
  { apply wf_AddChild; [done|done|lia|lia]. }
  destruct Ops' as [|o Ops'']; [by rewrite AddChild_length|].
  simpl in Hpos. apply Forall_app in Hpos as [Hpos' Hcur']. rewrite Forall_singleton in Hcur'.
  destruct (IH (o :: Ops'') currentOp (_OpNode_AddChild currentOp prevOp h))
    as [Hwf2 Hlen2]; rewrite ?AddChild_length; try done.
  rewrite AddChild_length in Hlen2. by split.
Qed.

Lemma plan_entry_wf fuel g node rest (h : list OpNode) ops' h' :
  well_formed h → Forall (λ x, 0 < x < length h) rest →
  plan_entry fuel g 0 node (0 :: rest, h) = Some (ops', h') →
  well_formed h' ∧ length h ≤ length h' ∧
  ∃ rest', ops' = 0 :: rest' ∧ Forall (λ x, 0 < x < length h') rest'.
Proof.
  intros Hwf Hrest. unfold plan_entry.
  destruct (graph_nodes g !! node) as [nd|]; [|done]. obind.
  set (stage := match outgoingEdges nd with [] => _ | _ => _ end).
  destruct stage as [[ops1 h1]|] eqn:Estage; [|done]. obind.
  assert (well_formed h1 ∧ length h ≤ length h1 ∧
          ∃ rest1, ops1 = 0 :: rest1 ∧ Forall (λ x, 0 < x < length h1) rest1)
    as (Hwf1 & Hlen1 & rest1 & -> & Hrest1).
  { destruct Hwf as (Hlen & Hwf'). subst stage. destruct (outgoingEdges nd).
    - assert (∀ op, ops1 = Vector_Push (0 :: rest) (length h) →
                    h1 = (NewOpNode op h).2 →
                    well_formed h1 ∧ length h ≤ length h1 ∧
                    ∃ rest1, ops1 = 0 :: rest1 ∧
                             Forall (λ x, 0 < x < length h1) rest1) as Hscan.
      { intros op -> ->. split; [by apply wf_NewOpNode|].
        simpl. rewrite length_app. simpl. split; [lia|].
        exists (rest ++ [length h]). split; [done|].
        apply Forall_app. split; [|rewrite Forall_singleton; lia].
        eapply Forall_impl; [done|]. simpl. lia. }
      destruct (label nd); injection Estage as <- <-; by eapply Hscan.
    - destruct (expand_chain _ _ _ _ _) as [[rev h1']|] eqn:Ec; [|done].
      injection Estage as <- <-.
      apply expand_chain_spec in Ec as (path & _ & -> & ->).
      simpl. rewrite save_reversed_spec. split_and!.
      + clear Hrest. induction path as [|hop path IH] using rev_ind.
        { simpl. by rewrite app_nil_r. }
        rewrite fmap_app, app_assoc. by apply (wf_NewOpNode _ _ IH).
      + rewrite length_app. lia.
      + eexists. split; [done|]. rewrite length_app, length_fmap.
        apply Forall_app. split.
        * eapply Forall_impl; [done|]. simpl. lia.
        * apply Forall_forall. intros x Hx%elem_of_reverse%elem_of_seq. lia. }
  case_decide as Hlong.
  - destruct rest1 as [|r rest1 _] using rev_ind; [simpl in Hlong; lia|].
    change (0 :: rest1 ++ [r]) with ((0 :: rest1) ++ [r]).
    rewrite Vector_Pop_push. intros [= <- <-].
    apply Forall_app in Hrest1 as [Hrest1 Hr]. rewrite Forall_singleton in Hr.
    destruct (connect_ops_wf (length (0 :: rest1)) (0 :: rest1) r h1) as [Hwf2 Hlen2];
      try done.
    { constructor; [by destruct Hwf1|]. eapply Forall_impl; [done|]. simpl. lia. }
    { simpl. eapply Forall_impl; [done|]. simpl. lia. }
    split; [exact Hwf2|]. split; [|exists []; split; [done|constructor]].
    etrans; [exact Hlen1|]. apply Nat.eq_le_incl. symmetry. exact Hlen2.
  - intros [= <- <-]. eauto.
Qed.

Lemma plan_entries_wf fuel g : ∀ entryNodes rest (h : list OpNode) ops' h',
  well_formed h → Forall (λ x, 0 < x < length h) rest →
  plan_entries fuel g 0 entryNodes (0 :: rest, h) = Some (ops', h') →
  well_formed h' ∧ length h ≤ length h'.
Proof.
  induction entryNodes as [|node nodes IH]; intros rest h ops' h' Hwf Hrest;
    cbn [plan_entries].
  { by intros [= _ <-]. }
  destruct (plan_entry _ _ _ _ _) as [[ops1 h1]|] eqn:E; [|done]. obind.
  apply plan_entry_wf in E as (Hwf1 & Hlen1 & rest1 & -> & Hrest1); [|done..].
  intros (Hwf2 & Hlen2)%IH; [|done..]. split; [done|lia].
Qed.

Lemma NewExecutionPlan_chains_wf fuel g ft agg p :
  NewExecutionPlan_chains fuel g ft agg = Some p →
  root p = 0 ∧ well_formed (heap p).
Proof.
  unfold NewExecutionPlan_chains. cbn [NewOpNode length].
  set (h0 := [] ++ [mkOpNode NewProduceResultsOp [] [] StreamUnInitialized]).
  assert (well_formed h0) as Hwf0.
  { unfold well_formed, rooted. split_and!; [simpl; lia|by apply linkedb_linked|done|done|].
    by intros [|[|x]]. }
  set (st := if agg then _ else _). destruct st as [ops h1] eqn:Est.
  assert (well_formed h1 ∧ ∃ rest, ops = 0 :: rest ∧
                                   Forall (λ x, 0 < x < length h1) rest)
    as (Hwf1 & rest & -> & Hrest).
  { subst st. destruct agg; injection Est as <- <-.
    - split; [by apply (wf_NewOpNode _ h0)|]. exists [1]. split; [done|].
      rewrite Forall_singleton. simpl. lia.
    - split; [done|]. exists []. split; [done|constructor]. }
  destruct (plan_entries _ _ _ _ _) as [[ops2 h2]|] eqn:E; [|done]. obind.
  intros [= <-]. simpl. split; [done|].
  by apply plan_entries_wf in E as [? _].
Qed.

(** *** Scan attachment, the merge rewrite and the filter pushdown *)

Lemma OptimizeEntryPoints_wf fuel g : ∀ x (h h' : list OpNode),
  _ExecutionPlan_OptimizeEntryPoints fuel g x h = Some h' →
  well_formed h → well_formed h' ∧ length h ≤ length h'.
Proof.
  induction fuel as [|f IH]; intros x h h'; [done|]. simpl.
  assert (for_each_child id (_ExecutionPlan_OptimizeEntryPoints f g) x h = Some h' →
          well_formed h → well_formed h' ∧ length h ≤ length h') as Hloop.
  { unfold for_each_child.
    apply (for_each_child_from_inv
             (λ s s' : list OpNode, well_formed s → well_formed s' ∧ length s ≤ length s')).
    - done.
    - intros s1 s2 s3 H12 H23 Hwf. destruct (H12 Hwf) as [Hwf2 ?].
      destruct (H23 Hwf2) as [Hwf3 ?]. split; [done|lia].
    - apply IH. }
  destruct (children (h !!! x)) eqn:Ec; [|done].
  destruct (variant (operation (h !!! x))) eqn:Ev; try done.
  intros [= <-] Hwf.
  assert (0 < x < length h) as Hx.
  { apply (wf_expand_all_in_heap h x dest_node Hwf). unfold expands_to.
    rewrite Ev. by apply bool_decide_eq_true. }
  split; [|rewrite AddChild_length; simpl; rewrite length_app; lia].
  apply wf_AddChild; [by apply wf_NewOpNode|..]; simpl; rewrite ?length_app; simpl;
    destruct Hwf; lia.
Qed.

Lemma MergeNodes_locate_second fuel (h : list OpNode) n : ∀ a0 st a b,
  MergeNodes_locate fuel h n a0 st = Some (a, Some b) →
  expands_to n (operation (h !!! b)) = true.
Proof.
  induction fuel as [|f IH]; intros a0 st a b; [done|]. simpl.
  destruct (Vector_Pop st) as [[current rest]|]; [|done].
  destruct (expands_to n (operation (h !!! current))) eqn:Hc; [|apply IH].
  destruct a0 as [a0|]; [by intros [= _ <-]|apply IH].
Qed.

Lemma MergeNodes_inherit_wf fuel : ∀ a b i (h h' : list OpNode),
  MergeNodes_inherit fuel a b i h = Some h' →
  well_formed h → 0 < a < length h →
  well_formed h' ∧ length h' = length h.
Proof.
  induction fuel as [|f IH]; intros a b i h h'; [done|]. simpl.
  destruct (parents (h !!! b) !! i) as [bParent|] eqn:Hi; [|by intros [= <-]].
  case_decide; [apply IH|]. intros Hx Hwf Ha.
  assert (bParent < length h) as Hbp.
  { destruct Hwf as (_ & Hl & _).
    by apply list_elem_of_lookup_2, (linked_parent_in_heap _ _ _ Hl) in Hi as [? _]. }
  apply IH in Hx as [Hwf' Hlen'].
  - split; [done|]. rewrite Hlen'. unfold _OpNode_RemoveChild.
    rewrite RemoveNode_length. destruct (_OpNode_ContainsChild _ _ _); [done|].
    by rewrite AddChild_length.
  - apply wf_RemoveNode. destruct (_OpNode_ContainsChild _ _ _); [done|].
    apply wf_AddChild; [done|done|lia|lia].
  - unfold _OpNode_RemoveChild. rewrite RemoveNode_length.
    destruct (_OpNode_ContainsChild _ _ _); [done|]. by rewrite AddChild_length.
Qed.

Lemma MergeNodes_wf fuel g root n (h h' : list OpNode) :
  _ExecutionPlan_MergeNodes fuel g root n h = Some h' →
  well_formed h → well_formed h' ∧ length h' = length h.
Proof.
  unfold _ExecutionPlan_MergeNodes. case_decide; [by intros [= <-]|].
  destruct (MergeNodes_locate _ _ _ _ _) as [[[a|] [b|]]|] eqn:El;
    try done; try (by intros [= <-]).
  destruct (variant (operation (h !!! a))) eqn:Ev; try done.
  intros Hx Hwf.
  assert (0 < a < length h) as Ha.
  { apply MergeNodes_locate_found in El as [|El]; [done|].
    by apply (wf_expand_all_in_heap h a n). }
  assert (0 < b < length h) as Hb.
  { apply MergeNodes_locate_second in El. by apply (wf_expand_all_in_heap h b n). }
  apply MergeNodes_inherit_wf in Hx as [Hwf' Hlen'].
  - split; [done|]. by rewrite Hlen', AddChild_length, update_length.
  - apply wf_AddChild; rewrite ?update_length; [|lia..].
    apply wf_set_operation; [done|lia].
  - by rewrite AddChild_length, update_length.
Qed.

Lemma merge_nodes_wf fuel g root : ∀ nodesToMerge (h h' : list OpNode),
  merge_nodes fuel g root nodesToMerge h = Some h' →
  well_formed h → well_formed h' ∧ length h' = length h.
Proof.
  induction nodesToMerge as [|n rest IH]; intros h h'; simpl.
  { by intros [= <-]. }
  destruct (_ExecutionPlan_MergeNodes _ _ _ _ _) as [h1|] eqn:E; [|done]. obind.
  intros Hx Hwf. apply MergeNodes_wf in E as [Hwf1 Hlen1]; [|done].
  apply IH in Hx as [Hwf2 Hlen2]; [|done]. split; [done|lia].
Qed.

Lemma PushInBetween_loop_wf k : ∀ (h : list OpNode) parent onlyChild,
  well_formed h → 0 < onlyChild < length h →
  well_formed (PushInBetween_loop k parent onlyChild h) ∧
  length (PushInBetween_loop k parent onlyChild h) = length h.
Proof.
  induction k as [|k IH]; intros h parent onlyChild Hwf Hoc; simpl; [done|].
  destruct (children (h !!! parent)) as [|c cs] eqn:Ec; [done|].
  assert (0 < c < length h) as Hc.
  { destruct Hwf as (_ & Hl & Hr & _).
    assert (c ∈ children (h !!! parent)) as Hin by (rewrite Ec; apply list_elem_of_here).
    destruct (linked_in_heap _ _ _ Hl Hin) as [_ ?]. split; [|done].
    destruct (decide (c = 0)) as [->|]; [|lia].
    by apply rooted_no_child in Hin. }
  destruct (IH (_OpNode_RemoveChild parent c (_OpNode_AddChild onlyChild c h))
              parent onlyChild) as [Hwf' Hlen'].
  - apply wf_RemoveNode, wf_AddChild; [done|lia..].
  - unfold _OpNode_RemoveChild. by rewrite RemoveNode_length, AddChild_length.
  - split; [done|]. rewrite Hlen'. unfold _OpNode_RemoveChild.
    by rewrite RemoveNode_length, AddChild_length.
Qed.

Lemma PushInBetween_wf (h : list OpNode) parent onlyChild :
  well_formed h → parent < length h → 0 < onlyChild < length h →
  well_formed (_OpNode_PushInBetween parent onlyChild h) ∧
  length (_OpNode_PushInBetween parent onlyChild h) = length h.
Proof.
  intros Hwf Hp Hoc. unfold _OpNode_PushInBetween.
  destruct (PushInBetween_loop_wf (childCount (h !!! parent)) h parent onlyChild)
    as [Hwf' Hlen']; [done..|].
  split; [|by rewrite AddChild_length].
  apply wf_AddChild; [done|lia..].
Qed.

Section AddFiltersWf.
Context `{FilterModule}.

Lemma AddFilters_apply_wf root seen (st : list OpNode * option FT_FilterNode) :
  well_formed st.1 → root < length st.1 →
  well_formed (AddFilters_apply root seen st).1 ∧
  length st.1 ≤ length (AddFilters_apply root seen st).1.
Proof.
  destruct st as [h ft]. simpl. intros Hwf Hroot.
  destruct (FilterTree_ContainsNode ft seen); [|done]. simpl.
  destruct (PushInBetween_wf (h ++ [mkOpNode (NewFilterOp (FilterTree_MinFilterTree ft seen))
                                      [] [] StreamUnInitialized]) root (length h))
    as [Hwf' Hlen'].
  - by apply (wf_NewOpNode _ h).
  - rewrite length_app. simpl. lia.
  - rewrite length_app. simpl. destruct Hwf. lia.
  - split; [done|]. rewrite Hlen', length_app. lia.
Qed.

Lemma AddFilters_children_wf
    (rec : nat → list OpNode * option FT_FilterNode →
           option (option (list string) * (list OpNode * option FT_FilterNode)))
    root
    (Hrec : ∀ c st r st', rec c st = Some (r, st') →
            well_formed st.1 → c < length st.1 →
            well_formed st'.1 ∧ length st.1 ≤ length st'.1) :
  ∀ i seen st r st',
    AddFilters_children rec root i seen st = Some (r, st') →
    well_formed st.1 → well_formed st'.1 ∧ length st.1 ≤ length st'.1.
Proof.
  induction i as [|i IH]; intros seen st r st'; simpl.
  { by intros [= _ <-]. }
  destruct (children (st.1 !!! root) !! i) as [c|] eqn:Ec; [|done]. obind.
  destruct (rec c st) as [[saw st1]|] eqn:E; [|done]. obind.
  intros Hx Hwf.
  assert (c < length st.1) as Hc.
  { destruct Hwf as (_ & Hl & _).
    by apply list_elem_of_lookup_2, (linked_in_heap _ _ _ Hl) in Ec as [_ ?]. }
  destruct (Hrec _ _ _ _ E Hwf Hc) as [Hwf1 Hlen1].
  destruct (st1.2); [|by injection Hx as _ <-].
  apply IH in Hx as [Hwf2 Hlen2]; [|done]. split; [done|lia].
Qed.

Lemma AddFilters_wf fuel : ∀ root st r st',
  _ExecutionPlan_AddFilters fuel root st = Some (r, st') →
  well_formed st.1 → root < length st.1 →
  well_formed st'.1 ∧ length st.1 ≤ length st'.1.
Proof.
  induction fuel as [|f IH]; intros root st r st'; [done|]. simpl.
  destruct (AddFilters_children _ _ _ _ _) as [[r1 st1]|] eqn:E; [|done]. obind.
  intros Hx Hwf Hroot.
  apply AddFilters_children_wf in E as [Hwf1 Hlen1]; [|done..].
  destruct r1 as [seen|]; injection Hx as _ <-; [|done].
  destruct (AddFilters_apply_wf root seen st1) as [Hwf2 Hlen2]; [done|lia|].
  split; [done|lia].
Qed.

Lemma NewExecutionPlan_wf fuel g ft agg plan :
  NewExecutionPlan fuel g ft agg = Some plan →
  root plan = 0 ∧ well_formed (heap plan).
Proof.
  unfold NewExecutionPlan.
  destruct (NewExecutionPlan_chains _ _ _ _) as [p|] eqn:Ep; [|done]. obind.
  apply NewExecutionPlan_chains_wf in Ep as [Hroot Hwf0]. rewrite Hroot.
  destruct (_ExecutionPlan_OptimizeEntryPoints _ _ _ _) as [h1|] eqn:E1; [|done].
  obind. apply OptimizeEntryPoints_wf in E1 as [Hwf1 _]; [|done].
  destruct (merge_nodes _ _ _ _ _) as [h2|] eqn:E2; [|done]. obind.
  apply merge_nodes_wf in E2 as [Hwf2 _]; [|done].
  destruct ft as [t|]; [|by intros [= <-]].
  destruct (_ExecutionPlan_AddFilters _ _ _) as [[r [h3 ft3]]|] eqn:E3; [|done].
  obind. intros [= <-]. simpl. split; [done|].
  apply AddFilters_wf in E3 as [Hwf3 _]; [done|done|]. simpl. by destruct Hwf2.
Qed.
End AddFiltersWf.

Lemma PushInBetween_loop_linked k : ∀ (h : list OpNode) parent onlyChild,
  linked h → onlyChild < length h →
  linked (PushInBetween_loop k parent onlyChild h) ∧
  length (PushInBetween_loop k parent onlyChild h) = length h.
Proof.
  induction k as [|k IH]; intros h parent onlyChild Hl Hoc; simpl; [done|].
  destruct (children (h !!! parent)) as [|c cs] eqn:Ec; [done|].
  assert (c < length h) as Hc.
  { eapply (linked_in_heap h parent c Hl). rewrite Ec. apply list_elem_of_here. }
  destruct (IH (_OpNode_RemoveChild parent c (_OpNode_AddChild onlyChild c h))
              parent onlyChild) as [Hl' Hlen'].
  - by apply linked_RemoveNode, linked_AddChild.
  - unfold _OpNode_RemoveChild. by rewrite RemoveNode_length, AddChild_length.
  - split; [done|]. rewrite Hlen'. unfold _OpNode_RemoveChild.
    by rewrite RemoveNode_length, AddChild_length.
Qed.

(** X9.  [_OpNode_RemoveNode] keeps the two directions of the links in
    agreement, whatever [a] and [b]; when [b] is not a child of [a] it
    leaves the plan as it is. *)
Theorem RemoveNode_keeps_links (h : list OpNode) a b :
  linked h →
  linked (_OpNode_RemoveNode a b h) ∧
  (b ∉ children (h !!! a) → _OpNode_RemoveNode a b h = h).
Proof.
  intros Hl. split; [by apply linked_RemoveNode|].
  intros Hb. apply RemoveNode_unlinked; [done|].
  intros Ha. apply Hb. apply occurrences_pos. rewrite (Hl a b).
  by apply occurrences_pos.
Qed.

Lemma RemoveNode_keeps_links_witness :
  linked (_OpNode_RemoveNode 1 2 plan_a_b) ∧
  (2 ∉ children (plan_a_b !!! 0) → _OpNode_RemoveNode 0 2 plan_a_b = plan_a_b).
Proof.
  split.
  - apply (RemoveNode_keeps_links plan_a_b 1 2).
    apply linkedb_linked. vm_compute. reflexivity.
  - apply (RemoveNode_keeps_links plan_a_b 0 2).
    apply linkedb_linked. vm_compute. reflexivity.
Defined.

(** What [_OpNode_PushInBetween] leaves in the arrays: [parent] has
    [onlyChild] as its one child, [onlyChild] has the children of
    [parent] after its own, and the two directions of the links still
    agree. *)
Lemma PushInBetween_linked (h : list OpNode) parent onlyChild :
  linked h → parent < length h → onlyChild < length h → parent ≠ onlyChild →
  let h' := _OpNode_PushInBetween parent onlyChild h in
  linked h' ∧
  children (h' !!! parent) = [onlyChild] ∧
  children (h' !!! onlyChild) =
    children (h !!! onlyChild) ++ children (h !!! parent).
Proof.
  intros Hl Hp Hoc Hne h'. unfold h', _OpNode_PushInBetween.
  destruct (PushInBetween_loop_linked (childCount (h !!! parent)) h parent onlyChild)
    as [Hl' Hlen']; [done..|].
  destruct (PushInBetween_loop_spec (childCount (h !!! parent)) h parent onlyChild)
    as (_ & Hpc & Hoc' & _); [done|done|done|by apply linked_closed|done|].
  split; [apply linked_AddChild; [done|lia..]|].
  rewrite !AddChild_children by lia.
  rewrite decide_True by done. rewrite decide_False by done.
  by rewrite Hpc, Hoc'.
Qed.

Section PlanFacts.
Context `{FilterModule}.

(** X12.  The root of every plan that [NewExecutionPlan] returns is a
    [ProduceResults], as the cast in [ExecutionPlan_Execute] takes it
    to be, and is the child of no operator. *)
Theorem NewExecutionPlan_root_is_ProduceResults fuel g ft agg plan :
  NewExecutionPlan fuel g ft agg = Some plan →
  root plan < length (heap plan) ∧
  operation (heap plan !!! root plan) = NewProduceResultsOp ∧
  parents (heap plan !!! root plan) = [] ∧
  ∀ p, root plan ∉ children (heap plan !!! p).
Proof.
  intros (-> & Hlen & Hl & Hr & _)%NewExecutionPlan_wf.
  destruct Hr as [Hop Hpar]. split_and!; [done..|].
  intros p. by apply rooted_no_child.
Qed.
End PlanFacts.

Lemma NewExecutionPlan_root_is_ProduceResults_witness :
  ∃ plan,
    NewExecutionPlan (H := spec_filters) 20 pattern_shared (Some where_a_age) true
      = Some plan ∧
    operation (heap plan !!! root plan) = NewProduceResultsOp ∧
    parents (heap plan !!! root plan) = [].
Proof.
  destruct (NewExecutionPlan (H := spec_filters) 20 pattern_shared
              (Some where_a_age) true) as [plan|] eqn:E;
    [|vm_compute in E; discriminate E].
  exists plan. split; [reflexivity|].
  destruct (NewExecutionPlan_root_is_ProduceResults (H := spec_filters) 20
              pattern_shared (Some where_a_age) true plan E)
    as (_ & Hop & Hpar & _).
  split; [exact Hop|exact Hpar].
Defined.

(** ** The executor and the stream states *)

Lemma driven_refl h : driven h h.
Proof. split; [done|]. by left. Qed.

Lemma driven_trans h1 h2 h3 : driven h1 h2 → driven h2 h3 → driven h1 h3.
Proof.
  intros [Hs1 Hst1] [Hs2 Hst2]. split; [congruence|].
  intros x. destruct (Hst2 x) as [->|]; [apply Hst1|by right].
Qed.

Lemma driven_consuming n (h : list OpNode) :
  driven h (update n (set_state StreamConsuming) h).
Proof.
  split; [apply skeleton_update_state|]. intros x.
  destruct (decide (n < length h)) as [Hn|Hn].
  - rewrite update_lookup by done. case_decide; subst; [by right|by left].
  - rewrite update_ge by lia. by left.
Qed.

Lemma driven_keeps_initialized (h h' : list OpNode) x :
  driven h h' → state (h !!! x) ≠ StreamUnInitialized →
  state (h' !!! x) ≠ StreamUnInitialized.
Proof. intros [_ Hst] Hx. destruct (Hst x) as [->| ->]; done. Qed.

Section ExecutorStates.
Context `{Operators}.

Section PullStates.
Variable exec : nat → list OpNode * World →
                option (OpResult * (list OpNode * World)).
Variable resetStream : nat → list OpNode * World →
                       option (list OpNode * World).
Hypothesis exec_driven : ∀ n s r s', exec n s = Some (r, s') → driven s.1 s'.1.
Hypothesis resetStream_heap : ∀ n s s', resetStream n s = Some s' → s'.1 = s.1.

Lemma advance_streams_driven k : ∀ source i s j s',
  advance_streams exec k source i s = Some (j, s') → driven s.1 s'.1.
Proof using exec_driven.
  induction k as [|k IH]; intros source i s j s'; [done|]. simpl.
  destruct (children (s.1 !!! source) !! i) as [c|];
    [|intros [= _ <-]; apply driven_refl].
  destruct (exec c s) as [[r s1]|] eqn:E; [|done]. obind.
  apply exec_driven in E. case_decide; [by intros [= _ <-]|].
  intros Hx%IH. by eapply driven_trans.
Qed.

Lemma pull_uninitialized_driven k : ∀ source i s b s',
  pull_uninitialized exec k source i s = Some (b, s') → driven s.1 s'.1.
Proof using exec_driven.
  induction k as [|k IH]; intros source i s b s'; [done|]. simpl.
  destruct (children (s.1 !!! source) !! i) as [c|];
    [|intros [= _ <-]; apply driven_refl].
  case_decide; [|apply IH].
  destruct (exec c s) as [[r s1]|] eqn:E; [|done]. obind.
  apply exec_driven in E. case_decide; [by intros [= _ <-]|].
  intros Hx%IH. by eapply driven_trans.
Qed.

Lemma reset_depleted_driven source : ∀ i s b s',
  reset_depleted exec resetStream source i s = Some (b, s') → driven s.1 s'.1.
Proof using exec_driven resetStream_heap.
  induction i as [|i IH]; intros s b s'; simpl.
  { intros [= _ <-]. apply driven_refl. }
  destruct (children (s.1 !!! source) !! i) as [c|]; [|done]. obind.
  destruct (resetStream c s) as [s1|] eqn:E1; [|done]. obind.
  destruct (exec c s1) as [[r s2]|] eqn:E2; [|done]. obind.
  apply resetStream_heap in E1. apply exec_driven in E2. rewrite E1 in E2.
  case_decide; [by intros [= _ <-]|].
  intros Hx%IH. by eapply driven_trans.
Qed.

Lemma PullFromStreams_body_driven source s r s' :
  PullFromStreams_body exec resetStream source s = Some (r, s') →
  driven s.1 s'.1.
Proof using exec_driven resetStream_heap.
  unfold PullFromStreams_body.
  destruct (advance_streams _ _ _ _ _) as [[idx s1]|] eqn:E1; [|done]. obind.
  apply advance_streams_driven in E1.
  case_decide; [by intros [= _ <-]|].
  destruct (pull_uninitialized _ _ _ _ _) as [[ok s2]|] eqn:E2; [|done]. obind.
  apply pull_uninitialized_driven in E2.
  destruct ok; [|intros [= _ <-]; by eapply driven_trans].
  destruct (reset_depleted _ _ _ _ _) as [[ok' s3]|] eqn:E3; [|done]. obind.
  apply reset_depleted_driven in E3. intros [= _ <-].
  eapply driven_trans; [|done]. by eapply driven_trans.
Qed.
End PullStates.

Lemma _ExecuteOpNode_driven fuel : ∀ n (s : list OpNode * World) r s',
  _ExecuteOpNode fuel n s = Some (r, s') →
  driven (update n (set_state StreamConsuming) s.1) s'.1.
Proof.
  induction fuel as [|f IH]; intros n s r s'; [done|]. simpl.
  destruct (consume_op_of n _) as [res s1] eqn:Ec.
  apply consume_op_of_heap in Ec. simpl in Ec.
  case_decide; [|intros [= _ <-]; rewrite Ec; apply driven_refl].
  destruct (reset_op_of n s1) as [rr s2] eqn:Er.
  apply reset_op_of_heap in Er.
  case_decide; [intros [= _ <-]; rewrite Er, Ec; apply driven_refl|].
  destruct (PullFromStreams_body _ _ _ _) as [[res' s3]|] eqn:Ep; [|done]. obind.
  apply PullFromStreams_body_driven in Ep.
  2:{ intros c s0 r0 s0' Hx%IH. eapply driven_trans; [apply driven_consuming|done]. }
  2:{ intros c s0 s0'. apply ResetStream_heap. }
  rewrite Er, Ec in Ep.
  case_decide; [|by intros [= _ <-]].
  intros Hx%IH. eapply driven_trans; [done|].
  eapply driven_trans; [apply driven_consuming|done].
Qed.

Lemma _ExecuteOpNode_consuming fuel n (s : list OpNode * World) r s' :
  _ExecuteOpNode fuel n s = Some (r, s') → n < length s.1 →
  state (s'.1 !!! n) = StreamConsuming.
Proof.
  intros Hx Hn. apply _ExecuteOpNode_driven in Hx as [_ Hd].
  destruct (Hd n) as [E|E]; [|done]. rewrite E, update_lookup_eq; done.
Qed.

(** X13.  A call of the driver leaves the plan as it is (the operations, the
    children and the parents of every node); it leaves the stream state
    of a node as it was or makes it [StreamConsuming], and the node it
    is called on is [StreamConsuming] when it returns.  So no node
    becomes [StreamDepleted] or goes back to [StreamUnInitialized]. *)
Theorem driver_only_sets_consuming fuel n (s : list OpNode * World) r s' :
  _ExecuteOpNode fuel n s = Some (r, s') →
  skeleton s'.1 = skeleton s.1 ∧
  (∀ x, state (s'.1 !!! x) = state (s.1 !!! x) ∨
        state (s'.1 !!! x) = StreamConsuming) ∧
  (n < length s.1 → state (s'.1 !!! n) = StreamConsuming).
Proof.
  intros Hx. pose proof (_ExecuteOpNode_driven _ _ _ _ _ Hx) as Hd.
  pose proof (driven_trans _ _ _ (driven_consuming n s.1) Hd) as [Hsk Hst].
  split_and!; [done..|]. by apply (_ExecuteOpNode_consuming fuel n s r s').
Qed.

Lemma driven_length (h h' : list OpNode) : driven h h' → length h' = length h.
Proof. intros [Hs _]. by apply skeleton_length. Qed.

Section PullInitializes.
Variable exec : nat → list OpNode * World →
                option (OpResult * (list OpNode * World)).
Variable resetStream : nat → list OpNode * World →
                       option (list OpNode * World).
Hypothesis exec_driven : ∀ n s r s', exec n s = Some (r, s') → driven s.1 s'.1.
Hypothesis exec_consuming : ∀ n s r s',
  exec n s = Some (r, s') → n < length s.1 → state (s'.1 !!! n) = StreamConsuming.
Hypothesis resetStream_heap : ∀ n s s', resetStream n s = Some s' → s'.1 = s.1.

Lemma advance_leftmost_initializes streams : ∀ s j s1,
  advance_leftmost exec streams s = Some (Some j, s1) →
  (∀ c, c ∈ streams → c < length s.1) →
  driven s.1 s1.1 ∧
  ∀ c, c ∈ take (S j) streams → state (s1.1 !!! c) ≠ StreamUnInitialized.
Proof using exec_driven exec_consuming.
  induction streams as [|c rest IH]; intros s j s1; simpl; [done|].
  destruct (exec c s) as [[r s0]|] eqn:E; [|done]. obind.
  pose proof (exec_driven _ _ _ _ E) as Hd. intros Hx Hin.
  assert (state (s0.1 !!! c) ≠ StreamUnInitialized) as Hc.
  { rewrite (exec_consuming _ _ _ _ E); [done|]. apply Hin, list_elem_of_here. }
  case_decide.
  - injection Hx as <- <-. split; [done|]. rewrite take_0.
    by intros c' ->%list_elem_of_singleton.
  - destruct (advance_leftmost exec rest s0) as [[[j'|] s2]|] eqn:E'; [|done..].
    injection Hx as <- <-.
    destruct (IH _ _ _ E') as [Hd' Hrest].
    { intros c' Hc'. rewrite (driven_length _ _ Hd). by apply Hin, list_elem_of_further. }
    split; [by eapply driven_trans|].
    intros c' [->|Hc']%elem_of_cons; [by eapply driven_keeps_initialized|by apply Hrest].
Qed.

Lemma pull_right_initializes streams : ∀ s s2,
  pull_right exec streams s = Some (true, s2) →
  (∀ c, c ∈ streams → c < length s.1) →
  driven s.1 s2.1 ∧
  ∀ c, c ∈ streams → state (s2.1 !!! c) ≠ StreamUnInitialized.
Proof using exec_driven exec_consuming.
  induction streams as [|c rest IH]; intros s s2; simpl.
  { intros [= <-] _. split; [apply driven_refl|]. by intros c ?%elem_of_nil. }
  intros Hx Hin. case_decide as Hst.
  - destruct (exec c s) as [[r s0]|] eqn:E; [|done]. obind in Hx.
    pose proof (exec_driven _ _ _ _ E) as Hd.
    case_decide; [|done]. destruct (IH _ _ Hx) as [Hd' Hrest].
    { intros c' Hc'. rewrite (driven_length _ _ Hd). by apply Hin, list_elem_of_further. }
    split; [by eapply driven_trans|].
    intros c' [->|Hc']%elem_of_cons; [|by apply Hrest].
    eapply driven_keeps_initialized; [done|].
    rewrite (exec_consuming _ _ _ _ E); [done|]. apply Hin, list_elem_of_here.
  - destruct (IH _ _ Hx) as [Hd' Hrest].
    { intros c' Hc'. by apply Hin, list_elem_of_further. }
    split; [done|].
    intros c' [->|Hc']%elem_of_cons; [|by apply Hrest].
    by eapply driven_keeps_initialized.
Qed.

Lemma reset_left_driven streams : ∀ s b s3,
  reset_left exec resetStream streams s = Some (b, s3) → driven s.1 s3.1.
Proof using exec_driven resetStream_heap.
  induction streams as [|c rest IH]; intros s b s3; simpl.
  { intros [= _ <-]. apply driven_refl. }
  destruct (resetStream c s) as [s1|] eqn:E1; [|done]. obind.
  destruct (exec c s1) as [[r s2]|] eqn:E2; [|done]. obind.
  apply resetStream_heap in E1. apply exec_driven in E2. rewrite E1 in E2.
  case_decide; [|by intros [= _ <-]].
  intros Hx%IH. by eapply driven_trans.
Qed.

Lemma pull_from_children_initializes streams s s' :
  pull_from_children exec resetStream streams s = Some (OP_OK, s') →
  (∀ c, c ∈ streams → c < length s.1) →
  ∀ c, c ∈ streams → state (s'.1 !!! c) ≠ StreamUnInitialized.
Proof using exec_driven exec_consuming resetStream_heap.
  unfold pull_from_children. intros Hx Hin.
  destruct (advance_leftmost exec streams s) as [[[j|] s1]|] eqn:E1; [|done..].
  obind in Hx.
  destruct (advance_leftmost_initializes _ _ _ _ E1 Hin) as [Hd1 Hleft].
  destruct (pull_right exec _ s1) as [[[|] s2]|] eqn:E2; [|done..]. obind in Hx.
  destruct (pull_right_initializes _ _ _ E2) as [Hd2 Hright].
  { intros c Hc%subseteq_drop. rewrite (driven_length _ _ Hd1). by apply Hin. }
  destruct (reset_left exec resetStream _ s2) as [[ok' s3]|] eqn:E3; [|done].
  obind in Hx. apply reset_left_driven in E3.
  destruct ok'; [|done]. injection Hx as <-.
  intros c Hc. eapply driven_keeps_initialized; [done|].
  rewrite <-(take_drop (S j) streams) in Hc.
  apply elem_of_app in Hc as [Hc|Hc]; [|by apply Hright].
  eapply driven_keeps_initialized; [done|]. by apply Hleft.
Qed.
End PullInitializes.

(** X14.  When [PullFromStreams] returns [OP_OK], every child of [source]
    has been driven: none is [StreamUnInitialized]. *)
Theorem PullFromStreams_ok_initializes fuel source (s : list OpNode * World) s' :
  PullFromStreams fuel source s = Some (OP_OK, s') →
  (∀ c, c ∈ children (s.1 !!! source) → c < length s.1) →
  ∀ c, c ∈ children (s.1 !!! source) →
       state (s'.1 !!! c) ≠ StreamUnInitialized.
Proof.
  unfold PullFromStreams. intros Hx.
  rewrite PullFromStreams_body_spec in Hx;
    [|apply _ExecuteOpNode_skeleton|apply ResetStream_skeleton].
  revert Hx. apply pull_from_children_initializes.
  - intros n0 s0 r0 s0' Hx. apply _ExecuteOpNode_driven in Hx.
    eapply driven_trans; [apply driven_consuming|done].
  - intros n0 s0 r0 s0' Hx. by apply (_ExecuteOpNode_consuming fuel n0 s0 r0 s0').
  - apply ResetStream_heap.
Qed.

Lemma PullFromStreams_without_children fuel source (s : list OpNode * World) :
  children (s.1 !!! source) = [] →
  PullFromStreams fuel source s = Some (OP_DEPLETED, s).
Proof.
  intros Hc. unfold PullFromStreams, PullFromStreams_body, childCount.
  rewrite Hc. simpl. rewrite Hc. simpl. by rewrite Hc.
Qed.

(** X15.  An operator without children that asks for new data gets
    none: when its [consume] returns [OP_REFRESH], the driver resets
    it, finds no stream to pull from, and returns [OP_DEPLETED] (or
    [OP_ERR] when the reset fails) without a second [consume]. *)
Theorem driver_on_leaf_refresh fuel n (h : list OpNode) (w w1 w2 : World) rr :
  children (h !!! n) = [] →
  consume n (operation (h !!! n)) w = (OP_REFRESH, w1) →
  reset n (operation (h !!! n)) w1 = (rr, w2) →
  _ExecuteOpNode (S fuel) n (h, w) =
    Some (if decide (rr = OP_OK) then OP_DEPLETED else OP_ERR,
          (update n (set_state StreamConsuming) h, w2)).
Proof.
  intros Hc Hcons Hreset. simpl. unfold consume_op_of, reset_op_of. simpl.
  set (h1 := update n (set_state StreamConsuming) h).
  assert (operation (h1 !!! n) = operation (h !!! n) ∧
          children (h1 !!! n) = []) as [Hop Hc1].
  { pose proof (skeleton_lookup h1 h n (skeleton_update_state n StreamConsuming h))
      as (Hop & Hch & _). by rewrite Hop, Hch. }
  rewrite Hop, Hcons. simpl. rewrite Hop, Hreset. simpl.
  destruct (decide (rr = OP_OK)) as [->|Hne].
  - rewrite decide_False by (by intros []).
    pose proof (PullFromStreams_without_children fuel n (h1, w2) Hc1) as Hpull.
    unfold PullFromStreams in Hpull. rewrite Hpull. done.
  - by rewrite decide_True.
Qed.
End ExecutorStates.

(** The first call of the driver on the plan for [MATCH (a),(b)]. *)
Lemma driver_only_sets_consuming_witness :
  ∃ r s',
    _ExecuteOpNode (H := demo_operators) 10 0 (plan_a_and_b, demo_world 3)
      = Some (r, s') ∧
    skeleton s'.1 = skeleton plan_a_and_b ∧
    state (s'.1 !!! 0) = StreamConsuming.
Proof.
  destruct (_ExecuteOpNode (H := demo_operators) 10 0 (plan_a_and_b, demo_world 3))
    as [[r s']|] eqn:E; [|vm_compute in E; discriminate E].
  exists r, s'. split; [reflexivity|].
  destruct (driver_only_sets_consuming (H := demo_operators) 10 0
              (plan_a_and_b, demo_world 3) r s' E) as (Hsk & _ & Hroot).
  split; [exact Hsk|]. apply Hroot. vm_compute. lia.
Defined.

(** The first pull at the root of the plan for [MATCH (a),(b)]
    advances the scan of [a] and drives the scan of [b]. *)
Lemma PullFromStreams_ok_initializes_witness :
  ∃ s',
    PullFromStreams (H := demo_operators) 10 0 (plan_a_and_b, demo_world 3)
      = Some (OP_OK, s') ∧
    state (plan_a_and_b !!! 2) = StreamUnInitialized ∧
    state (s'.1 !!! 2) ≠ StreamUnInitialized.
Proof.
  eexists. split; [vm_compute; reflexivity|]. split; [vm_compute; reflexivity|].
  eapply (PullFromStreams_ok_initializes (H := demo_operators) 10 0
            (plan_a_and_b, demo_world 3)).
  - vm_compute. reflexivity.
  - intros c Hc. apply (bool_decide_unpack _).
    revert c Hc. apply Forall_forall. refine (bool_decide_unpack _ _).
    vm_compute. exact I.
  - vm_compute. apply list_elem_of_further, list_elem_of_here.
Defined.

(** A [ProduceResults] without a child: it asks for new data and is
    told there is none. *)
Lemma driver_on_leaf_refresh_witness :
  _ExecuteOpNode (H := demo_operators) 1 0
    ([mkOpNode NewProduceResultsOp [] [] StreamUnInitialized], demo_world 1)
  = Some (OP_DEPLETED,
          ([mkOpNode NewProduceResultsOp [] [] StreamConsuming],
           mkDemo [0] [true] [])).
Proof.
  apply (driver_on_leaf_refresh (H := demo_operators) 0 0
           [mkOpNode NewProduceResultsOp [] [] StreamUnInitialized]
           (demo_world 1) (mkDemo [0] [true] []) (mkDemo [0] [true] []) OP_OK).
  - reflexivity.
  - vm_compute. reflexivity.
  - vm_compute. reflexivity.
Defined.

(** ** The merge rewrite *)

(** X16.  [_ExecutionPlan_MergeNodes] makes and frees no operator node, and
    rewrites the operation of one node at most: an [ExpandAll] into
    [n], which becomes the [ExpandInto] with the same source, edge and
    destination. *)
Theorem MergeNodes_rewrites_one_operation fuel g root n (h h' : list OpNode) :
  _ExecutionPlan_MergeNodes fuel g root n h = Some h' →
  length h' = length h ∧
  (operation <$> h' = operation <$> h ∨
   ∃ a s r, Node_IncomeDegree g n = 2 ∧
            variant (operation (h !!! a)) = ExpandAll s r n ∧
            operation <$> h' = <[a := NewExpandIntoOp g s r n]> (operation <$> h)).
Proof.
  intros Hx.
  cut (operation <$> h' = operation <$> h ∨
       ∃ a s r, Node_IncomeDegree g n = 2 ∧
                variant (operation (h !!! a)) = ExpandAll s r n ∧
                operation <$> h' = <[a := NewExpandIntoOp g s r n]> (operation <$> h)).
  { intros Hops. split; [|done].
    destruct Hops as [Hops|(a & s & r & _ & _ & Hops)];
      apply (f_equal length) in Hops;
      by rewrite ?length_insert, !length_fmap in Hops. }
  revert Hx. unfold _ExecutionPlan_MergeNodes.
  case_decide as Hdeg; [intros [= <-]; by left|].
  destruct (MergeNodes_locate _ _ _ _ _) as [[[a|] [b|]]|] eqn:El;
    try done; try (intros [= <-]; by left).
  destruct (variant (operation (h !!! a))) eqn:Ev; try done.
  intros Hx%MergeNodes_inherit_ops. right.
  apply MergeNodes_locate_found in El as [|El]; [done|].
  unfold expands_to in El. rewrite Ev in El. apply bool_decide_eq_true in El.
  subst dest_node. exists a, src_node, relation.
  split; [by destruct (decide (Node_IncomeDegree g n = 2)); [|destruct Hdeg]|].
  split; [done|].
  rewrite Hx, ops_AddChild. unfold update. by rewrite list_fmap_insert.
Qed.

(** The merge rewrite for [n] on the plan for [MATCH (x)-->(n)<--(y:L)]. *)
Lemma MergeNodes_rewrites_one_operation_witness :
  ∃ h',
    _ExecutionPlan_MergeNodes 10 pattern_x_n_y 0 1 plan_x_n_y = Some h' ∧
    length h' = length plan_x_n_y.
Proof.
  eexists. split; [vm_compute; reflexivity|].
  eapply proj1, (MergeNodes_rewrites_one_operation 10 pattern_x_n_y 0 1 plan_x_n_y).
  vm_compute. reflexivity.
Defined.

Lemma MergeNodes_locate_mono fuel (h : list OpNode) n : ∀ fuel' a st r,
  fuel ≤ fuel' → MergeNodes_locate fuel h n a st = Some r →
  MergeNodes_locate fuel' h n a st = Some r.
Proof.
  induction fuel as [|f IH]; intros [|f'] a st r Hle; [done|done|lia|]. simpl.
  destruct (Vector_Pop st) as [[current rest]|]; [|done].
  destruct (expands_to n (operation (h !!! current))).
  - destruct a; [done|]. apply IH. lia.
  - apply IH. lia.
Qed.

Lemma MergeNodes_inherit_mono fuel : ∀ fuel' a b i (h h' : list OpNode),
  fuel ≤ fuel' → MergeNodes_inherit fuel a b i h = Some h' →
  MergeNodes_inherit fuel' a b i h = Some h'.
Proof.
  induction fuel as [|f IH]; intros [|f'] a b i h h' Hle; [done|done|lia|]. simpl.
  destruct (parents (h !!! b) !! i); [|done].
  case_decide; apply IH; lia.
Qed.

Lemma length_remove_first x (l : list nat) :
  x ∈ l → length (remove_first x l) = pred (length l).
Proof.
  induction l as [|y l IH]; [by intros ?%elem_of_nil|]. simpl.
  case_decide; [done|]. intros [->|Hx]%elem_of_cons; [done|]. simpl.
  rewrite IH by done. destruct l; [by apply elem_of_nil in Hx|done].
Qed.

Lemma MergeNodes_inherit_self k : ∀ a i (h : list OpNode),
  linked h → a < length h → a ∈ children (h !!! a) →
  length (parents (h !!! a)) - i < k →
  ∃ h', MergeNodes_inherit k a a i h = Some h' ∧ linked h' ∧
        a ∈ children (h' !!! a).
Proof.
  induction k as [|k IH]; intros a i h Hl Ha Hself Hk; [lia|]. simpl.
  destruct (parents (h !!! a) !! i) as [bParent|] eqn:Hi; [|by exists h].
  apply lookup_lt_Some in Hi as Hlt.
  case_decide as Hne; [apply IH; [done..|lia]|].
  apply list_elem_of_lookup_2 in Hi.
  destruct (linked_parent_in_heap _ _ _ Hl Hi) as [Hbp _].
  assert (_OpNode_ContainsChild h bParent a = true) as ->.
  { apply contains_elem_of, occurrences_pos. rewrite (Hl bParent a).
    by apply occurrences_pos. }
  apply IH.
  - by apply linked_RemoveNode.
  - unfold _OpNode_RemoveChild. by rewrite RemoveNode_length.
  - unfold _OpNode_RemoveChild. rewrite RemoveNode_children by done.
    by rewrite decide_False by done.
  - unfold _OpNode_RemoveChild. rewrite RemoveNode_parents by done.
    rewrite decide_True by done. rewrite length_remove_first by done. lia.
Qed.



(** ** The chains of the plan *)



(** X19.  The hops of a chain pass no pattern node twice. *)
Theorem expand_chain_passes_no_node_twice fuel g srcNode ops (h : list OpNode) ops' h' :
  expand_chain fuel g srcNode ops h = Some (ops', h') →
  ∃ path, first_edge_path g srcNode path ∧ NoDup (path.*1.*1) ∧
          operation <$> h' =
            (operation <$> h) ++ ((λ hop, NewExpandAllOp g hop.1.1 hop.1.2 hop.2) <$> path).
Proof.
  intros (path & Hpath & -> & ->)%expand_chain_spec. exists path.
  split; [done|]. split; [by eapply first_edge_path_NoDup|].
  rewrite fmap_app. f_equal. by rewrite <-list_fmap_compose.
Qed.

Lemma expand_chain_passes_no_node_twice_witness :
  ∃ path, first_edge_path pattern_two_joins 0 path ∧ NoDup (path.*1.*1) ∧
          path = [(0, 0, 4); (4, 2, 3)].
Proof.
  destruct (expand_chain_passes_no_node_twice 10 pattern_two_joins 0 [] []
              [0; 1] (expand_node pattern_two_joins <$> [(0, 0, 4); (4, 2, 3)]))
    as (path & Hpath & Hnd & Hops).
  - vm_compute. reflexivity.
  - exists path. split; [exact Hpath|]. split; [exact Hnd|].
    simpl in Hops. destruct path as [|[[s1 e1] d1] [|[[s2 e2] d2] [|? ?]]];
      simpl in Hops; try discriminate.
    injection Hops as Hs1 He1 Hd1 Hm1 Hs2 He2 Hd2 Hm2. by subst.
Defined.

Lemma expand_chain_endless g (S : nat → Prop) fuel :
  endless g S → ∀ srcNode ops (h : list OpNode),
  S srcNode → expand_chain fuel g srcNode ops h = None.
Proof.
  intros Hend. induction fuel as [|f IH]; intros srcNode ops h Hs; [done|]. simpl.
  destruct (Hend _ Hs) as (nd & edge & rest & e & -> & Hout & He & Hdest). obind.
  rewrite Hout, He. obind. by apply IH.
Qed.

Lemma plan_entries_endless g (S : nat → Prop) fuel pr e :
  endless g S → S e →
  ∀ entryNodes st, e ∈ entryNodes → plan_entries fuel g pr entryNodes st = None.
Proof.
  intros Hend Hs. induction entryNodes as [|node rest IH]; intros st;
    [by intros ?%elem_of_nil|].
  intros Hin. cbn [plan_entries].
  destruct (plan_entry fuel g pr node st) as [st'|] eqn:E; [|done]. obind.
  apply elem_of_cons in Hin as [<-|Hin]; [|by apply IH].
  exfalso. revert E. unfold plan_entry. destruct st as [Ops h].
  destruct (Hend _ Hs) as (nd & edge & rest' & e' & -> & Hout & _). obind.
  rewrite Hout. by rewrite (expand_chain_endless g S fuel Hend).
Qed.

Section NeverReturns.
Context `{FilterModule}.

(** X20.  When the first outgoing edges lead from an entry node of the
    pattern into a cycle, the loop that follows them has no end:
    whatever the fuel, [NewExecutionPlan] returns no plan. *)
Theorem NewExecutionPlan_never_returns_on_cycle g (S : nat → Prop) e fuel ft agg :
  endless g S → S e → e ∈ Graph_GetNDegreeNodes g 0 →
  NewExecutionPlan fuel g ft agg = None.
Proof.
  intros Hend Hs He. unfold NewExecutionPlan, NewExecutionPlan_chains.
  cbn [NewOpNode]. destruct (if agg then _ else _) as [Ops h1].
  by rewrite (plan_entries_endless g S fuel _ e Hend Hs).
Qed.
End NeverReturns.

Lemma endlessb_endless g l : endlessb g l = true → endless g (λ n, n ∈ l).
Proof.
  unfold endlessb. rewrite forallb_forall. intros Hall n Hn.
  apply list_elem_of_In, Hall in Hn.
  destruct (graph_nodes g !! n) as [nd|]; [|done].
  destruct (outgoingEdges nd) as [|edge rest] eqn:Hout; [done|].
  destruct (graph_edges g !! edge) as [e|] eqn:He; [|done].
  apply bool_decide_eq_true in Hn. by exists nd, edge, rest, e.
Qed.

(** [MATCH (c)-->(a)-->(b)-->(a)]: from the entry node [c] the first
    edges lead to [a], to [b] and to [a] again. *)
Lemma NewExecutionPlan_never_returns_on_cycle_witness :
  Graph_GetNDegreeNodes pattern_cycle 0 = [0] ∧
  ∀ fuel, NewExecutionPlan (H := spec_filters) fuel pattern_cycle None false = None.
Proof.
  split; [vm_compute; reflexivity|]. intros fuel.
  apply (NewExecutionPlan_never_returns_on_cycle (H := spec_filters)
           pattern_cycle (λ n, n ∈ [0; 1; 2]) 0).
  - apply endlessb_endless. vm_compute. reflexivity.
  - apply list_elem_of_here.
  - vm_compute. apply list_elem_of_here.
Defined.

(** ** Scan attachment, again *)

Lemma closed_reachable (h : list OpNode) x y :
  closed h → x < length h → reachable h x y → y < length h.
Proof. intros Hcl Hx. induction 1; [done|]. by eapply Hcl. Qed.

Lemma scans_added_reachable g (h h' : list OpNode) x y :
  closed h → x < length h → scans_added g h h' →
  reachable h' x y → reachable h x y ∨ length h ≤ y.
Proof.
  intros Hcl Hx (Hlen & Hold & Hnew). induction 1 as [|x' c Hr IH Hc]; [left; constructor|].
  destruct IH as [IH|IH].
  - pose proof (closed_reachable _ _ _ Hcl Hx IH) as Hx'.
    destruct (Hold x' Hx') as [E|[_ (s & r & d & scan & _ & Hscan & E & _)]].
    + left. eapply reachable_child; [done|]. by rewrite <-E.
    + right. rewrite E in Hc. simpl in Hc.
      apply list_elem_of_singleton in Hc as ->. lia.
  - exfalso. destruct (decide (x' < length h')) as [Hlt|Hge].
    + destruct (Hnew x' ltac:(lia)) as [Hnil _]. rewrite Hnil in Hc.
      by apply elem_of_nil in Hc.
    + rewrite lookup_total_ge in Hc by lia. by apply elem_of_nil in Hc.
Qed.

Lemma for_each_child_from_settled (rec : nat → list OpNode → option (list OpNode))
    x (h : list OpNode) :
  (∀ c, c ∈ children (h !!! x) → rec c h = Some h) →
  ∀ k i, length (children (h !!! x)) - i < k →
         for_each_child_from id rec k x i h = Some h.
Proof.
  intros Hrec. induction k as [|k IH]; intros i Hk; [lia|]. simpl. unfold id at 1.
  destruct (children (h !!! x) !! i) as [c|] eqn:Hc; [|done].
  rewrite (Hrec c) by (by eapply list_elem_of_lookup_2). obind.
  apply lookup_lt_Some in Hc. apply IH. lia.
Qed.

Lemma OptimizeEntryPoints_settled g rk f : ∀ x (h : list OpNode),
  (∀ p c, c ∈ children (h !!! p) → rk c < rk p) →
  (∀ y, reachable h x y → ¬ awaits_scan (h !!! y)) →
  rk x < f →
  _ExecutionPlan_OptimizeEntryPoints f g x h = Some h.
Proof.
  induction f as [|f IH]; intros x h Hrk Hset Hf; [lia|].
  assert (_ExecutionPlan_OptimizeEntryPoints (S f) g x h =
          for_each_child id (_ExecutionPlan_OptimizeEntryPoints f g) x h) as ->.
  { simpl. destruct (children (h !!! x)) eqn:Hc; [|done].
    destruct (variant (operation (h !!! x))) eqn:Hv; try done.
    destruct (Hset x); [constructor|]. split; [done|]. apply type_expand_all. eauto. }
  unfold for_each_child. apply for_each_child_from_settled; [|unfold childCount, id; lia].
  intros c Hc. apply IH; [done| |specialize (Hrk _ _ Hc); lia].
  intros y Hy. apply Hset. by eapply reachable_step.
Qed.

(** X21.  Scan attachment is idempotent: on the plan it has made, a second
    run finds no [ExpandAll] without a child and changes nothing. *)
Theorem OptimizeEntryPoints_idempotent g (h : list OpNode) root rk :
  closed h → root < length h →
  (∀ p c, c ∈ children (h !!! p) → rk c < rk p) →
  ∃ h',
    _ExecutionPlan_OptimizeEntryPoints (rk root + 2) g root h = Some h' ∧
    _ExecutionPlan_OptimizeEntryPoints (rk root + 2) g root h' = Some h'.
Proof.
  intros Hcl Hroot Hrk.
  set (rk' := λ y, if decide (y < length h) then S (rk y) else 0).
  assert (ranked rk' h) as Hranked.
  { split; [done|]. split.
    - intros p c Hc. unfold rk'.
      pose proof (inhabitant_children _ _ _ Hc). pose proof (Hcl _ _ Hc).
      specialize (Hrk _ _ Hc). repeat case_decide; lia.
    - intros x y Hty Hy. unfold rk'.
      destruct (decide (x < length h)).
      + case_decide; [lia|]. lia.
      + rewrite lookup_total_ge in Hty by lia. done. }
  assert (rk' root < rk root + 2) as Hfuel by (unfold rk'; case_decide; lia).
  destruct (OptimizeEntryPoints_walk g rk' (rk root + 2) root h Hranked Hfuel)
    as (h' & Hrun & Hadd & (_ & Hrk1 & _) & Hdone).
  exists h'. split; [done|].
  apply (OptimizeEntryPoints_settled g rk'); [done| |done].
  intros y Hy.
  destruct (scans_added_reachable g h h' root y Hcl Hroot Hadd Hy) as [Hold|Hnew].
  - by apply Hdone.
  - destruct Hadd as (_ & _ & Hnew'). intros [_ Hty].
    destruct (decide (y < length h')) as [Hlt|Hge].
    + by destruct (Hnew' y ltac:(lia)) as [_ ?].
    + by rewrite lookup_total_ge in Hty by lia.
Qed.

(** Scan attachment on the chains of [MATCH (x)-->(n)<--(y:L)], twice. *)
Lemma OptimizeEntryPoints_idempotent_witness :
  ∃ h',
    _ExecutionPlan_OptimizeEntryPoints 3 pattern_x_n_y 0 chains_x_n_y = Some h' ∧
    _ExecutionPlan_OptimizeEntryPoints 3 pattern_x_n_y 0 h' = Some h'.
Proof.
  apply (OptimizeEntryPoints_idempotent pattern_x_n_y chains_x_n_y 0
           (λ x, match x with 0 => 1 | _ => 0 end)).
  - apply closedb_closed. vm_compute. reflexivity.
  - vm_compute. lia.
  - apply decreasingb_sound. vm_compute. reflexivity.
Defined.

(** ** Filter pushdown, again *)

Section AddFiltersOps.
Context `{FilterModule}.

Lemma AddFilters_apply_ops root seen (st : list OpNode * option FT_FilterNode) :
  ∃ ts, operation <$> (AddFilters_apply root seen st).1 =
          (operation <$> st.1) ++ (NewFilterOp <$> ts).
Proof.
  destruct st as [h ft]. simpl.
  destruct (FilterTree_ContainsNode ft seen); simpl.
  - exists [FilterTree_MinFilterTree ft seen].
    by rewrite ops_PushInBetween, fmap_app.
  - exists []. simpl. by rewrite app_nil_r.
Qed.

Lemma AddFilters_children_ops
    (rec : nat → list OpNode * option FT_FilterNode →
           option (option (list string) * (list OpNode * option FT_FilterNode)))
    root
    (Hrec : ∀ c st r st', rec c st = Some (r, st') →
            ∃ ts, operation <$> st'.1 = (operation <$> st.1) ++ (NewFilterOp <$> ts)) :
  ∀ i seen st r st',
    AddFilters_children rec root i seen st = Some (r, st') →
    ∃ ts, operation <$> st'.1 = (operation <$> st.1) ++ (NewFilterOp <$> ts).
Proof.
  induction i as [|i IH]; intros seen st r st'; simpl.
  { intros [= _ <-]. exists []. simpl. by rewrite app_nil_r. }
  destruct (children (st.1 !!! root) !! i) as [c|]; [|done]. obind.
  destruct (rec c st) as [[saw st1]|] eqn:E; [|done]. obind.
  apply Hrec in E as [ts1 E1].
  destruct (st1.2); [|intros [= _ <-]; eauto].
  intros [ts2 E2]%IH. exists (ts1 ++ ts2).
  by rewrite E2, E1, fmap_app, app_assoc.
Qed.

(** X22.  The filter pushdown rewrites no operation of the plan and frees no
    node; the nodes it makes are [Filter] operators. *)
Theorem AddFilters_adds_filters_only fuel : ∀ root st r st',
  _ExecutionPlan_AddFilters fuel root st = Some (r, st') →
  ∃ ts, operation <$> st'.1 = (operation <$> st.1) ++ (NewFilterOp <$> ts).
Proof.
  induction fuel as [|f IH]; intros root st r st'; [done|]. simpl.
  destruct (AddFilters_children _ _ _ _ _) as [[r1 st1]|] eqn:E; [|done]. obind.
  apply AddFilters_children_ops in E as [ts1 E1]; [|done].
  destruct r1 as [seen|]; intros [= _ <-]; [|eauto].
  destruct (AddFilters_apply_ops root seen st1) as [ts2 E2].
  exists (ts1 ++ ts2). by rewrite E2, E1, fmap_app, app_assoc.
Qed.
End AddFiltersOps.

(** The pushdown of [WHERE a.age > 30] over the plan for
    [MATCH (a)-[:R]->(b)] adds one [Filter]. *)
Lemma AddFilters_adds_filters_only_witness :
  ∃ r st' ts,
    _ExecutionPlan_AddFilters (H := spec_filters) 10 0 (plan_a_b, Some where_a_age)
      = Some (r, st') ∧
    operation <$> st'.1 = (operation <$> plan_a_b) ++ (NewFilterOp <$> ts).
Proof.
  destruct (_ExecutionPlan_AddFilters (H := spec_filters) 10 0
              (plan_a_b, Some where_a_age)) as [[r st']|] eqn:E;
    [|vm_compute in E; discriminate E].
  destruct (AddFilters_adds_filters_only (H := spec_filters) 10 0
              (plan_a_b, Some where_a_age) r st' E) as [ts Hts].
  exists r, st', ts. split; [reflexivity|exact Hts].
Defined.

(** ** Running a plan as it was built *)

Section FreshPlan.
Context `{FilterModule} `{Operators}.

Lemma Execute_loop_driven fuel : ∀ root (s : list OpNode * World) r s',
  Execute_loop fuel root s = Some (r, s') →
  driven (update root (set_state StreamConsuming) s.1) s'.1.
Proof.
  induction fuel as [|f IH]; intros root s r s'; [done|]. simpl.
  destruct (_ExecuteOpNode f root s) as [[r1 s1]|] eqn:E; [|done]. obind.
  apply _ExecuteOpNode_driven in E.
  case_decide; [|by intros [= _ <-]].
  intros Hx%IH. eapply driven_trans; [done|].
  eapply driven_trans; [apply driven_consuming|done].
Qed.

(** X23.  The nodes of a plan that [NewExecutionPlan] returns are all
    [StreamUnInitialized]; when the loop of [ExecutionPlan_Execute] on
    that plan is over, the root is [StreamConsuming] and every other
    node is either; [StreamDepleted] is the state of no node. *)
Theorem Execute_never_depletes fuel g ft agg plan fuel' (w : World) r s' :
  NewExecutionPlan fuel g ft agg = Some plan →
  Execute_loop fuel' (root plan) (heap plan, w) = Some (r, s') →
  (∀ x, state (heap plan !!! x) = StreamUnInitialized) ∧
  state (s'.1 !!! root plan) = StreamConsuming ∧
  ∀ x, state (s'.1 !!! x) = StreamUnInitialized ∨
       state (s'.1 !!! x) = StreamConsuming.
Proof.
  intros (Hroot & Hlen & _ & _ & Hun)%NewExecutionPlan_wf Hx.
  apply Execute_loop_driven in Hx as [_ Hst]. simpl in Hst.
  split; [done|]. split.
  - destruct (Hst (root plan)) as [E|E]; [|done].
    rewrite E, update_lookup_eq; [done|]. rewrite Hroot. done.
  - intros x. destruct (Hst x) as [E|E]; [|by right].
    rewrite E. destruct (decide (root plan < length (heap plan))) as [Hlt|Hge].
    + rewrite update_lookup by done. case_decide; [by right|left; apply Hun].
    + rewrite update_ge by lia. left. apply Hun.
Qed.
End FreshPlan.

(** The plan for [MATCH (a),(b)], run to the end. *)
Lemma Execute_never_depletes_witness :
  ∃ plan r s',
    NewExecutionPlan (H := spec_filters) 10 pattern_a_and_b None false = Some plan ∧
    Execute_loop (H := demo_operators) 20 (root plan) (heap plan, demo_world 3)
      = Some (r, s') ∧
    state (s'.1 !!! root plan) = StreamConsuming.
Proof.
  destruct (NewExecutionPlan (H := spec_filters) 10 pattern_a_and_b None false)
    as [plan|] eqn:E; [|vm_compute in E; discriminate E].
  destruct (Execute_loop (H := demo_operators) 20 (root plan)
              (heap plan, demo_world 3)) as [[r s']|] eqn:E'.
  - exists plan, r, s'. split; [reflexivity|]. split; [exact E'|].
    exact (proj1 (proj2 (Execute_never_depletes (H := spec_filters)
                           (H0 := demo_operators) 10 pattern_a_and_b None false
                           plan 20 (demo_world 3) r s' E E'))).
  - exfalso. vm_compute in E. injection E as <-. vm_compute in E'. discriminate E'.
Defined.

(** ** The merge rewrite on a join of two chains *)



(** ** Where the chains are hung *)

Lemma connect_ops_children_other k : ∀ Ops prevOp (h : list OpNode) q,
  Forall (λ x, x < length h) Ops → prevOp < length h → q ∉ Ops →
  children (connect_ops k Ops prevOp h !!! q) = children (h !!! q).
Proof.
  induction k as [|k IH]; intros Ops prevOp h q Hin Hprev Hq; simpl; [done|].
  destruct Ops as [|currentOp Ops' _] using rev_ind.
  { by rewrite Vector_Pop_nil. }
  rewrite Vector_Pop_push.
  apply Forall_app in Hin as [Hin' Hcur]. rewrite Forall_singleton in Hcur.
  apply not_elem_of_app in Hq as [Hq' Hqc]. rewrite list_elem_of_singleton in Hqc.
  assert (children (_OpNode_AddChild currentOp prevOp h !!! q) = children (h !!! q))
    as Hstep.
  { rewrite AddChild_children by done. by rewrite decide_False. }
  destruct Ops' as [|o Ops'']; [done|].
  rewrite IH; [done| |by rewrite AddChild_length|done].
  by rewrite AddChild_length.
Qed.

Lemma connect_ops_children_at k : ∀ Ops prevOp (h : list OpNode) pre o rest,
  Ops = pre ++ o :: rest → o ∉ pre → o ∉ rest → length Ops ≤ k →
  Forall (λ x, x < length h) Ops → prevOp < length h →
  children (connect_ops k Ops prevOp h !!! o) =
    children (h !!! o) ++ [default prevOp (head rest)].
Proof.
  induction k as [|k IH]; intros Ops prevOp h pre o rest -> Hpre Hrest Hk Hin Hprev.
  { rewrite length_app in Hk. simpl in Hk. lia. }
  assert (o < length h) as Ho.
  { apply Forall_app in Hin as [_ Hin]. by apply Forall_cons in Hin as [? _]. }
  simpl. destruct rest as [|currentOp rest' _] using rev_ind.
  - rewrite Vector_Pop_push.
    assert (children (_OpNode_AddChild o prevOp h !!! o) = children (h !!! o) ++ [prevOp])
      as Hstep.
    { rewrite AddChild_children by done. by rewrite decide_True. }
    destruct pre as [|x pre']; [done|].
    rewrite connect_ops_children_other; [done| |by rewrite AddChild_length|done].
    rewrite AddChild_length. by apply Forall_app in Hin as [? _].
  - rewrite app_comm_cons, app_assoc, Vector_Pop_push.
    apply not_elem_of_app in Hrest as [Hrest' Hoc]. rewrite list_elem_of_singleton in Hoc.
    rewrite app_comm_cons, app_assoc in Hin.
    apply Forall_app in Hin as [Hin' Hcur]. rewrite Forall_singleton in Hcur.
    assert (children (_OpNode_AddChild currentOp prevOp h !!! o) = children (h !!! o))
      as Hstep.
    { rewrite AddChild_children by done. by rewrite decide_False. }
    assert (default prevOp (head (rest' ++ [currentOp])) = default currentOp (head rest'))
      as -> by (by destruct rest').
    rewrite <-Hstep.
    destruct (pre ++ o :: rest') as [|x l] eqn:Eops; [by destruct pre|].
    rewrite <-Eops. apply (IH _ _ _ pre o rest'); try done.
    + rewrite !length_app in Hk. simpl in Hk. rewrite ?length_app in Hk. simpl in Hk.
      rewrite length_app. simpl. lia.
    + by rewrite Eops, AddChild_length.
    + by rewrite AddChild_length.
Qed.

Lemma connect_ops_length k : ∀ Ops prevOp (h : list OpNode),
  length (connect_ops k Ops prevOp h) = length h.
Proof.
  induction k as [|k IH]; intros Ops prevOp h; simpl; [done|].
  destruct (Vector_Pop Ops) as [[currentOp Ops']|]; [|done].
  destruct Ops'; [by rewrite AddChild_length|].
  by rewrite IH, AddChild_length.
Qed.

Lemma plan_entry_hangs_chain fuel g node restOps (h : list OpNode) ops' h' :
  plan_entry fuel g 0 node (0 :: restOps, h) = Some (ops', h') →
  0 < length h → Forall (λ x, 0 < x < length h) restOps → NoDup restOps →
  ops' = [0] ∧ length h ≤ length h' ∧
  ∃ new prevOp,
    Forall (λ x, length h ≤ x < length h') (new ++ [prevOp]) ∧
    children (h' !!! 0) =
      children (h !!! 0) ++ [default prevOp (head (restOps ++ new))] ∧
    (∀ pre o rest, restOps = pre ++ o :: rest →
       children (h' !!! o) =
         children (h !!! o) ++ [default prevOp (head (rest ++ new))]) ∧
    (∀ q, 0 < q < length h → q ∉ restOps →
       children (h' !!! q) = children (h !!! q)).
Proof.
  intros Hx Hlen Hrest Hnd. revert Hx. unfold plan_entry.
  destruct (graph_nodes g !! node) as [nd|] eqn:End; [|done]. obind.
  set (stage := match outgoingEdges nd with [] => _ | _ => _ end).
  destruct stage as [[ops1 h1]|] eqn:Estage; [|done]. obind.
  assert (∃ new prevOp fresh,
            ops1 = 0 :: restOps ++ new ++ [prevOp] ∧ h1 = h ++ fresh ∧
            NoDup (new ++ [prevOp]) ∧
            Forall (λ x, length h ≤ x < length h1) (new ++ [prevOp]))
    as (new & prevOp & fresh & -> & -> & Hndn & Hnew).
  { subst stage. destruct (outgoingEdges nd) as [|edge0 out] eqn:Hout.
    - assert (∀ op, ops1 = Vector_Push (0 :: restOps) (length h) →
                    h1 = (NewOpNode op h).2 →
                    ∃ new prevOp fresh,
                      ops1 = 0 :: restOps ++ new ++ [prevOp] ∧ h1 = h ++ fresh ∧
                      NoDup (new ++ [prevOp]) ∧
                      Forall (λ x, length h ≤ x < length h1) (new ++ [prevOp]))
        as Hscan.
      { intros op -> ->. exists [], (length h), [mkOpNode op [] [] StreamUnInitialized].
        split_and!; [done|done|apply NoDup_singleton|].
        simpl. rewrite Forall_singleton, length_app. simpl. lia. }
      destruct (label nd); injection Estage as <- <-; by eapply Hscan.
    - destruct (expand_chain _ _ _ _ _) as [[rev h1']|] eqn:Ec; [|done].
      injection Estage as <- <-.
      apply expand_chain_spec in Ec as (path & Hpath & -> & ->).
      simpl. rewrite save_reversed_spec.
      destruct path as [|hop path].
      { inversion Hpath; simplify_eq. congruence. }
      exists (reverse (seq (S (length h)) (length path))), (length h),
        (expand_node g <$> hop :: path).
      assert (reverse (seq (length h) (length (hop :: path))) =
              reverse (seq (S (length h)) (length path)) ++ [length h]) as Hrev.
      { simpl. by rewrite reverse_cons. }
      rewrite Hrev. split_and!; [done|done| |].
      + rewrite <-Hrev, reverse_Permutation. apply NoDup_seq.
      + rewrite <-Hrev. apply Forall_forall.
        intros x Hx%elem_of_reverse%elem_of_seq.
        rewrite length_app, length_fmap. lia. }
  assert (∀ q, q < length h → children ((h ++ fresh) !!! q) = children (h !!! q))
    as Hold.
  { intros q Hq. by rewrite lookup_total_app_l. }
  rewrite decide_True.
  2:{ simpl. rewrite !length_app. simpl. lia. }
  assert (0 :: restOps ++ new ++ [prevOp] = (0 :: restOps ++ new) ++ [prevOp]) as ->.
  { simpl. by rewrite app_assoc. }
  rewrite Vector_Pop_push.
  set (Ops2 := 0 :: restOps ++ new).
  remember (connect_ops (length Ops2) Ops2 prevOp (h ++ fresh)) as h2 eqn:Eh2.
  intros Heq. injection Heq as <- <-. subst h2.
  assert (Forall (λ x, x < length (h ++ fresh)) Ops2) as Hin2.
  { unfold Ops2. constructor; [rewrite length_app; lia|].
    apply Forall_app. split.
    - eapply Forall_impl; [done|]. simpl. intros x. rewrite length_app. lia.
    - apply Forall_app in Hnew as [Hnew _].
      eapply Forall_impl; [done|]. simpl. lia. }
  assert (prevOp < length (h ++ fresh)) as Hprev.
  { apply Forall_app in Hnew as [_ Hp]. rewrite Forall_singleton in Hp. lia. }
  assert (∀ x, x ∈ restOps → x ∉ new) as Hdisj.
  { intros x Hx Hx'. rewrite Forall_forall in Hrest. specialize (Hrest x Hx).
    apply Forall_app in Hnew as [Hnew _]. rewrite Forall_forall in Hnew.
    specialize (Hnew x Hx'). lia. }
  split; [done|]. split.
  { rewrite connect_ops_length, length_app. lia. }
  exists new, prevOp. rewrite connect_ops_length. split; [done|].
  split; [|split].
  - rewrite (connect_ops_children_at _ Ops2 prevOp (h ++ fresh) [] 0 (restOps ++ new));
      [|done|by intros ?%elem_of_nil| |done|done|done].
    + by rewrite Hold.
    + intros [Hx|Hx]%elem_of_app.
      * rewrite Forall_forall in Hrest. specialize (Hrest 0 Hx). lia.
      * apply Forall_app in Hnew as [Hnew _]. rewrite Forall_forall in Hnew.
        specialize (Hnew 0 Hx). lia.
  - intros pre o rest ->.
    assert (0 < o < length h) as Ho.
    { rewrite Forall_forall in Hrest. apply Hrest, elem_of_app. right.
      apply list_elem_of_here. }
    apply NoDup_app in Hnd as (_ & Hpo & Hnd'). apply NoDup_cons in Hnd' as [Hor _].
    rewrite (connect_ops_children_at _ Ops2 prevOp (h ++ fresh) (0 :: pre) o (rest ++ new));
      [|unfold Ops2; simpl; by rewrite <-app_assoc| | |done|done|done].
    + rewrite Hold by lia. done.
    + intros [->|Hx]%elem_of_cons; [lia|]. apply (Hpo o Hx), list_elem_of_here.
    + intros [Hx|Hx]%elem_of_app; [done|].
      apply (Hdisj o); [|done]. apply elem_of_app. right. apply list_elem_of_here.
  - intros q Hq Hqr. rewrite connect_ops_children_other; [apply Hold; lia|done|done|].
    unfold Ops2. intros [->|[Hx|Hx]%elem_of_app]%elem_of_cons; [lia|done|].
    apply Forall_app in Hnew as [Hnew _]. rewrite Forall_forall in Hnew.
    specialize (Hnew q Hx). lia.
Qed.

Lemma plan_entries_hang fuel g : ∀ entryNodes (h : list OpNode) ops' h',
  plan_entries fuel g 0 entryNodes ([0], h) = Some (ops', h') →
  0 < length h →
  length h ≤ length h' ∧
  (∀ q, 0 < q < length h → children (h' !!! q) = children (h !!! q)) ∧
  ∃ tops, children (h' !!! 0) = children (h !!! 0) ++ tops ∧
          length tops = length entryNodes ∧
          Forall (λ t, length h ≤ t) tops.
Proof.
  induction entryNodes as [|node nodes IH]; intros h ops' h'; cbn [plan_entries].
  { intros [= _ <-] _. split; [done|]. split; [done|]. exists [].
    by rewrite app_nil_r. }
  destruct (plan_entry _ _ _ _ _) as [[ops1 h1]|] eqn:E; [|done]. obind.
  intros Hx Hlen.
  apply plan_entry_hangs_chain in E
    as (-> & Hlen1 & new & prevOp & Hnew & H0 & _ & Hother);
    [|done|constructor|constructor].
  apply IH in Hx as (Hlen2 & Hother2 & tops & H0' & Htops & Hge); [|lia].
  split; [lia|]. split.
  { intros q Hq. rewrite Hother2 by lia. apply Hother; [done|]. by intros ?%elem_of_nil. }
  exists (default prevOp (head new) :: tops). split_and!.
  - rewrite H0', H0. simpl. by rewrite <-app_assoc.
  - simpl. by rewrite Htops.
  - constructor; [|eapply Forall_impl; [done|]; simpl; lia].
    rewrite Forall_forall in Hnew.
    assert (default prevOp (head new) ∈ new ++ [prevOp]) as Hin.
    { destruct new; simpl; [apply list_elem_of_here|apply list_elem_of_here]. }
    specialize (Hnew _ Hin). lia.
Qed.

(** X25.  With an aggregation in the RETURN clause, the chain of the first
    entry node of the pattern is hung below the [Aggregate], and the
    [Aggregate] below the root; the chain of every further entry node
    is hung below the root itself, beside the [Aggregate]. *)
Theorem Aggregate_is_over_the_first_chain_only fuel g ft p e rest :
  NewExecutionPlan_chains fuel g ft true = Some p →
  Graph_GetNDegreeNodes g 0 = e :: rest →
  operation (heap p !!! 1) = NewAggregateOp ∧
  ∃ t tops,
    children (heap p !!! 1) = [t] ∧
    children (heap p !!! root p) = 1 :: tops ∧
    length tops = length rest ∧
    Forall (λ x, 1 < x) (t :: tops).
Proof.
  unfold NewExecutionPlan_chains. cbn [NewOpNode length]. intros Hx Hentries.
  rewrite Hentries in Hx. cbn [plan_entries] in Hx.
  set (h1 := ([] ++ [mkOpNode NewProduceResultsOp [] [] StreamUnInitialized]) ++
             [mkOpNode NewAggregateOp [] [] StreamUnInitialized]) in *.
  change (Vector_Push (Vector_Push [] 0) 1) with (0 :: [1]) in Hx.
  destruct (plan_entry _ _ _ _ _) as [[ops2 h2]|] eqn:E; [|done]. obind in Hx.
  pose proof (plan_entry_grown _ _ _ _ _ _ _ _ E) as Hg1.
  apply plan_entry_hangs_chain in E
    as (-> & Hlen2 & new & prevOp & Hnew & H0 & H1 & _);
    [|simpl; lia|rewrite Forall_singleton; simpl; lia|apply NoDup_singleton].
  specialize (H1 [] 1 [] eq_refl). simpl in H0, H1.
  destruct (plan_entries _ _ _ _ _) as [[ops3 h3]|] eqn:E'; [|done].
  obind in Hx. injection Hx as <-. simpl.
  pose proof (plan_entries_grown _ _ _ _ _ _ _ _ E') as Hg2.
  apply plan_entries_hang in E' as (Hlen3 & Hother & tops & H0' & Htops & Hge);
    [|simpl in Hlen2; lia].
  simpl in Hlen2. split.
  - pose proof (grown_trans _ _ _ Hg1 Hg2) as (l & Hl & _).
    apply (f_equal (λ ops, ops !! 1)) in Hl.
    rewrite list_lookup_fmap, lookup_app_l in Hl by (simpl; lia). simpl in Hl.
    destruct (h3 !! 1) as [nd|] eqn:E1; [|done]. simpl in Hl.
    rewrite (list_lookup_total_correct _ _ _ E1). congruence.
  - exists (default prevOp (head new)), tops. split_and!.
    + rewrite Hother by lia. done.
    + by rewrite H0', H0.
    + done.
    + constructor.
      * rewrite Forall_forall in Hnew.
        assert (default prevOp (head new) ∈ new ++ [prevOp]) as Hin.
        { destruct new; simpl; [apply list_elem_of_here|apply list_elem_of_here]. }
        specialize (Hnew _ Hin). simpl in Hnew. lia.
      * eapply Forall_impl; [done|]. simpl. lia.
Qed.

(** [MATCH (x)-->(n)<--(y:L)] with an aggregation: the [Aggregate]
    (node 1) is over the chain from [x]; the chain from [y] is a child
    of the root. *)
Lemma Aggregate_is_over_the_first_chain_only_witness :
  ∃ p t tops,
    NewExecutionPlan_chains 10 pattern_x_n_y None true = Some p ∧
    children (heap p !!! 1) = [t] ∧
    children (heap p !!! root p) = 1 :: tops ∧
    length tops = 1.
Proof.
  destruct (NewExecutionPlan_chains 10 pattern_x_n_y None true) as [p|] eqn:E;
    [|vm_compute in E; discriminate E].
  destruct (Aggregate_is_over_the_first_chain_only 10 pattern_x_n_y None p 0 [2] E)
    as (_ & t & tops & Ht & Htops & Hlen & _).
  - vm_compute. reflexivity.
  - exists p, t, tops. split; [reflexivity|]. split; [exact Ht|].
    split; [exact Htops|exact Hlen].
Defined.

(** * The link arrays within their allocations *)

(** ** The contents of the memory *)

Lemma contents_length (m : Mem.Memory) : length (Mem.contents m) = length m.
Proof. unfold Mem.contents. by rewrite length_fmap. Qed.

Lemma contents_lookup (m : Mem.Memory) p : Mem.contents m !!! p = (m !!! p).1.
Proof.
  unfold Mem.contents.
  rewrite (list_lookup_total_alt m), list_lookup_total_alt, list_lookup_fmap.
  by destruct (m !! p).
Qed.

Lemma contents_insert (m : Mem.Memory) p x :
  Mem.contents (<[p := x]> m) = <[p := x.1]> (Mem.contents m).
Proof. unfold Mem.contents. by rewrite list_fmap_insert. Qed.

Lemma contents_NewOpNode op (m : Mem.Memory) :
  (Mem.NewOpNode op m).1 = (NewOpNode op (Mem.contents m)).1 ∧
  Mem.contents (Mem.NewOpNode op m).2 = (NewOpNode op (Mem.contents m)).2.
Proof.
  unfold Mem.NewOpNode, NewOpNode. simpl. rewrite contents_length. split; [done|].
  unfold Mem.contents. by rewrite fmap_app.
Qed.

Lemma NewOpNode_mem_old op (m : list (OpNode * Slots)) q :
  q < length m → (Mem.NewOpNode op m).2 !!! q = m !!! q.
Proof. intros. unfold Mem.NewOpNode. simpl. by rewrite lookup_total_app_l. Qed.

Lemma NewOpNode_mem_new op (m : list (OpNode * Slots)) :
  (Mem.NewOpNode op m).2 !!! length m
    = (mkOpNode op [] [] StreamUnInitialized, mkSlots None None).
Proof. unfold Mem.NewOpNode. simpl. by rewrite list_lookup_total_middle. Qed.

(** Reduces the binds of a run. *)
Ltac rbind := cbn [mbind Run_bind of_option fst snd].
Tactic Notation "rbind" "in" hyp(H) := cbn [mbind Run_bind of_option fst snd] in H.

(** A run of [Mem._OpNode_AddChild] that stays within the allocations
    leaves the arrays as [_OpNode_AddChild] has them. *)
Lemma AddChild_contents parent child (m m' : Mem.Memory) :
  Mem._OpNode_AddChild parent child m = Done m' →
  Mem.contents m' = _OpNode_AddChild parent child (Mem.contents m).
Proof.
  unfold Mem._OpNode_AddChild, _OpNode_AddChild, update.
  repeat case_decide; [|done..]. intros [= <-].
  rewrite !contents_insert. cbn [fst].
  by rewrite <-!contents_lookup, contents_insert.
Qed.

Lemma insert_same (h : list OpNode) p : <[p := h !!! p]> h = h.
Proof.
  destruct (decide (p < length h)) as [Hp|Hp].
  - apply list_insert_id. by apply list_lookup_lookup_total_lt.
  - apply list_insert_ge. lia.
Qed.

Lemma set_children_same (nd : OpNode) : set_children (children nd) nd = nd.
Proof. by destruct nd. Qed.

Lemma set_parents_same (nd : OpNode) : set_parents (parents nd) nd = nd.
Proof. by destruct nd. Qed.

Lemma remove_first_absent x (l : list nat) : contains x l = false → remove_first x l = l.
Proof.
  induction l as [|y l IH]; simpl; [done|]. case_decide; [done|]. intros. by rewrite IH.
Qed.

Lemma RemoveNode_contents rz a b (m : Mem.Memory) :
  Mem.contents (Mem._OpNode_RemoveNode rz a b m) =
    _OpNode_RemoveNode a b (Mem.contents m).
Proof.
  unfold Mem._OpNode_RemoveNode, _OpNode_RemoveNode, update.
  set (m1 := if contains b _ then _ else m).
  assert (Mem.contents m1 =
          <[a := set_children (remove_first b (children (Mem.contents m !!! a)))
                   (Mem.contents m !!! a)]> (Mem.contents m)) as Hm1.
  { unfold m1. rewrite contents_lookup.
    destruct (contains b _) eqn:E.
    - by rewrite contents_insert.
    - rewrite (remove_first_absent _ _ E), set_children_same, <-contents_lookup.
      by rewrite insert_same. }
  rewrite <-Hm1, contents_lookup.
  destruct (contains a _) eqn:E.
  - by rewrite contents_insert.
  - rewrite (remove_first_absent _ _ E), set_parents_same, <-contents_lookup.
    by rewrite insert_same.
Qed.

Lemma update_children p f (h : list OpNode) q :
  (∀ x, children (f x) = children x) →
  children (update p f h !!! q) = children (h !!! q).
Proof.
  intros Hf. destruct (decide (p < length h)).
  - rewrite update_lookup by done. case_decide; subst; auto.
  - by rewrite update_ge by lia.
Qed.

Lemma update_parents p f (h : list OpNode) q :
  (∀ x, parents (f x) = parents x) →
  parents (update p f h !!! q) = parents (h !!! q).
Proof.
  intros Hf. destruct (decide (p < length h)).
  - rewrite update_lookup by done. case_decide; subst; auto.
  - by rewrite update_ge by lia.
Qed.

Lemma AddChild_children_other parent child (h : list OpNode) q :
  q ≠ parent →
  children (_OpNode_AddChild parent child h !!! q) = children (h !!! q).
Proof.
  intros. unfold _OpNode_AddChild. rewrite update_children by done.
  by rewrite update_lookup_ne.
Qed.

Lemma RemoveNode_children_at a b (h : list OpNode) :
  children (_OpNode_RemoveNode a b h !!! a) = remove_first b (children (h !!! a)).
Proof.
  unfold _OpNode_RemoveNode. rewrite update_children by done.
  destruct (decide (a < length h)).
  - by rewrite update_lookup_eq.
  - rewrite update_ge, lookup_total_ge by lia. done.
Qed.

(** As long as [parent] is not [onlyChild] every turn of the loop takes
    one child from [parent], and the loop takes as many turns as
    [parent] has children. *)
Lemma PushInBetween_loop_contents rz fuel : ∀ parent onlyChild (m m' : Mem.Memory) k,
  parent ≠ onlyChild → length (children (m !!! parent).1) ≤ k →
  Mem.PushInBetween_loop rz fuel parent onlyChild m = Done m' →
  Mem.contents m' = PushInBetween_loop k parent onlyChild (Mem.contents m).
Proof.
  induction fuel as [|f IH]; intros parent onlyChild m m' k Hne Hk; simpl; [done|].
  destruct (children (m !!! parent).1) as [|c cs] eqn:Ec.
  - intros [= <-]. destruct k; simpl; [done|]. by rewrite contents_lookup, Ec.
  - destruct (Mem._OpNode_AddChild onlyChild c m) as [m1| |] eqn:E1; [|done..]. rbind.
    destruct k as [|k]; [simpl in Hk; lia|]. simpl. rewrite contents_lookup, Ec.
    intros Hrun. apply (IH _ _ _ _ k) in Hrun; [|done|].
    + rewrite Hrun. unfold Mem._OpNode_RemoveChild, _OpNode_RemoveChild.
      by rewrite RemoveNode_contents, (AddChild_contents _ _ _ _ E1).
    + unfold Mem._OpNode_RemoveChild.
      rewrite <-contents_lookup, RemoveNode_contents, RemoveNode_children_at.
      rewrite (AddChild_contents _ _ _ _ E1), AddChild_children_other by done.
      rewrite contents_lookup, Ec. simpl. rewrite decide_True by done.
      simpl in Hk. lia.
Qed.

Lemma PushInBetween_contents rz fuel parent onlyChild (m m' : Mem.Memory) :
  parent ≠ onlyChild ∨ children (m !!! parent).1 = [] →
  Mem._OpNode_PushInBetween rz fuel parent onlyChild m = Done m' →
  Mem.contents m' = _OpNode_PushInBetween parent onlyChild (Mem.contents m).
Proof.
  unfold Mem._OpNode_PushInBetween, _OpNode_PushInBetween. intros Hne.
  destruct (Mem.PushInBetween_loop _ _ _ _ _) as [m1| |] eqn:E1; [|done..]. rbind.
  intros Hadd. rewrite (AddChild_contents _ _ _ _ Hadd). f_equal.
  destruct Hne as [Hne|Hnil].
  - eapply PushInBetween_loop_contents; [done| |done].
    unfold childCount. by rewrite contents_lookup.
  - destruct fuel as [|f]; [done|]. cbn [Mem.PushInBetween_loop] in E1.
    rewrite Hnil in E1.
    injection E1 as <-. unfold childCount. by rewrite contents_lookup, Hnil.
Qed.

(** ** The planner within the allocations

    A run of the planner that stays within the allocations builds the
    plan that the functions on the contents build. *)

Lemma MergeNodes_inherit_contents rz fuel : ∀ a b i (m m' : Mem.Memory),
  Mem.MergeNodes_inherit rz fuel a b i m = Done m' →
  MergeNodes_inherit fuel a b i (Mem.contents m) = Some (Mem.contents m').
Proof.
  induction fuel as [|f IH]; intros a b i m m'; simpl; [done|].
  rewrite contents_lookup.
  destruct (parents (m !!! b).1 !! i) as [bParent|]; [|by intros [= <-]].
  case_decide; [apply IH|].
  destruct (_OpNode_ContainsChild (Mem.contents m) bParent a) eqn:Ecc; rbind.
  - intros Hrun%IH. unfold Mem._OpNode_RemoveChild in Hrun.
    by rewrite RemoveNode_contents in Hrun.
  - destruct (Mem._OpNode_AddChild bParent a m) as [m1| |] eqn:E1; [|done..]. rbind.
    intros Hrun%IH. unfold Mem._OpNode_RemoveChild in Hrun.
    by rewrite RemoveNode_contents, (AddChild_contents _ _ _ _ E1) in Hrun.
Qed.

Lemma MergeNodes_contents rz fuel g root n (m m' : Mem.Memory) :
  Mem._ExecutionPlan_MergeNodes rz fuel g root n m = Done m' →
  _ExecutionPlan_MergeNodes fuel g root n (Mem.contents m) = Some (Mem.contents m').
Proof.
  unfold Mem._ExecutionPlan_MergeNodes, _ExecutionPlan_MergeNodes.
  case_decide; [by intros [= <-]|].
  destruct (MergeNodes_locate _ _ _ _ _) as [[[a|] [b|]]|]; try done;
    try (by intros [= <-]).
  rewrite contents_lookup.
  destruct (variant (operation (m !!! a).1)) eqn:Ev; try done.
  destruct (Mem._OpNode_AddChild a b _) as [m2| |] eqn:E2; [|done..]. rbind.
  intros Hrun%MergeNodes_inherit_contents.
  apply AddChild_contents in E2. rewrite contents_insert in E2. cbn [fst] in E2.
  rewrite <-contents_lookup in E2. unfold update. rewrite contents_lookup in *.
  by rewrite <-E2.
Qed.

Lemma merge_nodes_contents rz fuel g root : ∀ nodesToMerge (m m' : Mem.Memory),
  Mem.merge_nodes rz fuel g root nodesToMerge m = Done m' →
  merge_nodes fuel g root nodesToMerge (Mem.contents m) = Some (Mem.contents m').
Proof.
  induction nodesToMerge as [|n rest IH]; intros m m'; simpl; [by intros [= <-]|].
  destruct (Mem._ExecutionPlan_MergeNodes _ _ _ _ _ _) as [m1| |] eqn:E1; [|done..].
  rbind. rewrite (MergeNodes_contents _ _ _ _ _ _ _ E1). obind. apply IH.
Qed.

Lemma for_each_child_from_contents (rec : nat → Mem.Memory → Run Mem.Memory)
    (rec' : nat → list OpNode → option (list OpNode)) k :
  (∀ c m m', rec c m = Done m' → rec' c (Mem.contents m) = Some (Mem.contents m')) →
  ∀ node i (m m' : Mem.Memory),
    Mem.for_each_child_from rec k node i m = Done m' →
    for_each_child_from id rec' k node i (Mem.contents m) = Some (Mem.contents m').
Proof.
  intros Hrec. induction k as [|k IH]; intros node i m m'; simpl; [done|].
  rewrite contents_lookup.
  destruct (children (m !!! node).1 !! i) as [c|]; [|by intros [= <-]].
  destruct (rec c m) as [m1| |] eqn:E1; [|done..]. rbind.
  rewrite (Hrec _ _ _ E1). obind. apply IH.
Qed.

Lemma OptimizeEntryPoints_contents fuel g : ∀ root (m m' : Mem.Memory),
  Mem._ExecutionPlan_OptimizeEntryPoints fuel g root m = Done m' →
  _ExecutionPlan_OptimizeEntryPoints fuel g root (Mem.contents m)
    = Some (Mem.contents m').
Proof.
  induction fuel as [|f IH]; intros root m m'; simpl; [done|].
  rewrite contents_lookup.
  assert (Mem.for_each_child (Mem._ExecutionPlan_OptimizeEntryPoints f g) root m
            = Done m' →
          for_each_child id (_ExecutionPlan_OptimizeEntryPoints f g) root
            (Mem.contents m) = Some (Mem.contents m')) as Hwalk.
  { unfold Mem.for_each_child, for_each_child, id. rewrite contents_lookup.
    by apply for_each_child_from_contents. }
  destruct (children (m !!! root).1) as [|c cs]; [|done].
  destruct (variant (operation (m !!! root).1)); try done.
  intros Hadd%AddChild_contents. f_equal. rewrite Hadd.
  unfold Mem.contents. rewrite fmap_app, length_fmap. done.
Qed.

Section AddFiltersContents.
Context `{FilterModule}.
Variable rz : bool.

Lemma AddFilters_children_contents rec rec' root :
  (∀ c st saw st', rec c st = Done (saw, st') →
                   rec' c (pushdown_contents st) = Some (saw, pushdown_contents st')) →
  ∀ i seen st r st',
    Mem.AddFilters_children rec root i seen st = Done (r, st') →
    AddFilters_children rec' root i seen (pushdown_contents st)
      = Some (r, pushdown_contents st').
Proof.
  intros Hrec. induction i as [|i IH]; intros seen st r st'; simpl.
  { by intros [= <- <-]. }
  rewrite contents_lookup.
  destruct (children (st.1 !!! root).1 !! i) as [c|]; [|done]. rbind. obind.
  destruct (rec c st) as [[saw st1]| |] eqn:E1; [|done..]. rbind.
  rewrite (Hrec _ _ _ _ E1). obind.
  destruct (st1.2) eqn:E2; simpl; rewrite E2; [apply IH|].
  by intros [= <- <-].
Qed.

Lemma AddFilters_apply_contents fuel root seen st st' :
  Mem.AddFilters_apply rz fuel root seen st = Done st' →
  AddFilters_apply root seen (pushdown_contents st) = pushdown_contents st'.
Proof.
  destruct st as [m ft]. unfold Mem.AddFilters_apply, AddFilters_apply. simpl.
  destruct (FilterTree_ContainsNode ft seen); [|by intros [= <-]].
  destruct (Mem._OpNode_PushInBetween _ _ _ _ _) as [m2| |] eqn:E2; [|done..]. rbind.
  intros [= <-]. unfold pushdown_contents. simpl. f_equal.
  apply PushInBetween_contents in E2.
  - rewrite E2. rewrite contents_length. f_equal.
    unfold Mem.contents. by rewrite fmap_app.
  - destruct (decide (root = length m)) as [->|]; [right|by left].
    by rewrite list_lookup_total_middle.
Qed.

Lemma AddFilters_contents fuel : ∀ root st r st',
  Mem._ExecutionPlan_AddFilters rz fuel root st = Done (r, st') →
  _ExecutionPlan_AddFilters fuel root (pushdown_contents st)
    = Some (r, pushdown_contents st').
Proof.
  induction fuel as [|f IH]; intros root st r st'; [done|].
  cbn [Mem._ExecutionPlan_AddFilters _ExecutionPlan_AddFilters].
  destruct (Mem.AddFilters_children _ _ _ _ _) as [[r1 st1]| |] eqn:E1; [|done..].
  rbind.
  assert (childCount (st.1 !!! root).1 = childCount ((pushdown_contents st).1 !!! root))
    as <- by (simpl; by rewrite contents_lookup).
  rewrite (AddFilters_children_contents _ (_ExecutionPlan_AddFilters f) _ IH _ _ _ _ _ E1).
  obind. destruct r1 as [seen|]; [|by intros [= <- <-]].
  destruct (Mem.AddFilters_apply _ _ _ _ _) as [st2| |] eqn:E2; [|done..]. rbind.
  intros [= <- <-]. rewrite (AddFilters_apply_contents _ _ _ _ _ E2).
  simpl. by rewrite contents_lookup.
Qed.
End AddFiltersContents.

Lemma expand_chain_contents fuel g : ∀ srcNode ops (m : Mem.Memory) ops' m',
  Mem.expand_chain fuel g srcNode ops m = Done (ops', m') →
  expand_chain fuel g srcNode ops (Mem.contents m) = Some (ops', Mem.contents m').
Proof.
  induction fuel as [|f IH]; intros srcNode ops m ops' m'; simpl; [done|].
  destruct (graph_nodes g !! srcNode) as [nd|]; [|done]. rbind. obind.
  destruct (outgoingEdges nd) as [|edge ?]; [by intros [= <- <-]|].
  destruct (graph_edges g !! edge) as [e|]; [|done]. rbind. obind.
  intros Hrun%IH. rewrite contents_length.
  unfold Mem.contents in *. by rewrite fmap_app in Hrun.
Qed.

Lemma connect_ops_contents k : ∀ Ops prevOp (m m' : Mem.Memory),
  Mem.connect_ops k Ops prevOp m = Done m' →
  Mem.contents m' = connect_ops k Ops prevOp (Mem.contents m).
Proof.
  induction k as [|k IH]; intros Ops prevOp m m'; simpl; [by intros [= <-]|].
  destruct (Vector_Pop Ops) as [[currentOp Ops']|]; [|by intros [= <-]].
  destruct (Mem._OpNode_AddChild currentOp prevOp m) as [m1| |] eqn:E1; [|done..].
  rbind. rewrite <-(AddChild_contents _ _ _ _ E1).
  destruct Ops'; [by intros [= <-]|apply IH].
Qed.

Lemma plan_entry_contents fuel g pr node Ops (m : Mem.Memory) Ops' m' :
  Mem.plan_entry fuel g pr node (Ops, m) = Done (Ops', m') →
  plan_entry fuel g pr node (Ops, Mem.contents m) = Some (Ops', Mem.contents m').
Proof.
  unfold Mem.plan_entry, plan_entry.
  destruct (graph_nodes g !! node) as [nd|]; [|done]. rbind. obind.
  assert (∀ Ops1 m1,
    match outgoingEdges nd with
    | [] =>
        let '(scan_op, m1) :=
          match label nd with
          | Some l => Mem.NewOpNode (NewNodeByLabelScanOp g node l) m
          | None => Mem.NewOpNode (NewAllNodeScanOp g node) m
          end in
        Done (Vector_Push Ops scan_op, m1)
    | _ :: _ =>
        '(reversedExpandOps, m1) ← Mem.expand_chain fuel g node [] m;
        Done (save_reversed (length reversedExpandOps) reversedExpandOps Ops, m1)
    end = Done (Ops1, m1) →
    match outgoingEdges nd with
    | [] =>
        let '(scan_op, h1) :=
          match label nd with
          | Some l => NewOpNode (NewNodeByLabelScanOp g node l) (Mem.contents m)
          | None => NewOpNode (NewAllNodeScanOp g node) (Mem.contents m)
          end in
        Some (Vector_Push Ops scan_op, h1)
    | _ :: _ =>
        '(reversedExpandOps, h1) ← expand_chain fuel g node [] (Mem.contents m);
        Some (save_reversed (length reversedExpandOps) reversedExpandOps Ops, h1)
    end = Some (Ops1, Mem.contents m1)) as Hfirst.
  { intros Ops1 m1. destruct (outgoingEdges nd).
    - destruct (label nd); simpl; intros [= <- <-]; rewrite contents_length;
        unfold Mem.contents; by rewrite fmap_app.
    - destruct (Mem.expand_chain _ _ _ _ _) as [[rev m2]| |] eqn:E; [|done..]. rbind.
      intros [= <- <-]. by rewrite (expand_chain_contents _ _ _ _ _ _ _ E). }
  match goal with
  | |- mbind _ ?x = _ → _ => destruct x as [[Ops1 m1]| |] eqn:E1; [|done..]
  end.
  rbind. rewrite (Hfirst _ _ eq_refl). obind.
  case_decide; [|by intros [= <- <-]].
  destruct (Vector_Pop Ops1) as [[prevOp Ops2]|]; [|done].
  destruct (Mem.connect_ops _ _ _ _) as [m2| |] eqn:E2; [|done..]. rbind.
  intros [= <- <-]. by rewrite (connect_ops_contents _ _ _ _ _ E2).
Qed.

Lemma plan_entries_contents fuel g pr : ∀ entryNodes Ops (m : Mem.Memory) Ops' m',
  Mem.plan_entries fuel g pr entryNodes (Ops, m) = Done (Ops', m') →
  plan_entries fuel g pr entryNodes (Ops, Mem.contents m)
    = Some (Ops', Mem.contents m').
Proof.
  induction entryNodes as [|node rest IH]; intros Ops m Ops' m';
    cbn [Mem.plan_entries plan_entries].
  { by intros [= <- <-]. }
  destruct (Mem.plan_entry _ _ _ _ _) as [[Ops1 m1]| |] eqn:E1; [|done..]. rbind.
  apply plan_entry_contents in E1. rewrite E1. obind. apply IH.
Qed.

Lemma NewExecutionPlan_chains_contents fuel g ft agg p :
  Mem.NewExecutionPlan_chains fuel g ft agg = Done p →
  NewExecutionPlan_chains fuel g ft agg = Some (plan_contents p).
Proof.
  unfold Mem.NewExecutionPlan_chains, NewExecutionPlan_chains.
  cbn [Mem.NewOpNode NewOpNode length app].
  destruct agg; cbn [Mem.NewOpNode NewOpNode length app].
  - destruct (Mem.plan_entries _ _ _ _ _) as [[Ops m2]| |] eqn:E; [|done..]. rbind.
    apply plan_entries_contents in E.
    cbn [Mem.contents fmap list_fmap fst] in E. rewrite E. obind.
    by intros [= <-].
  - destruct (Mem.plan_entries _ _ _ _ _) as [[Ops m2]| |] eqn:E; [|done..]. rbind.
    apply plan_entries_contents in E.
    cbn [Mem.contents fmap list_fmap fst] in E. rewrite E. obind.
    by intros [= <-].
Qed.

Section PlanContents.
Context `{FilterModule}.

Lemma NewExecutionPlan_contents rz fuel g ft agg p :
  Mem.NewExecutionPlan rz fuel g ft agg = Done p →
  NewExecutionPlan fuel g ft agg = Some (plan_contents p).
Proof.
  unfold Mem.NewExecutionPlan, NewExecutionPlan.
  destruct (Mem.NewExecutionPlan_chains _ _ _ _) as [p0| |] eqn:E0; [|done..]. rbind.
  rewrite (NewExecutionPlan_chains_contents _ _ _ _ _ E0). obind.
  cbn [plan_contents root heap].
  destruct (Mem._ExecutionPlan_OptimizeEntryPoints _ _ _ _) as [m1| |] eqn:E1;
    [|done..]. rbind.
  rewrite (OptimizeEntryPoints_contents _ _ _ _ _ E1). obind.
  destruct (Mem.merge_nodes _ _ _ _ _ _) as [m2| |] eqn:E2; [|done..]. rbind.
  rewrite (merge_nodes_contents _ _ _ _ _ _ _ E2). obind.
  destruct ft as [t|]; [|by intros [= <-]].
  destruct (Mem._ExecutionPlan_AddFilters _ _ _ _) as [[r [m3 ft']]| |] eqn:E3;
    [|done..]. rbind.
  apply AddFilters_contents in E3. unfold pushdown_contents in E3. simpl in E3.
  rewrite E3. obind. by intros [= <-].
Qed.
End PlanContents.

(** ** Writes within and past the allocations *)

Lemma Slots_eta (s : Slots) : s = mkSlots (children_slots s) (parents_slots s).
Proof. by destruct s. Qed.

Lemma cell_lookup_insert (m : list (OpNode * Slots)) p q x :
  p < length m →
  <[p := x]> m !!! q = if decide (q = p) then x else m !!! q.
Proof.
  intros. case_decide; subst.
  - by rewrite list_lookup_total_insert_eq.
  - by rewrite list_lookup_total_insert_ne.
Qed.

Lemma AddChild_inv parent child (m m' : list (OpNode * Slots)) :
  parent < length m → child < length m →
  Mem._OpNode_AddChild parent child m = Done m' →
  room_children m parent ∧ room_parents m child ∧ length m' = length m ∧
  ∀ q, (m' !!! q).2 =
         mkSlots (if decide (q = parent) then Some (childCount (m !!! parent).1 + 2)
                  else children_slots (m !!! q).2)
                 (if decide (q = child) then Some (parentCount (m !!! child).1 + 2)
                  else parents_slots (m !!! q).2).
Proof.
  intros Hp Hc. unfold Mem._OpNode_AddChild, room_children, room_parents.
  destruct (decide (_ < _)) as [Hrc|]; [|done].
  rewrite cell_lookup_insert by done.
  destruct (decide (_ < _)) as [Hrp|]; [|done]. intros [= <-].
  split; [done|]. split.
  { destruct (decide (child = parent)) as [->|]; simpl in Hrp; done. }
  split; [by rewrite !length_insert|]. intros q.
  rewrite !cell_lookup_insert by (rewrite ?length_insert; done).
  unfold childCount, parentCount.
  repeat case_decide; subst; simpl; try done;
    try apply Slots_eta;
    try (repeat f_equal; lia).
Qed.

Lemma AddChild_Done parent child (m : list (OpNode * Slots)) :
  parent < length m → child < length m →
  room_children m parent → room_parents m child →
  ∃ m', Mem._OpNode_AddChild parent child m = Done m'.
Proof.
  intros Hp Hc Hrc Hrp. unfold Mem._OpNode_AddChild.
  rewrite decide_True by done. rewrite cell_lookup_insert by done.
  rewrite decide_True; [by eexists|].
  unfold room_parents in Hrp. by destruct (decide (child = parent)) as [->|].
Qed.

Lemma AddChild_past_children parent child (m : list (OpNode * Slots)) :
  ¬ room_children m parent →
  Mem._OpNode_AddChild parent child m
    = OutOfBounds parent Children (childCount (m !!! parent).1).
Proof. intros. unfold Mem._OpNode_AddChild. by rewrite decide_False. Qed.

Lemma AddChild_past_parents parent child (m : list (OpNode * Slots)) :
  parent < length m →
  room_children m parent → ¬ room_parents m child →
  Mem._OpNode_AddChild parent child m
    = OutOfBounds child Parents (parentCount (m !!! child).1).
Proof.
  intros Hp Hrc Hrp. unfold Mem._OpNode_AddChild.
  rewrite decide_True by done. rewrite cell_lookup_insert by done.
  unfold room_parents in Hrp.
  destruct (decide (child = parent)) as [->|]; simpl; by rewrite decide_False.
Qed.

Lemma RemoveNode_mem_length rz a b (m : list (OpNode * Slots)) :
  length (Mem._OpNode_RemoveNode rz a b m) = length m.
Proof.
  unfold Mem._OpNode_RemoveNode.
  repeat (destruct (contains _ _)); by rewrite ?length_insert.
Qed.

Lemma RemoveNode_slots rz a b (m : list (OpNode * Slots)) q :
  a < length m → b < length m →
  (Mem._OpNode_RemoveNode rz a b m !!! q).2 =
    mkSlots (if decide (q = a ∧ b ∈ children (m !!! a).1)
             then Mem.realloc rz (pred (childCount (m !!! a).1))
             else children_slots (m !!! q).2)
            (if decide (q = b ∧ a ∈ parents (m !!! b).1)
             then Mem.realloc rz (pred (parentCount (m !!! b).1))
             else parents_slots (m !!! q).2).
Proof.
  intros Ha Hb. unfold Mem._OpNode_RemoveNode, childCount, parentCount.
  destruct (contains b (children (m !!! a).1)) eqn:Eb.
  - apply contains_elem_of in Eb as Hin.
    rewrite (cell_lookup_insert _ a b) by done.
    assert (parents (if decide (b = a)
                     then (set_children (remove_first b (children (m !!! a).1)) (m !!! a).1,
                           mkSlots (Mem.realloc rz (length (remove_first b (children (m !!! a).1))))
                             (parents_slots (m !!! a).2))
                     else m !!! b).1 = parents (m !!! b).1) as Hpar
      by (by destruct (decide (b = a)) as [->|]).
    rewrite Hpar. rewrite length_remove_first by done.
    destruct (contains a (parents (m !!! b).1)) eqn:Ea.
    + apply contains_elem_of in Ea as Hin'.
      rewrite !cell_lookup_insert by (rewrite ?length_insert; done).
      rewrite length_remove_first by done.
      repeat case_decide; subst; simpl; try done; try tauto; apply Slots_eta.
    + assert (a ∉ parents (m !!! b).1) as Hni
        by (rewrite <-contains_elem_of, Ea; done).
      rewrite !cell_lookup_insert by done.
      repeat case_decide; subst; simpl; try done; try tauto; apply Slots_eta.
  - assert (b ∉ children (m !!! a).1) as Hni
      by (rewrite <-contains_elem_of, Eb; done).
    destruct (contains a (parents (m !!! b).1)) eqn:Ea.
    + apply contains_elem_of in Ea as Hin'.
      rewrite !cell_lookup_insert by done.
      rewrite length_remove_first by done.
      repeat case_decide; subst; simpl; try done; try tauto; apply Slots_eta.
    + assert (a ∉ parents (m !!! b).1) as Hni'
        by (rewrite <-contains_elem_of, Ea; done).
      rewrite !decide_False by tauto. apply Slots_eta.
Qed.

Lemma AddChild_mem_children parent child (m m' : list (OpNode * Slots)) q :
  parent < length m → child < length m →
  Mem._OpNode_AddChild parent child m = Done m' →
  children (m' !!! q).1 =
    if decide (q = parent) then children (m !!! parent).1 ++ [child]
    else children (m !!! q).1.
Proof.
  intros Hp Hc Hadd. rewrite <-!contents_lookup, (AddChild_contents _ _ _ _ Hadd).
  by rewrite AddChild_children by (by rewrite contents_length).
Qed.

Lemma AddChild_mem_parents parent child (m m' : list (OpNode * Slots)) q :
  parent < length m → child < length m →
  Mem._OpNode_AddChild parent child m = Done m' →
  parents (m' !!! q).1 =
    if decide (q = child) then parents (m !!! child).1 ++ [parent]
    else parents (m !!! q).1.
Proof.
  intros Hp Hc Hadd. rewrite <-!contents_lookup, (AddChild_contents _ _ _ _ Hadd).
  by rewrite AddChild_parents by (by rewrite contents_length).
Qed.

Lemma RemoveNode_mem_children rz a b (m : list (OpNode * Slots)) q :
  a < length m → b < length m →
  children (Mem._OpNode_RemoveNode rz a b m !!! q).1 =
    if decide (q = a) then remove_first b (children (m !!! a).1)
    else children (m !!! q).1.
Proof.
  intros Ha Hb. rewrite <-!contents_lookup, RemoveNode_contents.
  by rewrite RemoveNode_children by (by rewrite contents_length).
Qed.

Lemma RemoveNode_mem_parents rz a b (m : list (OpNode * Slots)) q :
  a < length m → b < length m →
  parents (Mem._OpNode_RemoveNode rz a b m !!! q).1 =
    if decide (q = b) then remove_first a (parents (m !!! b).1)
    else parents (m !!! q).1.
Proof.
  intros Ha Hb. rewrite <-!contents_lookup, RemoveNode_contents.
  by rewrite RemoveNode_parents by (by rewrite contents_length).
Qed.

Lemma closed_children (m : list (OpNode * Slots)) p c :
  closed (Mem.contents m) → c ∈ children (m !!! p).1 → c < length m.
Proof.
  intros Hcl Hc. rewrite <-contents_lookup in Hc. apply Hcl in Hc.
  by rewrite contents_length in Hc.
Qed.

Lemma realloc_pos rz n : 0 < n → Mem.realloc rz n = Some n.
Proof. intros. unfold Mem.realloc. rewrite decide_False by lia. done. Qed.

(** The turns of the loop of [_OpNode_PushInBetween] for the children
    [cs1] of [parent], each with a slot to spare in its [parents]
    array: the children are handed to [onlyChild], and the [parents]
    array of each is left with as many slots as it has entries. *)
Lemma PushInBetween_loop_turns rz parent onlyChild cs2 f :
  ∀ cs1 (m : list (OpNode * Slots)),
  closed (Mem.contents m) → parent < length m → onlyChild < length m →
  parent ≠ onlyChild →
  children (m !!! parent).1 = cs1 ++ cs2 →
  NoDup cs1 → onlyChild ∉ cs1 →
  room_children m onlyChild →
  (∀ x, x ∈ cs1 → room_parents m x) →
  ∃ m1,
    Mem.PushInBetween_loop rz (length cs1 + f) parent onlyChild m
      = Mem.PushInBetween_loop rz f parent onlyChild m1 ∧
    length m1 = length m ∧
    closed (Mem.contents m1) ∧
    children (m1 !!! parent).1 = cs2 ∧
    room_children m1 onlyChild ∧
    (cs1 ≠ [] → children_slots (m1 !!! parent).2 = Mem.realloc rz (length cs2)) ∧
    (cs1 = [] → m1 = m) ∧
    (∀ q, q ∉ cs1 → parents (m1 !!! q).1 = parents (m !!! q).1 ∧
                     parents_slots (m1 !!! q).2 = parents_slots (m !!! q).2) ∧
    (∀ x, x ∈ cs1 → parent ∈ parents (m !!! x).1 → ¬ room_parents m1 x).
Proof.
  induction cs1 as [|c cs1 IH]; intros m Hcl Hp Ho Hne Hcs Hnd Hni Hrc Hrp.
  { exists m. split_and!; try done. intros x Hx. by apply elem_of_nil in Hx. }
  apply NoDup_cons in Hnd as [Hc1 Hnd]. apply not_elem_of_cons in Hni as [Hoc Hni].
  assert (c < length m) as Hc.
  { apply (closed_children m parent); [done|]. rewrite Hcs. left. }
  destruct (AddChild_Done onlyChild c m) as [m' Hadd]; [done..| |].
  { apply Hrp. left. }
  destruct (AddChild_inv _ _ _ _ Ho Hc Hadd) as (_ & _ & Hlen' & Hslots').
  set (m'' := Mem._OpNode_RemoveChild rz parent c m').
  assert (length m'' = length m) as Hlen''
    by (unfold m'', Mem._OpNode_RemoveChild; by rewrite RemoveNode_mem_length).
  assert (∀ q, children (m'' !!! q).1 =
               if decide (q = parent) then cs1 ++ cs2
               else if decide (q = onlyChild) then children (m !!! onlyChild).1 ++ [c]
               else children (m !!! q).1) as Hch''.
  { intros q. unfold m'', Mem._OpNode_RemoveChild.
    rewrite RemoveNode_mem_children by lia.
    rewrite !(AddChild_mem_children _ _ _ _ _ Ho Hc Hadd).
    repeat case_decide; subst; try done. rewrite Hcs. apply remove_first_head. }
  assert (∀ q, parents (m'' !!! q).1 =
               if decide (q = c)
               then remove_first parent (parents (m !!! c).1 ++ [onlyChild])
               else parents (m !!! q).1) as Hpa''.
  { intros q. unfold m'', Mem._OpNode_RemoveChild.
    rewrite RemoveNode_mem_parents by lia.
    rewrite !(AddChild_mem_parents _ _ _ _ _ Ho Hc Hadd).
    repeat case_decide; subst; done. }
  assert (∀ q, (m'' !!! q).2 =
               mkSlots
                 (if decide (q = parent)
                  then Mem.realloc rz (length (cs1 ++ cs2))
                  else if decide (q = onlyChild)
                       then Some (childCount (m !!! onlyChild).1 + 2)
                       else children_slots (m !!! q).2)
                 (if decide (q = c)
                  then (if decide (parent ∈ parents (m !!! c).1 ++ [onlyChild])
                        then Mem.realloc rz (parentCount (m !!! c).1)
                        else Some (parentCount (m !!! c).1 + 2))
                  else parents_slots (m !!! q).2)) as Hsl''.
  { intros q. unfold m'', Mem._OpNode_RemoveChild.
    rewrite RemoveNode_slots by lia. rewrite !Hslots'. cbn [children_slots parents_slots].
    unfold childCount, parentCount.
    rewrite !(AddChild_mem_children _ _ _ _ _ Ho Hc Hadd).
    rewrite !(AddChild_mem_parents _ _ _ _ _ Ho Hc Hadd).
    rewrite (decide_False (P := parent = onlyChild)) by done.
    rewrite (decide_True (P := c = c)) by done. rewrite Hcs, length_app. simpl.
    assert (c ∈ c :: cs1 ++ cs2) as Hin by left.
    f_equal.
    - destruct (decide (q = parent)) as [->|].
      + rewrite decide_True by done. by rewrite length_app.
      + rewrite decide_False by tauto. done.
    - destruct (decide (q = c)) as [->|].
      + destruct (decide (parent ∈ parents (m !!! c).1 ++ [onlyChild])).
        * rewrite decide_True by done. rewrite length_app. simpl. f_equal. lia.
        * rewrite decide_False by tauto. done.
      + rewrite decide_False by tauto. done. }
  destruct (IH m'') as (m1 & Hrun & Hlen1 & Hcl1 & Hch1 & Hrc1 & Hsl1 & Hsame & Hpar1 & Htight).
  - unfold m'', Mem._OpNode_RemoveChild. rewrite RemoveNode_contents.
    apply closed_RemoveNode. rewrite (AddChild_contents _ _ _ _ Hadd).
    apply closed_AddChild; [done|by rewrite contents_length].
  - lia.
  - lia.
  - done.
  - rewrite Hch''. by rewrite decide_True.
  - done.
  - done.
  - unfold room_children, childCount. rewrite Hch'', Hsl''.
    rewrite !(decide_False (P := onlyChild = parent)) by done.
    rewrite !decide_True by done. simpl. rewrite length_app. unfold childCount.
    simpl. lia.
  - intros x Hx. assert (x ≠ c) as Hxc by (intros ->; done).
    unfold room_parents, parentCount. rewrite Hpa'', Hsl''. cbn [parents_slots].
    rewrite !decide_False by done. apply Hrp. by right.
  - exists m1. split.
    { cbn [length Nat.add Mem.PushInBetween_loop]. rewrite Hcs.
      cbn [app]. rewrite Hadd. rbind. done. }
    split; [lia|]. split; [done|]. split; [done|]. split; [done|].
    split.
    { intros _. destruct cs1 as [|c' cs1]; [|by apply Hsl1].
      rewrite (Hsame eq_refl), Hsl''. cbn [children_slots].
      by rewrite decide_True. }
    split; [done|]. split.
    { intros q [Hqc Hq]%not_elem_of_cons.
      destruct (Hpar1 q Hq) as [-> ->]. rewrite Hpa'', Hsl''. cbn [parents_slots].
      by rewrite !decide_False by done. }
    intros x [->|Hx]%elem_of_cons Hpx.
    + unfold room_parents, parentCount. destruct (Hpar1 c Hc1) as [-> ->].
      rewrite Hpa'', Hsl''. cbn [parents_slots]. rewrite !decide_True by done.
      assert (parent ∈ parents (m !!! c).1 ++ [onlyChild]) as Hin
        by (apply elem_of_app; by left).
      rewrite decide_True by done.
      rewrite length_remove_first, length_app by done. simpl.
      assert (0 < length (parents (m !!! c).1)).
      { destruct (parents (m !!! c).1); [by apply elem_of_nil in Hpx|simpl; lia]. }
      rewrite realloc_pos by done. unfold Mem.malloc_if_null, parentCount.
      simpl. lia.
    + apply Htight; [done|]. rewrite Hpa''.
      rewrite decide_False; [done|]. by intros ->.
Qed.

(** ** Linking and unlinking within the allocations *)

(** X8.  [_OpNode_AddChild] writes slot [count] of the [children] array of
    [parent] and of the [parents] array of [child] before it grows the
    array.  Where both arrays have a slot to spare it adds one link,
    keeps the two directions of the links in agreement and leaves both
    arrays with a slot to spare; where one of them has none, as after
    [_OpNode_RemoveNode] has shrunk it, the write is past the end of
    the array. *)
Theorem AddChild_keeps_links (m : list (OpNode * Slots)) parent child :
  linked (Mem.contents m) → parent < length m → child < length m →
  (room_children m parent → room_parents m child →
   ∃ m', Mem._OpNode_AddChild parent child m = Done m' ∧
         linked (Mem.contents m') ∧
         occurrences child (children (m' !!! parent).1) =
           S (occurrences child (children (m !!! parent).1)) ∧
         room_children m' parent ∧ room_parents m' child) ∧
  (¬ room_children m parent →
   Mem._OpNode_AddChild parent child m
     = OutOfBounds parent Children (childCount (m !!! parent).1)) ∧
  (room_children m parent → ¬ room_parents m child →
   Mem._OpNode_AddChild parent child m
     = OutOfBounds child Parents (parentCount (m !!! child).1)).
Proof.
  intros Hl Hp Hc. split_and!.
  - intros Hrc Hrp. destruct (AddChild_Done parent child m) as [m' Hadd]; [done..|].
    exists m'. split; [done|].
    destruct (AddChild_inv _ _ _ _ Hp Hc Hadd) as (_ & _ & Hlen & Hsl).
    split.
    { rewrite (AddChild_contents _ _ _ _ Hadd).
      apply linked_AddChild; by rewrite ?contents_length. }
    rewrite (AddChild_mem_children _ _ _ _ _ Hp Hc Hadd), decide_True by done.
    split.
    { rewrite occurrences_app, occurrences_singleton, decide_True by done. lia. }
    unfold room_children, room_parents, childCount, parentCount.
    rewrite (AddChild_mem_children _ _ _ _ _ Hp Hc Hadd), decide_True by done.
    rewrite (AddChild_mem_parents _ _ _ _ _ Hp Hc Hadd), decide_True by done.
    rewrite !Hsl. cbn [children_slots parents_slots]. rewrite !decide_True by done.
    rewrite !length_app. unfold Mem.malloc_if_null, childCount, parentCount.
    simpl. lia.
  - by apply AddChild_past_children.
  - by apply AddChild_past_parents.
Qed.

(** X7.  [_OpNode_RemoveNode] after [_OpNode_AddChild] of a link that was
    not there gives back the contents of the arrays, but not their
    allocations: the [children] array of [a] and the [parents] array of
    [b] are left with as many slots as they have entries, and where [a]
    has a child the next [_OpNode_AddChild] to [a] writes past the end
    of its [children] array. *)
Theorem AddChild_RemoveNode_round_trip rz (m : list (OpNode * Slots)) a b :
  a < length m → b < length m →
  b ∉ children (m !!! a).1 → a ∉ parents (m !!! b).1 →
  room_children m a → room_parents m b →
  ∃ m1, Mem._OpNode_AddChild a b m = Done m1 ∧
    let m2 := Mem._OpNode_RemoveNode rz a b m1 in
    Mem.contents m2 = Mem.contents m ∧
    children_slots (m2 !!! a).2 = Mem.realloc rz (childCount (m !!! a).1) ∧
    parents_slots (m2 !!! b).2 = Mem.realloc rz (parentCount (m !!! b).1) ∧
    (0 < childCount (m !!! a).1 →
     ∀ c, Mem._OpNode_AddChild a c m2
            = OutOfBounds a Children (childCount (m !!! a).1)).
Proof.
  intros Ha Hb Hnb Hna Hrc Hrp.
  destruct (AddChild_Done a b m) as [m1 Hadd]; [done..|].
  exists m1. split; [done|]. intros m2.
  destruct (AddChild_inv _ _ _ _ Ha Hb Hadd) as (_ & _ & Hlen & Hsl).
  assert (Mem.contents m2 = Mem.contents m) as Hcont.
  { unfold m2. rewrite RemoveNode_contents, (AddChild_contents _ _ _ _ Hadd).
    apply RemoveNode_AddChild_contents; rewrite ?contents_length, ?contents_lookup; done. }
  assert (children_slots (m2 !!! a).2 = Mem.realloc rz (childCount (m !!! a).1)) as Hca.
  { unfold m2. rewrite RemoveNode_slots by lia. cbn [children_slots].
    unfold childCount.
    rewrite (AddChild_mem_children _ _ _ _ _ Ha Hb Hadd).
    rewrite (decide_True (P := a = a)) by done.
    rewrite decide_True by (split; [done|apply elem_of_app; right; left]).
    rewrite length_app. simpl. f_equal. lia. }
  split; [done|]. split; [done|]. split.
  { unfold m2. rewrite RemoveNode_slots by lia. cbn [parents_slots].
    unfold parentCount.
    rewrite (AddChild_mem_parents _ _ _ _ _ Ha Hb Hadd).
    rewrite (decide_True (P := b = b)) by done.
    rewrite decide_True by (split; [done|apply elem_of_app; right; left]).
    rewrite length_app. simpl. f_equal. lia. }
  intros Hpos c.
  assert (childCount (m2 !!! a).1 = childCount (m !!! a).1) as Hcount
    by (by rewrite <-!contents_lookup, Hcont).
  rewrite <-Hcount. apply AddChild_past_children.
  unfold room_children. rewrite Hca, Hcount, realloc_pos by done.
  unfold Mem.malloc_if_null. simpl. lia.
Qed.

Lemma PushInBetween_loop_end rz f parent onlyChild (m : list (OpNode * Slots)) :
  children (m !!! parent).1 = [] →
  Mem.PushInBetween_loop rz (S f) parent onlyChild m = Done m.
Proof. intros Hnil. cbn [Mem.PushInBetween_loop]. by rewrite Hnil. Qed.

(** [_OpNode_PushInBetween] stays within the allocations where the
    arrays it writes have their spare slot, and leaves the [parents]
    array of every child it has moved without one. *)
Lemma PushInBetween_Done rz fuel (m : list (OpNode * Slots)) parent onlyChild :
  closed (Mem.contents m) → parent < length m → onlyChild < length m →
  parent ≠ onlyChild →
  NoDup (children (m !!! parent).1) → onlyChild ∉ children (m !!! parent).1 →
  room_children m onlyChild → room_parents m onlyChild →
  (∀ c, c ∈ children (m !!! parent).1 → room_parents m c) →
  (if decide (children (m !!! parent).1 = []) then room_children m parent
   else rz = true) →
  childCount (m !!! parent).1 < fuel →
  ∃ m', Mem._OpNode_PushInBetween rz fuel parent onlyChild m = Done m' ∧
        ∀ c, c ∈ children (m !!! parent).1 → parent ∈ parents (m !!! c).1 →
             ¬ room_parents m' c.
Proof.
  intros Hcl Hp Ho Hne Hnd Hni Hrc Hrp Hcs Hend Hfuel.
  destruct fuel as [|fuel]; [lia|]. unfold childCount in Hfuel.
  destruct (PushInBetween_loop_turns rz parent onlyChild []
              (S fuel - length (children (m !!! parent).1))
              (children (m !!! parent).1) m)
    as (m1 & Hrun & Hlen1 & Hcl1 & Hch1 & Hrc1 & Hsl1 & Hsame & Hpar1 & Htight);
    [done|done|done|done|by rewrite app_nil_r|done|done|done|done|].
  replace (length (children (m !!! parent).1)
           + (S fuel - length (children (m !!! parent).1))) with (S fuel) in Hrun by lia.
  replace (S fuel - length (children (m !!! parent).1))
    with (S (fuel - length (children (m !!! parent).1))) in Hrun by lia.
  rewrite (PushInBetween_loop_end _ _ _ _ m1) in Hrun by done.
  destruct (AddChild_Done parent onlyChild m1) as [m' Hadd]; [lia..| | |].
  { unfold room_children, childCount. rewrite Hch1. cbn [length].
    destruct (decide (children (m !!! parent).1 = [])) as [Hnil|Hnn].
    - rewrite (Hsame Hnil). unfold room_children, childCount in Hend.
      by rewrite Hnil in Hend.
    - rewrite (Hsl1 Hnn). subst rz. vm_compute. lia. }
  { unfold room_parents, parentCount.
    destruct (Hpar1 onlyChild Hni) as [-> ->]. done. }
  exists m'. split.
  { unfold Mem._OpNode_PushInBetween. rewrite Hrun. rbind. done. }
  intros c Hc Hpc Hroom. apply (Htight c Hc Hpc).
  assert (c ≠ onlyChild) as Hco by (intros ->; done).
  assert (parent < length m1) as Hp1 by lia.
  assert (onlyChild < length m1) as Ho1 by lia.
  destruct (AddChild_inv _ _ _ _ Hp1 Ho1 Hadd) as (_ & _ & _ & Hsl).
  unfold room_parents, parentCount in *.
  rewrite (AddChild_mem_parents _ _ _ _ _ Hp1 Ho1 Hadd) in Hroom.
  rewrite Hsl in Hroom. cbn [parents_slots] in Hroom.
  by rewrite !decide_False in Hroom by done.
Qed.

(** X10.  Where the arrays it writes have their spare slot (those of
    [onlyChild], and the [parents] array of every child of [parent],
    none of them listed twice), and the [children] array of [parent],
    once the loop has emptied it, is [NULL] again,
    [_OpNode_PushInBetween] puts [onlyChild] between [parent] and the
    children of [parent] without a write past an array: [parent] is
    left with [onlyChild] as its one child, [onlyChild] has the
    children of [parent] after its own, and the two directions of the
    links still agree.  The [parents] array of every child that has
    been moved is left without its spare slot. *)
Theorem PushInBetween_keeps_links rz fuel (m : list (OpNode * Slots))
    parent onlyChild :
  linked (Mem.contents m) → parent < length m → onlyChild < length m →
  parent ≠ onlyChild →
  NoDup (children (m !!! parent).1) → onlyChild ∉ children (m !!! parent).1 →
  room_children m onlyChild → room_parents m onlyChild →
  (∀ c, c ∈ children (m !!! parent).1 → room_parents m c) →
  (if decide (children (m !!! parent).1 = []) then room_children m parent
   else rz = true) →
  childCount (m !!! parent).1 < fuel →
  ∃ m', Mem._OpNode_PushInBetween rz fuel parent onlyChild m = Done m' ∧
        linked (Mem.contents m') ∧
        children (m' !!! parent).1 = [onlyChild] ∧
        children (m' !!! onlyChild).1 =
          children (m !!! onlyChild).1 ++ children (m !!! parent).1 ∧
        ∀ c, c ∈ children (m !!! parent).1 → ¬ room_parents m' c.
Proof.
  intros Hl Hp Ho Hne Hnd Hni Hrc Hrp Hcs Hend Hfuel.
  destruct (PushInBetween_Done rz fuel m parent onlyChild) as (m' & Hrun & Htight);
    [by apply linked_closed|done..|].
  exists m'. split; [done|].
  pose proof (PushInBetween_contents _ _ _ _ _ _ (or_introl Hne) Hrun) as Hcont.
  destruct (PushInBetween_linked (Mem.contents m) parent onlyChild)
    as (Hl' & Hc1 & Hc2); [done|by rewrite contents_length..|done|].
  rewrite <-Hcont, !contents_lookup in *.
  split; [done|]. split; [done|]. split; [done|].
  intros c Hc. apply Htight; [done|].
  apply occurrences_pos. rewrite <-!contents_lookup. rewrite <-(Hl parent c).
  rewrite contents_lookup. by apply occurrences_pos.
Qed.

(** X26.  Where a child of [parent] has no spare slot in its [parents]
    array, [_OpNode_PushInBetween] writes past the end of that array:
    the children before it are moved, and the write of [onlyChild] as
    its parent is out of bounds. *)
Theorem PushInBetween_writes_past_shrunk_array rz fuel (m : list (OpNode * Slots))
    parent onlyChild cs1 c cs2 :
  closed (Mem.contents m) → parent < length m → onlyChild < length m →
  parent ≠ onlyChild →
  children (m !!! parent).1 = cs1 ++ c :: cs2 →
  NoDup (cs1 ++ [c]) → onlyChild ∉ cs1 →
  room_children m onlyChild →
  (∀ x, x ∈ cs1 → room_parents m x) →
  ¬ room_parents m c →
  length cs1 < fuel →
  Mem._OpNode_PushInBetween rz fuel parent onlyChild m
    = OutOfBounds c Parents (parentCount (m !!! c).1).
Proof.
  intros Hcl Hp Ho Hne Hcs Hnd Hni Hrc Hrp Hc Hfuel.
  apply NoDup_app in Hnd as (Hnd & Hdis & _).
  assert (c ∉ cs1) as Hc1 by (intros Hin; apply (Hdis c Hin); left).
  destruct (PushInBetween_loop_turns rz parent onlyChild (c :: cs2)
              (fuel - length cs1) cs1 m)
    as (m1 & Hrun & Hlen1 & Hcl1 & Hch1 & Hrc1 & _ & _ & Hpar1 & _); [done..|].
  replace (length cs1 + (fuel - length cs1)) with fuel in Hrun by lia.
  unfold Mem._OpNode_PushInBetween. rewrite Hrun.
  destruct (fuel - length cs1) as [|f] eqn:Ef; [lia|].
  cbn [Mem.PushInBetween_loop]. rewrite Hch1.
  destruct (Hpar1 c Hc1) as [Hpa Hsl].
  rewrite AddChild_past_parents; [|lia|done|].
  - rbind. unfold parentCount. by rewrite Hpa.
  - unfold room_parents, parentCount in *. by rewrite Hpa, Hsl.
Qed.

(** In [memory_x_n_y] the ExpandInto (node 2) and the scan of [x]
    (node 3) have their spare slots, and a link between them is added
    within the allocations; the root (node 0) has lost the spare slot
    of its [children] array to the merge, and a link from it is
    written past the end of the array. *)
Lemma AddChild_keeps_links_witness :
  (∃ m', Mem._OpNode_AddChild 2 3 memory_x_n_y = Done m' ∧
         linked (Mem.contents m') ∧
         occurrences 3 (children (m' !!! 2).1) = 1) ∧
  Mem._OpNode_AddChild 0 3 memory_x_n_y = OutOfBounds 0 Children 1.
Proof.
  assert (linked (Mem.contents memory_x_n_y)) as Hl
    by (apply linkedb_linked; vm_compute; reflexivity).
  split.
  - destruct (AddChild_keeps_links memory_x_n_y 2 3) as (Hin & _ & _);
      [exact Hl|vm_compute; lia|vm_compute; lia|].
    destruct Hin as (m' & Hadd & Hl' & Hocc & _); [vm_compute; lia|vm_compute; lia|].
    exists m'. split; [exact Hadd|]. split; [exact Hl'|]. exact Hocc.
  - destruct (AddChild_keeps_links memory_x_n_y 0 3) as (_ & Hout & _);
      [exact Hl|vm_compute; lia|vm_compute; lia|].
    apply Hout. vm_compute. lia.
Defined.

(** In [memory_a_b] a link from the ExpandAll (node 1) to the root
    (node 0) is added and removed again: the arrays hold what they
    held, the [children] array of node 1 is left with one slot for its
    one entry, and the next link from node 1 is written past it. *)
Lemma AddChild_RemoveNode_round_trip_witness :
  ∃ m1, Mem._OpNode_AddChild 1 0 memory_a_b = Done m1 ∧
    let m2 := Mem._OpNode_RemoveNode true 1 0 m1 in
    Mem.contents m2 = Mem.contents memory_a_b ∧
    children_slots (m2 !!! 1).2 = Some 1 ∧
    Mem._OpNode_AddChild 1 2 m2 = OutOfBounds 1 Children 1.
Proof.
  destruct (AddChild_RemoveNode_round_trip true memory_a_b 1 0)
    as (m1 & Hadd & Hcont & Hsl & _ & Hout).
  - vm_compute. lia.
  - vm_compute. lia.
  - intros Hx. apply (bool_decide_pack _) in Hx. vm_compute in Hx. exact Hx.
  - intros Hx. apply (bool_decide_pack _) in Hx. vm_compute in Hx. exact Hx.
  - vm_compute. lia.
  - vm_compute. lia.
  - exists m1. split; [exact Hadd|]. split; [exact Hcont|]. split; [exact Hsl|].
    apply (Hout ltac:(vm_compute; lia) 2).
Defined.

(** The filter of [MATCH (a)-[:R]->(b) WHERE a.age > 30] (node 3) is
    pushed between the ExpandAll (node 1) and the scan (node 2) within
    the allocations; the [parents] array of the scan is left with one
    slot for its one entry. *)
Lemma PushInBetween_keeps_links_witness :
  ∃ m', Mem._OpNode_PushInBetween true 2 1 3 memory_a_b_filter = Done m' ∧
        linked (Mem.contents m') ∧
        children (m' !!! 1).1 = [3] ∧
        children (m' !!! 3).1 = [2] ∧
        ¬ room_parents m' 2.
Proof.
  destruct (PushInBetween_keeps_links true 2 memory_a_b_filter 1 3)
    as (m' & Hrun & Hl & Hc1 & Hc3 & Htight).
  - apply linkedb_linked. vm_compute. reflexivity.
  - vm_compute. lia.
  - vm_compute. lia.
  - lia.
  - apply (bool_decide_unpack _). vm_compute. exact I.
  - intros Hx. apply (bool_decide_pack _) in Hx. vm_compute in Hx. exact Hx.
  - vm_compute. lia.
  - vm_compute. lia.
  - intros c Hc. apply (bool_decide_unpack _).
    assert (c = 2) as ->.
    { apply (bool_decide_pack _) in Hc. vm_compute in Hc.
      destruct c as [|[|[|c]]]; vm_compute in Hc; try done. }
    vm_compute. exact I.
  - vm_compute. reflexivity.
  - vm_compute. lia.
  - exists m'. split; [exact Hrun|]. split; [exact Hl|]. split; [exact Hc1|].
    split; [exact Hc3|]. apply Htight.
    apply (bool_decide_unpack _). vm_compute. exact I.
Defined.

(** The filter of [MATCH (x)-->(n)<--(y:L) WHERE n.age > 30] (node 5)
    is made at the ExpandInto (node 2), whose children are the scan of
    [y] (node 4) and the ExpandAll into [n] (node 1).  The merge has
    left the [parents] array of node 1 with one slot for its one
    entry: the scan is moved, and the write of [parents[1]] of node 1
    is past the end of the array.  That is where the run of the
    planner on this query ends. *)
Lemma PushInBetween_writes_past_shrunk_array_witness :
  children (memory_x_n_y !!! 2).1 = [4; 1] ∧
  (memory_x_n_y !!! 1).2 = mkSlots (Some 2) (Some 1) ∧
  Mem._OpNode_PushInBetween true 3 2 5 memory_x_n_y_filter = OutOfBounds 1 Parents 1 ∧
  Mem.NewExecutionPlan (H := spec_filters) true 10 pattern_x_n_y (Some where_n_age) false
    = OutOfBounds 1 Parents 1.
Proof.
  split; [vm_compute; reflexivity|]. split; [vm_compute; reflexivity|].
  split; [|vm_compute; reflexivity].
  apply (PushInBetween_writes_past_shrunk_array true 3 memory_x_n_y_filter 2 5 [4] 1 []).
  - apply closedb_closed. vm_compute. reflexivity.
  - vm_compute. lia.
  - vm_compute. lia.
  - lia.
  - vm_compute. reflexivity.
  - apply (bool_decide_unpack _). vm_compute. exact I.
  - intros Hx. apply (bool_decide_pack _) in Hx. vm_compute in Hx. exact Hx.
  - vm_compute. lia.
  - intros x Hx. apply list_elem_of_singleton in Hx as ->. vm_compute. lia.
  - vm_compute. lia.
  - simpl. lia.
Defined.

(** ** What the planner keeps of the memory *)

Section Preserved.
Context `{FilterModule}.
Variable P : list (OpNode * Slots) → Prop.
Variable rz : bool.
Hypothesis P_AddChild : ∀ p c m m',
  P m → Mem._OpNode_AddChild p c m = Done m' → P m'.
Hypothesis P_RemoveNode : ∀ a b m, P m → P (Mem._OpNode_RemoveNode rz a b m).
Hypothesis P_NewOpNode : ∀ op m, P m → P (Mem.NewOpNode op m).2.
Hypothesis P_set_operation : ∀ a op m,
  P m → P (<[a := (set_operation op (m !!! a).1, (m !!! a).2)]> m).

Lemma PushInBetween_preserves fuel : ∀ parent onlyChild m m',
  P m → Mem._OpNode_PushInBetween rz fuel parent onlyChild m = Done m' → P m'.
Proof using P_AddChild P_RemoveNode.
  intros parent onlyChild m m' HP. unfold Mem._OpNode_PushInBetween.
  destruct (Mem.PushInBetween_loop _ _ _ _ _) as [m1| |] eqn:E1; [|done..]. rbind.
  apply P_AddChild. revert m HP E1.
  induction fuel as [|f IH]; intros m HP; simpl; [done|].
  destruct (children (m !!! parent).1) as [|c cs]; [by intros [= <-]|].
  destruct (Mem._OpNode_AddChild onlyChild c m) as [m2| |] eqn:E2; [|done..]. rbind.
  apply IH. apply P_RemoveNode. by eapply P_AddChild.
Qed.

Lemma MergeNodes_inherit_preserves fuel : ∀ a b i m m',
  P m → Mem.MergeNodes_inherit rz fuel a b i m = Done m' → P m'.
Proof using P_AddChild P_RemoveNode.
  induction fuel as [|f IH]; intros a b i m m' HP; simpl; [done|].
  destruct (parents (m !!! b).1 !! i) as [bParent|]; [|by intros [= <-]].
  case_decide; [by apply IH|].
  destruct (_OpNode_ContainsChild (Mem.contents m) bParent a); rbind.
  - apply IH. by apply P_RemoveNode.
  - destruct (Mem._OpNode_AddChild bParent a m) as [m1| |] eqn:E1; [|done..]. rbind.
    apply IH. apply P_RemoveNode. by eapply P_AddChild.
Qed.

Lemma MergeNodes_preserves fuel g root n m m' :
  P m → Mem._ExecutionPlan_MergeNodes rz fuel g root n m = Done m' → P m'.
Proof using P_AddChild P_RemoveNode P_set_operation.
  intros HP. unfold Mem._ExecutionPlan_MergeNodes.
  case_decide; [by intros [= <-]|].
  destruct (MergeNodes_locate _ _ _ _ _) as [[[a|] [b|]]|]; try done;
    try (by intros [= <-]).
  destruct (variant (operation (m !!! a).1)) eqn:Ev; try done.
  destruct (Mem._OpNode_AddChild a b _) as [m2| |] eqn:E2; [|done..]. rbind.
  apply MergeNodes_inherit_preserves. eapply P_AddChild; [|done].
  apply P_set_operation, HP.
Qed.

Lemma merge_nodes_preserves fuel g root : ∀ nodesToMerge m m',
  P m → Mem.merge_nodes rz fuel g root nodesToMerge m = Done m' → P m'.
Proof using P_AddChild P_RemoveNode P_set_operation.
  induction nodesToMerge as [|n rest IH]; intros m m' HP; simpl; [by intros [= <-]|].
  destruct (Mem._ExecutionPlan_MergeNodes _ _ _ _ _ _) as [m1| |] eqn:E1; [|done..].
  rbind. apply IH. by eapply MergeNodes_preserves.
Qed.

Lemma for_each_child_from_preserves (rec : nat → list (OpNode * Slots) → Run _) k :
  (∀ c m m', P m → rec c m = Done m' → P m') →
  ∀ node i m m', P m → Mem.for_each_child_from rec k node i m = Done m' → P m'.
Proof.
  intros Hrec. induction k as [|k IH]; intros node i m m' HP; simpl; [done|].
  destruct (children (m !!! node).1 !! i) as [c|]; [|by intros [= <-]].
  destruct (rec c m) as [m1| |] eqn:E1; [|done..]. rbind.
  apply IH. by eapply Hrec.
Qed.

Lemma OptimizeEntryPoints_preserves fuel g : ∀ root m m',
  P m → Mem._ExecutionPlan_OptimizeEntryPoints fuel g root m = Done m' → P m'.
Proof using P_AddChild P_NewOpNode.
  induction fuel as [|f IH]; intros root m m' HP; simpl; [done|].
  assert (Mem.for_each_child (Mem._ExecutionPlan_OptimizeEntryPoints f g) root m
            = Done m' → P m') as Hwalk.
  { unfold Mem.for_each_child. by apply for_each_child_from_preserves. }
  destruct (children (m !!! root).1) as [|c cs]; [|done].
  destruct (variant (operation (m !!! root).1)); try done.
  apply P_AddChild. by apply (P_NewOpNode _ m).
Qed.

Lemma AddFilters_children_preserves rec root :
  (∀ c st saw st', P st.1 → rec c st = Done (saw, st') → P st'.1) →
  ∀ i seen st r st',
    P st.1 → Mem.AddFilters_children rec root i seen st = Done (r, st') → P st'.1.
Proof.
  intros Hrec. induction i as [|i IH]; intros seen st r st' HP; simpl.
  { by intros [= <- <-]. }
  destruct (children (st.1 !!! root).1 !! i) as [c|]; [|done]. rbind.
  destruct (rec c st) as [[saw st1]| |] eqn:E1; [|done..]. rbind.
  apply Hrec in E1; [|done].
  destruct (st1.2); [by apply IH|]. by intros [= <- <-].
Qed.

Lemma AddFilters_preserves fuel : ∀ root st r st',
  P st.1 → Mem._ExecutionPlan_AddFilters rz fuel root st = Done (r, st') → P st'.1.
Proof using P_AddChild P_RemoveNode P_NewOpNode.
  induction fuel as [|f IH]; intros root st r st' HP; [done|].
  cbn [Mem._ExecutionPlan_AddFilters].
  destruct (Mem.AddFilters_children _ _ _ _ _) as [[r1 st1]| |] eqn:E1; [|done..].
  rbind. apply AddFilters_children_preserves in E1; [|done..].
  destruct r1 as [seen|]; [|by intros [= <- <-]].
  destruct (Mem.AddFilters_apply _ _ _ _ _) as [st2| |] eqn:E2; [|done..]. rbind.
  intros [= <- <-]. destruct st1 as [m1 ft1]. revert E2.
  unfold Mem.AddFilters_apply.
  destruct (FilterTree_ContainsNode ft1 seen); [|by intros [= <-]].
  cbn [Mem.NewOpNode].
  destruct (Mem._OpNode_PushInBetween _ _ _ _ _) as [m2| |] eqn:E3; [|done..].
  rbind. intros [= <-]. simpl.
  eapply PushInBetween_preserves; [|done]. by apply (P_NewOpNode _ m1).
Qed.

Lemma expand_chain_preserves fuel g : ∀ srcNode ops m ops' m',
  P m → Mem.expand_chain fuel g srcNode ops m = Done (ops', m') → P m'.
Proof using P_NewOpNode.
  induction fuel as [|f IH]; intros srcNode ops m ops' m' HP; simpl; [done|].
  destruct (graph_nodes g !! srcNode) as [nd|]; [|done]. rbind.
  destruct (outgoingEdges nd) as [|edge ?]; [by intros [= <- <-]|].
  destruct (graph_edges g !! edge) as [e|]; [|done]. rbind.
  apply IH. by apply (P_NewOpNode _ m).
Qed.

Lemma connect_ops_preserves k : ∀ Ops prevOp m m',
  P m → Mem.connect_ops k Ops prevOp m = Done m' → P m'.
Proof using P_AddChild.
  induction k as [|k IH]; intros Ops prevOp m m' HP; simpl; [by intros [= <-]|].
  destruct (Vector_Pop Ops) as [[currentOp Ops']|]; [|by intros [= <-]].
  destruct (Mem._OpNode_AddChild currentOp prevOp m) as [m1| |] eqn:E1; [|done..].
  rbind. apply P_AddChild in E1; [|done].
  destruct Ops'; [by intros [= <-]|by apply IH].
Qed.

Lemma plan_entry_preserves fuel g pr node Ops m Ops' m' :
  P m → Mem.plan_entry fuel g pr node (Ops, m) = Done (Ops', m') → P m'.
Proof using P_AddChild P_NewOpNode.
  intros HP. unfold Mem.plan_entry.
  destruct (graph_nodes g !! node) as [nd|]; [|done]. rbind.
  match goal with
  | |- mbind _ ?x = _ → _ => destruct x as [[Ops1 m1]| |] eqn:E1; [|done..]
  end.
  assert (P m1) as HP1.
  { destruct (outgoingEdges nd).
    - destruct (label nd); simpl in E1; injection E1 as <- <-;
        by apply (P_NewOpNode _ m).
    - destruct (Mem.expand_chain _ _ _ _ _) as [[rev m2]| |] eqn:E; [|done..].
      rbind in E1. injection E1 as <- <-. by eapply expand_chain_preserves. }
  rbind. case_decide; [|by intros [= <- <-]].
  destruct (Vector_Pop Ops1) as [[prevOp Ops2]|]; [|done].
  destruct (Mem.connect_ops _ _ _ _) as [m2| |] eqn:E2; [|done..]. rbind.
  intros [= <- <-]. by eapply connect_ops_preserves.
Qed.

Lemma plan_entries_preserves fuel g pr : ∀ entryNodes Ops m Ops' m',
  P m → Mem.plan_entries fuel g pr entryNodes (Ops, m) = Done (Ops', m') → P m'.
Proof using P_AddChild P_NewOpNode.
  induction entryNodes as [|node rest IH]; intros Ops m Ops' m' HP;
    cbn [Mem.plan_entries].
  { by intros [= <- <-]. }
  destruct (Mem.plan_entry _ _ _ _ _) as [[Ops1 m1]| |] eqn:E1; [|done..]. rbind.
  apply IH. by eapply plan_entry_preserves.
Qed.

Lemma NewExecutionPlan_preserves fuel g ft agg plan :
  P [] → Mem.NewExecutionPlan rz fuel g ft agg = Done plan → P (Mem.memory plan).
Proof using P_AddChild P_RemoveNode P_NewOpNode P_set_operation.
  intros HP. unfold Mem.NewExecutionPlan.
  destruct (Mem.NewExecutionPlan_chains _ _ _ _) as [p0| |] eqn:E0; [|done..]. rbind.
  assert (P (Mem.memory p0)) as HP0.
  { unfold Mem.NewExecutionPlan_chains in E0.
    pose proof (P_NewOpNode NewProduceResultsOp [] HP) as HP1.
    pose proof (P_NewOpNode NewAggregateOp _ HP1) as HP2.
    cbn [Mem.NewOpNode length app fst snd] in *.
    destruct agg; cbn [Mem.NewOpNode length app] in E0;
      (destruct (Mem.plan_entries _ _ _ _ _) as [[Ops m2]| |] eqn:E; [|done..]);
      rbind in E0; injection E0 as <-; simpl;
      (eapply plan_entries_preserves; [|exact E]); assumption. }
  destruct (Mem._ExecutionPlan_OptimizeEntryPoints _ _ _ _) as [m1| |] eqn:E1;
    [|done..]. rbind.
  apply OptimizeEntryPoints_preserves in E1; [|done].
  destruct (Mem.merge_nodes _ _ _ _ _ _) as [m2| |] eqn:E2; [|done..]. rbind.
  apply merge_nodes_preserves in E2; [|done].
  destruct ft as [t|]; [|by intros [= <-]].
  destruct (Mem._ExecutionPlan_AddFilters _ _ _ _) as [[r [m3 ft']]| |] eqn:E3;
    [|done..]. rbind.
  apply AddFilters_preserves in E3; [|done]. by intros [= <-].
Qed.
End Preserved.

Lemma sized_insert (m : list (OpNode * Slots)) p cell :
  sized m →
  within (children_slots cell.2) (childCount cell.1) →
  within (parents_slots cell.2) (parentCount cell.1) →
  sized (<[p := cell]> m).
Proof.
  intros Hs Hc Hp q. destruct (decide (p < length m)).
  - rewrite cell_lookup_insert by done. case_decide; [done|apply Hs].
  - rewrite list_insert_ge by lia. apply Hs.
Qed.

Lemma sized_AddChild p c (m m' : list (OpNode * Slots)) :
  sized m → Mem._OpNode_AddChild p c m = Done m' → sized m'.
Proof.
  intros Hs. unfold Mem._OpNode_AddChild.
  repeat case_decide; [|done..]. intros [= <-].
  assert (sized (<[p := (set_children (children (m !!! p).1 ++ [c]) (m !!! p).1,
                         mkSlots (Some (S (childCount (m !!! p).1) + 1))
                           (parents_slots (m !!! p).2))]> m)) as Hs1.
  { apply sized_insert; [done| |apply Hs].
    unfold within, childCount. simpl. rewrite length_app. simpl. lia. }
  apply sized_insert; [done|apply Hs1|].
  unfold within, parentCount. simpl. rewrite length_app. simpl. lia.
Qed.

Lemma within_realloc rz n : within (Mem.realloc rz n) n.
Proof.
  unfold within, Mem.realloc. case_decide; [subst; lia|]. simpl. lia.
Qed.

Lemma sized_RemoveNode rz a b (m : list (OpNode * Slots)) :
  sized m → sized (Mem._OpNode_RemoveNode rz a b m).
Proof.
  intros Hs. unfold Mem._OpNode_RemoveNode.
  set (m1 := if contains b _ then _ else m).
  assert (sized m1) as Hs1.
  { unfold m1. destruct (contains b _); [|done].
    apply sized_insert; [done|apply within_realloc|apply Hs]. }
  destruct (contains a _); [|done].
  apply sized_insert; [done|apply Hs1|apply within_realloc].
Qed.

Lemma sized_NewOpNode op (m : list (OpNode * Slots)) :
  sized m → sized (Mem.NewOpNode op m).2.
Proof.
  intros Hs q. destruct (decide (q < length m)) as [Hq|Hq].
  - rewrite NewOpNode_mem_old by done. apply Hs.
  - destruct (decide (q = length m)) as [->|].
    + rewrite NewOpNode_mem_new. unfold within, childCount, parentCount. simpl. lia.
    + unfold Mem.NewOpNode. simpl.
      rewrite (list_lookup_total_alt (m ++ _)), lookup_ge_None_2
        by (rewrite length_app; simpl; lia).
      unfold within, childCount, parentCount. simpl. lia.
Qed.

Lemma sized_nil : sized [].
Proof.
  intros q. rewrite list_lookup_total_alt.
  unfold within, childCount, parentCount. simpl. lia.
Qed.

(** ** The plan that the planner hands out *)

Section PlanLinks.
Context `{FilterModule}.

(** X11.  In every plan that [NewExecutionPlan] builds without a write
    past an array, the children and the parents arrays agree: [c] is
    among the children of [p] as often as [p] is among the parents of
    [c]; no array points out of the plan; and every array holds its
    entries within its allocation. *)
Theorem NewExecutionPlan_links_agree rz fuel g ft agg plan :
  Mem.NewExecutionPlan rz fuel g ft agg = Done plan →
  let h := Mem.contents (Mem.memory plan) in
  linked h ∧
  (∀ p c, c ∈ children (h !!! p) ∨ p ∈ parents (h !!! c) →
          p < length h ∧ c < length h) ∧
  sized (Mem.memory plan).
Proof.
  intros Hrun h. split_and!.
  - apply NewExecutionPlan_contents, NewExecutionPlan_wf in Hrun.
    by destruct Hrun as (_ & _ & Hl & _ & _).
  - apply NewExecutionPlan_contents, NewExecutionPlan_wf in Hrun.
    destruct Hrun as (_ & _ & Hl & _ & _).
    intros p c [Hc|Hp]; [by eapply linked_in_heap|by eapply linked_parent_in_heap].
  - eapply (NewExecutionPlan_preserves sized rz); [..|apply sized_nil|done].
    + intros p c m m' Hs Hadd. by eapply sized_AddChild.
    + intros a b m Hs. by apply sized_RemoveNode.
    + intros op m Hs. by apply sized_NewOpNode.
    + intros a op m Hs. apply sized_insert; [done|apply Hs..].
Qed.
End PlanLinks.

Lemma NewExecutionPlan_links_agree_witness :
  ∃ plan,
    Mem.NewExecutionPlan (H := spec_filters) true 10 pattern_x_n_y None false
      = Done plan ∧
    linked (Mem.contents (Mem.memory plan)) ∧ sized (Mem.memory plan).
Proof.
  destruct (Mem.NewExecutionPlan (H := spec_filters) true 10 pattern_x_n_y None false)
    as [plan| |] eqn:E; [|vm_compute in E; discriminate E..].
  exists plan. split; [reflexivity|].
  destruct (NewExecutionPlan_links_agree (H := spec_filters) true 10
              pattern_x_n_y None false plan E) as (Hl & _ & Hs).
  split; [exact Hl|exact Hs].
Defined.

(** ** Filter pushdown within the allocations *)

Section AddFiltersMem.
Context `{FilterModule}.

(** C5, as the code has it.  When the filter tree refers to one of
    the aliases seen at an operator, a new [Filter] holding the
    minimum subtree is inserted between that operator and its
    children: the filter takes over every child the operator had, in
    order, and becomes the only child and a child only of the
    operator; every other operator of the plan, the parents of the
    operator among them, keeps its children, and the operator keeps
    its parents.  This is what the insertion does where it stays
    within the link arrays, which it does where the [parents] array of
    every child of the operator has its spare slot, no removal having
    shrunk it, and the emptied [children] array of the operator can
    take the filter. *)
Theorem filter_goes_below_operator rz f root st seen (m : list (OpNode * Slots)) ft :
  Mem.AddFilters_children (Mem._ExecutionPlan_AddFilters rz f) root
    (childCount (st.1 !!! root).1) [] st = Done (Some seen, (m, ft)) →
  closed (Mem.contents m) → root < length m →
  FilterTree_ContainsNode ft seen = true →
  NoDup (children (m !!! root).1) →
  (∀ c, c ∈ children (m !!! root).1 → room_parents m c) →
  (if decide (children (m !!! root).1 = []) then room_children m root
   else rz = true) →
  childCount (m !!! root).1 ≤ f →
  ∃ m',
    Mem._ExecutionPlan_AddFilters rz (S f) root st =
      Done (Some (seen ++ default [] (modifies (operation (m !!! root).1))),
            (m', FilterTree_RemovePredNodes ft seen)) ∧
    let flt := length m in
    operation (m' !!! flt).1 = NewFilterOp (FilterTree_MinFilterTree ft seen) ∧
    children (m' !!! root).1 = [flt] ∧
    children (m' !!! flt).1 = children (m !!! root).1 ∧
    parents (m' !!! flt).1 = [root] ∧
    (∀ c, c ∈ children (m !!! root).1 → flt ∈ parents (m' !!! c).1) ∧
    (∀ q, q ≠ root → q < length m → children (m' !!! q).1 = children (m !!! q).1) ∧
    (root ∉ children (m !!! root).1 → parents (m' !!! root).1 = parents (m !!! root).1).
Proof.
  intros Hloop Hcl Hroot Hcont Hnd Hrp Hend Hf.
  set (op := NewFilterOp (FilterTree_MinFilterTree ft seen)).
  set (m1 := (Mem.NewOpNode op m).2).
  assert (length m1 = S (length m)) as Hlen1
    by (unfold m1; simpl; rewrite length_app; simpl; lia).
  assert (m1 !!! root = m !!! root) as Hr1 by (by apply NewOpNode_mem_old).
  assert (m1 !!! length m = (mkOpNode op [] [] StreamUnInitialized, mkSlots None None))
    as Hnew by apply NewOpNode_mem_new.
  assert (∀ c, c ∈ children (m !!! root).1 → c < length m) as Hin
    by (intros c; apply closed_children; done).
  destruct (PushInBetween_Done rz (S f) m1 root (length m)) as (m' & Hrun & _).
  - unfold m1. destruct (contents_NewOpNode op m) as [_ ->]. by apply closed_NewOpNode.
  - lia.
  - lia.
  - lia.
  - by rewrite Hr1.
  - rewrite Hr1. intros Hx%Hin. lia.
  - unfold room_children. rewrite Hnew. vm_compute. lia.
  - unfold room_parents. rewrite Hnew. vm_compute. lia.
  - rewrite Hr1. intros c Hc. unfold room_parents.
    unfold m1. rewrite NewOpNode_mem_old by auto. by apply Hrp.
  - unfold room_children. by rewrite Hr1.
  - rewrite Hr1. lia.
  - exists m'. split.
    + cbn [Mem._ExecutionPlan_AddFilters]. rewrite Hloop. rbind.
      unfold Mem.AddFilters_apply. rewrite Hcont.
      cbn [Mem.NewOpNode fst snd]. fold op.
      change (m ++ [(mkOpNode op [] [] StreamUnInitialized, mkSlots None None)])
        with m1.
      rewrite Hrun. rbind. do 4 f_equal.
      apply PushInBetween_contents in Hrun; [|left; lia].
      rewrite <-contents_lookup, Hrun. unfold m1.
      destruct (contents_NewOpNode op m) as [_ ->].
      destruct (PushInBetween_new op (Mem.contents m) root)
        as (_ & _ & _ & _ & _ & _ & _ & Hops & _);
        [done|by rewrite contents_length|].
      rewrite <-(contents_length m), Hops by (by rewrite contents_length).
      by rewrite contents_lookup.
    + apply PushInBetween_contents in Hrun; [|left; lia].
      unfold m1 in Hrun. destruct (contents_NewOpNode op m) as [_ Hc1].
      rewrite Hc1, <-(contents_length m) in Hrun.
      destruct (PushInBetween_new op (Mem.contents m) root)
        as (_ & Hop & Hch1 & Hch2 & Hp1 & Had & Hoth & _ & Hpp);
        [done|by rewrite contents_length|].
      cbn zeta in *. rewrite <-Hrun in *.
      rewrite <-(contents_length m), <-!contents_lookup.
      split_and!; try done.
      * intros c Hc. rewrite <-contents_lookup. by apply Had.
      * intros q Hq1 Hq2. rewrite <-!contents_lookup. by apply Hoth.
Qed.
End AddFiltersMem.

(** The plan for [MATCH (a)-[:R]->(b) WHERE a.age > 30]: at the
    [ExpandAll] (node 1) the aliases seen are those of the scan of [a],
    the filter tree refers to [a], and the filter (node 3) goes between
    the [ExpandAll] and the scan (node 2), within the allocations; the
    root (node 0) keeps the [ExpandAll] as its child. *)
Lemma filter_goes_below_operator_witness :
  ∃ m',
    Mem._ExecutionPlan_AddFilters (H := spec_filters) true 2 1
      (memory_a_b, Some where_a_age)
      = Done (Some ["a"%string; "b"%string], (m', None)) ∧
    operation (m' !!! 3).1 = NewFilterOp (Some where_a_age) ∧
    children (m' !!! 1).1 = [3] ∧
    children (m' !!! 3).1 = [2] ∧
    parents (m' !!! 3).1 = [1] ∧
    3 ∈ parents (m' !!! 2).1 ∧
    children (m' !!! 0).1 = [1] ∧
    parents (m' !!! 1).1 = [0].
Proof.
  destruct (filter_goes_below_operator (H := spec_filters) true 1 1
              (memory_a_b, Some where_a_age) ["a"%string] memory_a_b
              (Some where_a_age))
    as (m' & Hrun & Hop & Hc1 & Hc3 & Hp3 & Had & Hoth & Hpar).
  - vm_compute. reflexivity.
  - apply closedb_closed. vm_compute. reflexivity.
  - vm_compute. lia.
  - vm_compute. reflexivity.
  - apply (bool_decide_unpack _). vm_compute. exact I.
  - intros c Hc. apply (bool_decide_unpack _).
    assert (c = 2) as ->.
    { apply (bool_decide_pack _) in Hc. vm_compute in Hc.
      destruct c as [|[|[|c]]]; vm_compute in Hc; try done. }
    vm_compute. exact I.
  - vm_compute. reflexivity.
  - vm_compute. lia.
  - exists m'. split; [exact Hrun|]. split; [exact Hop|]. split; [exact Hc1|].
    split; [exact Hc3|]. split; [exact Hp3|]. split.
    { apply Had. apply (bool_decide_unpack _). vm_compute. exact I. }
    split.
    { apply (Hoth 0); [lia|vm_compute; lia]. }
    apply Hpar. intros Hx. apply (bool_decide_pack _) in Hx. vm_compute in Hx. exact Hx.
Defined.

(** ** [_OpNode_PushInBetween] of a node under itself *)

Lemma AddChild_children_at parent child (h : list OpNode) :
  parent < length h →
  children (_OpNode_AddChild parent child h !!! parent)
    = children (h !!! parent) ++ [child].
Proof.
  intros. unfold _OpNode_AddChild. rewrite update_children by done.
  by rewrite update_lookup_eq.
Qed.

Lemma PushInBetween_loop_self rz fuel : ∀ p (m m' : list (OpNode * Slots)),
  children (m !!! p).1 ≠ [] →
  Mem.PushInBetween_loop rz fuel p p m ≠ Done m'.
Proof.
  induction fuel as [|f IH]; intros p m m' Hne; simpl; [done|].
  destruct (children (m !!! p).1) as [|c cs] eqn:Ec; [done|].
  destruct (Mem._OpNode_AddChild p c m) as [m1| |] eqn:E1; [|done..]. rbind.
  apply IH. unfold Mem._OpNode_RemoveChild.
  rewrite <-contents_lookup, RemoveNode_contents, RemoveNode_children_at.
  rewrite (AddChild_contents _ _ _ _ E1), AddChild_children_at.
  - rewrite contents_lookup, Ec. simpl. rewrite decide_True by done.
    by destruct cs.
  - rewrite contents_length. destruct (decide (p < length m)); [done|].
    rewrite list_lookup_total_alt, lookup_ge_None_2 in Ec by lia. done.
Qed.

(** X28.  Called with a node that has children for both [parent] and
    [onlyChild], [_OpNode_PushInBetween] does not return: every turn of
    its loop puts the child it takes from the front of the array back
    at its end, so the count never comes to 0, and the run ends, if it
    ends, with a write past an array. *)
Theorem PushInBetween_under_itself_never_returns rz fuel p
    (m m' : list (OpNode * Slots)) :
  children (m !!! p).1 ≠ [] →
  Mem._OpNode_PushInBetween rz fuel p p m ≠ Done m'.
Proof.
  intros Hne. unfold Mem._OpNode_PushInBetween.
  destruct (Mem.PushInBetween_loop rz fuel p p m) as [m1| |] eqn:E; [|done..].
  by apply PushInBetween_loop_self in E.
Qed.

(** On [memory_a_b] the call for the ExpandAll (node 1) under itself
    ends at the second turn of the loop, with the write of
    [children[1]] of node 1 past its array. *)
Lemma PushInBetween_under_itself_never_returns_witness :
  children (memory_a_b !!! 1).1 = [2] ∧
  (∀ m', Mem._OpNode_PushInBetween true 5 1 1 memory_a_b ≠ Done m') ∧
  Mem._OpNode_PushInBetween true 5 1 1 memory_a_b = OutOfBounds 1 Children 1.
Proof.
  split; [vm_compute; reflexivity|]. split; [|vm_compute; reflexivity].
  intros m'. apply (PushInBetween_under_itself_never_returns true 5 1 memory_a_b m').
  vm_compute. discriminate.
Defined.
